(** * Verification of the dataset utilities of torchgeo
      (torchgeo/datasets/utils.py)

    The development follows the source file top to bottom:
    - [PyFloat]: the comparison operators of Python floats (IEEE binary64,
      Rocq's primitive floats) and the builtins [min] and [max];
    - [Binary64]: rounding of the double-precision operations, from the
      specification of the primitive floats, up to the bounds on the
      coordinate [a + (b - a) * p] that [BoundingBox.split] computes;
    - [BBox]: the frozen dataclass [BoundingBox] and its methods;
    - [Exec]: [Executable.__call__];
    - [PyStr]: the string operations the remaining functions use;
    - [Timestamp]: [disambiguate_timestamp], over a model of
      [datetime.strptime] and of the calendar arithmetic of [datetime];
    - [Collate]: [stack_samples], [concat_samples], [merge_samples],
      [unbind_samples] and their two helpers, over a heap of dict objects;
    - [Vfs]: [path_is_gdal_vsi], [listdir_vfs_recursive],
      [list_directory_recursive], over a directory-listing driver.

    Further properties of the same code, and the remaining functions:
    - [BBoxLaws]: the order and lattice laws of [in], [|] and [&], slicing,
      [area], [volume] and the two halves of [split];
    - [CollateLaws]: what the collation functions return key by key;
    - [VfsLaws]: the listing of a finite directory tree;
    - [TimestampCal], [TimestampLaws]: the calendar of [datetime] and the
      directives the tests of [disambiguate_timestamp] find in a format;
    - [Disambiguate]: [disambiguate_timestamp] over any [strptime] and
      [timestamp], and the interval it returns at every resolution;
    - [PyText], [Bands]: [sort_sentinel2_bands], over [os.path.basename],
      [str.split] and [os.path.splitext];
    - [Deps]: [lazy_import] and [which];
    - [Mask]: [rgb_to_mask];
    - [AGB]: [_verify] and [_download] of the Aboveground Live Woody Biomass
      Density dataset (torchgeo/datasets/agb_live_woody_density.py);
    - [Arrays]: [array_to_tensor]. *)

From Stdlib Require Import ZArith Floats Uint63 Lia Bool String Ascii List.
From stdpp Require Import gmap strings list.

(** Outcome of a call that may raise: [Ok v] for a returned value, [Err e]
    for a raised exception. *)
Inductive result (E A : Type) : Type :=
| Ok (a : A)
| Err (e : E).
Arguments Ok {E A} a.
Arguments Err {E A} e.

Definition bind {E A B} (r : result E A) (k : A -> result E B) : result E B :=
  match r with
  | Ok a => k a
  | Err e => Err e
  end.

Notation "x <- m ;; k" := (bind m (fun x => k))
  (at level 100, m at next level, right associativity, only parsing).

Definition is_ok {E A} (r : result E A) : bool :=
  match r with Ok _ => true | Err _ => false end.

(** The Python exception classes raised by the modelled code. *)
Inductive pyexn : Set :=
| ValueError | IndexError | TypeError | RuntimeError | OverflowError
| FionaValueError | CalledProcessError | OSError.

(* ================================================================== *)
(** * Python floats *)

Module PyFloat.

(** [x <= y], [x < y], [x > y], [x >= y], [x == y] on Python floats. *)
Definition fle (x y : float) : bool := PrimFloat.leb x y.
Definition flt (x y : float) : bool := PrimFloat.ltb x y.
Definition fgt (x y : float) : bool := flt y x.
Definition fge (x y : float) : bool := fle y x.
Definition feq (x y : float) : bool := PrimFloat.eqb x y.

(** The builtins [min(a, b)] and [max(a, b)]: the first argument is kept
    unless the second is strictly smaller (resp. greater). *)
Definition py_min (a b : float) : float := if flt b a then b else a.
Definition py_max (a b : float) : float := if fgt b a then b else a.

(** A float that is a number (not NaN). *)
Definition num (x : float) : Prop := is_nan x = false.

Definition le_cmp (c : option comparison) : bool :=
  match c with Some Lt | Some Eq => true | _ => false end.

Lemma SFcompare_refl x : x <> S754_nan -> SFcompare x x = Some Eq.
Proof.
  destruct x as [[]|[]| |[] m e]; simpl; try congruence; intros _;
    rewrite Z.compare_refl; change (Pos.compare_cont Eq m m) with (Pos.compare m m);
    rewrite Pos.compare_refl; reflexivity.
Qed.

Lemma SFcompare_None x y : SFcompare x y = None -> x = S754_nan \/ y = S754_nan.
Proof.
  destruct x as [[]|[]| |[] ? ?], y as [[]|[]| |[] ? ?]; simpl; intros;
    try discriminate; auto.
Qed.

Lemma SFcompare_antisym x y :
  SFcompare y x = option_map CompOpp (SFcompare x y).
Proof.
  destruct x as [[]|[]| |[] m1 e1], y as [[]|[]| |[] m2 e2]; simpl; try reflexivity;
    rewrite (Z.compare_antisym e1 e2);
    change (Pos.compare_cont Eq m2 m1) with (Pos.compare m2 m1);
    change (Pos.compare_cont Eq m1 m2) with (Pos.compare m1 m2);
    rewrite (Pos.compare_antisym m1 m2);
    destruct (e1 ?= e2)%Z; simpl; try reflexivity;
    destruct (m1 ?= m2)%positive; reflexivity.
Qed.

Lemma SFcompare_le_trans x y z :
  le_cmp (SFcompare x y) = true -> le_cmp (SFcompare y z) = true ->
  le_cmp (SFcompare x z) = true.
Proof.
  destruct x as [[]|[]| |[] m1 e1], y as [[]|[]| |[] m2 e2], z as [[]|[]| |[] m3 e3];
    simpl; try reflexivity; try discriminate;
    change (Pos.compare_cont Eq) with Pos.compare;
    destruct (Z.compare_spec e1 e2), (Z.compare_spec e2 e3), (Z.compare_spec e1 e3);
    try lia; simpl; try reflexivity; try discriminate;
    destruct (Pos.compare_spec m1 m2), (Pos.compare_spec m2 m3), (Pos.compare_spec m1 m3);
    try lia; simpl; try reflexivity; try discriminate.
Qed.

Lemma fle_cmp x y : fle x y = le_cmp (SFcompare (Prim2SF x) (Prim2SF y)).
Proof. unfold fle. rewrite FloatAxioms.leb_spec. reflexivity. Qed.

Lemma flt_cmp x y :
  flt x y = match SFcompare (Prim2SF x) (Prim2SF y) with Some Lt => true | _ => false end.
Proof. unfold flt. rewrite FloatAxioms.ltb_spec. reflexivity. Qed.

Lemma feq_cmp x y :
  feq x y = match SFcompare (Prim2SF x) (Prim2SF y) with Some Eq => true | _ => false end.
Proof. unfold feq. rewrite FloatAxioms.eqb_spec. reflexivity. Qed.

Lemma num_spec x : num x <-> Prim2SF x <> S754_nan.
Proof.
  unfold num, is_nan. fold (feq x x). rewrite feq_cmp. split.
  - intros H E. rewrite E in H. discriminate.
  - intros H. rewrite SFcompare_refl by assumption. reflexivity.
Qed.

Lemma finite_num x : is_finite x = true -> num x.
Proof.
  unfold is_finite, num. destruct (is_nan x); simpl; [discriminate | reflexivity].
Qed.

Lemma fle_refl x : num x -> fle x x = true.
Proof.
  intros H. apply num_spec in H. rewrite fle_cmp, SFcompare_refl by assumption.
  reflexivity.
Qed.

Lemma fle_trans x y z : fle x y = true -> fle y z = true -> fle x z = true.
Proof. rewrite !fle_cmp. apply SFcompare_le_trans. Qed.

Lemma flt_fle x y : flt x y = true -> fle x y = true.
Proof.
  rewrite flt_cmp, fle_cmp.
  destruct (SFcompare (Prim2SF x) (Prim2SF y)) as [[]|]; simpl; congruence.
Qed.

(** On numbers the order is total: [not (x < y)] gives [y <= x]. *)
Lemma nlt_fle x y : num x -> num y -> flt x y = false -> fle y x = true.
Proof.
  intros Hx Hy. apply num_spec in Hx, Hy. rewrite flt_cmp, fle_cmp.
  rewrite (SFcompare_antisym (Prim2SF x) (Prim2SF y)).
  destruct (SFcompare (Prim2SF x) (Prim2SF y)) as [[]|] eqn:E; simpl; try congruence.
  apply SFcompare_None in E. tauto.
Qed.

Lemma fle_nlt x y : fle x y = true -> flt y x = false.
Proof.
  rewrite flt_cmp, fle_cmp. rewrite (SFcompare_antisym (Prim2SF x) (Prim2SF y)).
  destruct (SFcompare (Prim2SF x) (Prim2SF y)) as [[]|]; simpl; congruence.
Qed.

Lemma flt_nle x y : flt x y = true -> fle y x = false.
Proof.
  rewrite flt_cmp, fle_cmp. rewrite (SFcompare_antisym (Prim2SF x) (Prim2SF y)).
  destruct (SFcompare (Prim2SF x) (Prim2SF y)) as [[]|]; simpl; congruence.
Qed.

Lemma fle_antisym x y : fle x y = true -> fle y x = true -> feq x y = true.
Proof.
  rewrite feq_cmp, !fle_cmp. rewrite (SFcompare_antisym (Prim2SF x) (Prim2SF y)).
  destruct (SFcompare (Prim2SF x) (Prim2SF y)) as [[]|]; simpl; congruence.
Qed.

Lemma fle_num_l x y : fle x y = true -> num x.
Proof.
  rewrite fle_cmp. intros H. apply num_spec. intros E. rewrite E in H. discriminate.
Qed.

Lemma fle_num_r x y : fle x y = true -> num y.
Proof.
  rewrite fle_cmp. intros H. apply num_spec. intros E. rewrite E in H.
  destruct (Prim2SF x); discriminate.
Qed.

Lemma py_min_num a b : num a -> num b -> num (py_min a b).
Proof. unfold py_min. destruct (flt b a); auto. Qed.

Lemma py_max_num a b : num a -> num b -> num (py_max a b).
Proof. unfold py_max, fgt. destruct (flt a b); auto. Qed.

Lemma py_min_le_l a b : num a -> fle (py_min a b) a = true.
Proof.
  intros Ha. unfold py_min. destruct (flt b a) eqn:E; [now apply flt_fle | now apply fle_refl].
Qed.

Lemma py_min_le_r a b : num a -> num b -> fle (py_min a b) b = true.
Proof.
  intros Ha Hb. unfold py_min. destruct (flt b a) eqn:E;
    [now apply fle_refl | now apply nlt_fle].
Qed.

Lemma py_max_ge_l a b : num a -> fle a (py_max a b) = true.
Proof.
  intros Ha. unfold py_max, fgt. destruct (flt a b) eqn:E;
    [now apply flt_fle | now apply fle_refl].
Qed.

Lemma py_max_ge_r a b : num a -> num b -> fle b (py_max a b) = true.
Proof.
  intros Ha Hb. unfold py_max, fgt. destruct (flt a b) eqn:E;
    [now apply fle_refl | now apply nlt_fle].
Qed.

Lemma py_min_glb a b z : fle z a = true -> fle z b = true -> fle z (py_min a b) = true.
Proof. unfold py_min. destruct (flt b a); auto. Qed.

Lemma py_max_lub a b z : fle a z = true -> fle b z = true -> fle (py_max a b) z = true.
Proof. unfold py_max, fgt. destruct (flt a b); auto. Qed.

Lemma py_max_le_inv a b z :
  num a -> num b -> fle (py_max a b) z = true -> fle a z = true /\ fle b z = true.
Proof.
  intros Ha Hb H. split.
  - apply (fle_trans _ (py_max a b)); [now apply py_max_ge_l | exact H].
  - apply (fle_trans _ (py_max a b)); [now apply py_max_ge_r | exact H].
Qed.

Lemma py_min_ge_inv a b z :
  num a -> num b -> fle z (py_min a b) = true -> fle z a = true /\ fle z b = true.
Proof.
  intros Ha Hb H. split.
  - apply (fle_trans _ (py_min a b)); [exact H | now apply py_min_le_l].
  - apply (fle_trans _ (py_min a b)); [exact H | now apply py_min_le_r].
Qed.

End PyFloat.

(* ================================================================== *)
(** * Rounding in binary64 *)

Module Binary64.

Local Open Scope Z_scope.

(** Powers of two. *)
Definition P2 (n : Z) : Z := 2 ^ n.

Lemma P2_pos n : 0 <= n -> 0 < P2 n.
Proof. intros H. unfold P2. apply Z.pow_pos_nonneg; lia. Qed.

Lemma P2_add a b : 0 <= a -> 0 <= b -> P2 (a + b) = P2 a * P2 b.
Proof. intros Ha Hb. unfold P2. apply Z.pow_add_r; assumption. Qed.

Lemma P2_succ a : 0 <= a -> P2 (a + 1) = 2 * P2 a.
Proof. intros Ha. rewrite P2_add by lia. unfold P2 at 2. simpl. lia. Qed.

Lemma P2_0 : P2 0 = 1.
Proof. reflexivity. Qed.

Lemma P2_le a b : 0 <= a <= b -> P2 a <= P2 b.
Proof. intros H. unfold P2. apply Z.pow_le_mono_r; lia. Qed.

Lemma P2_lt a b : 0 <= a < b -> P2 a < P2 b.
Proof. intros H. unfold P2. apply Z.pow_lt_mono_r; lia. Qed.

Lemma P2_split a b : 0 <= a <= b -> P2 b = P2 (b - a) * P2 a.
Proof. intros H. rewrite <- P2_add by lia. f_equal. lia. Qed.

(** Number of binary digits. *)
Lemma digits2_pos_spec (m : positive) :
  P2 (Zpos (digits2_pos m) - 1) <= Zpos m < P2 (Zpos (digits2_pos m)).
Proof.
  induction m as [m IH|m IH|]; simpl digits2_pos.
  - rewrite Pos2Z.inj_succ.
    replace (Z.succ (Zpos (digits2_pos m)) - 1) with ((Zpos (digits2_pos m) - 1) + 1) by lia.
    unfold Z.succ. rewrite !P2_succ by lia. lia.
  - rewrite Pos2Z.inj_succ.
    replace (Z.succ (Zpos (digits2_pos m)) - 1) with ((Zpos (digits2_pos m) - 1) + 1) by lia.
    unfold Z.succ. rewrite !P2_succ by lia. lia.
  - unfold P2. simpl. lia.
Qed.

Lemma digits_unique (m : positive) (d : Z) :
  0 < d -> P2 (d - 1) <= Zpos m < P2 d -> Zpos (digits2_pos m) = d.
Proof.
  intros Hd [H1 H2]. destruct (digits2_pos_spec m) as [G1 G2].
  set (d' := Zpos (digits2_pos m)) in *.
  assert (Hd' : 0 < d') by (unfold d'; lia).
  destruct (Z.lt_trichotomy d' d) as [Hlt|[Heq|Hgt]]; [|assumption|].
  - assert (P2 d' <= P2 (d - 1)) by (apply P2_le; lia). lia.
  - assert (P2 d <= P2 (d' - 1)) by (apply P2_le; lia). lia.
Qed.

(** ** Shifting right with round and sticky bits *)

Fixpoint iter_nat {A} (f : A -> A) (n : nat) (x : A) : A :=
  match n with
  | O => x
  | S n => f (iter_nat f n x)
  end.

Lemma iter_nat_add {A} (f : A -> A) (a b : nat) x :
  iter_nat f (a + b) x = iter_nat f a (iter_nat f b x).
Proof. induction a as [|a IH]; simpl; [reflexivity | rewrite IH; reflexivity]. Qed.

Lemma iter_pos_nat {A} (f : A -> A) (n : positive) : forall x,
  SpecFloat.iter_pos f n x = iter_nat f (Pos.to_nat n) x.
Proof.
  induction n as [n IH|n IH|]; intros x; simpl SpecFloat.iter_pos.
  - rewrite !IH. rewrite Pos2Nat.inj_xI.
    replace (S (2 * Pos.to_nat n))%nat with (Pos.to_nat n + (Pos.to_nat n + 1))%nat by lia.
    rewrite !iter_nat_add. reflexivity.
  - rewrite !IH. rewrite Pos2Nat.inj_xO.
    replace (2 * Pos.to_nat n)%nat with (Pos.to_nat n + Pos.to_nat n)%nat by lia.
    rewrite iter_nat_add. reflexivity.
  - reflexivity.
Qed.

(** The state after [k] shifts of [m0]: the quotient, and where the
    remainder lies with respect to the half of [2^k]. *)
Definition shifted (m0 : Z) (k : Z) (mrs : shr_record) : Prop :=
  exists rem,
    m0 = shr_m mrs * P2 k + rem
    /\ 0 <= rem < P2 k
    /\ 0 <= shr_m mrs
    /\ (shr_r mrs = true <-> P2 k <= 2 * rem)
    /\ (shr_s mrs = true <-> (rem <> 0 /\ 2 * rem <> P2 k)).

Lemma shr_1_spec m r s :
  0 <= m ->
  exists q (b : bool), m = 2 * q + (if b then 1 else 0) /\ 0 <= q
              /\ shr_1 (Build_shr_record m r s) = Build_shr_record q b (r || s).
Proof.
  intros Hm. destruct m as [|p|p]; [| |lia].
  - exists 0, false. repeat split; lia.
  - destruct p as [p|p|].
    + exists (Zpos p), true. repeat split; lia.
    + exists (Zpos p), false. repeat split; lia.
    + exists 0, true. repeat split; lia.
Qed.

Lemma shifted_step m0 k mrs :
  0 <= k -> shifted m0 k mrs -> shifted m0 (k + 1) (shr_1 mrs).
Proof.
  intros Hk (rem & Hm & Hrem & Hq & Hr & Hs).
  destruct mrs as [m r s]. simpl in Hm, Hq, Hr, Hs.
  destruct (shr_1_spec m r s Hq) as (q & b & Hmq & Hq0 & ->).
  pose proof (P2_pos k Hk) as Hp. unfold shifted. simpl.
  rewrite P2_succ by assumption.
  set (P := P2 k) in *.
  exists ((if b then P else 0) + rem).
  split; [destruct b; nia|]. split; [destruct b; lia|]. split; [assumption|].
  split.
  - destruct b; split; intros; try discriminate; try reflexivity; lia.
  - rewrite orb_true_iff, Hr, Hs. destruct b; lia.
Qed.

Lemma shifted_0 m0 : 0 <= m0 -> shifted m0 0 (Build_shr_record m0 false false).
Proof.
  intros H. exists 0. simpl. rewrite P2_0.
  repeat split; try lia; try discriminate.
Qed.

Lemma shifted_iter m0 (n : nat) :
  0 <= m0 ->
  shifted m0 (Z.of_nat n) (iter_nat shr_1 n (Build_shr_record m0 false false)).
Proof.
  intros H. induction n as [|n IH].
  - apply shifted_0. assumption.
  - rewrite Nat2Z.inj_succ. unfold Z.succ. simpl iter_nat.
    apply shifted_step; [lia | assumption].
Qed.

Lemma shr_spec m0 e n :
  0 <= m0 ->
  exists mrs, shr (Build_shr_record m0 false false) e n = (mrs, e + Z.max n 0)
              /\ shifted m0 (Z.max n 0) mrs.
Proof.
  intros H. destruct n as [|p|p].
  - exists (Build_shr_record m0 false false).
    split; [simpl; rewrite Z.add_0_r; reflexivity|]. apply shifted_0. assumption.
  - exists (iter_nat shr_1 (Pos.to_nat p) (Build_shr_record m0 false false)).
    replace (Z.max (Zpos p) 0) with (Zpos p) by lia.
    split; [simpl; rewrite iter_pos_nat; reflexivity|].
    rewrite <- (positive_nat_Z p) at 1. apply shifted_iter. assumption.
  - exists (Build_shr_record m0 false false).
    replace (Z.max (Zneg p) 0) with 0 by lia.
    split; [simpl; rewrite Z.add_0_r; reflexivity|]. apply shifted_0. assumption.
Qed.

(** Rounding to nearest of a shifted state. *)
Lemma round_nearest_even_spec m0 k mrs :
  0 <= k -> shifted m0 k mrs ->
  let m' := shr_m mrs in
  let m'' := round_nearest_even m' (loc_of_shr_record mrs) in
  m' * P2 k <= m0 < (m' + 1) * P2 k
  /\ (m'' = m' \/ m'' = m' + 1)
  /\ (m0 = m' * P2 k -> m'' = m')
  /\ (2 * (m0 - m' * P2 k) < P2 k -> m'' = m')
  /\ (P2 k < 2 * (m0 - m' * P2 k) -> m'' = m' + 1).
Proof.
  intros Hk (rem & Hm & Hrem & Hq & Hr & Hs). destruct mrs as [m r s].
  simpl in *. pose proof (P2_pos k Hk) as Hp. set (P := P2 k) in *.
  split; [nia|].
  assert (E : m0 - m * P = rem) by lia. rewrite E.
  assert (Hr' : if r then P <= 2 * rem else 2 * rem < P).
  { destruct r; [apply Hr; reflexivity|].
    destruct (Z_le_gt_dec P (2 * rem)) as [Hle|Hgt]; [|lia].
    apply Hr in Hle. discriminate. }
  assert (Hs' : if s then rem <> 0 /\ 2 * rem <> P else rem = 0 \/ 2 * rem = P).
  { destruct s; [apply Hs; reflexivity|].
    destruct (Z.eq_dec rem 0) as [H0|H0]; [auto|].
    destruct (Z.eq_dec (2 * rem) P) as [H1|H1]; [auto|].
    assert (false = true) by (apply Hs; auto). discriminate. }
  assert (Hx : m0 = m * P -> rem = 0) by lia.
  destruct r, s; simpl.
  - split; [auto|]. split; [|split]; intros; try reflexivity; lia.
  - split; [destruct (Z.even m); auto|]. split; [|split]; intros; lia.
  - split; [auto|]. split; [|split]; intros; try reflexivity; lia.
  - split; [auto|]. split; [|split]; intros; try reflexivity; lia.
Qed.

(** ** The rounding of the operations *)

(** The exponent function of binary64. *)
Definition fx (e : Z) : Z := fexp prec emax e.

Lemma fx_spec e : fx e = Z.max (e - 53) (-1074).
Proof. reflexivity. Qed.

Lemma shr_noop mrs e n : n <= 0 -> shr mrs e n = (mrs, e).
Proof. intros H. destruct n; simpl; [reflexivity | lia | reflexivity]. Qed.

Lemma Zdigits2_pos m d :
  0 < d -> P2 (d - 1) <= m < P2 d -> Zdigits2 m = d.
Proof.
  intros Hd H. destruct m as [|p|p].
  - pose proof (P2_pos (d - 1)). lia.
  - simpl. apply digits_unique; assumption.
  - pose proof (P2_pos (d - 1)). lia.
Qed.

(** The float built from a rounded mantissa. *)
Definition pack (sx : bool) (mf ef : Z) : spec_float :=
  match mf with
  | Z0 => S754_zero sx
  | Zpos p => if ef <=? 971 then S754_finite sx p ef else S754_infinity sx
  | Zneg _ => S754_nan
  end.

(** What [binary_round_aux] computes from an exact positive mantissa. *)
Record rounded (mx ex : Z) (m' m'' mf ef : Z) : Prop := mkRounded {
  rd_k := Z.max (fx (Zdigits2 mx + ex) - ex) 0;
  rd_floor : m' * P2 rd_k <= mx < (m' + 1) * P2 rd_k;
  rd_near : m'' = m' \/ m'' = m' + 1;
  rd_exact : mx = m' * P2 rd_k -> m'' = m';
  rd_below : 2 * (mx - m' * P2 rd_k) < P2 rd_k -> m'' = m';
  rd_above : P2 rd_k < 2 * (mx - m' * P2 rd_k) -> m'' = m' + 1;
  rd_norm : (mf = m'' /\ ef = ex + rd_k)
            \/ (m'' = P2 53 /\ mf = P2 52 /\ ef = ex + rd_k + 1);
  rd_nonneg : 0 <= m';
  rd_digits : ex <= fx (Zdigits2 mx + ex) ->
              m' < P2 53 /\ (-1074 < ex + rd_k -> P2 52 <= m')
              /\ -1074 <= ex + rd_k
}.

Lemma binary_round_aux_unfold sx mx ex :
  binary_round_aux prec emax sx mx ex loc_Exact
  = let '(mrs', e1) :=
      shr (Build_shr_record mx false false) ex (fx (Zdigits2 mx + ex) - ex) in
    let m2 := round_nearest_even (shr_m mrs') (loc_of_shr_record mrs') in
    let '(mrs'', e2) :=
      shr (Build_shr_record m2 false false) e1 (fx (Zdigits2 m2 + e1) - e1) in
    pack sx (shr_m mrs'') e2.
Proof.
  unfold binary_round_aux, shr_fexp, fx. simpl shr_record_of_loc.
  destruct (shr _ ex _) as [mrs' e1]. cbv zeta.
  destruct (shr _ e1 _) as [mrs'' e2]. reflexivity.
Qed.

Lemma binary_round_aux_spec sx (p : positive) ex :
  exists m' m'' mf ef,
    rounded (Zpos p) ex m' m'' mf ef
    /\ binary_round_aux prec emax sx (Zpos p) ex loc_Exact = pack sx mf ef.
Proof.
  set (mx := Zpos p). set (d := Zdigits2 mx).
  assert (Hd : P2 (d - 1) <= mx < P2 d /\ 0 < d).
  { unfold d, mx. simpl. split; [apply digits2_pos_spec | lia]. }
  destruct Hd as [Hd Hd0].
  set (e' := fx (d + ex)). set (k := Z.max (e' - ex) 0).
  assert (He' : e' = Z.max (d + ex - 53) (-1074)) by reflexivity.
  assert (Hkdef : k = Z.max (e' - ex) 0) by reflexivity.
  assert (Hk : 0 <= k) by lia.
  destruct (shr_spec mx ex (e' - ex)) as (mrs & Hshr & Hsh); [unfold mx; lia|].
  fold k in Hshr, Hsh.
  pose proof (round_nearest_even_spec mx k mrs Hk Hsh) as HR. simpl in HR.
  set (m' := shr_m mrs) in *.
  set (m'' := round_nearest_even m' (loc_of_shr_record mrs)) in *.
  destruct HR as (Hfl & Hnear & Hex & Hbel & Habo).
  assert (Hm'0 : 0 <= m') by (destruct Hsh as (rem & _ & _ & H & _); exact H).
  pose proof (P2_pos k Hk) as HPk.
  (* digits of the quotient when the input is aligned *)
  assert (Hdig : ex <= e' ->
                 m' < P2 53 /\ (-1074 < ex + k -> P2 52 <= m') /\ -1074 <= ex + k).
  { intros Hal.
    assert (Ek : k = Z.max (d + ex - 53) (-1074) - ex) by lia.
    split; [|split].
    - destruct (Z_lt_le_dec d k) as [Hlt|Hge].
      + assert (P2 d <= P2 k) by (apply P2_le; lia).
        assert (m' = 0) by nia. pose proof (P2_pos 53). lia.
      + assert (P2 d = P2 (d - k) * P2 k) by (apply P2_split; lia).
        assert (P2 (d - k) <= P2 53) by (apply P2_le; lia).
        pose proof (P2_pos (d - k)). nia.
    - intros Hn. assert (k = d - 53) by lia.
      assert (P2 (d - 1) = P2 52 * P2 k)
        by (rewrite <- P2_add by lia; f_equal; lia).
      pose proof (P2_pos 52). nia.
    - lia. }
  rewrite binary_round_aux_unfold. fold d e'. rewrite Hshr. cbv zeta.
  fold m' m''.
  destruct (Z_lt_le_dec e' ex) as [Hun|Hal].
  - (* the input is below its canonical exponent: nothing is shifted *)
    assert (Ek : k = 0) by lia.
    assert (Em : m' = mx) by (rewrite Ek, P2_0 in Hfl; lia).
    assert (Em'' : m'' = mx) by (rewrite <- Em; apply Hex; rewrite Ek, P2_0; lia).
    exists m', m'', mx, ex. split.
    + refine (mkRounded _ _ _ _ _ _ Hfl Hnear Hex Hbel Habo _ Hm'0 _).
      * left. fold d e' k. rewrite Ek. split; [congruence | lia].
      * fold d e'. intros. lia.
    + rewrite Em'', Ek, Z.add_0_r.
      rewrite shr_noop by (fold d e'; lia). reflexivity.
  - destruct (Hdig Hal) as (Hlt53 & Hge52 & Hemin).
    destruct (Z.eq_dec m'' (P2 53)) as [E53|N53].
    + (* the mantissa was rounded up to 2^53 *)
      exists m', m'', (P2 52), (ex + k + 1). split.
      * refine (mkRounded _ _ _ _ _ _ Hfl Hnear Hex Hbel Habo _ Hm'0 _).
        -- right. fold d e' k. auto.
        -- fold d e' k. intros _. auto.
      * rewrite E53.
        replace (fx (Zdigits2 (P2 53) + (ex + k)) - (ex + k)) with 1
          by (rewrite fx_spec; change (Zdigits2 (P2 53)) with 54; lia).
        reflexivity.
    + exists m', m'', m'', (ex + k). split.
      * refine (mkRounded _ _ _ _ _ _ Hfl Hnear Hex Hbel Habo _ Hm'0 _).
        -- left. fold d e' k. auto.
        -- fold d e' k. intros _. auto.
      * assert (Hm''53 : m'' < P2 53) by lia.
        assert (Hm''0 : 0 <= m'') by lia.
        rewrite shr_noop; [reflexivity|].
        rewrite fx_spec.
        destruct (Z.eq_dec m'' 0) as [E0|N0].
        -- rewrite E0. simpl Zdigits2.
           assert (ex + k = -1074) by (pose proof (P2_pos 52); lia). lia.
        -- destruct (Z_lt_le_dec (-1074) (ex + k)) as [Hn|Hs].
           ++ rewrite (Zdigits2_pos m'' 53); [lia | lia |].
              change (53 - 1) with 52. specialize (Hge52 Hn). lia.
           ++ assert (Zdigits2 m'' <= 53); [|lia].
              destruct m'' as [|q|q]; [lia| |lia]. simpl.
              destruct (digits2_pos_spec q) as [G1 _].
              destruct (Z_lt_le_dec 53 (Zpos (digits2_pos q))) as [Hbig|]; [|lia].
              assert (P2 53 <= P2 (Zpos (digits2_pos q) - 1)) by (apply P2_le; lia).
              lia.
Qed.

(** ** Values of floats

    The value of a finite float, in units of [2^-2148]: every float, and
    every exact sum, difference and product of two floats, is a whole
    number of these units. *)
Definition K : Z := 2148.

Definition V (x : spec_float) : Z :=
  match x with
  | S754_finite s m e => (if s then -1 else 1) * (Zpos m * P2 (e + K))
  | _ => 0
  end.

Definition finite (x : spec_float) : Prop :=
  match x with
  | S754_zero _ | S754_finite _ _ _ => True
  | _ => False
  end.

(** A valid finite float. *)
Definition vf (x : spec_float) : Prop :=
  finite x /\ valid_binary x = true.

Lemma valid_finite_inv s m e :
  valid_binary (S754_finite s m e) = true ->
  Zpos (digits2_pos m) <= 53 /\ -1074 <= e <= 971
  /\ (Zpos (digits2_pos m) = 53 \/ e = -1074).
Proof.
  unfold SpecFloat.valid_binary, bounded, canonical_mantissa. intros H.
  apply andb_prop in H. destruct H as [H1 H2].
  apply Z.eqb_eq in H1. apply Z.leb_le in H2.
  change (fexp prec emax (Zpos (digits2_pos m) + e))
    with (fx (Zpos (digits2_pos m) + e)) in H1.
  rewrite fx_spec in H1. change (emax - prec) with 971 in H2. lia.
Qed.

(** Bounds on the mantissa of a valid float. *)
Lemma valid_mantissa s m e :
  valid_binary (S754_finite s m e) = true ->
  Zpos m < P2 53 /\ (-1074 < e -> P2 52 <= Zpos m) /\ -1074 <= e <= 971.
Proof.
  intros H. destruct (valid_finite_inv s m e H) as (Hd & He & Hn).
  destruct (digits2_pos_spec m) as [G1 G2].
  split; [|split; [|assumption]].
  - assert (P2 (Zpos (digits2_pos m)) <= P2 53) by (apply P2_le; lia). lia.
  - intros Hgt. destruct Hn as [Hn|Hn]; [|lia].
    rewrite Hn in G1. exact G1.
Qed.

Lemma valid_build (sx : bool) (m e : Z) :
  P2 52 <= m < P2 53 -> -1074 <= e <= 971 ->
  exists p, m = Zpos p /\ valid_binary (S754_finite sx p e) = true.
Proof.
  intros Hm He. destruct m as [|p|p]; try (pose proof (P2_pos 52); lia).
  exists p. split; [reflexivity|].
  unfold SpecFloat.valid_binary, bounded, canonical_mantissa.
  rewrite (digits_unique p 53) by (change (53 - 1) with 52; lia).
  apply andb_true_intro. split.
  - apply Z.eqb_eq. change (fexp prec emax (53 + e)) with (fx (53 + e)).
    rewrite fx_spec. lia.
  - apply Z.leb_le. change (emax - prec) with 971. lia.
Qed.

Lemma V_bound x : vf x -> - P2 (1024 + K) < V x < P2 (1024 + K).
Proof.
  intros [Hf Hv]. destruct x as [s|s| |s m e]; simpl in Hf; try contradiction.
  - simpl. pose proof (P2_pos (1024 + K)). unfold K in *. lia.
  - destruct (valid_mantissa s m e Hv) as (Hm & _ & He). simpl.
    assert (H1 : P2 (1024 + K) = P2 53 * P2 (971 + K))
      by (rewrite <- P2_add by (unfold K; lia); f_equal; unfold K; lia).
    assert (H2 : P2 (e + K) <= P2 (971 + K)) by (apply P2_le; unfold K; lia).
    pose proof (P2_pos (e + K) ltac:(unfold K; lia)).
    destruct s; nia.
Qed.

Lemma scale_lt (A B P Q c : Z) :
  0 < P -> 0 < c -> 2 <= Q -> A < 2 * c -> c <= B -> A * P < B * (Q * P).
Proof.
  intros HP Hc HQ HA HB.
  assert (S1 : A * P < 2 * c * P) by (apply Z.mul_lt_mono_pos_r; lia).
  assert (S2 : 2 * c * P <= B * (Q * P)).
  { replace (B * (Q * P)) with ((B * Q) * P) by ring.
    apply Z.mul_le_mono_nonneg_r; [lia|]. nia. }
  lia.
Qed.

(** Valid floats are ordered as their values. *)
Lemma canon_lt m1 e1 m2 e2 s1 s2 :
  valid_binary (S754_finite s1 m1 e1) = true ->
  valid_binary (S754_finite s2 m2 e2) = true ->
  e1 < e2 ->
  Zpos m1 * P2 (e1 + K) < Zpos m2 * P2 (e2 + K).
Proof.
  intros H1 H2 Hlt.
  destruct (valid_mantissa _ _ _ H1) as (Hm1 & _ & He1).
  destruct (valid_mantissa _ _ _ H2) as (_ & Hm2 & He2).
  specialize (Hm2 ltac:(lia)).
  assert (E : P2 (e2 + K) = P2 (e2 - e1) * P2 (e1 + K))
    by (rewrite <- P2_add by (unfold K; lia); f_equal; lia).
  assert (G : 2 <= P2 (e2 - e1))
    by (change 2 with (P2 1); apply P2_le; lia).
  pose proof (P2_pos (e1 + K) ltac:(unfold K; lia)) as HP.
  assert (H53 : P2 53 = 2 * P2 52) by reflexivity.
  pose proof (P2_pos 52 ltac:(lia)) as Hc.
  rewrite E. rewrite H53 in Hm1.
  apply (scale_lt _ _ _ _ (P2 52)); assumption.
Qed.

Lemma SFcompare_V x y :
  vf x -> vf y -> SFcompare x y = Some (V x ?= V y).
Proof.
  intros [Fx Vx] [Fy Vy].
  destruct x as [sx|sx| |sx mx ex]; simpl in Fx; try contradiction;
    destruct y as [sy|sy| |sy my ey]; simpl in Fy; try contradiction.
  - reflexivity.
  - unfold SFcompare, V. destruct (valid_mantissa _ _ _ Vy) as (_ & _ & He).
    pose proof (P2_pos (ey + K) ltac:(unfold K; lia)).
    f_equal. symmetry.
    destruct sy; [apply Z.compare_gt_iff | apply Z.compare_lt_iff]; nia.
  - unfold SFcompare, V. destruct (valid_mantissa _ _ _ Vx) as (_ & _ & He).
    pose proof (P2_pos (ex + K) ltac:(unfold K; lia)).
    f_equal. symmetry.
    destruct sx; [apply Z.compare_lt_iff | apply Z.compare_gt_iff]; nia.
  - destruct (valid_mantissa _ _ _ Vx) as (_ & _ & Hex).
    destruct (valid_mantissa _ _ _ Vy) as (_ & _ & Hey).
    pose proof (P2_pos (ex + K) ltac:(unfold K; lia)) as Px.
    pose proof (P2_pos (ey + K) ltac:(unfold K; lia)) as Py.
    assert (Hcmp : (Zpos mx * P2 (ex + K) ?= Zpos my * P2 (ey + K))
                   = match ex ?= ey with
                     | Lt => Lt
                     | Gt => Gt
                     | Eq => Pos.compare_cont Eq mx my
                     end).
    { destruct (Z.compare_spec ex ey) as [E|L|G].
      - subst ey. change (Pos.compare_cont Eq mx my) with (Zpos mx ?= Zpos my).
        destruct (Z.compare_spec (Zpos mx) (Zpos my)) as [E'|L'|G'].
        + rewrite E'. apply Z.compare_refl.
        + apply Z.compare_lt_iff. nia.
        + apply Z.compare_gt_iff. nia.
      - apply Z.compare_lt_iff. eapply canon_lt; eassumption.
      - apply Z.compare_gt_iff. eapply canon_lt; eassumption. }
    unfold SFcompare, V. f_equal.
    set (A := Zpos mx * P2 (ex + K)) in *. set (B := Zpos my * P2 (ey + K)) in *.
    destruct sx, sy.
    + replace (-1 * A) with (- A) by lia. replace (-1 * B) with (- B) by lia.
      rewrite Z.compare_opp, (Z.compare_antisym A B), Hcmp.
      destruct (ex ?= ey); reflexivity.
    + symmetry. apply Z.compare_lt_iff. unfold A, B. nia.
    + symmetry. apply Z.compare_gt_iff. unfold A, B. nia.
    + replace (1 * A) with A by lia. replace (1 * B) with B by lia.
      symmetry. exact Hcmp.
Qed.

Lemma SFleb_V x y : vf x -> vf y -> (SFleb x y = true <-> V x <= V y).
Proof.
  intros Hx Hy. unfold SFleb. rewrite (SFcompare_V x y Hx Hy).
  destruct (Z.compare_spec (V x) (V y)); split; intros; try reflexivity;
    try discriminate; lia.
Qed.

Lemma SFltb_V x y : vf x -> vf y -> (SFltb x y = true <-> V x < V y).
Proof.
  intros Hx Hy. unfold SFltb. rewrite (SFcompare_V x y Hx Hy).
  destruct (Z.compare_spec (V x) (V y)); split; intros; try reflexivity;
    try discriminate; lia.
Qed.

(** ** The grid of floats around a rounded value *)

(** No valid float lies strictly between two neighbours [m' * 2^e1] and
    [(m' + 1) * 2^e1] of the grid on which a value was rounded. *)
Lemma grid_floor f m' e1 :
  vf f -> -1074 <= e1 -> 0 <= m' -> (-1074 < e1 -> P2 52 <= m') ->
  V f < (m' + 1) * P2 (e1 + K) -> V f <= m' * P2 (e1 + K).
Proof.
  intros [Ff Vf] He1 Hm0 Hm Hlt.
  pose proof (P2_pos (e1 + K) ltac:(unfold K; lia)) as HU.
  destruct f as [s|s| |s m e]; simpl in Ff; try contradiction.
  - simpl. nia.
  - destruct (valid_mantissa _ _ _ Vf) as (Hm53 & Hm52 & He).
    pose proof (P2_pos (e + K) ltac:(unfold K; lia)) as HPe.
    unfold V in *. destruct s; [nia|].
    replace (1 * (Zpos m * P2 (e + K))) with (Zpos m * P2 (e + K)) in * by lia.
    destruct (Z_lt_le_dec e e1) as [Hee|Hee].
    + specialize (Hm ltac:(lia)).
      assert (E : P2 (e1 + K) = P2 (e1 - e) * P2 (e + K))
        by (rewrite <- P2_add by (unfold K; lia); f_equal; lia).
      assert (G : 2 <= P2 (e1 - e)) by (change 2 with (P2 1); apply P2_le; lia).
      assert (H53 : P2 53 = 2 * P2 52) by reflexivity. rewrite H53 in Hm53.
      pose proof (P2_pos 52 ltac:(lia)) as Hc.
      assert (Zpos m * P2 (e + K) < P2 52 * (P2 (e1 - e) * P2 (e + K)))
        by (apply (scale_lt _ _ _ _ (P2 52)); try assumption; lia).
      rewrite E. nia.
    + assert (E : P2 (e + K) = P2 (e - e1) * P2 (e1 + K))
        by (rewrite <- P2_add by (unfold K; lia); f_equal; lia).
      pose proof (P2_pos (e - e1) ltac:(lia)) as HQ.
      rewrite E in *.
      set (U := P2 (e1 + K)) in *. set (Q := P2 (e - e1)) in *.
      assert (Zpos m * Q < m' + 1) by nia. nia.
Qed.

Lemma grid_ceil f m' e1 :
  vf f -> -1074 <= e1 -> 0 <= m' -> (-1074 < e1 -> P2 52 <= m') ->
  m' * P2 (e1 + K) < V f -> (m' + 1) * P2 (e1 + K) <= V f.
Proof.
  intros [Ff Vf] He1 Hm0 Hm Hlt.
  pose proof (P2_pos (e1 + K) ltac:(unfold K; lia)) as HU.
  destruct f as [s|s| |s m e]; simpl in Ff; try contradiction.
  - simpl in *. nia.
  - destruct (valid_mantissa _ _ _ Vf) as (Hm53 & Hm52 & He).
    pose proof (P2_pos (e + K) ltac:(unfold K; lia)) as HPe.
    unfold V in *. destruct s; [nia|].
    replace (1 * (Zpos m * P2 (e + K))) with (Zpos m * P2 (e + K)) in * by lia.
    destruct (Z_lt_le_dec e e1) as [Hee|Hee].
    + exfalso. specialize (Hm ltac:(lia)).
      assert (E : P2 (e1 + K) = P2 (e1 - e) * P2 (e + K))
        by (rewrite <- P2_add by (unfold K; lia); f_equal; lia).
      assert (G : 2 <= P2 (e1 - e)) by (change 2 with (P2 1); apply P2_le; lia).
      assert (H53 : P2 53 = 2 * P2 52) by reflexivity. rewrite H53 in Hm53.
      pose proof (P2_pos 52 ltac:(lia)) as Hc.
      assert (Zpos m * P2 (e + K) < P2 52 * (P2 (e1 - e) * P2 (e + K)))
        by (apply (scale_lt _ _ _ _ (P2 52)); try assumption; lia).
      rewrite E in Hlt. nia.
    + assert (E : P2 (e + K) = P2 (e - e1) * P2 (e1 + K))
        by (rewrite <- P2_add by (unfold K; lia); f_equal; lia).
      pose proof (P2_pos (e - e1) ltac:(lia)) as HQ.
      rewrite E in *.
      set (U := P2 (e1 + K)) in *. set (Q := P2 (e - e1)) in *.
      assert (m' < Zpos m * Q) by nia. nia.
Qed.

(** ** Rounding of an exact positive value *)

(** [r] is the rounding to nearest, with sign [sx], of the positive exact
    value [X]: [X] lies between two neighbours of a grid of floats, and [r]
    is one of them, the lower one when [X] is below their middle. *)
Definition rounds_pos (sx : bool) (X : Z) (r : spec_float) : Prop :=
  exists m' m'' e1,
    -1074 <= e1 /\ 0 <= m' /\ (-1074 < e1 -> P2 52 <= m') /\ m' < P2 53
    /\ m' * P2 (e1 + K) <= X < (m' + 1) * P2 (e1 + K)
    /\ (m'' = m' \/ m'' = m' + 1)
    /\ (X = m' * P2 (e1 + K) -> m'' = m')
    /\ (2 * (X - m' * P2 (e1 + K)) < P2 (e1 + K) -> m'' = m')
    /\ ((finite r /\ V r = (if sx then -1 else 1) * (m'' * P2 (e1 + K)))
        \/ (r = S754_infinity sx /\ P2 (1024 + K) <= m'' * P2 (e1 + K))).

Lemma binary_round_aux_rounds sx (p : positive) ex :
  ex <= fx (Zdigits2 (Zpos p) + ex) -> 0 <= ex + K ->
  rounds_pos sx (Zpos p * P2 (ex + K))
             (binary_round_aux prec emax sx (Zpos p) ex loc_Exact).
Proof.
  intros Hal HK.
  destruct (binary_round_aux_spec sx p ex) as (m' & m'' & mf & ef & HR & ->).
  destruct HR as [k Hfl Hnear Hex Hbel Habo Hnorm Hm0 Hdig]. fold k in Hdig.
  destruct (Hdig Hal) as (H53 & H52 & Hmin).
  assert (Hk : 0 <= k) by (unfold k; lia).
  pose proof (P2_pos k Hk) as HPk.
  pose proof (P2_pos (ex + K) HK) as HPe.
  assert (EU : P2 (ex + k + K) = P2 k * P2 (ex + K))
    by (rewrite <- P2_add by lia; f_equal; lia).
  exists m', m'', (ex + k). rewrite EU.
  set (Pk := P2 k) in *. set (Pe := P2 (ex + K)) in *.
  split; [assumption|]. split; [assumption|]. split; [assumption|].
  split; [assumption|]. split; [nia|]. split; [assumption|].
  split; [intros HX; apply Hex; nia|].
  split; [intros HX; apply Hbel; nia|].
  assert (Hm''0 : 0 <= m'') by lia.
  destruct Hnorm as [[-> ->]|(E'' & -> & ->)].
  - destruct m'' as [|q|q]; [| |lia].
    + left. split; [exact I | simpl; lia].
    + unfold pack. destruct (ex + k <=? 971) eqn:El.
      * left. split; [exact I|]. unfold V. rewrite EU. reflexivity.
      * right. split; [reflexivity|]. apply Z.leb_gt in El.
        specialize (H52 ltac:(lia)).
        assert (E1 : P2 (1024 + K) = P2 52 * P2 (972 + K)) by reflexivity.
        assert (E2 : P2 (972 + K) <= P2 (ex + k + K))
          by (apply P2_le; unfold K; lia).
        rewrite EU in E2. rewrite E1.
        pose proof (P2_pos 52 ltac:(lia)). pose proof (P2_pos (972 + K)).
        nia.
  - change (pack sx (P2 52) (ex + k + 1))
      with (if ex + k + 1 <=? 971
            then S754_finite sx 4503599627370496 (ex + k + 1)
            else S754_infinity sx).
    assert (EU' : P2 (ex + k + 1 + K) = 2 * (Pk * Pe)).
    { replace (ex + k + 1 + K) with ((ex + k + K) + 1) by lia.
      rewrite P2_succ by lia. rewrite EU. reflexivity. }
    destruct (ex + k + 1 <=? 971) eqn:El.
    + left. split; [exact I|]. unfold V. rewrite EU', E''.
      change (P2 53) with (2 * 4503599627370496). destruct sx; lia.
    + right. split; [reflexivity|]. apply Z.leb_gt in El. rewrite E''.
      assert (E1 : P2 (1024 + K) = P2 53 * P2 (971 + K)) by reflexivity.
      assert (E2 : P2 (971 + K) <= P2 (ex + k + K))
        by (apply P2_le; unfold K; lia).
      rewrite EU in E2. rewrite E1.
      pose proof (P2_pos 53 ltac:(lia)). pose proof (P2_pos (971 + K)).
      nia.
Qed.

(** Comparison of a result with a float: a result is below (above) a float
    when it is the negative (positive) infinity or a finite float of a
    smaller (larger) value. *)
Definition LE (r f : spec_float) : Prop :=
  r = S754_infinity true \/ (finite r /\ V r <= V f).
Definition GE (r f : spec_float) : Prop :=
  r = S754_infinity false \/ (finite r /\ V f <= V r).

(** Rounding is monotone with respect to the floats. *)
Definition rounds (X : Z) (r : spec_float) : Prop :=
  (forall f, vf f -> X <= V f -> LE r f)
  /\ (forall f, vf f -> V f <= X -> GE r f).

Lemma vf_opp f : vf f -> vf (SFopp f) /\ V (SFopp f) = - V f.
Proof.
  intros [Ff Vf]. destruct f as [s|s| |s m e]; simpl in Ff; try contradiction.
  - repeat split.
  - repeat split; [exact Vf|]. simpl. destruct s; simpl; lia.
Qed.

Lemma rounds_pos_up X r f :
  rounds_pos false X r -> vf f -> X <= V f -> finite r /\ V r <= V f.
Proof.
  intros (m' & m'' & e1 & He1 & Hm0 & H52 & H53 & HX & Hnear & Hex & Hbel & Hr) Hf Hle.
  pose proof (P2_pos (e1 + K) ltac:(unfold K; lia)) as HU.
  assert (Hm'' : m'' * P2 (e1 + K) <= V f).
  { destruct (Z.eq_dec X (m' * P2 (e1 + K))) as [E|N].
    - rewrite (Hex E). lia.
    - pose proof (grid_ceil f m' e1 Hf He1 Hm0 H52 ltac:(lia)). nia. }
  destruct (V_bound f Hf) as [_ Hb].
  destruct Hr as [[Hfin Hv]|[_ Hinf]]; [|lia].
  split; [assumption | lia].
Qed.

Lemma rounds_pos_down sx X r f :
  rounds_pos sx X r -> vf f -> V f <= X ->
  r = S754_infinity sx
  \/ (finite r /\ exists v, V r = (if sx then -1 else 1) * v /\ V f <= v).
Proof.
  intros (m' & m'' & e1 & He1 & Hm0 & H52 & H53 & HX & Hnear & Hex & Hbel & Hr) Hf Hle.
  pose proof (P2_pos (e1 + K) ltac:(unfold K; lia)) as HU.
  pose proof (grid_floor f m' e1 Hf He1 Hm0 H52 ltac:(lia)) as Hg.
  destruct Hr as [[Hfin Hv]|[Hinf _]]; [|auto].
  right. split; [assumption|]. exists (m'' * P2 (e1 + K)). split; [assumption | nia].
Qed.

Lemma rounds_pos_rounds X r : rounds_pos false X r -> rounds X r.
Proof.
  intros H. split; intros f Hf Hle.
  - right. apply (rounds_pos_up X r f); assumption.
  - destruct (rounds_pos_down false X r f H Hf Hle) as [E|(Hfin & v & Hv & Hle')].
    + left. assumption.
    + right. split; [assumption | lia].
Qed.

Lemma rounds_neg_rounds X r : rounds_pos true X r -> rounds (- X) r.
Proof.
  intros H. split; intros f Hf Hle.
  - destruct (vf_opp f Hf) as [Hf' HV'].
    destruct (rounds_pos_down true X r (SFopp f) H Hf' ltac:(lia))
      as [E|(Hfin & v & Hv & Hle')].
    + left. assumption.
    + right. split; [assumption | lia].
  - destruct (vf_opp f Hf) as [Hf' HV'].
    destruct H as (m' & m'' & e1 & He1 & Hm0 & H52 & H53 & HX & Hnear & Hex & Hbel & Hr).
    pose proof (P2_pos (e1 + K) ltac:(unfold K; lia)) as HU.
    assert (Hm'' : m'' * P2 (e1 + K) <= V (SFopp f)).
    { destruct (Z.eq_dec X (m' * P2 (e1 + K))) as [E|N].
      - rewrite (Hex E). lia.
      - pose proof (grid_ceil (SFopp f) m' e1 Hf' He1 Hm0 H52 ltac:(lia)). nia. }
    destruct (V_bound _ Hf') as [_ Hb].
    destruct Hr as [[Hfin Hv]|[_ Hinf]]; [|lia].
    right. split; [assumption | lia].
Qed.

Lemma rounds_exact x : vf x -> rounds (V x) x.
Proof.
  intros [Hf Hv]. split; intros f _ Hle; right; split; assumption.
Qed.

Lemma rounds_zero s : rounds 0 (S754_zero s).
Proof. apply (rounds_exact (S754_zero s)). split; [exact I | reflexivity]. Qed.

(** ** The operations *)

Lemma iter_xO mx d : Zpos (Pos.iter xO mx d) = Zpos mx * P2 (Zpos d).
Proof.
  induction d as [|d IH] using Pos.peano_ind.
  - simpl. unfold P2. simpl. lia.
  - rewrite Pos.iter_succ, Pos2Z.inj_xO, IH, Pos2Z.inj_succ.
    unfold Z.succ. rewrite P2_succ by lia. lia.
Qed.

Lemma shl_align_fst mx ex ez :
  ez <= ex -> Zpos (fst (shl_align mx ex ez)) = Zpos mx * P2 (ex - ez).
Proof.
  intros H. unfold shl_align.
  destruct (ez - ex) as [|d|d] eqn:E; simpl fst.
  - replace (ex - ez) with 0 by lia. rewrite P2_0. lia.
  - lia.
  - rewrite iter_xO. f_equal. f_equal. lia.
Qed.

Lemma binary_round_rounds sx mx ex :
  -1074 <= ex ->
  rounds_pos sx (Zpos mx * P2 (ex + K)) (binary_round prec emax sx mx ex).
Proof.
  intros Hex. unfold binary_round, shl_align.
  change (fexp prec emax (Zpos (digits2_pos mx) + ex))
    with (fx (Zpos (digits2_pos mx) + ex)).
  set (d := Zpos (digits2_pos mx)). set (e' := fx (d + ex)).
  assert (He' : e' = Z.max (d + ex - 53) (-1074)) by reflexivity.
  destruct (digits2_pos_spec mx) as [G1 G2]. fold d in G1, G2.
  assert (Hd : 0 < d) by (unfold d; lia).
  destruct (e' - ex) as [|n|n] eqn:E.
  - apply binary_round_aux_rounds; [simpl Zdigits2; fold d e'; lia | unfold K; lia].
  - apply binary_round_aux_rounds; [simpl Zdigits2; fold d e'; lia | unfold K; lia].
  - assert (Hn : Zpos n = ex - e') by lia.
    assert (Hmz : Zpos (Pos.iter xO mx n) = Zpos mx * P2 (Zpos n)) by apply iter_xO.
    pose proof (P2_pos (Zpos n) ltac:(lia)) as HPn.
    assert (Hdz : Zpos (digits2_pos (Pos.iter xO mx n)) = d + Zpos n).
    { apply digits_unique; [lia|]. rewrite Hmz.
      replace (d + Zpos n - 1) with ((d - 1) + Zpos n) by lia.
      rewrite !P2_add by lia. nia. }
    replace (Zpos mx * P2 (ex + K)) with (Zpos (Pos.iter xO mx n) * P2 (e' + K)).
    + apply binary_round_aux_rounds; [|unfold K; lia].
      simpl Zdigits2. rewrite Hdz.
      replace (d + Zpos n + e') with (d + ex) by lia. fold e'. lia.
    + rewrite Hmz. replace (ex + K) with (Zpos n + (e' + K)) by lia.
      rewrite (P2_add (Zpos n)) by (unfold K; lia). ring.
Qed.

Lemma normalize_rounds_pos (M : Z) ez :
  -1074 <= ez -> 0 < M ->
  rounds_pos false (M * P2 (ez + K)) (binary_normalize prec emax M ez false).
Proof.
  intros He HM. destruct M as [|p|p]; try lia.
  apply binary_round_rounds. assumption.
Qed.

Lemma normalize_rounds (M : Z) ez :
  -1074 <= ez -> rounds (M * P2 (ez + K)) (binary_normalize prec emax M ez false).
Proof.
  intros He. destruct M as [|p|p].
  - simpl. apply rounds_zero.
  - apply rounds_pos_rounds. apply binary_round_rounds. assumption.
  - replace (Zneg p * P2 (ez + K)) with (- (Zpos p * P2 (ez + K))) by lia.
    apply rounds_neg_rounds. apply binary_round_rounds. assumption.
Qed.

Lemma exact_rounds_pos x : vf x -> 0 < V x -> rounds_pos false (V x) x.
Proof.
  intros [Ff Vf] Hpos. destruct x as [s|s| |s m e]; simpl in Ff; try contradiction.
  - simpl in Hpos. lia.
  - destruct (valid_mantissa _ _ _ Vf) as (H53 & H52 & He).
    pose proof (P2_pos (e + K) ltac:(unfold K; lia)) as HP.
    destruct s; [simpl in Hpos; lia|].
    exists (Zpos m), (Zpos m), e. simpl.
    replace (1 * (Zpos m * P2 (e + K))) with (Zpos m * P2 (e + K)) by lia.
    repeat split; try lia; auto.
Qed.

(** The aligned sum of two finite floats. *)
Lemma aligned_value (s : bool) m e ez :
  -1074 <= ez <= e ->
  cond_Zopp s (Zpos (fst (shl_align m e ez))) * P2 (ez + K)
  = V (S754_finite s m e).
Proof.
  intros H. rewrite shl_align_fst by lia. simpl.
  replace (e + K) with ((e - ez) + (ez + K)) by lia.
  rewrite (P2_add (e - ez)) by (unfold K; lia).
  destruct s; simpl; ring.
Qed.

Lemma SFadd_rounds x y : vf x -> vf y -> rounds (V x + V y) (SFadd prec emax x y).
Proof.
  intros Hx Hy. pose proof Hx as [Fx Vx]. pose proof Hy as [Fy Vy].
  destruct x as [sx|sx| |sx mx ex]; simpl in Fx; try contradiction;
    destruct y as [sy|sy| |sy my ey]; simpl in Fy; try contradiction.
  - simpl. destruct sx, sy; apply rounds_zero.
  - simpl SFadd. replace (V (S754_zero sx) + V (S754_finite sy my ey))
      with (V (S754_finite sy my ey)) by (simpl; lia).
    apply rounds_exact. assumption.
  - simpl SFadd. replace (V (S754_finite sx mx ex) + V (S754_zero sy))
      with (V (S754_finite sx mx ex)) by (simpl; lia).
    apply rounds_exact. assumption.
  - destruct (valid_mantissa _ _ _ Vx) as (_ & _ & Hex).
    destruct (valid_mantissa _ _ _ Vy) as (_ & _ & Hey).
    unfold SFadd. cbv zeta.
    rewrite <- (aligned_value sx mx ex (Z.min ex ey)) by lia.
    rewrite <- (aligned_value sy my ey (Z.min ex ey)) by lia.
    rewrite <- Z.mul_add_distr_r. apply normalize_rounds. lia.
Qed.

Lemma SFsub_rounds_pos x y :
  vf x -> vf y -> V y < V x -> rounds_pos false (V x - V y) (SFsub prec emax x y).
Proof.
  intros Hx Hy Hlt. pose proof Hx as [Fx Vx]. pose proof Hy as [Fy Vy].
  destruct x as [sx|sx| |sx mx ex]; simpl in Fx; try contradiction;
    destruct y as [sy|sy| |sy my ey]; simpl in Fy; try contradiction.
  - simpl in Hlt. lia.
  - simpl SFsub.
    assert (Hv : vf (S754_finite (negb sy) my ey)) by (split; [exact I | exact Vy]).
    replace (V (S754_zero sx) - V (S754_finite sy my ey))
      with (V (S754_finite (negb sy) my ey)) by (simpl; destruct sy; simpl; lia).
    apply exact_rounds_pos; [assumption|].
    simpl in Hlt |- *. destruct sy; simpl; lia.
  - simpl SFsub. replace (V (S754_finite sx mx ex) - V (S754_zero sy))
      with (V (S754_finite sx mx ex)) by (simpl; lia).
    apply exact_rounds_pos; [assumption|]. simpl in Hlt |- *. lia.
  - destruct (valid_mantissa _ _ _ Vx) as (_ & _ & Hex).
    destruct (valid_mantissa _ _ _ Vy) as (_ & _ & Hey).
    unfold SFsub. cbv zeta.
    rewrite <- (aligned_value sx mx ex (Z.min ex ey)) in * by lia.
    rewrite <- (aligned_value sy my ey (Z.min ex ey)) in * by lia.
    rewrite <- Z.mul_sub_distr_r in *.
    pose proof (P2_pos (Z.min ex ey + K) ltac:(unfold K; lia)) as HP.
    apply normalize_rounds_pos; [lia | nia].
Qed.

Lemma digits_mul (mx my : positive) :
  Zpos (digits2_pos mx) + Zpos (digits2_pos my) - 1
  <= Zpos (digits2_pos (mx * my)).
Proof.
  destruct (digits2_pos_spec mx) as [X1 X2].
  destruct (digits2_pos_spec my) as [Y1 Y2].
  destruct (digits2_pos_spec (mx * my)) as [Z1 Z2].
  set (dx := Zpos (digits2_pos mx)) in *. set (dy := Zpos (digits2_pos my)) in *.
  set (dz := Zpos (digits2_pos (mx * my))) in *.
  assert (0 < dx /\ 0 < dy /\ 0 < dz) as (Hx & Hy & Hz) by (unfold dx, dy, dz; lia).
  destruct (Z_lt_le_dec dz (dx + dy - 1)) as [Hlt|]; [|lia]. exfalso.
  assert (E : P2 (dx - 1 + (dy - 1)) = P2 (dx - 1) * P2 (dy - 1))
    by (apply P2_add; lia).
  assert (L : P2 dz <= P2 (dx - 1 + (dy - 1))) by (apply P2_le; lia).
  rewrite Pos2Z.inj_mul in Z2.
  pose proof (P2_pos (dx - 1) ltac:(lia)). pose proof (P2_pos (dy - 1) ltac:(lia)).
  nia.
Qed.

Lemma SFmul_rounds_pos mx ex my ey :
  valid_binary (S754_finite false mx ex) = true ->
  valid_binary (S754_finite false my ey) = true ->
  rounds_pos false (Zpos mx * Zpos my * P2 (ex + ey + K))
             (SFmul prec emax (S754_finite false mx ex) (S754_finite false my ey)).
Proof.
  intros Vx Vy. unfold SFmul. simpl xorb.
  destruct (valid_finite_inv _ _ _ Vx) as (Hdx & Hex & Hnx).
  destruct (valid_finite_inv _ _ _ Vy) as (Hdy & Hey & Hny).
  rewrite <- Pos2Z.inj_mul.
  apply binary_round_aux_rounds; [|unfold K; lia].
  simpl Zdigits2. pose proof (digits_mul mx my) as Hd.
  rewrite fx_spec. lia.
Qed.

(** Every float is a whole number of the smallest subnormal. *)
Lemma V_multiple x : vf x -> exists c, V x = c * P2 (K - 1074).
Proof.
  intros [Ff Vf]. destruct x as [s|s| |s m e]; simpl in Ff; try contradiction.
  - exists 0. reflexivity.
  - destruct (valid_mantissa _ _ _ Vf) as (_ & _ & He).
    exists ((if s then -1 else 1) * (Zpos m * P2 (e + 1074))). simpl.
    replace (e + K) with ((e + 1074) + (K - 1074)) by lia.
    rewrite (P2_add (e + 1074)) by (unfold K; lia). ring.
Qed.

Lemma SFsub_rounds x y : vf x -> vf y -> rounds (V x - V y) (SFsub prec emax x y).
Proof.
  intros Hx Hy. pose proof Hx as [Fx Vx]. pose proof Hy as [Fy Vy].
  destruct x as [sx|sx| |sx mx ex]; simpl in Fx; try contradiction;
    destruct y as [sy|sy| |sy my ey]; simpl in Fy; try contradiction.
  - simpl. destruct sx, sy; apply rounds_zero.
  - simpl SFsub.
    assert (Hv : vf (S754_finite (negb sy) my ey)) by (split; [exact I | exact Vy]).
    replace (V (S754_zero sx) - V (S754_finite sy my ey))
      with (V (S754_finite (negb sy) my ey)) by (simpl; destruct sy; simpl; lia).
    apply rounds_exact. assumption.
  - simpl SFsub. replace (V (S754_finite sx mx ex) - V (S754_zero sy))
      with (V (S754_finite sx mx ex)) by (simpl; lia).
    apply rounds_exact. assumption.
  - destruct (valid_mantissa _ _ _ Vx) as (_ & _ & Hex).
    destruct (valid_mantissa _ _ _ Vy) as (_ & _ & Hey).
    unfold SFsub. cbv zeta.
    rewrite <- (aligned_value sx mx ex (Z.min ex ey)) by lia.
    rewrite <- (aligned_value sy my ey (Z.min ex ey)) by lia.
    rewrite <- Z.mul_sub_distr_r. apply normalize_rounds. lia.
Qed.

(** ** The coordinate [a + (b - a) * p] *)

Lemma P2_lt_inv a b : 0 <= a -> 0 <= b -> P2 a < P2 b -> a < b.
Proof.
  intros Ha Hb H. destruct (Z_lt_le_dec a b) as [|Hle]; [assumption|].
  pose proof (P2_le b a ltac:(lia)). lia.
Qed.

Lemma vf_zero s : vf (S754_zero s).
Proof. split; [exact I | reflexivity]. Qed.

Lemma pos_inv x : vf x -> 0 < V x -> exists m e, x = S754_finite false m e.
Proof.
  intros [Ff Vf] H. destruct x as [s|s| |s m e]; simpl in Ff; try contradiction.
  - simpl in H. lia.
  - destruct (valid_mantissa _ _ _ Vf) as (_ & _ & He).
    pose proof (P2_pos (e + K) ltac:(unfold K; lia)).
    destruct s; [simpl in H; lia|]. eauto.
Qed.

Lemma null_inv x : vf x -> V x = 0 -> exists s, x = S754_zero s.
Proof.
  intros [Ff Vf] H. destruct x as [s|s| |s m e]; simpl in Ff; try contradiction.
  - eauto.
  - destruct (valid_mantissa _ _ _ Vf) as (_ & _ & He).
    pose proof (P2_pos (e + K) ltac:(unfold K; lia)).
    simpl in H. destruct s; lia.
Qed.

(** A float below one is at most [1 - 2^-53]. *)
Lemma below_one p :
  vf p -> V p < P2 K -> V p * P2 53 <= (P2 53 - 1) * P2 K.
Proof.
  intros Hp Hlt.
  assert (E : P2 K = P2 53 * P2 (-53 + K))
    by (rewrite <- P2_add by (unfold K; lia); f_equal; unfold K; lia).
  assert (T : P2 53 = 2 * P2 52) by (apply (P2_succ 52); lia).
  pose proof (P2_pos 52 ltac:(lia)) as HT.
  pose proof (P2_pos (-53 + K) ltac:(unfold K; lia)) as HP.
  assert (G : V p <= (P2 53 - 1) * P2 (-53 + K)).
  { apply grid_floor; try assumption; lia. }
  rewrite E. generalize dependent (P2 (-53 + K)). generalize dependent (P2 53).
  intros. nia.
Qed.

(** The difference of two floats, when it does not overflow, is either not
    above the exact difference or the float just above it on a grid of
    normal numbers. *)
Lemma difference_cases D w :
  rounds_pos false D w -> vf w -> 0 < D ->
  (exists c, D = c * P2 (K - 1074)) ->
  0 < V w
  /\ (V w <= D
      \/ exists m' e1, -1074 < e1 <= 971 /\ P2 52 <= m' < P2 53
           /\ V w = (m' + 1) * P2 (e1 + K) /\ m' * P2 (e1 + K) <= D).
Proof.
  intros (m' & m'' & e1 & He1 & Hm0 & H52 & H53 & HX & Hnear & Hex & Hbel & Hr)
         Hw Hpos [c Hc].
  destruct Hr as [[_ Hv]|[Hinf _]];
    [|subst w; destruct Hw as [F _]; contradiction].
  replace (1 * (m'' * P2 (e1 + K))) with (m'' * P2 (e1 + K)) in Hv by lia.
  pose proof (P2_pos (e1 + K) ltac:(unfold K; lia)) as HU.
  destruct (Z.eq_dec e1 (-1074)) as [E|N].
  - subst e1. replace (K - 1074) with (-1074 + K) in Hc by lia.
    assert (c = m') by nia. subst c.
    rewrite (Hex Hc) in Hv. split; [lia|]. left. lia.
  - specialize (H52 ltac:(lia)). pose proof (P2_pos 52 ltac:(lia)) as HT.
    assert (Hm'' : m' <= m'') by lia.
    assert (Hge : m' * P2 (e1 + K) <= V w) by (rewrite Hv; nia).
    split; [nia|].
    destruct Hnear as [->| ->]; [left; lia|]. right.
    exists m', e1. repeat split; try lia; try assumption.
    destruct (V_bound w Hw) as [_ Hb].
    assert (L : P2 (52 + (e1 + K)) < P2 (1024 + K)).
    { rewrite P2_add by (unfold K; lia). nia. }
    apply P2_lt_inv in L; unfold K in *; lia.
Qed.

(** A product that stays below the midpoint of two neighbouring normal floats
    rounds to at most the lower one. *)
Lemma product_below X q w m' e1 :
  rounds_pos false X q -> vf w ->
  -1074 < e1 <= 971 -> P2 52 <= m' < P2 53 ->
  V w = (m' + 1) * P2 (e1 + K) ->
  2 * X < (2 * m' + 1) * P2 (e1 + K) ->
  finite q /\ V q <= m' * P2 (e1 + K).
Proof.
  intros Hq Hw He1 Hm' Hvw Hmid.
  destruct (valid_build false m' e1 Hm' ltac:(lia)) as (pg & Hpg & Vg).
  set (g := S754_finite false pg e1).
  assert (Hg : vf g) by (split; [exact I | exact Vg]).
  assert (HVg : V g = m' * P2 (e1 + K)) by (simpl; rewrite Hpg; lia).
  pose proof (P2_pos (e1 + K) ltac:(unfold K; lia)) as HU.
  pose proof (P2_pos 52 ltac:(lia)) as HT.
  assert (T : P2 53 = 2 * P2 52) by (apply (P2_succ 52); lia).
  destruct (Z_le_gt_dec X (m' * P2 (e1 + K))) as [Hle|Hgt].
  - rewrite <- HVg. apply (rounds_pos_up X q g); try assumption. lia.
  - destruct Hq as (mq & mq' & eq & Heq & Hmq0 & Hq52 & Hq53 & HXq & Hqn & Hqe & Hqb & Hqr).
    pose proof (P2_pos (eq + K) ltac:(unfold K; lia)) as HUq.
    assert (G1 : V g <= mq * P2 (eq + K))
      by (apply grid_floor; try assumption; lia).
    assert (G2 : (mq + 1) * P2 (eq + K) <= V w)
      by (apply grid_ceil; try assumption; lia).
    rewrite HVg in G1. rewrite Hvw in G2.
    assert (HUU : P2 (eq + K) <= P2 (e1 + K)) by nia.
    assert (Hee : eq <= e1).
    { destruct (Z_le_gt_dec eq e1) as [|Hc]; [assumption|].
      pose proof (P2_lt (e1 + K) (eq + K) ltac:(unfold K; lia)). lia. }
    assert (Heq' : eq = e1).
    { destruct (Z.eq_dec eq e1) as [|Hne]; [assumption|]. exfalso.
      assert (S : P2 (e1 + K) = P2 (e1 - eq) * P2 (eq + K))
        by (rewrite <- P2_add by (unfold K; lia); f_equal; lia).
      assert (S2 : 2 <= P2 (e1 - eq)).
      { pose proof (P2_le 1 (e1 - eq) ltac:(lia)) as L.
        change (P2 1) with 2 in L. exact L. }
      rewrite S in G1.
      assert (S3 : m' * P2 (e1 - eq) <= mq).
      { apply (Z.mul_le_mono_pos_r _ _ (P2 (eq + K))); [assumption|].
        rewrite <- Z.mul_assoc. exact G1. }
      nia. }
    subst eq.
    assert (mq = m') by nia. subst mq.
    assert (mq' = m') by (apply Hqb; lia). subst mq'.
    destruct Hqr as [[Fq Hvq]|[_ Hinf]].
    + split; [assumption | lia].
    + destruct (V_bound g Hg) as [_ Hb]. lia.
Qed.

(** The product of the width by the proportion. *)
Lemma scaled_width a b p :
  vf a -> vf b -> vf p -> V a <= V b -> 0 < V p < P2 K ->
  vf (SFsub prec emax b a) ->
  finite (SFmul prec emax (SFsub prec emax b a) p)
  /\ 0 <= V (SFmul prec emax (SFsub prec emax b a) p) <= V b - V a.
Proof.
  intros Ha Hb Hp Hab [Hp0 Hp1] Hw.
  destruct (pos_inv p Hp Hp0) as (mp & ep & ->).
  destruct (Z.eq_dec (V a) (V b)) as [E|N].
  - destruct (SFsub_rounds b a Hb Ha) as [R1 R2].
    replace (V b - V a) with 0 in * by lia.
    specialize (R1 (S754_zero false) (vf_zero false) ltac:(simpl; lia)).
    specialize (R2 (S754_zero false) (vf_zero false) ltac:(simpl; lia)).
    assert (Hv0 : V (SFsub prec emax b a) = 0).
    { destruct Hw as [Fw _].
      destruct R1 as [R1|[_ R1]]; [rewrite R1 in Fw; contradiction|].
      destruct R2 as [R2|[_ R2]]; [rewrite R2 in Fw; contradiction|].
      simpl in R1, R2. lia. }
    destruct (null_inv _ Hw Hv0) as [sw ->]. simpl. lia.
  - assert (HD : 0 < V b - V a) by lia.
    pose proof (SFsub_rounds_pos b a Hb Ha ltac:(lia)) as Rw.
    assert (Hmult : exists c, V b - V a = c * P2 (K - 1074)).
    { destruct (V_multiple a Ha) as [ca Hca], (V_multiple b Hb) as [cb Hcb].
      exists (cb - ca). rewrite Hca, Hcb. ring. }
    destruct (difference_cases _ _ Rw Hw HD Hmult) as [Hwpos Hcases].
    destruct (pos_inv _ Hw Hwpos) as (mw & ew & Ew).
    rewrite Ew in *.
    pose proof Hw as [_ Vw]. pose proof Hp as [_ Vp].
    pose proof (SFmul_rounds_pos mw ew mp ep Vw Vp) as Rq.
    set (q := SFmul prec emax (S754_finite false mw ew) (S754_finite false mp ep)) in *.
    set (X := Zpos mw * Zpos mp * P2 (ew + ep + K)) in *.
    destruct (valid_mantissa _ _ _ Vw) as (_ & _ & Hew).
    destruct (valid_mantissa _ _ _ Vp) as (_ & _ & Hep).
    assert (HX : X * P2 K
                 = V (S754_finite false mw ew) * V (S754_finite false mp ep)).
    { unfold X. simpl.
      assert (E1 : P2 (ew + ep + K) * P2 K = P2 (ew + K) * P2 (ep + K)).
      { rewrite <- !P2_add by (unfold K; lia). f_equal. lia. }
      rewrite <- Z.mul_assoc, E1. ring. }
    pose proof (P2_pos K ltac:(unfold K; lia)) as HK.
    set (vw := V (S754_finite false mw ew)) in *.
    set (vp := V (S754_finite false mp ep)) in *.
    assert (HXw : X <= vw) by nia.
    assert (HX0 : 0 <= X) by nia.
    assert (Hup : finite q /\ V q <= V b - V a).
    { destruct Hcases as [Hle|(m' & e1 & He1 & Hm' & Hvw & Hg)].
      - destruct (rounds_pos_up X q _ Rq Hw HXw) as [Fq Hq].
        fold vw in Hq. split; [assumption | lia].
      - destruct (product_below X q _ m' e1 Rq Hw He1 Hm' Hvw) as [Fq Hq];
          [|split; [assumption | lia]].
        fold vw in Hvw.
        pose proof (below_one _ Hp Hp1) as H1. fold vp in H1.
        pose proof (P2_pos (e1 + K) ltac:(unfold K; lia)) as HU.
        assert (T : P2 53 = 2 * P2 52) by (apply (P2_succ 52); lia).
        pose proof (P2_pos 52 ltac:(lia)) as HT.
        rewrite Hvw in HX.
        apply (Z.mul_lt_mono_pos_r (P2 K)); [assumption|].
        apply (Z.mul_lt_mono_pos_r (P2 53)); [lia|].
        replace (2 * X * P2 K * P2 53)
          with (2 * (m' + 1) * P2 (e1 + K) * (vp * P2 53))
          by (transitivity (2 * (X * P2 K) * P2 53); [rewrite HX; ring | ring]).
        assert (B1 : 2 * (m' + 1) * P2 (e1 + K) * (vp * P2 53)
                     <= 2 * (m' + 1) * P2 (e1 + K) * ((P2 53 - 1) * P2 K)).
        { apply Z.mul_le_mono_nonneg_l; [nia | exact H1]. }
        assert (B2 : 2 * (m' + 1) * (P2 53 - 1) < (2 * m' + 1) * P2 53) by nia.
        assert (B3 : 2 * (m' + 1) * (P2 53 - 1) * (P2 (e1 + K) * P2 K)
                     < (2 * m' + 1) * P2 53 * (P2 (e1 + K) * P2 K)).
        { apply Z.mul_lt_mono_pos_r; [nia | exact B2]. }
        replace (2 * (m' + 1) * P2 (e1 + K) * ((P2 53 - 1) * P2 K))
          with (2 * (m' + 1) * (P2 53 - 1) * (P2 (e1 + K) * P2 K)) in B1 by ring.
        replace ((2 * m' + 1) * P2 (e1 + K) * P2 K * P2 53)
          with ((2 * m' + 1) * P2 53 * (P2 (e1 + K) * P2 K)) by ring.
        lia. }
    destruct Hup as [Fq Hq]. split; [assumption|]. split; [|assumption].
    destruct (rounds_pos_down false X q _ Rq (vf_zero false) ltac:(simpl; lia))
      as [Einf|(_ & v & Hv & Hv0)].
    + rewrite Einf in Fq. contradiction.
    + simpl in Hv0. lia.
Qed.

(** The coordinate lies between the two bounds. *)
Lemma coordinate_between a b p :
  vf a -> vf b -> vf p -> V a <= V b -> 0 < V p < P2 K ->
  vf (SFsub prec emax b a) ->
  valid_binary (SFmul prec emax (SFsub prec emax b a) p) = true ->
  finite (SFadd prec emax a (SFmul prec emax (SFsub prec emax b a) p))
  /\ V a <= V (SFadd prec emax a (SFmul prec emax (SFsub prec emax b a) p)) <= V b.
Proof.
  intros Ha Hb Hp Hab Hp01 Hw Vq.
  destruct (scaled_width a b p Ha Hb Hp Hab Hp01 Hw) as [Fq Hq].
  set (q := SFmul prec emax (SFsub prec emax b a) p) in *.
  assert (Hvq : vf q) by (split; assumption).
  destruct (SFadd_rounds a q Ha Hvq) as [R1 R2].
  specialize (R1 b Hb ltac:(lia)). specialize (R2 a Ha ltac:(lia)).
  destruct R1 as [R1|[F1 R1]]; destruct R2 as [R2|[F2 R2]].
  - rewrite R1 in R2. discriminate.
  - rewrite R1 in F2. contradiction.
  - rewrite R2 in F1. contradiction.
  - split; [assumption | lia].
Qed.

(** ** Primitive floats *)

Lemma is_finite_vf (x : float) : is_finite x = true -> vf (Prim2SF x).
Proof.
  unfold is_finite, is_nan, is_infinity. intros H.
  rewrite !FloatAxioms.eqb_spec, FloatAxioms.abs_spec in H.
  split; [|apply Prim2SF_valid].
  change (Prim2SF infinity) with (S754_infinity false) in H.
  revert H. destruct (Prim2SF x) as [s|s| |s m e]; intros H; try exact I.
  - destruct s; simpl in H; discriminate.
  - simpl in H. discriminate.
Qed.

Lemma vf_is_finite (x : float) : finite (Prim2SF x) -> is_finite x = true.
Proof.
  unfold is_finite, is_nan, is_infinity. intros H.
  rewrite !FloatAxioms.eqb_spec, FloatAxioms.abs_spec.
  change (Prim2SF infinity) with (S754_infinity false).
  destruct (Prim2SF x) as [s|s| |s m e] eqn:E; simpl in H; try contradiction.
  - reflexivity.
  - assert (R : SFeqb (S754_finite s m e) (S754_finite s m e) = true).
    { unfold SFeqb. rewrite SFcompare_V by (rewrite <- E; split;
        [rewrite E; exact I | apply Prim2SF_valid]).
      rewrite Z.compare_refl. reflexivity. }
    rewrite R. reflexivity.
Qed.

Lemma proportion_vf (p : float) :
  (0 <? p)%float = true -> (p <? 1)%float = true ->
  vf (Prim2SF p) /\ 0 < V (Prim2SF p) < P2 K.
Proof.
  intros H0 H1. rewrite FloatAxioms.ltb_spec in H0, H1.
  change (Prim2SF 0) with (S754_zero false) in H0.
  assert (F : finite (Prim2SF p)).
  { change (Prim2SF 1) with (S754_finite false 4503599627370496 (-52)) in H1.
    revert H0 H1. destruct (Prim2SF p) as [s|[]| |s m e]; intros H0 H1;
      try exact I; try (simpl in H0; discriminate); simpl in H1; discriminate. }
  assert (Hp : vf (Prim2SF p)) by (split; [assumption | apply Prim2SF_valid]).
  assert (H1v : vf (Prim2SF 1)) by (apply is_finite_vf; reflexivity).
  split; [assumption|].
  apply (SFltb_V _ _ (vf_zero false) Hp) in H0.
  apply (SFltb_V _ _ Hp H1v) in H1.
  assert (E1 : V (Prim2SF 1) = P2 K).
  { change (Prim2SF 1) with (S754_finite false 4503599627370496 (-52)).
    unfold V. change 4503599627370496 with (P2 52).
    rewrite <- P2_add by (unfold K; lia). unfold K. f_equal. }
  rewrite E1 in H1. simpl in H0. lia.
Qed.

(** On finite bounds [a <= b] whose difference does not overflow, and for a
    proportion strictly between 0 and 1, the coordinate [a + (b - a) * p]
    computed in double precision lies between [a] and [b]. *)
Lemma split_point_bounds (a b p : float) :
  is_finite a = true -> is_finite b = true -> (a <=? b)%float = true ->
  (0 <? p)%float = true -> (p <? 1)%float = true ->
  is_finite (b - a)%float = true ->
  is_finite (a + (b - a) * p)%float = true
  /\ (a <=? a + (b - a) * p)%float = true
  /\ (a + (b - a) * p <=? b)%float = true.
Proof.
  intros Fa Fb Hab H0 H1 Fw.
  apply is_finite_vf in Fa, Fb, Fw.
  destruct (proportion_vf p H0 H1) as [Hp Hp01].
  rewrite FloatAxioms.leb_spec in Hab. apply (SFleb_V _ _ Fa Fb) in Hab.
  rewrite FloatAxioms.sub_spec in Fw.
  pose proof (Prim2SF_valid ((b - a) * p)%float) as Vq.
  rewrite FloatAxioms.mul_spec, FloatAxioms.sub_spec in Vq.
  destruct (coordinate_between _ _ _ Fa Fb Hp Hab Hp01 Fw Vq) as [Fs Hs].
  assert (Es : Prim2SF (a + (b - a) * p)%float
               = SFadd prec emax (Prim2SF a)
                   (SFmul prec emax (SFsub prec emax (Prim2SF b) (Prim2SF a))
                                    (Prim2SF p))).
  { rewrite FloatAxioms.add_spec, FloatAxioms.mul_spec, FloatAxioms.sub_spec.
    reflexivity. }
  rewrite <- Es in Fs, Hs.
  assert (Vs : vf (Prim2SF (a + (b - a) * p)%float))
    by (split; [assumption | apply Prim2SF_valid]).
  split; [apply vf_is_finite; assumption|].
  rewrite !FloatAxioms.leb_spec.
  split; [apply (SFleb_V _ _ Fa Vs) | apply (SFleb_V _ _ Vs Fb)]; lia.
Qed.

(** When the difference overflows, the coordinate is [+inf]. *)
Lemma overflow_point (a b p : float) :
  is_finite a = true -> is_finite b = true -> (a <=? b)%float = true ->
  (0 <? p)%float = true -> (p <? 1)%float = true ->
  is_finite (b - a)%float = false ->
  (a + (b - a) * p)%float = infinity.
Proof.
  intros Fa Fb Hab H0 H1 Fw.
  apply is_finite_vf in Fa, Fb.
  destruct (proportion_vf p H0 H1) as [Hp [Hp0 _]].
  destruct (pos_inv _ Hp Hp0) as (mp & ep & Ep).
  rewrite FloatAxioms.leb_spec in Hab. apply (SFleb_V _ _ Fa Fb) in Hab.
  destruct (SFsub_rounds _ _ Fb Fa) as [_ R].
  specialize (R (S754_zero false) (vf_zero false) ltac:(simpl; lia)).
  rewrite <- FloatAxioms.sub_spec in R.
  destruct R as [R|[F _]];
    [|apply vf_is_finite in F; rewrite F in Fw; discriminate].
  apply Prim2SF_inj.
  rewrite FloatAxioms.add_spec, FloatAxioms.mul_spec, R, Ep.
  change (Prim2SF infinity) with (S754_infinity false).
  destruct Fa as [Fa _].
  destruct (Prim2SF a) as [s|s| |s m e]; simpl in Fa; try contradiction;
    reflexivity.
Qed.

End Binary64.

(* ================================================================== *)
(** * BoundingBox *)

Module BBox.
Import PyFloat.

(** The frozen dataclass: six float fields, in declaration order. *)
Record BoundingBox : Set := mkBoundingBox {
  minx : float;  (* western boundary *)
  maxx : float;  (* eastern boundary *)
  miny : float;  (* southern boundary *)
  maxy : float;  (* northern boundary *)
  mint : float;  (* earliest boundary *)
  maxt : float   (* latest boundary *)
}.

Inductive axis : Set := AxisX | AxisY | AxisT.

(** What the methods raise.  The messages of the source are f-strings over
    the offending values; the payload keeps those values. *)
Inductive bbox_error : Set :=
| InvalidBox (a : axis) (lo hi : float)      (* __post_init__ *)
| NoOverlap (self other : BoundingBox)       (* __and__ *)
| BadProportion                              (* split *)
| IndexOutOfRange                            (* list indexing *)
| SliceStepZero.                             (* list slicing *)

Definition exn_class (e : bbox_error) : pyexn :=
  match e with
  | InvalidBox _ _ _ | NoOverlap _ _ | BadProportion | SliceStepZero => ValueError
  | IndexOutOfRange => IndexError
  end.

(** [__post_init__]: three independent checks, x first. *)
Definition post_init (b : BoundingBox) : result bbox_error unit :=
  if fgt (minx b) (maxx b) then Err (InvalidBox AxisX (minx b) (maxx b))
  else if fgt (miny b) (maxy b) then Err (InvalidBox AxisY (miny b) (maxy b))
  else if fgt (mint b) (maxt b) then Err (InvalidBox AxisT (mint b) (maxt b))
  else Ok tt.

(** The constructor call [BoundingBox(minx, maxx, miny, maxy, mint, maxt)]. *)
Definition new (x0 x1 y0 y1 t0 t1 : float) : result bbox_error BoundingBox :=
  let b := mkBoundingBox x0 x1 y0 y1 t0 t1 in
  bind (post_init b) (fun _ => Ok b).

(** The list the indexing and iteration methods build. *)
Definition to_list (b : BoundingBox) : list float :=
  [minx b; maxx b; miny b; maxy b; mint b; maxt b].

(** Keys of [__getitem__]: an integer or a slice [start:stop:step]. *)
Inductive key : Set :=
| KInt (i : Z)
| KSlice (start stop step : option Z).

Inductive item : Set :=
| Item (x : float)
| Items (l : list float).

(** Python list indexing by an integer: negative indices count from the
    end; anything outside [-len, len) raises IndexError. *)
Definition list_index (l : list float) (i : Z) : result bbox_error float :=
  let n := Z.of_nat (length l) in
  let j := if (i <? 0)%Z then (i + n)%Z else i in
  if ((j <? 0) || (n <=? j))%Z then Err IndexOutOfRange
  else match nth_error l (Z.to_nat j) with
       | Some x => Ok x
       | None => Err IndexOutOfRange
       end.

(** Clamping of one slice bound, as [slice.indices] does. *)
Definition clamp_bound (n step : Z) (dflt : Z) (o : option Z) : Z :=
  match o with
  | None => dflt
  | Some v =>
      let v' := if (v <? 0)%Z then (v + n)%Z else v in
      if (v' <? 0)%Z then (if (step <? 0)%Z then (-1)%Z else 0%Z)
      else if (n <=? v')%Z then (if (step <? 0)%Z then (n - 1)%Z else n)
      else v'
  end.

Fixpoint slice_take (l : list float) (start step : Z) (count : nat) : list float :=
  match count with
  | O => []
  | S c =>
      match nth_error l (Z.to_nat start) with
      | Some x => x :: slice_take l (start + step)%Z step c
      | None => []
      end
  end.

Definition list_slice (l : list float) (start stop step : option Z)
  : result bbox_error (list float) :=
  let n := Z.of_nat (length l) in
  let st := match step with None => 1%Z | Some s => s end in
  if (st =? 0)%Z then Err SliceStepZero
  else
    let lo := clamp_bound n st (if (st <? 0)%Z then (n - 1)%Z else 0%Z) start in
    let hi := clamp_bound n st (if (st <? 0)%Z then (-1)%Z else n) stop in
    let count :=
      if (0 <? st)%Z
      then (if (lo <? hi)%Z then ((hi - lo - 1) / st + 1)%Z else 0%Z)
      else (if (hi <? lo)%Z then ((lo - hi - 1) / (- st) + 1)%Z else 0%Z) in
    Ok (slice_take l lo st (Z.to_nat count)).

(** [__getitem__] *)
Definition getitem (b : BoundingBox) (k : key) : result bbox_error item :=
  match k with
  | KInt i => bind (list_index (to_list b) i) (fun x => Ok (Item x))
  | KSlice start stop step =>
      bind (list_slice (to_list b) start stop step) (fun l => Ok (Items l))
  end.

(** [__iter__] *)
Definition iter (b : BoundingBox) : list float := to_list b.

(** [__contains__]: [other in self]. *)
Definition contains (self other : BoundingBox) : bool :=
  (fle (minx self) (minx other) && fle (minx other) (maxx self))
  && (fle (minx self) (maxx other) && fle (maxx other) (maxx self))
  && (fle (miny self) (miny other) && fle (miny other) (maxy self))
  && (fle (miny self) (maxy other) && fle (maxy other) (maxy self))
  && (fle (mint self) (mint other) && fle (mint other) (maxt self))
  && (fle (mint self) (maxt other) && fle (maxt other) (maxt self)).

(** [__or__]: the union operator. *)
Definition union (self other : BoundingBox) : result bbox_error BoundingBox :=
  new (py_min (minx self) (minx other))
      (py_max (maxx self) (maxx other))
      (py_min (miny self) (miny other))
      (py_max (maxy self) (maxy other))
      (py_min (mint self) (mint other))
      (py_max (maxt self) (maxt other)).

(** [__and__]: the intersection operator; the constructor's ValueError is
    caught and replaced by the "do not overlap" ValueError. *)
Definition intersect (self other : BoundingBox) : result bbox_error BoundingBox :=
  match new (py_max (minx self) (minx other))
            (py_min (maxx self) (maxx other))
            (py_max (miny self) (miny other))
            (py_min (maxy self) (maxy other))
            (py_max (mint self) (mint other))
            (py_min (maxt self) (maxt other)) with
  | Ok b => Ok b
  | Err e =>
      match exn_class e with
      | ValueError => Err (NoOverlap self other)
      | _ => Err e
      end
  end.

Definition area (b : BoundingBox) : float :=
  ((maxx b - minx b) * (maxy b - miny b))%float.

Definition volume (b : BoundingBox) : float :=
  (area b * (maxt b - mint b))%float.

Definition intersects (self other : BoundingBox) : bool :=
  fle (minx self) (maxx other)
  && fge (maxx self) (minx other)
  && fle (miny self) (maxy other)
  && fge (maxy self) (miny other)
  && fle (mint self) (maxt other)
  && fge (maxt self) (mint other).

(** [split] *)
Definition split (self : BoundingBox) (proportion : float) (horizontal : bool)
  : result bbox_error (BoundingBox * BoundingBox) :=
  if negb (flt 0 proportion && flt proportion 1) then Err BadProportion
  else if horizontal then
    let w := (maxx self - minx self)%float in
    let splitx := (minx self + w * proportion)%float in
    bind (new (minx self) splitx (miny self) (maxy self) (mint self) (maxt self))
      (fun bbox1 =>
    bind (new splitx (maxx self) (miny self) (maxy self) (mint self) (maxt self))
      (fun bbox2 => Ok (bbox1, bbox2)))
  else
    let h := (maxy self - miny self)%float in
    let splity := (miny self + h * proportion)%float in
    bind (new (minx self) (maxx self) (miny self) splity (mint self) (maxt self))
      (fun bbox1 =>
    bind (new (minx self) (maxx self) splity (maxy self) (mint self) (maxt self))
      (fun bbox2 => Ok (bbox1, bbox2))).

(** Equality of two boxes as the dataclass [__eq__] computes it: the field
    tuples are compared with [==], so [0.0] and [-0.0] are equal. *)
Definition bbox_eqb (a b : BoundingBox) : bool :=
  feq (minx a) (minx b) && feq (maxx a) (maxx b)
  && feq (miny a) (miny b) && feq (maxy a) (maxy b)
  && feq (mint a) (mint b) && feq (maxt a) (maxt b).

(** A valid box (data model): six finite bounds that passed the
    constructor's checks. *)
Definition finite_bounds (b : BoundingBox) : Prop :=
  Forall (fun x => is_finite x = true) (to_list b).

Definition valid (b : BoundingBox) : Prop :=
  finite_bounds b /\ post_init b = Ok tt.

(** The axis [split] cuts, and the coordinate it computes on it. *)
Definition split_lo (b : BoundingBox) (horizontal : bool) : float :=
  if horizontal then minx b else miny b.
Definition split_hi (b : BoundingBox) (horizontal : bool) : float :=
  if horizontal then maxx b else maxy b.
Definition split_point (b : BoundingBox) (p : float) (horizontal : bool) : float :=
  (split_lo b horizontal + (split_hi b horizontal - split_lo b horizontal) * p)%float.

(** [b] with the upper (resp. lower) bound of the split axis replaced. *)
Definition with_hi (b : BoundingBox) (horizontal : bool) (s : float) : BoundingBox :=
  if horizontal then mkBoundingBox (minx b) s (miny b) (maxy b) (mint b) (maxt b)
  else mkBoundingBox (minx b) (maxx b) (miny b) s (mint b) (maxt b).
Definition with_lo (b : BoundingBox) (horizontal : bool) (s : float) : BoundingBox :=
  if horizontal then mkBoundingBox s (maxx b) (miny b) (maxy b) (mint b) (maxt b)
  else mkBoundingBox (minx b) (maxx b) s (maxy b) (mint b) (maxt b).

(** The bounds of a box are numbers and each axis is ordered. *)
Record ordered (b : BoundingBox) : Prop := mkOrdered {
  ord_nminx : num (minx b); ord_nmaxx : num (maxx b);
  ord_nminy : num (miny b); ord_nmaxy : num (maxy b);
  ord_nmint : num (mint b); ord_nmaxt : num (maxt b);
  ord_x : fle (minx b) (maxx b) = true;
  ord_y : fle (miny b) (maxy b) = true;
  ord_t : fle (mint b) (maxt b) = true
}.

(** A box written down by its six bounds, without the constructor's checks. *)
Definition box (x0 x1 y0 y1 t0 t1 : float) : BoundingBox :=
  mkBoundingBox x0 x1 y0 y1 t0 t1.

(** ** Facts about the constructor and validity *)

Lemma new_ok x0 x1 y0 y1 t0 t1 :
  fle x0 x1 = true -> fle y0 y1 = true -> fle t0 t1 = true ->
  new x0 x1 y0 y1 t0 t1 = Ok (mkBoundingBox x0 x1 y0 y1 t0 t1).
Proof.
  intros Hx Hy Ht. unfold new, post_init, fgt; simpl.
  rewrite (fle_nlt _ _ Hx), (fle_nlt _ _ Hy), (fle_nlt _ _ Ht). reflexivity.
Qed.

Lemma new_inv x0 x1 y0 y1 t0 t1 b :
  new x0 x1 y0 y1 t0 t1 = Ok b ->
  b = mkBoundingBox x0 x1 y0 y1 t0 t1
  /\ fgt x0 x1 = false /\ fgt y0 y1 = false /\ fgt t0 t1 = false.
Proof.
  unfold new, post_init; simpl.
  destruct (fgt x0 x1); [discriminate|].
  destruct (fgt y0 y1); [discriminate|].
  destruct (fgt t0 t1); [discriminate|].
  simpl. intros [= <-]. auto.
Qed.

Lemma new_err_class x0 x1 y0 y1 t0 t1 e :
  new x0 x1 y0 y1 t0 t1 = Err e -> exn_class e = ValueError.
Proof.
  unfold new, post_init; simpl.
  destruct (fgt x0 x1); [intros [= <-]; reflexivity|].
  destruct (fgt y0 y1); [intros [= <-]; reflexivity|].
  destruct (fgt t0 t1); [intros [= <-]; reflexivity|].
  discriminate.
Qed.

Lemma valid_ordered b : valid b -> ordered b.
Proof.
  intros [Hf Hp]. unfold finite_bounds, to_list in Hf.
  repeat match goal with
         | H : Forall _ (_ :: _) |- _ => apply Forall_cons_iff in H; destruct H as [? H]
         end.
  repeat match goal with
         | H : is_finite _ = true |- _ => apply finite_num in H
         end.
  unfold post_init, fgt in Hp.
  destruct (flt (maxx b) (minx b)) eqn:Ex; [discriminate|].
  destruct (flt (maxy b) (miny b)) eqn:Ey; [discriminate|].
  destruct (flt (maxt b) (mint b)) eqn:Et; [discriminate|].
  constructor; auto using nlt_fle.
Qed.

Create HintDb fle discriminated.
#[local] Hint Resolve fle_refl py_min_le_l py_min_le_r py_max_ge_l py_max_ge_r
  py_min_num py_max_num py_min_glb py_max_lub
  ord_nminx ord_nmaxx ord_nminy ord_nmaxy ord_nmint ord_nmaxt ord_x ord_y ord_t : fle.

Ltac fle_via m := apply (fle_trans _ m); auto 3 with fle.

Lemma contains_intro (s o : BoundingBox) :
  ordered o ->
  fle (minx s) (minx o) = true -> fle (maxx o) (maxx s) = true ->
  fle (miny s) (miny o) = true -> fle (maxy o) (maxy s) = true ->
  fle (mint s) (mint o) = true -> fle (maxt o) (maxt s) = true ->
  contains s o = true.
Proof.
  intros Ho Hx0 Hx1 Hy0 Hy1 Ht0 Ht1. unfold contains.
  repeat (apply andb_true_intro; split); try assumption.
  - fle_via (maxx o).
  - fle_via (minx o).
  - fle_via (maxy o).
  - fle_via (miny o).
  - fle_via (maxt o).
  - fle_via (mint o).
Qed.

Lemma contains_elim (s o : BoundingBox) :
  contains s o = true ->
  fle (minx s) (minx o) = true /\ fle (maxx o) (maxx s) = true /\
  fle (miny s) (miny o) = true /\ fle (maxy o) (maxy s) = true /\
  fle (mint s) (mint o) = true /\ fle (maxt o) (maxt s) = true.
Proof.
  unfold contains. intros H.
  repeat match goal with
         | H : _ && _ = true |- _ => apply andb_prop in H; destruct H
         end.
  repeat split; assumption.
Qed.

Lemma union_ok A B :
  ordered A -> ordered B ->
  union A B = Ok (mkBoundingBox
                    (py_min (minx A) (minx B)) (py_max (maxx A) (maxx B))
                    (py_min (miny A) (miny B)) (py_max (maxy A) (maxy B))
                    (py_min (mint A) (mint B)) (py_max (maxt A) (maxt B))).
Proof.
  intros HA HB. unfold union. apply new_ok.
  - fle_via (minx A). fle_via (maxx A).
  - fle_via (miny A). fle_via (maxy A).
  - fle_via (mint A). fle_via (maxt A).
Qed.

Lemma intersect_inv A B I :
  ordered A -> ordered B -> intersect A B = Ok I ->
  I = mkBoundingBox
        (py_max (minx A) (minx B)) (py_min (maxx A) (maxx B))
        (py_max (miny A) (miny B)) (py_min (maxy A) (maxy B))
        (py_max (mint A) (mint B)) (py_min (maxt A) (maxt B))
  /\ ordered I.
Proof.
  intros HA HB. unfold intersect.
  destruct (new _ _ _ _ _ _) as [b|e] eqn:E.
  - intros [= <-]. apply new_inv in E. destruct E as (-> & Hx & Hy & Ht).
    split; [reflexivity|]. unfold fgt in *.
    constructor; simpl; auto 3 with fle; apply nlt_fle; auto 3 with fle.
  - rewrite (new_err_class _ _ _ _ _ _ _ E). discriminate.
Qed.

(** C1: a union contains both operands, and an intersection that succeeds is
    contained in both operands. *)
Theorem union_intersect_contains (A B : BoundingBox) :
  valid A -> valid B ->
  (exists U, union A B = Ok U /\ contains U A = true /\ contains U B = true)
  /\ (forall I, intersect A B = Ok I -> contains A I = true /\ contains B I = true).
Proof.
  intros HA HB. apply valid_ordered in HA, HB. split.
  - eexists. split; [apply union_ok; assumption|].
    split; apply contains_intro; simpl; auto 3 with fle.
  - intros I HI. destruct (intersect_inv A B I HA HB HI) as [-> HO].
    pose proof (ord_x _ HO) as Hx. pose proof (ord_y _ HO) as Hy.
    pose proof (ord_t _ HO) as Ht. simpl in Hx, Hy, Ht.
    split; apply contains_intro; simpl; auto 3 with fle.
Qed.

Lemma valid_compute b :
  forallb is_finite (to_list b) = true -> is_ok (post_init b) = true -> valid b.
Proof.
  intros Hf Hp. split.
  - unfold finite_bounds. revert Hf. generalize (to_list b) as l.
    induction l as [|x l IH]; simpl; intros H; constructor;
      apply andb_prop in H; destruct H; auto.
  - destruct (post_init b) as [[]|]; [reflexivity | discriminate].
Qed.

Lemma union_intersect_contains_witness :
  (exists U, union (box 0 2 0 2 0 2) (box 1 3 1 3 1 3) = Ok U
             /\ contains U (box 0 2 0 2 0 2) = true
             /\ contains U (box 1 3 1 3 1 3) = true)
  /\ (forall I, intersect (box 0 2 0 2 0 2) (box 1 3 1 3 1 3) = Ok I ->
                contains (box 0 2 0 2 0 2) I = true
                /\ contains (box 1 3 1 3 1 3) I = true).
Proof.
  apply (union_intersect_contains (box 0 2 0 2 0 2) (box 1 3 1 3 1 3));
    apply valid_compute; vm_compute; reflexivity.
Defined.

(** ** Intersection test *)

Lemma intersect_ok A B :
  fle (py_max (minx A) (minx B)) (py_min (maxx A) (maxx B)) = true ->
  fle (py_max (miny A) (miny B)) (py_min (maxy A) (maxy B)) = true ->
  fle (py_max (mint A) (mint B)) (py_min (maxt A) (maxt B)) = true ->
  exists I, intersect A B = Ok I.
Proof.
  intros Hx Hy Ht. unfold intersect. rewrite (new_ok _ _ _ _ _ _ Hx Hy Ht).
  eexists; reflexivity.
Qed.

Lemma intersects_elim A B :
  intersects A B = true ->
  (fle (minx A) (maxx B) = true /\ fle (minx B) (maxx A) = true)
  /\ (fle (miny A) (maxy B) = true /\ fle (miny B) (maxy A) = true)
  /\ (fle (mint A) (maxt B) = true /\ fle (mint B) (maxt A) = true).
Proof.
  unfold intersects, fge. intros H.
  repeat match goal with
         | H : _ && _ = true |- _ => apply andb_prop in H; destruct H
         end.
  repeat split; assumption.
Qed.

Lemma intersects_intro A B :
  fle (minx A) (maxx B) = true -> fle (minx B) (maxx A) = true ->
  fle (miny A) (maxy B) = true -> fle (miny B) (maxy A) = true ->
  fle (mint A) (maxt B) = true -> fle (mint B) (maxt A) = true ->
  intersects A B = true.
Proof.
  intros. unfold intersects, fge.
  repeat (apply andb_true_intro; split); assumption.
Qed.

(** One axis: the two intervals meet iff the larger lower bound is below the
    smaller upper bound. *)
Lemma axis_overlap a0 a1 b0 b1 :
  num a0 -> num a1 -> num b0 -> num b1 ->
  fle a0 a1 = true -> fle b0 b1 = true ->
  (fle a0 b1 = true /\ fle b0 a1 = true)
  <-> fle (py_max a0 b0) (py_min a1 b1) = true.
Proof.
  intros Na0 Na1 Nb0 Nb1 Ha Hb. split.
  - intros [H1 H2]. apply py_max_lub; apply py_min_glb; assumption.
  - intros H. apply py_max_le_inv in H; try assumption. destruct H as [H1 H2].
    apply py_min_ge_inv in H1, H2; try assumption. tauto.
Qed.

(** C3: [intersects] is true exactly when [&] returns a box; bounds are
    inclusive, so two boxes that only touch on the x axis intersect. *)
Theorem intersects_iff_intersect (A B : BoundingBox) :
  valid A -> valid B ->
  (intersects A B = true <-> exists I, intersect A B = Ok I)
  /\ (maxx A = minx B ->
      fle (miny A) (maxy B) = true -> fle (miny B) (maxy A) = true ->
      fle (mint A) (maxt B) = true -> fle (mint B) (maxt A) = true ->
      intersects A B = true).
Proof.
  intros HA HB. apply valid_ordered in HA, HB.
  destruct HA as [? ? ? ? ? ? Ax Ay At], HB as [? ? ? ? ? ? Bx By Bt].
  split; [split|].
  - intros H. apply intersects_elim in H. destruct H as (Hx & Hy & Ht).
    apply intersect_ok; apply axis_overlap; assumption.
  - intros [I HI]. unfold intersect in HI.
    destruct (new _ _ _ _ _ _) as [b|e] eqn:E.
    + apply new_inv in E. destruct E as (_ & Hx & Hy & Ht). unfold fgt in *.
      apply nlt_fle in Hx, Hy, Ht; auto using py_min_num, py_max_num.
      apply axis_overlap in Hx, Hy, Ht; try assumption.
      apply intersects_intro; tauto.
    + rewrite (new_err_class _ _ _ _ _ _ _ E) in HI. discriminate.
  - intros Htouch Hy1 Hy2 Ht1 Ht2. apply intersects_intro; try assumption.
    + apply (fle_trans _ (maxx A)); [assumption|]. rewrite Htouch. assumption.
    + rewrite <- Htouch. apply fle_refl. assumption.
Qed.

Lemma intersects_iff_intersect_witness :
  (intersects (box 0 1 0 1 0 1) (box 1 2 0 1 0 1) = true
   <-> exists I, intersect (box 0 1 0 1 0 1) (box 1 2 0 1 0 1) = Ok I)
  /\ intersects (box 0 1 0 1 0 1) (box 1 2 0 1 0 1) = true.
Proof.
  assert (VA : valid (box 0 1 0 1 0 1)) by (apply valid_compute; vm_compute; reflexivity).
  assert (VB : valid (box 1 2 0 1 0 1)) by (apply valid_compute; vm_compute; reflexivity).
  destruct (intersects_iff_intersect _ _ VA VB) as [Hiff Htouch].
  split; [exact Hiff|].
  apply Htouch; vm_compute; reflexivity.
Defined.

(** ** Splitting *)

Lemma feq_refl x : num x -> feq x x = true.
Proof.
  unfold num, is_nan, feq. destruct (PrimFloat.eqb x x); simpl; congruence.
Qed.

Lemma py_min_same x : py_min x x = x.
Proof. unfold py_min. destruct (flt x x); reflexivity. Qed.

Lemma py_max_same x : py_max x x = x.
Proof. unfold py_max, fgt. destruct (flt x x); reflexivity. Qed.

Lemma py_min_left a b : fle a b = true -> py_min a b = a.
Proof. intros H. unfold py_min. rewrite (fle_nlt _ _ H). reflexivity. Qed.

Lemma py_max_feq a b : num b -> fle a b = true -> feq (py_max a b) b = true.
Proof.
  intros Nb H. unfold py_max, fgt. destruct (flt a b) eqn:E.
  - apply feq_refl; assumption.
  - apply fle_antisym; [assumption | apply nlt_fle; eauto using fle_num_l].
Qed.

(** When the computed split coordinate lies within the split axis, [split]
    returns the two halves of the box cut at that coordinate, equal to the
    box on every other bound, and their union is equal to the box. *)
Lemma split_within (A : BoundingBox) (p : float) (horizontal : bool) :
  valid A ->
  flt 0 p = true -> flt p 1 = true ->
  fle (split_lo A horizontal) (split_point A p horizontal) = true ->
  fle (split_point A p horizontal) (split_hi A horizontal) = true ->
  split A p horizontal
  = Ok (with_hi A horizontal (split_point A p horizontal),
        with_lo A horizontal (split_point A p horizontal))
  /\ exists U,
      union (with_hi A horizontal (split_point A p horizontal))
            (with_lo A horizontal (split_point A p horizontal)) = Ok U
      /\ bbox_eqb U A = true.
Proof.
  intros HA Hp0 Hp1 Hlo Hhi. apply valid_ordered in HA.
  destruct HA as [Nx0 Nx1 Ny0 Ny1 Nt0 Nt1 Ax Ay At].
  unfold split. rewrite Hp0, Hp1. simpl negb. cbv iota.
  unfold split_point, split_lo, split_hi, with_hi, with_lo in *.
  destruct horizontal.
  - set (s := (minx A + (maxx A - minx A) * p)%float) in *.
    rewrite (new_ok _ _ _ _ _ _ Hlo Ay At), (new_ok _ _ _ _ _ _ Hhi Ay At).
    split; [reflexivity|]. unfold union; simpl.
    rewrite !py_min_same, !py_max_same, (py_min_left _ _ Hlo).
    rewrite new_ok; try assumption.
    + eexists; split; [reflexivity|]. unfold bbox_eqb; simpl.
      rewrite (py_max_feq _ _ Nx1 Hhi), !feq_refl by assumption.
      reflexivity.
    + apply (fle_trans _ s); [assumption|]. apply py_max_ge_l. eauto using fle_num_r.
  - set (s := (miny A + (maxy A - miny A) * p)%float) in *.
    rewrite (new_ok _ _ _ _ _ _ Ax Hlo At), (new_ok _ _ _ _ _ _ Ax Hhi At).
    split; [reflexivity|]. unfold union; simpl.
    rewrite !py_min_same, !py_max_same, (py_min_left _ _ Hlo).
    rewrite new_ok; try assumption.
    + eexists; split; [reflexivity|]. unfold bbox_eqb; simpl.
      rewrite (py_max_feq _ _ Ny1 Hhi), !feq_refl by assumption.
      reflexivity.
    + apply (fle_trans _ s); [assumption|]. apply py_max_ge_l. eauto using fle_num_r.
Qed.

(** C2 fails as stated: on a valid box whose width overflows, the computed
    split coordinate is [+inf] and the constructor of the second half raises. *)
Lemma split_overflow_counterexample :
  valid (box (-0x1p+1023) 0x1p+1023 0 1 0 1)
  /\ flt 0 0.5 = true /\ flt 0.5 1 = true
  /\ split (box (-0x1p+1023) 0x1p+1023 0 1 0 1) 0.5 true
     = Err (InvalidBox AxisX infinity 0x1p+1023).
Proof.
  split; [apply valid_compute; vm_compute; reflexivity|].
  repeat split; vm_compute; reflexivity.
Qed.

(** When the coordinate exceeds the upper bound, the second constructor call
    raises the ValueError of [__post_init__]. *)
Lemma split_beyond_raises (A : BoundingBox) (p : float) (horizontal : bool) :
  valid A ->
  flt 0 p = true -> flt p 1 = true ->
  fgt (split_point A p horizontal) (split_hi A horizontal) = true ->
  split A p horizontal
  = Err (InvalidBox (if horizontal then AxisX else AxisY)
                    (split_point A p horizontal) (split_hi A horizontal)).
Proof.
  intros HA Hp0 Hp1 Hgt. apply valid_ordered in HA.
  destruct HA as [? ? ? ? ? ? Ax Ay At].
  unfold split. rewrite Hp0, Hp1. simpl negb. cbv iota.
  unfold split_point, split_lo, split_hi, fgt in *.
  destruct horizontal.
  - set (s := (minx A + (maxx A - minx A) * p)%float) in *.
    assert (Hlo : fle (minx A) s = true)
      by (apply (fle_trans _ (maxx A)); [assumption | apply flt_fle; assumption]).
    rewrite (new_ok _ _ _ _ _ _ Hlo Ay At). simpl.
    unfold new, post_init, fgt; simpl. rewrite Hgt. reflexivity.
  - set (s := (miny A + (maxy A - miny A) * p)%float) in *.
    assert (Hlo : fle (miny A) s = true)
      by (apply (fle_trans _ (maxy A)); [assumption | apply flt_fle; assumption]).
    rewrite (new_ok _ _ _ _ _ _ Ax Hlo At). simpl.
    unfold new, post_init, fgt; simpl. rewrite (fle_nlt _ _ Ax), Hgt. reflexivity.
Qed.

Lemma valid_split_axis (A : BoundingBox) (horizontal : bool) :
  valid A ->
  is_finite (split_lo A horizontal) = true
  /\ is_finite (split_hi A horizontal) = true
  /\ fle (split_lo A horizontal) (split_hi A horizontal) = true.
Proof.
  intros HA. pose proof (valid_ordered A HA) as [_ _ _ _ _ _ Ax Ay _].
  destruct HA as [Hf _]. unfold finite_bounds, to_list in Hf.
  repeat match goal with
         | H : Forall _ (_ :: _) |- _ => apply Forall_cons_iff in H; destruct H as [? H]
         end.
  unfold split_lo, split_hi. destruct horizontal; auto.
Qed.

(** C2, as the code has it: on a valid box whose width along the split axis
    does not overflow in double precision, and for a proportion strictly
    between 0 and 1, [split] returns the two halves of the box cut at the
    computed coordinate, equal to the box on every other bound, and their
    union is equal to the box. *)
Theorem split_partition (A : BoundingBox) (p : float) (horizontal : bool) :
  valid A ->
  flt 0 p = true -> flt p 1 = true ->
  is_finite (split_hi A horizontal - split_lo A horizontal)%float = true ->
  split A p horizontal
  = Ok (with_hi A horizontal (split_point A p horizontal),
        with_lo A horizontal (split_point A p horizontal))
  /\ exists U,
      union (with_hi A horizontal (split_point A p horizontal))
            (with_lo A horizontal (split_point A p horizontal)) = Ok U
      /\ bbox_eqb U A = true.
Proof.
  intros HA Hp0 Hp1 Hw.
  destruct (valid_split_axis A horizontal HA) as (Flo & Fhi & Hle).
  destruct (Binary64.split_point_bounds _ _ p Flo Fhi Hle Hp0 Hp1 Hw)
    as (_ & Hlo & Hhi).
  apply split_within; assumption.
Qed.

Lemma split_partition_witness :
  split (box 0 8 0 4 0 1) 0.25 true
  = Ok (box 0 2 0 4 0 1, box 2 8 0 4 0 1)
  /\ exists U, union (box 0 2 0 4 0 1) (box 2 8 0 4 0 1) = Ok U
               /\ bbox_eqb U (box 0 8 0 4 0 1) = true.
Proof.
  apply (split_partition (box 0 8 0 4 0 1) 0.25 true);
    [apply valid_compute | | | ]; vm_compute; reflexivity.
Defined.

(** Conversely, when the width overflows the computed coordinate is [+inf]
    and the constructor of the second half raises ValueError. *)
Lemma split_overflow_raises (A : BoundingBox) (p : float) (horizontal : bool) :
  valid A ->
  flt 0 p = true -> flt p 1 = true ->
  is_finite (split_hi A horizontal - split_lo A horizontal)%float = false ->
  split A p horizontal
  = Err (InvalidBox (if horizontal then AxisX else AxisY)
                    infinity (split_hi A horizontal)).
Proof.
  intros HA Hp0 Hp1 Hw.
  destruct (valid_split_axis A horizontal HA) as (Flo & Fhi & Hle).
  pose proof (Binary64.overflow_point _ _ p Flo Fhi Hle Hp0 Hp1 Hw) as E.
  rewrite <- E. apply split_beyond_raises; try assumption.
  fold (split_point A p horizontal) in E. rewrite E.
  unfold fgt, flt. rewrite FloatAxioms.ltb_spec.
  apply Binary64.is_finite_vf in Fhi. destruct Fhi as [Fhi _].
  change (Prim2SF infinity) with (S754_infinity false).
  destruct (Prim2SF (split_hi A horizontal)) as [s|s| |s m e];
    simpl in Fhi; try contradiction; reflexivity.
Qed.

(** ** Indexing *)

(** C9 fails as stated: [-1] is outside [0..5] and indexes the last bound. *)
Lemma getitem_negative_counterexample :
  valid (box 0 1 2 3 4 5)
  /\ ~ (0 <= -1 <= 5)%Z
  /\ getitem (box 0 1 2 3 4 5) (KInt (-1)) = Ok (Item 5).
Proof.
  split; [apply valid_compute; vm_compute; reflexivity|].
  split; [lia | vm_compute; reflexivity].
Qed.

(** C9, as the code has it: positions [0..5] give the bounds in the fixed
    order, positions [-6..-1] give the same bounds counted from the end, and
    every other integer raises IndexError. *)
Theorem getitem_int_spec (b : BoundingBox) (i : Z) :
  ((0 <= i <= 5)%Z ->
   exists x, getitem b (KInt i) = Ok (Item x)
     /\ nth_error [minx b; maxx b; miny b; maxy b; mint b; maxt b] (Z.to_nat i)
        = Some x)
  /\ ((-6 <= i <= -1)%Z ->
      exists x, getitem b (KInt i) = Ok (Item x)
        /\ nth_error [minx b; maxx b; miny b; maxy b; mint b; maxt b]
             (Z.to_nat (i + 6)) = Some x)
  /\ ((i < -6 \/ 5 < i)%Z ->
      exists e, getitem b (KInt i) = Err e /\ exn_class e = IndexError).
Proof.
  split; [|split].
  - intros Hi.
    assert (i = 0 \/ i = 1 \/ i = 2 \/ i = 3 \/ i = 4 \/ i = 5)%Z as H by lia.
    destruct H as [->|[->|[->|[->|[->| ->]]]]]; eexists; split; reflexivity.
  - intros Hi.
    assert (i = -6 \/ i = -5 \/ i = -4 \/ i = -3 \/ i = -2 \/ i = -1)%Z as H by lia.
    destruct H as [->|[->|[->|[->|[->| ->]]]]]; eexists; split; reflexivity.
  - intros Hi. exists IndexOutOfRange. split; [|reflexivity].
    unfold getitem, list_index. simpl length.
    destruct (i <? 0)%Z eqn:E1.
    + apply Z.ltb_lt in E1.
      replace ((i + Z.of_nat 6 <? 0)%Z) with true by (symmetry; apply Z.ltb_lt; lia).
      reflexivity.
    + apply Z.ltb_ge in E1.
      replace ((i <? 0)%Z) with false by (symmetry; apply Z.ltb_ge; lia).
      replace ((Z.of_nat 6 <=? i)%Z) with true by (symmetry; apply Z.leb_le; lia).
      reflexivity.
Qed.

End BBox.

(* ================================================================== *)
(** * Executable *)

Module Exec.

(** Values of keyword arguments. *)
Inductive kwval : Set :=
| KwBool (b : bool)
| KwInt (z : Z)
| KwStr (s : string)
| KwNone.

(** Truth value of a keyword argument ([if check ...]). *)
Definition truthy (v : kwval) : bool :=
  match v with
  | KwBool b => b
  | KwInt z => negb (z =? 0)%Z
  | KwStr s => negb (String.length s =? 0)%nat
  | KwNone => false
  end.

Record CompletedProcess : Set := mkCompleted {
  args : list string;
  returncode : Z;
  stdout : option string;
  stderr : option string
}.

Inductive proc_error : Set :=
| CalledProcessErr (code : Z) (cmd : list string)   (* CalledProcessError *)
| SpawnErr (e : pyexn).       (* what starting or awaiting the child raises *)

(** The operating system: the child run for a command line under the
    remaining keyword arguments. *)
Definition system : Type :=
  list string -> gmap string kwval -> result pyexn CompletedProcess.

(** [subprocess.run(cmd, **kwargs)]: the child is awaited; with a true
    [check], a nonzero exit status raises CalledProcessError. *)
Definition subprocess_run (sys : system) (cmd : list string)
           (kwargs : gmap string kwval) : result proc_error CompletedProcess :=
  let check := match kwargs !! "check"%string with
               | Some v => truthy v
               | None => false
               end in
  match sys cmd (delete "check"%string kwargs) with
  | Err e => Err (SpawnErr e)
  | Ok p =>
      if check && negb (returncode p =? 0)%Z
      then Err (CalledProcessErr (returncode p) cmd)
      else Ok p
  end.

Record Executable : Set := mkExecutable { name : string }.

(** [Executable.__call__] *)
Definition call (sys : system) (self : Executable) (arguments : list string)
           (kwargs : gmap string kwval) : result proc_error CompletedProcess :=
  let kwargs := <["check"%string := KwBool true]> kwargs in
  subprocess_run sys (name self :: arguments) kwargs.

(** C10: whatever the caller passes for [check], the run is checked: a
    child that exits with a nonzero status raises CalledProcessError, and a
    completed process is returned only for the status zero. *)
Theorem call_checked (sys : system) (self : Executable) (arguments : list string)
        (kwargs : gmap string kwval) :
  (forall v, call sys self arguments (<["check"%string := v]> kwargs)
             = call sys self arguments kwargs)
  /\ (forall p, call sys self arguments kwargs = Ok p -> returncode p = 0%Z)
  /\ (forall p, sys (name self :: arguments) (delete "check"%string kwargs) = Ok p ->
        returncode p <> 0%Z ->
        call sys self arguments kwargs
        = Err (CalledProcessErr (returncode p) (name self :: arguments)))
  /\ (forall p, sys (name self :: arguments) (delete "check"%string kwargs) = Ok p ->
        returncode p = 0%Z ->
        call sys self arguments kwargs = Ok p).
Proof.
  assert (Hrun : call sys self arguments kwargs
                 = match sys (name self :: arguments) (delete "check"%string kwargs) with
                   | Err e => Err (SpawnErr e)
                   | Ok p => if negb (returncode p =? 0)%Z
                             then Err (CalledProcessErr (returncode p)
                                                        (name self :: arguments))
                             else Ok p
                   end).
  { unfold call, subprocess_run. rewrite lookup_insert_eq, delete_insert_eq.
    reflexivity. }
  split; [|split; [|split]].
  - intros v. unfold call. rewrite insert_insert_eq. reflexivity.
  - intros p. rewrite Hrun.
    destruct (sys _ _) as [q|e]; [|discriminate].
    destruct (returncode q =? 0)%Z eqn:E; simpl; [|discriminate].
    intros [= <-]. apply Z.eqb_eq. exact E.
  - intros p Hp Hne. rewrite Hrun, Hp.
    apply Z.eqb_neq in Hne. rewrite Hne. reflexivity.
  - intros p Hp Hz. rewrite Hrun, Hp.
    apply Z.eqb_eq in Hz. rewrite Hz. reflexivity.
Qed.

End Exec.

(* ================================================================== *)
(** * Python strings *)

Module PyStr.

(** [needle in hay] *)
Fixpoint str_in (needle hay : string) : bool :=
  String.prefix needle hay
  || match hay with
     | EmptyString => false
     | String _ rest => str_in needle rest
     end.

(** [s.replace(old, new)] for a non-empty [old]: occurrences are replaced
    left to right without overlap; [skip] counts the characters of an
    occurrence still to be dropped. *)
Fixpoint replace_from (old new : string) (skip : nat) (s : string) : string :=
  match s with
  | EmptyString => EmptyString
  | String c rest =>
      match skip with
      | S k => replace_from old new k rest
      | O =>
          if String.prefix old s
          then new ++ replace_from old new (String.length old - 1) rest
          else String c (replace_from old new 0 rest)
      end
  end.

Definition str_replace (old new s : string) : string := replace_from old new 0 s.

(** [s.startswith(p)] *)
Definition startswith (p s : string) : bool := String.prefix p s.

Fixpoint endswith_char (c : ascii) (s : string) : bool :=
  match s with
  | EmptyString => false
  | String x EmptyString => Ascii.eqb x c
  | String _ rest => endswith_char c rest
  end.

(** [os.path.join(a, b)] on POSIX. *)
Definition path_join (a b : string) : string :=
  if startswith "/" b then b
  else if (String.length a =? 0)%nat || endswith_char "/" a then a ++ b
  else a ++ "/" ++ b.

Example str_replace_percent : str_replace "%%" "" "%%Y-%%%m" = "Y-%m"%string.
Proof. reflexivity. Qed.

Example path_join_star : path_join "*" "*.tif" = "*/*.tif"%string.
Proof. reflexivity. Qed.

End PyStr.

(* ================================================================== *)
(** * Partial timestamps *)

Module Timestamp.

Import PyStr.

(** ** The calendar of [datetime] *)

Record datetime : Set := mkdatetime {
  year : Z; month : Z; day : Z;
  hour : Z; minute : Z; second : Z; microsecond : Z
}.

Inductive ts_error : Set :=
| ParseMismatch        (* ValueError: data does not match format *)
| UnconvertedData      (* ValueError: unconverted data remains *)
| BadDirective         (* ValueError: bad directive or stray % in format *)
| RepeatedDirective    (* re.error: redefinition of group name *)
| FieldOutOfRange      (* ValueError of the datetime constructor *)
| DateOverflow         (* OverflowError: date value out of range *)
| UnmodelledDirective. (* a directive outside the modelled subset *)

Definition MINYEAR : Z := 1.
Definition MAXYEAR : Z := 9999.

Definition is_leap (y : Z) : bool :=
  ((y mod 4 =? 0) && (negb (y mod 100 =? 0) || (y mod 400 =? 0)))%Z.

Definition days_in_month (y m : Z) : Z :=
  if (m =? 2)%Z then (if is_leap y then 29 else 28)
  else if ((m =? 4) || (m =? 6) || (m =? 9) || (m =? 11))%Z then 30
  else 31.

(** Days before the first day of month [m] in a non-leap year. *)
Definition DAYS_BEFORE_MONTH (m : Z) : Z :=
  match m with
  | 1 => 0 | 2 => 31 | 3 => 59 | 4 => 90 | 5 => 120 | 6 => 151
  | 7 => 181 | 8 => 212 | 9 => 243 | 10 => 273 | 11 => 304 | 12 => 334
  | _ => 0
  end%Z.

Definition days_before_year (y : Z) : Z :=
  let y1 := (y - 1)%Z in
  (y1 * 365 + y1 / 4 - y1 / 100 + y1 / 400)%Z.

Definition days_before_month (y m : Z) : Z :=
  (DAYS_BEFORE_MONTH m + (if ((2 <? m)%Z && is_leap y) then 1 else 0))%Z.

(** Proleptic Gregorian ordinal: 0001-01-01 is day 1. *)
Definition ymd2ord (y m d : Z) : Z :=
  (days_before_year y + days_before_month y m + d)%Z.

Definition ord2ymd (n0 : Z) : Z * Z * Z :=
  let n := (n0 - 1)%Z in
  let n400 := (n / 146097)%Z in let n := (n mod 146097)%Z in
  let n100 := (n / 36524)%Z in let n := (n mod 36524)%Z in
  let n4 := (n / 1461)%Z in let n := (n mod 1461)%Z in
  let n1 := (n / 365)%Z in let n := (n mod 365)%Z in
  let y := (n400 * 400 + 1 + n100 * 100 + n4 * 4 + n1)%Z in
  if ((n1 =? 4) || (n100 =? 4))%Z then ((y - 1)%Z, 12%Z, 31%Z)
  else
    let leapyear := ((n1 =? 3) && (negb (n4 =? 24) || (n100 =? 3)))%Z in
    let m := Z.shiftr (n + 50) 5 in
    let preceding :=
      (DAYS_BEFORE_MONTH m + (if ((2 <? m)%Z && leapyear) then 1 else 0))%Z in
    if (n <? preceding)%Z then
      let m' := (m - 1)%Z in
      let preceding' :=
        (preceding
         - (days_in_month 1 m' + (if ((m' =? 2)%Z && leapyear) then 1 else 0)))%Z in
      (y, m', (n - preceding' + 1)%Z)
    else (y, m, (n - preceding + 1)%Z).

Definition MAXORDINAL : Z := 3652059.

(** The constructor [datetime(year, month, day, hour, minute, second,
    microsecond)] with its range checks. *)
Definition datetime_new (y m d hh mm ss us : Z) : result ts_error datetime :=
  if ((MINYEAR <=? y) && (y <=? MAXYEAR)
      && (1 <=? m) && (m <=? 12)
      && (1 <=? d) && (d <=? days_in_month y m)
      && (0 <=? hh) && (hh <=? 23)
      && (0 <=? mm) && (mm <=? 59)
      && (0 <=? ss) && (ss <=? 59)
      && (0 <=? us) && (us <=? 999999))%Z
  then Ok (mkdatetime y m d hh mm ss us)
  else Err FieldOutOfRange.

(** A [timedelta], as its total number of microseconds. *)
Definition timedelta (days hours minutes seconds microseconds : Z) : Z :=
  ((((days * 24 + hours) * 60 + minutes) * 60 + seconds) * 1000000
   + microseconds)%Z.

(** Seconds from 0001-01-01T00:00:00 to [dt], read as a wall-clock time. *)
Definition wall_seconds (dt : datetime) : Z :=
  (((ymd2ord (year dt) (month dt) (day dt) * 24 + hour dt) * 60 + minute dt) * 60
   + second dt)%Z.

(** [dt + delta]; [dt - delta] is [dt + (-delta)]. *)
Definition datetime_add (dt : datetime) (delta : Z) : result ts_error datetime :=
  let total := (wall_seconds dt * 1000000 + microsecond dt + delta)%Z in
  let days := (total / 86400000000)%Z in
  let rem := (total mod 86400000000)%Z in
  let secs := (rem / 1000000)%Z in
  let us := (rem mod 1000000)%Z in
  if ((0 <? days) && (days <=? MAXORDINAL))%Z then
    let '(y, m, d) := ord2ymd days in
    Ok (mkdatetime y m d (secs / 3600) ((secs mod 3600) / 60) (secs mod 60) us)%Z
  else Err DateOverflow.

(** ** [datetime.timestamp] of a naive datetime *)

(** Conversion of a Python int to a float, for magnitudes below 2^63. *)
Definition float_of_Z (z : Z) : float :=
  match z with
  | Z0 => 0%float
  | Zpos _ => PrimFloat.of_uint63 (Uint63.of_Z z)
  | Zneg _ => PrimFloat.opp (PrimFloat.of_uint63 (Uint63.of_Z (- z)))
  end.

(** Wall-clock seconds counted from 1970-01-01T00:00:00. *)
Definition EPOCH_SECONDS : Z := (719163 * 86400)%Z.

Definition local_seconds (dt : datetime) : Z := (wall_seconds dt - EPOCH_SECONDS)%Z.

(** The local time zone is a function [tz] from wall-clock seconds to POSIX
    seconds ([mktime]); [utc] is the identity.  The conversion is taken to
    succeed: the ValueError of CPython for a datetime within a day of
    0001-01-01 is left out here, and [Disambiguate] below takes the
    conversion, with what it raises, as a parameter. *)
Definition timestamp (tz : Z -> Z) (dt : datetime) : float :=
  (float_of_Z (tz (local_seconds dt)) + float_of_Z (microsecond dt) / 1e6)%float.

Definition utc (s : Z) : Z := s.

(** ** [datetime.strptime], for the numeric directives *)

Inductive directive : Set := DY | Dy | Dm | Dd | DH | DM | DS | Df | Dj.

Inductive fmt_item : Set :=
| FDir (d : directive)
| FLit (c : ascii)
| FSpace.                 (* a run of white space in the format *)

(** White space, as [\s] and [int] see it among the characters up to
    255. *)
Definition is_space (c : ascii) : bool :=
  let n := nat_of_ascii c in
  (n =? 32)%nat || ((9 <=? n)%nat && (n <=? 13)%nat)
  || ((28 <=? n)%nat && (n <=? 31)%nat) || (n =? 133)%nat || (n =? 160)%nat.

Definition is_digit (c : ascii) : bool :=
  let n := nat_of_ascii c in (48 <=? n)%nat && (n <=? 57)%nat.

Definition digit_val (c : ascii) : Z := Z.of_nat (nat_of_ascii c - 48).

Definition lower (c : ascii) : ascii :=
  let n := nat_of_ascii c in
  if (65 <=? n)%nat && (n <=? 90)%nat then ascii_of_nat (n + 32) else c.

(** The directive of a letter.  The directives of names, of the locale, of
    the week and of the zone are known and left out of this model
    ([UnmodelledDirective]); [Disambiguate] below takes [strptime] as a
    parameter and so covers every format. *)
Definition directive_of (c : ascii) : result ts_error directive :=
  match c with
  | "Y" => Ok DY | "y" => Ok Dy | "m" => Ok Dm | "d" => Ok Dd
  | "H" => Ok DH | "M" => Ok DM | "S" => Ok DS | "f" => Ok Df | "j" => Ok Dj
  | "a" | "A" | "b" | "B" | "c" | "I" | "p" | "U" | "w" | "W" | "x" | "X"
  | "z" | "Z" | "G" | "u" | "V" => Err UnmodelledDirective
  | _ => Err BadDirective
  end%char.

(** The format, cut into items; [prev_space] merges a run of white space. *)
Fixpoint parse_format (prev_space : bool) (pct : bool) (f : string)
  : result ts_error (list fmt_item) :=
  match f with
  | EmptyString => if pct then Err BadDirective else Ok []
  | String c rest =>
      if pct then
        if Ascii.eqb c "%" then
          bind (parse_format false false rest) (fun l => Ok (FLit "%" :: l))
        else
          bind (directive_of c) (fun d =>
          bind (parse_format false false rest) (fun l => Ok (FDir d :: l)))
      else if Ascii.eqb c "%" then parse_format false true rest
      else if is_space c then
        if prev_space then parse_format true false rest
        else bind (parse_format true false rest) (fun l => Ok (FSpace :: l))
      else bind (parse_format false false rest) (fun l => Ok (FLit c :: l))
  end.

Definition directive_eqb (a b : directive) : bool :=
  match a, b with
  | DY, DY | Dy, Dy | Dm, Dm | Dd, Dd | DH, DH | DM, DM | DS, DS | Df, Df
  | Dj, Dj => true
  | _, _ => false
  end.

Fixpoint directives (l : list fmt_item) : list directive :=
  match l with
  | [] => []
  | FDir d :: l => d :: directives l
  | _ :: l => directives l
  end.

Fixpoint has_repeat (l : list directive) : bool :=
  match l with
  | [] => false
  | d :: l => existsb (directive_eqb d) l || has_repeat l
  end.

(** One alternative of a directive's pattern: a character class per
    position. *)
Definition cclass : Set := ascii -> bool.

Definition rng (lo hi : nat) : cclass :=
  fun c => is_digit c && (lo <=? nat_of_ascii c - 48)%nat && (nat_of_ascii c - 48 <=? hi)%nat.
Definition dig : cclass := is_digit.
Definition chr (x : ascii) : cclass := fun c => Ascii.eqb c x.

(** The alternatives of each directive, in the order the pattern tries
    them. *)
Definition alternatives (d : directive) : list (list cclass) :=
  match d with
  | DY => [[dig; dig; dig; dig]]
  | Dy => [[dig; dig]]
  | Dm => [[chr "1"; rng 0 2]; [chr "0"; rng 1 9]; [rng 1 9]]
  | Dd => [[chr "3"; rng 0 1]; [rng 1 2; dig]; [chr "0"; rng 1 9]; [rng 1 9];
           [chr " "; rng 1 9]]
  | DH => [[chr "2"; rng 0 3]; [rng 0 1; dig]; [dig]]
  | DM => [[rng 0 5; dig]; [dig]]
  | DS => [[chr "6"; rng 0 1]; [rng 0 5; dig]; [dig]]
  | Df => [[dig; dig; dig; dig; dig; dig]; [dig; dig; dig; dig; dig];
           [dig; dig; dig; dig]; [dig; dig; dig]; [dig; dig]; [dig]]
  | Dj => [[chr "3"; chr "6"; rng 0 6]; [chr "3"; rng 0 5; dig];
           [rng 1 2; dig; dig]; [chr "0"; rng 1 9; dig];
           [chr "0"; chr "0"; rng 1 9]; [rng 1 9; dig]; [chr "0"; rng 1 9];
           [rng 1 9]]
  end.

(** Match one alternative at the head of [s]: the text matched (reversed
    accumulator [acc]) and the rest. *)
Fixpoint match_classes (cs : list cclass) (s : list ascii) (acc : list ascii)
  : option (list ascii * list ascii) :=
  match cs with
  | [] => Some (rev acc, s)
  | c :: cs =>
      match s with
      | x :: s' => if c x then match_classes cs s' (x :: acc) else None
      | [] => None
      end
  end.

(** The non-empty prefixes of the leading white space of [s], longest
    first, each with what follows it. *)
Fixpoint space_splits (s : list ascii) : list (list ascii) :=
  match s with
  | x :: s' => if is_space x then space_splits s' ++ [s'] else []
  | [] => []
  end.

Definition first_some {A B : Type} (f : A -> option B) : list A -> option B :=
  fix go (l : list A) : option B :=
    match l with
    | [] => None
    | x :: l => match f x with Some r => Some r | None => go l end
    end.

(** The groups found by the match, one text per directive. *)
Definition groups : Set := list (directive * list ascii).

(** The match of the compiled pattern at the start of [s], with
    backtracking over the alternatives in order; like [re.match], it need
    not reach the end of [s]. *)
Fixpoint match_items (items : list fmt_item) (s : list ascii) (g : groups)
  : option (groups * list ascii) :=
  match items with
  | [] => Some (g, s)
  | FLit c :: rest =>
      match s with
      | x :: s' =>
          if Ascii.eqb (lower x) (lower c) then match_items rest s' g else None
      | [] => None
      end
  | FSpace :: rest =>
      first_some (fun s' => match_items rest s' g) (space_splits s)
  | FDir d :: rest =>
      first_some
        (fun cs =>
           match match_classes cs s [] with
           | Some (txt, s') => match_items rest s' ((d, txt) :: g)
           | None => None
           end)
        (alternatives d)
  end.

Definition int_of (txt : list ascii) : Z :=
  fold_left (fun acc c => (acc * 10 + digit_val c)%Z) txt 0%Z.

Definition int_of_trimmed (txt : list ascii) : Z :=
  int_of (filter (fun c => negb (is_space c)) txt).

Definition group (g : groups) (d : directive) : option (list ascii) :=
  match find (fun p => directive_eqb (fst p) d) g with
  | Some p => Some (snd p)
  | None => None
  end.

Definition group_int (g : groups) (d : directive) (dflt : Z) : Z :=
  match group g d with Some txt => int_of_trimmed txt | None => dflt end.

(** Fraction of a second: the digits are padded with zeros to six. *)
Definition fraction_of (txt : list ascii) : Z :=
  (int_of txt * 10 ^ Z.of_nat (6 - length txt))%Z.

Definition strptime (date_str format : string) : result ts_error datetime :=
  bind (parse_format false false format) (fun items =>
  if has_repeat (directives items) then Err RepeatedDirective
  else
    match match_items items (list_ascii_of_string date_str) [] with
    | None => Err ParseMismatch
    | Some (g, rest) =>
        match rest with
        | _ :: _ => Err UnconvertedData
        | [] =>
            (* the groups are read in the order of the format, so that of
               [%Y] and [%y] the later one decides; [g] holds the latest
               group first *)
            let y :=
              match find (fun p => directive_eqb (fst p) DY
                                   || directive_eqb (fst p) Dy) g with
              | Some (DY, txt) => int_of txt
              | Some (_, txt) =>
                  let v := int_of txt in
                  if (v <=? 68)%Z then (v + 2000)%Z else (v + 1900)%Z
              | None => 1900%Z
              end in
            let m := group_int g Dm 1 in
            let d := group_int g Dd 1 in
            let hh := group_int g DH 0 in
            let mm := group_int g DM 0 in
            let ss := group_int g DS 0 in
            let us := match group g Df with Some txt => fraction_of txt | None => 0%Z end in
            match group g Dj with
            | None => datetime_new y m d hh mm ss us
            | Some txt =>
                bind (datetime_new y 1 1 0 0 0 0) (fun _ =>
                let ord := (int_of txt - 1 + ymd2ord y 1 1)%Z in
                if (ord <=? MAXORDINAL)%Z then
                  let '(y', m', d') := ord2ymd ord in
                  datetime_new y' m' d' hh mm ss us
                else Err FieldOutOfRange)
            end
        end
    end).

(** ** [disambiguate_timestamp] *)

(** A returned bound: the first branch returns ints, the others floats. *)
Inductive pynum : Set :=
| PInt (z : Z)
| PFloat (x : float).

(** [sys.maxsize] (64-bit build). *)
Definition sys_maxsize : Z := (2 ^ 63 - 1)%Z.

(** [any([f'%{c}' in format for c in codes])] *)
Definition any_code (codes : string) (format : string) : bool :=
  existsb (fun c => str_in (String "%" (String c EmptyString)) format)
          (list_ascii_of_string codes).

Definition disambiguate_timestamp (tz : Z -> Z) (date_str format : string)
  : result ts_error (pynum * pynum) :=
  bind (strptime date_str format) (fun mint =>
  let format := str_replace "%%" "" format in
  if negb (any_code "yYcxG" format) then
    (* No temporal info *)
    Ok (PInt 0, PInt sys_maxsize)
  else
    bind
      (if negb (any_code "bBmjUWcxV" format) then
         (* Year resolution *)
         datetime_new (year mint + 1) 1 1 0 0 0 0
       else if negb (any_code "aAwdjcxV" format) then
         (* Month resolution *)
         if (month mint =? 12)%Z then datetime_new (year mint + 1) 1 1 0 0 0 0
         else datetime_new (year mint) (month mint + 1) 1 0 0 0 0
       else if negb (any_code "HIcX" format) then
         (* Day resolution *)
         datetime_add mint (timedelta 1 0 0 0 0)
       else if negb (any_code "McX" format) then
         (* Hour resolution *)
         datetime_add mint (timedelta 0 1 0 0 0)
       else if negb (any_code "ScX" format) then
         (* Minute resolution *)
         datetime_add mint (timedelta 0 0 1 0 0)
       else if negb (any_code "f" format) then
         (* Second resolution *)
         datetime_add mint (timedelta 0 0 0 1 0)
       else
         (* Microsecond resolution *)
         datetime_add mint (timedelta 0 0 0 0 1))
      (fun maxt =>
    bind (datetime_add maxt (- timedelta 0 0 0 0 1)) (fun maxt =>
    Ok (PFloat (timestamp tz mint), PFloat (timestamp tz maxt))))).

Definition dt (y m d hh mm ss us : Z) : datetime := mkdatetime y m d hh mm ss us.

(** ** The two dated examples *)

Example strptime_year : strptime "2020" "%Y" = Ok (dt 2020 1 1 0 0 0 0).
Proof. vm_compute. reflexivity. Qed.

Example strptime_year_month : strptime "2020-12" "%Y-%m" = Ok (dt 2020 12 1 0 0 0 0).
Proof. vm_compute. reflexivity. Qed.

Example strptime_mismatch : strptime "20-12" "%Y-%m" = Err ParseMismatch.
Proof. vm_compute. reflexivity. Qed.

(** C4: a bare year spans from its first instant to its last microsecond,
    and December rolls over into the next year; in UTC the bounds are the
    seconds 1577836800 and 1609459199 plus 999999 microseconds. *)
Theorem disambiguate_2020 (tz : Z -> Z) :
  disambiguate_timestamp tz "2020" "%Y"
  = Ok (PFloat (timestamp tz (dt 2020 1 1 0 0 0 0)),
        PFloat (timestamp tz (dt 2020 12 31 23 59 59 999999)))
  /\ disambiguate_timestamp tz "2020-12" "%Y-%m"
     = Ok (PFloat (timestamp tz (dt 2020 12 1 0 0 0 0)),
           PFloat (timestamp tz (dt 2020 12 31 23 59 59 999999)))
  /\ local_seconds (dt 2020 1 1 0 0 0 0) = 1577836800%Z
  /\ local_seconds (dt 2020 12 31 23 59 59 999999) = 1609459199%Z
  /\ timestamp utc (dt 2020 1 1 0 0 0 0) = 1577836800%float
  /\ timestamp utc (dt 2020 12 31 23 59 59 999999)
     = (1609459199 + 999999 / 1000000)%float.
Proof.
  repeat split; vm_compute; reflexivity.
Qed.

End Timestamp.

(* ================================================================== *)
(** * Collation of samples *)

Module Collate.

(** ** Tensors

    A tensor is its shape and its elements in row-major order.  Elements
    are integers; the collation functions never look at them except through
    [torch.maximum]. *)
Record tensor : Set := mkTensor { shape : list nat; data : list Z }.

Definition numel (s : list nat) : nat := fold_right Nat.mul 1%nat s.

Definition wf_tensor (t : tensor) : Prop := length (data t) = numel (shape t).

(** The values a sample holds under its keys. *)
#[local] Set Warnings "-register-all".
Inductive value : Set :=
| VTensor (t : tensor)
| VList (l : list value)
| VTuple (l : list value)
| VStr (s : string)
| VInt (z : Z).
#[local] Set Warnings "register-all".

Definition is_tensor (v : value) : bool :=
  match v with VTensor _ => true | _ => false end.

Fixpoint mapM {E A B : Type} (f : A -> result E B) (l : list A) : result E (list B) :=
  match l with
  | [] => Ok []
  | x :: l => y <- f x ;; ys <- mapM f l ;; Ok (y :: ys)
  end.

Fixpoint foldM {E A B : Type} (f : B -> A -> result E B) (l : list A) (b : B)
  : result E B :=
  match l with
  | [] => Ok b
  | x :: l => b' <- f b x ;; foldM f l b'
  end.

(** [n] consecutive pieces of [size] elements. *)
Fixpoint chunks (size n : nat) (l : list Z) : list (list Z) :=
  match n with
  | O => []
  | S n => take size l :: chunks size n (drop size l)
  end.

Definition as_tensor (v : value) : result pyexn tensor :=
  match v with VTensor t => Ok t | _ => Err TypeError end.

Definition same_shape (a b : tensor) : bool := bool_decide (shape a = shape b).

(** [torch.stack(values)]: a new leading axis; the operands must be
    tensors of one shape, and there must be at least one. *)
Definition torch_stack (values : list value) : result pyexn tensor :=
  ts <- mapM as_tensor values ;;
  match ts with
  | [] => Err RuntimeError
  | t0 :: _ =>
      if forallb (same_shape t0) ts
      then Ok (mkTensor (length ts :: shape t0) (concat (data <$> ts)))
      else Err RuntimeError
  end.

(** [torch.cat(values)]: concatenation along the existing leading axis.
    Zero-dimensional operands are refused, empty one-dimensional operands
    are skipped, the others must agree on every axis but the first. *)
Definition torch_cat (values : list value) : result pyexn tensor :=
  ts <- mapM as_tensor values ;;
  match ts with
  | [] => Err RuntimeError
  | _ =>
      if existsb (fun t => bool_decide (shape t = [])) ts then Err RuntimeError
      else
        match filter (fun t => shape t <> [0%nat]) ts with
        | [] => Ok (mkTensor [0%nat] [])
        | t0 :: ts' =>
            if forallb (fun t => bool_decide (tail (shape t) = tail (shape t0))) ts'
            then Ok (mkTensor
                       (sum_list ((fun t => hd 0%nat (shape t)) <$> (t0 :: ts'))
                        :: tail (shape t0))
                       (concat (data <$> (t0 :: ts'))))
            else Err RuntimeError
        end
  end.

(** [torch.unbind(t)]: the slices along the leading axis. *)
Definition torch_unbind (t : tensor) : result pyexn (list tensor) :=
  match shape t with
  | [] => Err RuntimeError
  | n :: rest => Ok (mkTensor rest <$> chunks (numel rest) n (data t))
  end.

(** Broadcasting of two shapes, aligned on the right. *)
Fixpoint broadcast_rev (a b : list nat) : option (list nat) :=
  match a, b with
  | [], s | s, [] => Some s
  | x :: a', y :: b' =>
      r ← broadcast_rev a' b';
      if bool_decide (x = y) then Some (x :: r)
      else if bool_decide (x = 1%nat) then Some (y :: r)
      else if bool_decide (y = 1%nat) then Some (x :: r)
      else None
  end.

Definition broadcast_shape (a b : list nat) : option (list nat) :=
  match broadcast_rev (rev a) (rev b) with
  | Some r => Some (rev r)
  | None => None
  end.

(** The elements of a tensor of shape [s] expanded to shape [out], both of
    the same rank. *)
Fixpoint expand (s out : list nat) (d : list Z) : list Z :=
  match s, out with
  | n :: s', m :: out' =>
      let pieces := expand s' out' <$> chunks (numel s') n d in
      if bool_decide (n = m) then concat pieces
      else concat (mjoin (replicate m pieces))
  | _, _ => d
  end.

Definition pad_rank (r : nat) (s : list nat) : list nat :=
  replicate (r - length s) 1%nat ++ s.

(** [torch.maximum(a, b)]: the elementwise maximum, after broadcasting when
    the shapes differ. *)
Definition torch_maximum (a b : value) : result pyexn tensor :=
  ta <- as_tensor a ;;
  tb <- as_tensor b ;;
  if same_shape ta tb then
    Ok (mkTensor (shape ta) (zip_with Z.max (data ta) (data tb)))
  else
    match broadcast_shape (shape ta) (shape tb) with
    | None => Err RuntimeError
    | Some out =>
        let r := length out in
        Ok (mkTensor out
              (zip_with Z.max
                 (expand (pad_rank r (shape ta)) out (data ta))
                 (expand (pad_rank r (shape tb)) out (data tb))))
    end.

(** [len(v)] and the elements [enumerate(v)] runs over. *)
Definition py_len (v : value) : result pyexn nat :=
  match v with
  | VList l | VTuple l => Ok (length l)
  | VStr s => Ok (String.length s)
  | VTensor t => match shape t with n :: _ => Ok n | [] => Err TypeError end
  | VInt _ => Err TypeError
  end.

Definition py_iter (v : value) : result pyexn (list value) :=
  match v with
  | VList l | VTuple l => Ok l
  | VStr s => Ok ((fun c => VStr (String c EmptyString)) <$> list_ascii_of_string s)
  | VTensor t =>
      match torch_unbind t with
      | Ok ts => Ok (VTensor <$> ts)
      | Err _ => Err TypeError
      end
  | VInt _ => Err TypeError
  end.

(** ** Mappings and the heap

    A sample is a dict from string keys to values.  The dicts the caller
    passes in are objects of a heap, addressed by location, so that a
    write by the callee is visible to the caller. *)
Abbreviation dict := (gmap string value).
Abbreviation heap := (gmap nat (gmap string value)).

Definition M (A : Type) : Type := heap -> result pyexn A * heap.

Definition ret {A} (a : A) : M A := fun h => (Ok a, h).

Definition lift {A} (r : result pyexn A) : M A := fun h => (r, h).

Definition bindM {A B} (m : M A) (k : A -> M B) : M B :=
  fun h =>
    match m h with
    | (Ok a, h') => k a h'
    | (Err e, h') => (Err e, h')
    end.

Notation "x <~ m ;; k" := (bindM m (fun x => k))
  (at level 100, m at next level, right associativity, only parsing).

(** The dict stored at [l]. *)
Definition deref (h : heap) (l : nat) : dict := default ∅ (h !! l).

(** [d.items()] *)
Definition items (l : nat) : M (list (string * value)) :=
  fun h => (Ok (map_to_list (deref h l)), h).

(** [d[key] = v] *)
Definition setitem (l : nat) (key : string) (v : value) : M unit :=
  fun h => (Ok tt, <[l := <[key := v]> (deref h l)]> h).

(** A new dict object. *)
Definition alloc (d : dict) : M nat :=
  fun h => let l := fresh (dom h) in (Ok l, <[l := d]> h).

Fixpoint foldMM {A B : Type} (f : B -> A -> M B) (l : list A) (b : B) : M B :=
  match l with
  | [] => ret b
  | x :: l => b' <~ f b x ;; foldMM f l b'
  end.

(** ** The collation functions *)

(** [_list_dict_to_dict_list] *)
Definition _list_dict_to_dict_list (samples : list nat)
  : M (gmap string (list value)) :=
  foldMM
    (fun collated sample =>
       its <~ items sample ;;
       ret (foldl
              (fun c kv => <[kv.1 := default [] (c !! kv.1) ++ [kv.2]]> c)
              collated its))
    samples ∅.

(** [_dict_list_to_list_dict]: the inner loop writes one row, the outer
    loop runs it for every key. *)
Definition d2l_inner (k : string) (unc : list dict) (iv : nat * value)
  : result pyexn (list dict) :=
  if (iv.1 <? length unc)%nat
  then Ok (alter (insert k iv.2) iv.1 unc)
  else Err IndexError.

Definition d2l_outer (uncollated : list dict) (kv : string * value)
  : result pyexn (list dict) :=
  values <- py_iter kv.2 ;;
  foldM (d2l_inner kv.1) (zip (seq 0 (length values)) values) uncollated.

Definition _dict_list_to_list_dict (sample : nat) : M (list dict) :=
  its <~ items sample ;;
  lift (lens <- mapM py_len (snd <$> its) ;;
        match lens with
        | [] => Err ValueError
        | _ => foldM d2l_outer its (replicate (max_list lens) (∅ : dict))
        end).

Definition head_of (values : list value) : result pyexn value :=
  match values with
  | v :: _ => Ok v
  | [] => Err IndexError
  end.

(** [stack_samples] *)
Definition stack_samples (samples : list nat) : M dict :=
  collated <~ _list_dict_to_dict_list samples ;;
  lift (foldM
          (fun c kv =>
             v0 <- head_of kv.2 ;;
             if is_tensor v0 then
               t <- torch_stack kv.2 ;; Ok (<[kv.1 := VTensor t]> c)
             else Ok c)
          (map_to_list collated) (VList <$> collated)).

(** [concat_samples] *)
Definition concat_samples (samples : list nat) : M dict :=
  collated <~ _list_dict_to_dict_list samples ;;
  lift (foldM
          (fun c kv =>
             v0 <- head_of kv.2 ;;
             if is_tensor v0 then
               t <- torch_cat kv.2 ;; Ok (<[kv.1 := VTensor t]> c)
             else Ok (<[kv.1 := v0]> c))
          (map_to_list collated) (VList <$> collated)).

(** [merge_samples] *)
Definition merge_step (c : dict) (kv : string * value) : result pyexn dict :=
  match c !! kv.1 with
  | Some old =>
      if is_tensor kv.2 then
        (* Take the maximum so that nodata values (zeros) get replaced
           by data values whenever possible *)
        t <- torch_maximum old kv.2 ;; Ok (<[kv.1 := VTensor t]> c)
      else Ok (<[kv.1 := kv.2]> c)
  | None => Ok (<[kv.1 := kv.2]> c)
  end.

Definition merge_samples (samples : list nat) : M dict :=
  foldMM
    (fun collated sample =>
       its <~ items sample ;;
       lift (foldM merge_step its collated))
    samples ∅.

(** [unbind_samples] *)
Definition unbind_step (sample : nat) (_ : unit) (kv : string * value) : M unit :=
  match kv.2 with
  | VTensor t =>
      ts <~ lift (torch_unbind t) ;;
      setitem sample kv.1 (VTuple (VTensor <$> ts))
  | _ => ret tt
  end.

Definition unbind_samples (sample : nat) : M (list dict) :=
  its <~ items sample ;;
  _ <~ foldMM (unbind_step sample) its tt ;;
  _dict_list_to_list_dict sample.

(** [unbind_samples(stack_samples(samples))]: the stacked sample is a new
    dict object, handed to [unbind_samples]. *)
Definition unbind_stack (samples : list nat) : M (list dict) :=
  stacked <~ stack_samples samples ;;
  l <~ alloc stacked ;;
  unbind_samples l.

(** The batch a list of locations denotes in a heap. *)
Definition batch_of (h : heap) (samples : list nat) : list dict :=
  deref h <$> samples.

(** The values a batch holds under one key, in batch order. *)
Definition column (k : string) (batch : list dict) : list value :=
  omap (fun d : dict => d !! k) batch.

(** What [_list_dict_to_dict_list] computes from the dicts it reads,
    starting from the lists [acc]. *)
Definition collate_from (acc : gmap string (list value)) (batch : list dict)
  : gmap string (list value) :=
  foldl
    (fun coll d =>
       foldl (fun c kv => <[kv.1 := default [] (c !! kv.1) ++ [kv.2]]> c)
             coll (map_to_list d))
    acc batch.

(** The values under one key are all tensors of one shape, or none of them
    is a tensor (data model: values under a key are homogeneous). *)
Definition tensor_of_shape (s : list nat) (v : value) : Prop :=
  exists t, v = VTensor t /\ shape t = s /\ wf_tensor t.

Definition homogeneous (vs : list value) : Prop :=
  (exists s, Forall (tensor_of_shape s) vs)
  \/ Forall (fun v => is_tensor v = false) vs.

(** The entry the loop of [stack_samples] writes for the list [values]
    ([None]: the entry is left alone), and likewise for the other loops. *)
Definition stack_entry (_ : option value) (values : list value)
  : result pyexn (option value) :=
  v0 <- head_of values ;;
  if is_tensor v0 then t <- torch_stack values ;; Ok (Some (VTensor t))
  else Ok None.

Definition unbind_entry (_ : option value) (v : value)
  : result pyexn (option value) :=
  match v with
  | VTensor t => ts <- torch_unbind t ;; Ok (Some (VTuple (VTensor <$> ts)))
  | _ => Ok None
  end.

Definition merge_entry (old : option value) (v : value)
  : result pyexn (option value) :=
  match old with
  | Some o =>
      if is_tensor v then t <- torch_maximum o v ;; Ok (Some (VTensor t))
      else Ok (Some v)
  | None => Ok (Some v)
  end.

(** What [stack_samples] leaves under a key whose column is [vs]. *)
Definition stacked (vs : list value) (o : option value) : Prop :=
  match vs with
  | [] => o = None
  | _ =>
      (exists s ts,
          vs = VTensor <$> ts
          /\ Forall (fun t => shape t = s /\ wf_tensor t) ts
          /\ o = Some (VTensor (mkTensor (length ts :: s) (concat (data <$> ts)))))
      \/ (Forall (fun v => is_tensor v = false) vs /\ o = Some (VList vs))
  end.

(** Row [i] of the result of the inner loop of [_dict_list_to_list_dict]
    for the key [k] and the values [vs], enumerated from [s]. *)
Definition set_rows (k : string) (vs : list value) (s : nat) (unc : list dict)
  : list dict :=
  imap (fun i row =>
          if decide (s <= i)%nat then
            match vs !! (i - s)%nat with
            | Some v => <[k := v]> row
            | None => row
            end
          else row) unc.

(** Example heaps: one stacked sample with a tensor of two elements; two
    samples to merge; two samples with a [(3, 3)] array each. *)
Definition heap_image : heap :=
  {[ 0%nat := {[ "image"%string := VTensor (mkTensor [2%nat] [1%Z; 2%Z]) ]} ]}.

Definition heap_masks : heap :=
  <[ 0%nat := {[ "m"%string := VTensor (mkTensor [3%nat] [0%Z; 5%Z; 0%Z]) ]} ]>
    {[ 1%nat := {[ "m"%string := VTensor (mkTensor [3%nat] [3%Z; 0%Z; 0%Z]) ]} ]}.

(** Two samples whose masks differ in length, and two samples of which
    only the second holds a tensor. *)
Definition heap_mismatch : heap :=
  <[ 0%nat := {[ "m"%string := VTensor (mkTensor [2%nat] [0%Z; 5%Z]) ]} ]>
    {[ 1%nat := {[ "m"%string := VTensor (mkTensor [3%nat] [3%Z; 0%Z; 0%Z]) ]} ]}.

Definition heap_late_tensor : heap :=
  <[ 0%nat := {[ "m"%string := VInt 7 ]} ]>
    {[ 1%nat := {[ "m"%string := VTensor (mkTensor [3%nat] [3%Z; 0%Z; 0%Z]) ]} ]}.

Definition arr1 : tensor :=
  mkTensor [3%nat; 3%nat] [1; 2; 3; 4; 5; 6; 7; 8; 9]%Z.
Definition arr2 : tensor :=
  mkTensor [3%nat; 3%nat] [10; 20; 30; 40; 50; 60; 70; 80; 90]%Z.

Definition heap_arrays : heap :=
  <[ 0%nat := {[ "a"%string := VTensor arr1 ]} ]>
    {[ 1%nat := {[ "a"%string := VTensor arr2 ]} ]}.

(** What the loops of [merge_samples] do to the entry of one key, given the
    values [vs] the batch holds under it. *)
Definition merge_col (o : option value) (vs : list value)
  : result pyexn (option value) :=
  foldM merge_entry vs o.

(** The elementwise maximum of two tensors of one shape. *)
Definition tmax (a b : tensor) : tensor :=
  mkTensor (shape a) (zip_with Z.max (data a) (data b)).

(** [r] holds, at every position, the largest of the elements the tensors
    [ts] hold there. *)
Definition elementwise_max (ts : list tensor) (r : tensor) : Prop :=
  forall i x, data r !! i = Some x ->
    (forall t, t ∈ ts -> exists y, data t !! i = Some y /\ (y <= x)%Z)
    /\ (exists t, t ∈ ts /\ data t !! i = Some x).

(** What [merge_samples] leaves under a key whose column is [vs]. *)
Definition merged (vs : list value) (o : option value) : Prop :=
  match vs with
  | [] => o = None
  | _ =>
      (exists ts r,
          vs = VTensor <$> ts
          /\ o = Some (VTensor r)
          /\ Forall (fun t => shape t = shape r) ts
          /\ wf_tensor r
          /\ elementwise_max ts r)
      \/ (Forall (fun v => is_tensor v = false) vs /\ o = last vs)
  end.

(** A computation that never writes the heap. *)
Definition readonly {A} (m : M A) : Prop := forall h, (m h).2 = h.

(** ** Read-only computations *)

Lemma readonly_ret {A} (a : A) : readonly (ret a).
Proof. intros h; reflexivity. Qed.

Lemma readonly_lift {A} (r : result pyexn A) : readonly (lift r).
Proof. intros h; reflexivity. Qed.

Lemma readonly_items l : readonly (items l).
Proof. intros h; reflexivity. Qed.

Lemma readonly_bindM {A B} (m : M A) (k : A -> M B) :
  readonly m -> (forall a, readonly (k a)) -> readonly (bindM m k).
Proof.
  intros Hm Hk h. unfold bindM. specialize (Hm h).
  destruct (m h) as [[a|e] h']; simpl in *; subst; [apply Hk | reflexivity].
Qed.

Lemma readonly_foldMM {A B} (f : B -> A -> M B) l b :
  (forall b x, readonly (f b x)) -> readonly (foldMM f l b).
Proof.
  intros Hf. revert b. induction l as [|x l IH]; intros b; simpl.
  - apply readonly_ret.
  - apply readonly_bindM; auto.
Qed.

Create HintDb readonly discriminated.
#[local] Hint Resolve readonly_ret readonly_lift readonly_items : readonly.

Ltac readonly_tac :=
  repeat first
    [ apply readonly_bindM; [|intros ?]
    | apply readonly_foldMM; intros ? ?
    | solve [auto with readonly] ].

Lemma readonly_l2d samples : readonly (_list_dict_to_dict_list samples).
Proof. unfold _list_dict_to_dict_list. readonly_tac. Qed.

Lemma readonly_d2l sample : readonly (_dict_list_to_list_dict sample).
Proof. unfold _dict_list_to_list_dict. readonly_tac. Qed.

Lemma readonly_stack samples : readonly (stack_samples samples).
Proof. unfold stack_samples. pose proof (readonly_l2d samples). readonly_tac. Qed.

Lemma readonly_concat samples : readonly (concat_samples samples).
Proof. unfold concat_samples. pose proof (readonly_l2d samples). readonly_tac. Qed.

Lemma readonly_merge samples : readonly (merge_samples samples).
Proof. unfold merge_samples. readonly_tac. Qed.

(** ** Loops over the items of a dict

    Every loop of the collation functions visits the items of a dict once
    and writes, at most, the entry of the key it visits. *)

Section KeyLocal.
Context {A B : Type}.

(** A loop that may raise and may leave the entry alone. *)
Variable g : option B -> A -> result pyexn (option B).

Definition keylocal_step (c : gmap string B) (kv : string * A)
  : result pyexn (gmap string B) :=
  ob <- g (c !! kv.1) kv.2 ;;
  match ob with
  | Some b => Ok (<[kv.1 := b]> c)
  | None => Ok c
  end.

Definition written (old : option B) (ob : option B) : option B :=
  match ob with Some b => Some b | None => old end.

Lemma list_to_map_not_in (l : list (string * A)) (k : string) :
  k ∉ l.*1 -> (list_to_map l : gmap string A) !! k = None.
Proof. intros H. apply not_elem_of_list_to_map_1. exact H. Qed.

(** A pure loop: the new entry is computed from the old one. *)
Lemma foldl_keylocal (f : option B -> A -> B) (l : list (string * A))
      (acc : gmap string B) (k : string) :
  NoDup l.*1 ->
  foldl (fun c kv => <[kv.1 := f (c !! kv.1) kv.2]> c) acc l !! k
  = match (list_to_map l : gmap string A) !! k with
    | Some v => Some (f (acc !! k) v)
    | None => acc !! k
    end.
Proof.
  revert acc. induction l as [|[k0 v0] l IH]; intros acc Hnd; simpl.
  - rewrite lookup_empty. reflexivity.
  - apply NoDup_cons in Hnd. destruct Hnd as [Hk0 Hnd].
    rewrite IH by assumption. destruct (decide (k0 = k)) as [->|Hne].
    + rewrite lookup_insert_eq. rewrite (list_to_map_not_in l k Hk0).
      rewrite lookup_insert_eq. reflexivity.
    + rewrite (lookup_insert_ne (list_to_map l) k0 k) by assumption.
      rewrite lookup_insert_ne by assumption. reflexivity.
Qed.

Lemma foldM_keylocal (l : list (string * A)) (acc r : gmap string B) :
  NoDup l.*1 ->
  foldM keylocal_step l acc = Ok r ->
  forall k,
    match (list_to_map l : gmap string A) !! k with
    | Some v => exists ob, g (acc !! k) v = Ok ob /\ r !! k = written (acc !! k) ob
    | None => r !! k = acc !! k
    end.
Proof.
  revert acc. induction l as [|[k0 v0] l IH]; intros acc Hnd Hr k; simpl in *.
  - injection Hr as <-. rewrite lookup_empty. reflexivity.
  - apply NoDup_cons in Hnd. destruct Hnd as [Hk0 Hnd].
    unfold keylocal_step in Hr at 1. simpl in Hr.
    destruct (g (acc !! k0) v0) as [ob|e] eqn:Eg; simpl in Hr; [|discriminate].
    set (acc' := match ob with Some b => <[k0 := b]> acc | None => acc end).
    assert (Hr' : foldM keylocal_step l acc' = Ok r)
      by (subst acc'; destruct ob; exact Hr).
    specialize (IH acc' Hnd Hr' k).
    destruct (decide (k0 = k)) as [->|Hne].
    + rewrite lookup_insert_eq. rewrite (list_to_map_not_in l k Hk0) in IH.
      exists ob. split; [assumption|]. rewrite IH. subst acc'.
      destruct ob; simpl; [apply lookup_insert_eq | reflexivity].
    + rewrite lookup_insert_ne by assumption.
      assert (Hacc : acc' !! k = acc !! k)
        by (subst acc'; destruct ob; [apply lookup_insert_ne; assumption | reflexivity]).
      rewrite Hacc in IH. exact IH.
Qed.

Lemma foldM_keylocal_ok (l : list (string * A)) (acc : gmap string B) :
  NoDup l.*1 ->
  (forall k v, (k, v) ∈ l -> exists ob, g (acc !! k) v = Ok ob) ->
  exists r, foldM keylocal_step l acc = Ok r.
Proof.
  revert acc. induction l as [|[k0 v0] l IH]; intros acc Hnd Hok; simpl.
  - eexists; reflexivity.
  - apply NoDup_cons in Hnd. destruct Hnd as [Hk0 Hnd].
    destruct (Hok k0 v0) as [ob Eg]; [left|].
    unfold keylocal_step at 1. simpl. rewrite Eg. simpl.
    set (acc' := match ob with Some b => <[k0 := b]> acc | None => acc end).
    destruct (IH acc' Hnd) as [r Hr].
    + intros k v Hin.
      assert (Hne : k0 <> k).
      { intros ->. apply Hk0. apply list_elem_of_fmap. exists (k, v). split; [reflexivity | assumption]. }
      assert (Hacc : acc' !! k = acc !! k)
        by (subst acc'; destruct ob; [apply lookup_insert_ne; assumption | reflexivity]).
      rewrite Hacc. apply Hok. right. assumption.
    + exists r. subst acc'. destruct ob; exact Hr.
Qed.

End KeyLocal.

(** ** Transposition of a batch into lists *)

Lemma l2d_run samples acc h :
  foldMM
    (fun collated sample =>
       its <~ items sample ;;
       ret (foldl
              (fun c kv => <[kv.1 := default [] (c !! kv.1) ++ [kv.2]]> c)
              collated its))
    samples acc h
  = (Ok (collate_from acc (batch_of h samples)), h).
Proof.
  revert acc. induction samples as [|l samples IH]; intros acc; simpl.
  - reflexivity.
  - unfold bindM at 1. simpl. rewrite IH. reflexivity.
Qed.

Lemma column_cons k (d : dict) batch :
  column k (d :: batch)
  = match d !! k with Some v => v :: column k batch | None => column k batch end.
Proof. reflexivity. Qed.

Lemma collate_from_lookup acc batch k :
  collate_from acc batch !! k
  = match acc !! k, column k batch with
    | None, [] => None
    | o, vs => Some (default [] o ++ vs)
    end.
Proof.
  revert acc. induction batch as [|d batch IH]; intros acc.
  - simpl. destruct (acc !! k); simpl; [rewrite app_nil_r|]; reflexivity.
  - unfold collate_from in *. simpl foldl. rewrite IH.
    rewrite (foldl_keylocal (fun o v => default [] o ++ [v]))
      by apply NoDup_fst_map_to_list.
    rewrite list_to_map_to_list, column_cons.
    destruct (d !! k) as [v|]; [|reflexivity].
    destruct (acc !! k) as [l0|]; simpl.
    + rewrite <- app_assoc. simpl. destruct (l0 ++ [v]) eqn:E; [|reflexivity].
      destruct l0; discriminate.
    + reflexivity.
Qed.

Lemma collate_lookup batch k :
  collate_from ∅ batch !! k
  = match column k batch with [] => None | vs => Some vs end.
Proof. rewrite collate_from_lookup, lookup_empty. reflexivity. Qed.

(** ** Tensors: stacking and unbinding *)

Lemma chunks_concat size (ds : list (list Z)) :
  Forall (fun d => length d = size) ds ->
  chunks size (length ds) (concat ds) = ds.
Proof.
  induction 1 as [|d ds Hd _ IH]; simpl; [reflexivity|].
  rewrite take_app_length' by first [assumption | symmetry; assumption].
  rewrite drop_app_length' by first [assumption | symmetry; assumption]. rewrite IH. reflexivity.
Qed.

Lemma length_chunks size n l : length (chunks size n l) = n.
Proof. revert l. induction n; intros l; simpl; [|rewrite IHn]; reflexivity. Qed.

Lemma mapM_as_tensor ts : mapM as_tensor (VTensor <$> ts) = Ok ts.
Proof.
  induction ts as [|t ts IH]; [reflexivity|].
  rewrite fmap_cons. cbn [mapM as_tensor bind]. rewrite IH. reflexivity.
Qed.

Lemma tensors_of_shape s vs :
  Forall (tensor_of_shape s) vs ->
  exists ts, vs = VTensor <$> ts
             /\ Forall (fun t => shape t = s /\ wf_tensor t) ts.
Proof.
  induction 1 as [|v vs (t & -> & Hs & Hw) _ (ts & -> & Hts)].
  - exists []. split; [reflexivity | constructor].
  - exists (t :: ts). split; [reflexivity | constructor; auto].
Qed.

Lemma torch_stack_ok s t0 ts :
  Forall (fun t => shape t = s /\ wf_tensor t) (t0 :: ts) ->
  torch_stack (VTensor <$> (t0 :: ts))
  = Ok (mkTensor (length (t0 :: ts) :: s) (concat (data <$> (t0 :: ts)))).
Proof.
  intros H.
  assert (Hs0 : shape t0 = s) by (apply Forall_cons in H; tauto).
  assert (Hall : forallb (same_shape t0) (t0 :: ts) = true).
  { apply forallb_forall. intros t Hin.
    apply list_elem_of_In in Hin. rewrite Forall_forall in H.
    unfold same_shape. apply bool_decide_eq_true.
    destruct (H t Hin) as [-> _]. assumption. }
  unfold torch_stack. rewrite mapM_as_tensor. cbn [bind].
  rewrite Hall, Hs0. reflexivity.
Qed.

Lemma torch_unbind_stack s ts :
  Forall (fun t => shape t = s /\ wf_tensor t) ts ->
  torch_unbind (mkTensor (length ts :: s) (concat (data <$> ts))) = Ok ts.
Proof.
  intros H. unfold torch_unbind. simpl. f_equal.
  replace (length ts) with (length (data <$> ts)) by apply length_fmap.
  rewrite chunks_concat.
  - induction H as [|t ts [Hs _] _ IH]; [reflexivity|].
    rewrite !fmap_cons, IH. f_equal. destruct t; simpl in *; subst; reflexivity.
  - apply Forall_fmap. eapply Forall_impl; [exact H|].
    intros t [Hs Hw]. simpl. unfold wf_tensor in Hw. rewrite Hw, Hs. reflexivity.
Qed.

(** ** [stack_samples] *)

Lemma stack_samples_unfold samples h :
  stack_samples samples h
  = (foldM (keylocal_step stack_entry)
       (map_to_list (collate_from ∅ (batch_of h samples)))
       (VList <$> collate_from ∅ (batch_of h samples)), h).
Proof.
  unfold stack_samples, _list_dict_to_dict_list, bindM. rewrite l2d_run.
  unfold lift. f_equal.
  generalize (VList <$> collate_from ∅ (batch_of h samples)) as acc.
  generalize (map_to_list (collate_from ∅ (batch_of h samples))) as l.
  induction l as [|kv l IH]; intros acc; simpl; [reflexivity|].
  assert (E : forall c, (v0 <- head_of kv.2 ;;
                         if is_tensor v0
                         then t <- torch_stack kv.2 ;; Ok (<[kv.1 := VTensor t]> c)
                         else Ok c)
                        = keylocal_step stack_entry c kv).
  { intros c. unfold keylocal_step, stack_entry.
    destruct (head_of kv.2) as [v0|e]; simpl; [|reflexivity].
    destruct (is_tensor v0); simpl; [|reflexivity].
    destruct (torch_stack kv.2); reflexivity. }
  rewrite E. destruct (keylocal_step stack_entry acc kv); simpl; [apply IH | reflexivity].
Qed.

Lemma stack_entry_homogeneous o v vs :
  homogeneous (v :: vs) ->
  exists ob, stack_entry o (v :: vs) = Ok ob
             /\ stacked (v :: vs) (written (Some (VList (v :: vs))) ob).
Proof.
  intros [[s H]|H].
  - destruct (tensors_of_shape s _ H) as (ts & E & Hts).
    destruct ts as [|t0 ts]; [discriminate|].
    pose proof (torch_stack_ok s t0 ts Hts) as Hst. rewrite <- E in Hst.
    unfold stack_entry. simpl head_of. cbn [bind].
    assert (Hv : is_tensor v = true)
      by (rewrite fmap_cons in E; injection E as -> _; reflexivity).
    rewrite Hv, Hst. cbn [bind].
    eexists; split; [reflexivity|]. simpl written.
    left. exists s, (t0 :: ts). auto.
  - unfold stack_entry. simpl head_of. cbn [bind].
    assert (Hv : is_tensor v = false) by (apply Forall_cons in H; tauto).
    rewrite Hv. eexists; split; [reflexivity|]. simpl. right. auto.
Qed.

Lemma stack_run samples h :
  (forall k, homogeneous (column k (batch_of h samples))) ->
  exists c, stack_samples samples h = (Ok c, h)
            /\ forall k, stacked (column k (batch_of h samples)) (c !! k).
Proof.
  intros Hhom. rewrite stack_samples_unfold.
  set (batch := batch_of h samples) in *.
  set (coll := collate_from ∅ batch).
  destruct (foldM_keylocal_ok stack_entry (map_to_list coll) (VList <$> coll))
    as [c Hc].
  - apply NoDup_fst_map_to_list.
  - intros k vs Hin. apply elem_of_map_to_list in Hin.
    unfold coll in Hin. rewrite collate_lookup in Hin.
    destruct (column k batch) as [|v vs'] eqn:Ecol; [discriminate|].
    injection Hin as <-. specialize (Hhom k). rewrite Ecol in Hhom.
    destruct (stack_entry_homogeneous (((VList <$> coll) : dict) !! k) v vs' Hhom)
      as (ob & Hob & _).
    exists ob. exact Hob.
  - exists c. split; [rewrite Hc; reflexivity|]. intros k.
    pose proof (foldM_keylocal stack_entry _ _ _
                  (NoDup_fst_map_to_list coll) Hc k) as Hk.
    rewrite list_to_map_to_list in Hk. rewrite lookup_fmap in Hk.
    unfold coll in Hk. rewrite collate_lookup in Hk.
    destruct (column k batch) as [|v vs'] eqn:Ecol; simpl in Hk.
    + simpl. exact Hk.
    + destruct Hk as (ob & Hob & Hck). specialize (Hhom k). rewrite Ecol in Hhom.
      destruct (stack_entry_homogeneous (Some (VList (v :: vs'))) v vs' Hhom)
        as (ob' & Hob' & Hst).
      rewrite Hob in Hob'. injection Hob' as <-. rewrite Hck. exact Hst.
Qed.

(** ** The loop of [unbind_samples] *)

Lemma deref_insert (h : heap) l d : deref (<[l := d]> h) l = d.
Proof. unfold deref. rewrite lookup_insert_eq. reflexivity. Qed.

Lemma unbind_loop l its : forall h r h',
  foldMM (unbind_step l) its tt h = (r, h') ->
  (forall l', l' <> l -> h' !! l' = h !! l')
  /\ (forall k, (forall v, (k, v) ∈ its -> is_tensor v = false) ->
                deref h' l !! k = deref h l !! k)
  /\ (r = Ok tt ->
      foldM (keylocal_step unbind_entry) its (deref h l) = Ok (deref h' l))
  /\ (forall d', foldM (keylocal_step unbind_entry) its (deref h l) = Ok d' ->
                 r = Ok tt).
Proof.
  induction its as [|[k0 v0] its IH]; intros h r h' Hrun; simpl in Hrun.
  - injection Hrun as <- <-. repeat split; auto.
  - unfold bindM in Hrun at 1.
    destruct (unbind_step l tt (k0, v0) h) as [[[]|e] h1] eqn:E1.
    + destruct (IH h1 r h' Hrun) as (F1 & F2 & F3 & F4).
      assert (Hstep : (forall l', l' <> l -> h1 !! l' = h !! l')
                      /\ (is_tensor v0 = false -> h1 = h)
                      /\ keylocal_step unbind_entry (deref h l) (k0, v0)
                         = Ok (deref h1 l)
                      /\ (forall k, k <> k0 -> deref h1 l !! k = deref h l !! k)).
      { unfold unbind_step, keylocal_step, unbind_entry in *. simpl in *.
        destruct v0 as [t| | | |];
          try (injection E1 as <-; repeat split; auto; discriminate).
        unfold bindM, lift, setitem in E1.
        destruct (torch_unbind t) as [ts|e]; [|discriminate].
        injection E1 as <-. simpl. repeat split.
        - intros l' Hl'. apply lookup_insert_ne. auto.
        - discriminate.
        - rewrite deref_insert. reflexivity.
        - intros k Hk. rewrite deref_insert. apply lookup_insert_ne. auto. }
      destruct Hstep as (S1 & S2 & S3 & S4).
      split; [|split; [|split]].
      * intros l' Hl'. rewrite F1, S1 by assumption. reflexivity.
      * intros k Hk. rewrite F2.
        -- destruct (decide (k = k0)) as [->|Hne].
           ++ rewrite S2; [reflexivity|]. apply Hk. left.
           ++ apply S4. assumption.
        -- intros v Hv. apply Hk. right. assumption.
      * intros Hr. simpl. rewrite S3. simpl. apply F3. assumption.
      * intros d' Hd'. simpl in Hd'. rewrite S3 in Hd'. simpl in Hd'. eauto.
    + injection Hrun as <- <-.
      assert (Hstep : (forall l', l' <> l -> h1 !! l' = h !! l')
                      /\ h1 = h
                      /\ keylocal_step unbind_entry (deref h l) (k0, v0) = Err e).
      { unfold unbind_step, keylocal_step, unbind_entry in *. simpl in *.
        destruct v0 as [t| | | |]; try discriminate.
        unfold bindM, lift, setitem in E1.
        destruct (torch_unbind t) as [ts|e']; [discriminate|].
        injection E1 as <- <-. auto. }
      destruct Hstep as (S1 & -> & S3).
      split; [|split; [|split]]; auto; try discriminate.
      intros d' Hd'. simpl in Hd'. rewrite S3 in Hd'. discriminate.
Qed.

(** ** Transposition of a stacked sample into a batch *)

Lemma set_rows_nil k s unc : set_rows k [] s unc = unc.
Proof.
  unfold set_rows. apply list_eq. intros i. rewrite list_lookup_imap.
  destruct (unc !! i); simpl; [|reflexivity].
  destruct (decide (s <= i)%nat); reflexivity.
Qed.

Lemma set_rows_cons k v vs s unc :
  set_rows k vs (S s) (alter (insert k v) s unc) = set_rows k (v :: vs) s unc.
Proof.
  unfold set_rows. apply list_eq. intros i. rewrite !list_lookup_imap.
  destruct (decide (i = s)) as [->|Hne].
  - rewrite list_lookup_alter_eq. destruct (unc !! s); simpl; [|reflexivity].
    destruct (decide (S s <= s)%nat); [lia|].
    destruct (decide (s <= s)%nat); [|lia].
    rewrite Nat.sub_diag. reflexivity.
  - rewrite list_lookup_alter_ne by auto. destruct (unc !! i); simpl; [|reflexivity].
    destruct (decide (S s <= i)%nat), (decide (s <= i)%nat); try lia; try reflexivity.
    replace (i - s)%nat with (S (i - S s)) by lia. reflexivity.
Qed.

Lemma d2l_inner_run k vs : forall s unc,
  (s + length vs <= length unc)%nat ->
  foldM (d2l_inner k) (zip (seq s (length vs)) vs) unc = Ok (set_rows k vs s unc).
Proof.
  induction vs as [|v vs IH]; intros s unc Hlen; simpl.
  - rewrite set_rows_nil. reflexivity.
  - unfold d2l_inner at 1. simpl in *.
    replace (s <? length unc)%nat with true by (symmetry; apply Nat.ltb_lt; lia).
    simpl. rewrite IH by (rewrite length_alter; lia).
    rewrite set_rows_cons. reflexivity.
Qed.

Lemma length_set_rows k vs s unc : length (set_rows k vs s unc) = length unc.
Proof. unfold set_rows. apply length_imap. Qed.

Lemma lookup_set_rows k vs unc i row :
  unc !! i = Some row ->
  set_rows k vs 0 unc !! i
  = Some (match vs !! i with Some v => <[k := v]> row | None => row end).
Proof.
  intros H. unfold set_rows. rewrite list_lookup_imap, H. simpl.
  rewrite Nat.sub_0_r. reflexivity.
Qed.

(** The outer loop, for values that iterate to at most [length unc]
    elements each. *)
Lemma d2l_outer_run (cols : string -> list value) its : forall unc,
  NoDup its.*1 ->
  (forall k v, (k, v) ∈ its ->
               py_iter v = Ok (cols k) /\ (length (cols k) <= length unc)%nat) ->
  exists out,
    foldM d2l_outer its unc = Ok out
    /\ length out = length unc
    /\ forall i row0, unc !! i = Some row0 ->
         exists row, out !! i = Some row
           /\ forall k, row !! k
                = match (list_to_map its : dict) !! k with
                  | Some _ =>
                      match cols k !! i with
                      | Some x => Some x
                      | None => row0 !! k
                      end
                  | None => row0 !! k
                  end.
Proof.
  induction its as [|[k0 v0] its IH]; intros unc Hnd Hit; simpl.
  - exists unc. repeat split. intros i row0 Hi. exists row0. split; [assumption|].
    intros k. rewrite lookup_empty. reflexivity.
  - apply NoDup_cons in Hnd. destruct Hnd as [Hk0 Hnd].
    destruct (Hit k0 v0) as [Hiter Hlen]; [left|].
    unfold d2l_outer at 1. simpl. rewrite Hiter. simpl.
    rewrite d2l_inner_run by (simpl; lia). simpl.
    destruct (IH (set_rows k0 (cols k0) 0 unc) Hnd) as (out & Hout & Hlo & Hrows).
    { intros k v Hin. rewrite length_set_rows. apply Hit. right. assumption. }
    exists out. split; [assumption|]. split; [rewrite Hlo; apply length_set_rows|].
    intros i row0 Hi.
    destruct (Hrows i _ (lookup_set_rows k0 (cols k0) unc i row0 Hi))
      as (row & Hrow & Hk).
    exists row. split; [assumption|]. intros k. rewrite Hk.
    destruct (decide (k0 = k)) as [->|Hne].
    + rewrite lookup_insert_eq. rewrite (list_to_map_not_in its k Hk0).
      destruct (cols k !! i); [apply lookup_insert_eq | reflexivity].
    + rewrite (lookup_insert_ne (list_to_map its) k0 k) by assumption.
      assert (Hrow0 : match cols k0 !! i with
                      | Some v => <[k0 := v]> row0
                      | None => row0
                      end !! k = row0 !! k)
        by (destruct (cols k0 !! i); [apply lookup_insert_ne; assumption | reflexivity]).
      rewrite Hrow0. reflexivity.
Qed.

Lemma length_list_ascii s : length (list_ascii_of_string s) = String.length s.
Proof. induction s as [|c s IH]; simpl; [|rewrite IH]; reflexivity. Qed.

Lemma py_iter_len v l : py_iter v = Ok l -> py_len v = Ok (length l).
Proof.
  destruct v as [t|l0|l0|s|z]; simpl; try discriminate.
  - unfold torch_unbind. destruct (shape t) as [|n rest]; [discriminate|].
    intros [= <-]. rewrite !length_fmap, length_chunks. reflexivity.
  - intros [= <-]. reflexivity.
  - intros [= <-]. reflexivity.
  - intros [= <-]. rewrite length_fmap, length_list_ascii. reflexivity.
Qed.

Lemma mapM_py_len (cols : string -> list value) n (its : list (string * value)) :
  (forall k v, (k, v) ∈ its -> py_iter v = Ok (cols k) /\ length (cols k) = n) ->
  mapM py_len (snd <$> its) = Ok (replicate (length its) n).
Proof.
  induction its as [|[k v] its IH]; intros H; [reflexivity|].
  rewrite fmap_cons. cbn [mapM snd].
  destruct (H k v) as [Hit Hlen]; [left|].
  rewrite (py_iter_len _ _ Hit), Hlen. cbn [bind].
  rewrite IH by (intros k' v' Hin; apply H; right; assumption).
  reflexivity.
Qed.

Lemma max_list_replicate m n : max_list (replicate (S m) n) = n.
Proof. induction m as [|m IH]; simpl in *; [lia | rewrite IH; lia]. Qed.

Lemma d2l_run l h (cols : string -> list value) n :
  deref h l <> ∅ ->
  (forall k v, deref h l !! k = Some v ->
               py_iter v = Ok (cols k) /\ length (cols k) = n) ->
  exists out,
    _dict_list_to_list_dict l h = (Ok out, h)
    /\ length out = n
    /\ forall i row, out !! i = Some row ->
         forall k, row !! k
                   = match deref h l !! k with
                     | Some _ => cols k !! i
                     | None => None
                     end.
Proof.
  intros Hne Hcols. unfold _dict_list_to_list_dict, bindM, items, lift.
  set (d := deref h l) in *.
  assert (Hits : forall k v, (k, v) ∈ map_to_list d ->
                             py_iter v = Ok (cols k) /\ length (cols k) = n).
  { intros k v Hin. apply elem_of_map_to_list in Hin. auto. }
  rewrite (mapM_py_len cols n _ Hits). cbn [bind].
  assert (Hlen : exists m, length (map_to_list d) = S m).
  { destruct (map_to_list d) eqn:E; [|eexists; reflexivity].
    exfalso. apply Hne. apply map_to_list_empty_iff. exact E. }
  destruct Hlen as [m Hm]. rewrite Hm, max_list_replicate. cbn [replicate].
  destruct (d2l_outer_run cols (map_to_list d) (replicate n ∅))
    as (out & Hout & Hlo & Hrows).
  - apply NoDup_fst_map_to_list.
  - intros k v Hin. destruct (Hits k v Hin) as [H1 H2].
    split; [assumption|]. rewrite length_replicate. lia.
  - exists out. rewrite length_replicate in Hlo.
    rewrite Hout. split; [reflexivity|]. split; [assumption|].
    intros i row Hi k.
    assert (Hin : (i < n)%nat) by (rewrite <- Hlo; eapply lookup_lt_Some; eassumption).
    destruct (Hrows i ∅) as (row' & Hrow' & Hk);
      [apply lookup_replicate_2; assumption|].
    rewrite Hi in Hrow'. injection Hrow' as <-. rewrite Hk.
    rewrite list_to_map_to_list, lookup_empty.
    destruct (d !! k); [|reflexivity]. destruct (cols k !! i); reflexivity.
Qed.

(** ** Effects on the caller's mappings *)

Lemma unbind_samples_unfold sample h :
  unbind_samples sample h
  = match foldMM (unbind_step sample) (map_to_list (deref h sample)) tt h with
    | (Ok _, h1) => _dict_list_to_list_dict sample h1
    | (Err e, h1) => (Err e, h1)
    end.
Proof. reflexivity. Qed.

Lemma unbind_samples_heap sample h :
  (unbind_samples sample h).2
  = (foldMM (unbind_step sample) (map_to_list (deref h sample)) tt h).2
  /\ (forall out, (unbind_samples sample h).1 = Ok out ->
        (foldMM (unbind_step sample) (map_to_list (deref h sample)) tt h).1 = Ok tt).
Proof.
  rewrite unbind_samples_unfold.
  destruct (foldMM _ _ _ _) as [[[]|e] h1].
  - split; [apply (readonly_d2l sample h1) | reflexivity].
  - split; [reflexivity | discriminate].
Qed.

(** C6 fails as stated: [unbind_samples] writes the mapping it is given. *)
Lemma unbind_mutates_counterexample :
  deref heap_image 0 !! "image"%string
  = Some (VTensor (mkTensor [2%nat] [1%Z; 2%Z]))
  /\ deref (unbind_samples 0 heap_image).2 0 !! "image"%string
     = Some (VTuple [VTensor (mkTensor [] [1%Z]); VTensor (mkTensor [] [2%Z])])
  /\ (unbind_samples 0 heap_image).2 <> heap_image.
Proof.
  assert (H1 : deref heap_image 0 !! "image"%string
               = Some (VTensor (mkTensor [2%nat] [1%Z; 2%Z])))
    by (vm_compute; reflexivity).
  assert (H2 : deref (unbind_samples 0 heap_image).2 0 !! "image"%string
               = Some (VTuple [VTensor (mkTensor [] [1%Z]); VTensor (mkTensor [] [2%Z])]))
    by (vm_compute; reflexivity).
  split; [exact H1|]. split; [exact H2|].
  intros E.
  pose proof (f_equal (fun x : heap => deref x 0 !! "image"%string) E) as E'.
  cbv beta in E'. rewrite H2, H1 in E'. discriminate E'.
Qed.

(** C6, as the code has it: [stack_samples], [concat_samples] and
    [merge_samples] leave the heap as it was; [unbind_samples] leaves every
    mapping other than its argument as it was, keeps the entries of its
    argument that are not tensors, and, when it returns, has replaced each
    tensor entry by the tuple of its slices. *)
Theorem collate_frame (samples : list nat) (sample : nat) (h : heap) :
  (stack_samples samples h).2 = h
  /\ (concat_samples samples h).2 = h
  /\ (merge_samples samples h).2 = h
  /\ (forall l, l <> sample -> (unbind_samples sample h).2 !! l = h !! l)
  /\ (forall k v, deref h sample !! k = Some v -> is_tensor v = false ->
        deref (unbind_samples sample h).2 sample !! k = Some v)
  /\ (forall k t out,
        deref h sample !! k = Some (VTensor t) ->
        (unbind_samples sample h).1 = Ok out ->
        exists ts, torch_unbind t = Ok ts
          /\ deref (unbind_samples sample h).2 sample !! k
             = Some (VTuple (VTensor <$> ts))).
Proof.
  split; [apply readonly_stack|]. split; [apply readonly_concat|].
  split; [apply readonly_merge|].
  destruct (unbind_samples_heap sample h) as [Hheap Hok]. rewrite Hheap.
  destruct (foldMM (unbind_step sample) (map_to_list (deref h sample)) tt h)
    as [r h1] eqn:Erun.
  destruct (unbind_loop sample _ _ _ _ Erun) as (F1 & F2 & F3 & _). simpl in *.
  split; [exact F1|]. split.
  - intros k v Hk Hv. rewrite F2; [exact Hk|].
    intros v' Hin. apply elem_of_map_to_list in Hin.
    rewrite Hk in Hin. injection Hin as <-. exact Hv.
  - intros k t out Hk Hout. specialize (F3 (Hok out Hout)).
    pose proof (foldM_keylocal unbind_entry _ _ _
                  (NoDup_fst_map_to_list (deref h sample)) F3 k) as Hkl.
    rewrite list_to_map_to_list, Hk in Hkl.
    destruct Hkl as (ob & Hob & Hnew). simpl in Hob.
    destruct (torch_unbind t) as [ts|e]; [|discriminate].
    injection Hob as <-. exists ts. split; [reflexivity | exact Hnew].
Qed.

(** ** Columns of a batch whose samples share their keys *)

Lemma column_elem k (batch : list dict) v :
  v ∈ column k batch <-> exists d, d ∈ batch /\ d !! k = Some v.
Proof. unfold column. apply list_elem_of_omap. Qed.

Lemma column_all k (batch : list dict) :
  Forall (fun d : dict => is_Some (d !! k)) batch ->
  length (column k batch) = length batch
  /\ forall i, column k batch !! i = batch !! i ≫= (fun d : dict => d !! k).
Proof.
  induction 1 as [|d batch [v Hv] _ [IHl IHi]].
  - split; [reflexivity | intros i; reflexivity].
  - rewrite column_cons, Hv. split; [simpl; rewrite IHl; reflexivity|].
    intros [|i]; simpl; [symmetry; exact Hv | apply IHi].
Qed.

Lemma column_full k (batch : list dict) :
  (forall d1 d2 : dict, d1 ∈ batch -> d2 ∈ batch -> dom d1 = dom d2) ->
  column k batch <> [] ->
  Forall (fun d : dict => is_Some (d !! k)) batch.
Proof.
  intros Hkeys Hne.
  destruct (column k batch) as [|v vs] eqn:E; [congruence|].
  assert (Hv : v ∈ column k batch) by (rewrite E; left).
  apply column_elem in Hv. destruct Hv as (d & Hd & Hk).
  apply Forall_forall. intros d' Hd'.
  apply elem_of_dom. rewrite (Hkeys d' d Hd' Hd). apply elem_of_dom. eauto.
Qed.

(** ** [unbind_samples] after [stack_samples] *)

(** C7 fails as stated: on the empty batch [stack_samples] returns the
    empty mapping, on which [unbind_samples] raises ValueError. *)
Lemma unbind_stack_empty_counterexample :
  batch_of ∅ [] = []
  /\ (forall k, homogeneous (column k (batch_of ∅ [])))
  /\ (unbind_stack [] ∅).1 = Err ValueError.
Proof.
  split; [reflexivity|]. split; [|vm_compute; reflexivity].
  intros k. right. constructor.
Qed.

(** C7, as the code has it: for a batch that has a sample with a key, whose
    samples share their keys and hold, under each key, tensors of one shape
    or no tensor, [unbind_samples] of the stacked sample is the batch, and
    the stacked sample holds under each tensor key a tensor with the batch
    length as new leading axis. *)
Theorem unbind_stack_roundtrip (samples : list nat) (h : heap) :
  (exists d : dict, d ∈ batch_of h samples /\ d <> ∅) ->
  (forall d1 d2 : dict,
      d1 ∈ batch_of h samples -> d2 ∈ batch_of h samples -> dom d1 = dom d2) ->
  (forall k, homogeneous (column k (batch_of h samples))) ->
  (unbind_stack samples h).1 = Ok (batch_of h samples)
  /\ exists c,
      stack_samples samples h = (Ok c, h)
      /\ forall (d : dict) k t,
          d ∈ batch_of h samples -> d !! k = Some (VTensor t) ->
          exists t', c !! k = Some (VTensor t')
                     /\ shape t' = length (batch_of h samples) :: shape t.
Proof.
  intros (d0 & Hd0 & Hne0) Hkeys Hhom.
  destruct (stack_run samples h Hhom) as (c & Hc & Hst).
  set (batch := batch_of h samples) in *.
  assert (Hfull : forall k, column k batch <> [] ->
                            length (column k batch) = length batch
                            /\ forall i, column k batch !! i
                                         = batch !! i ≫= (fun d : dict => d !! k)).
  { intros k Hk. apply column_all. apply column_full; assumption. }
  split.
  - unfold unbind_stack, bindM. rewrite Hc. unfold alloc.
    set (lc := fresh (dom h)). set (h1 := <[lc := c]> h).
    rewrite unbind_samples_unfold.
    assert (Hd1 : deref h1 lc = c) by apply deref_insert. rewrite Hd1.
    destruct (foldMM (unbind_step lc) (map_to_list c) tt h1) as [r h2] eqn:Erun.
    destruct (unbind_loop lc _ _ _ _ Erun) as (_ & _ & F3 & F4).
    rewrite Hd1 in F3, F4.
    destruct (foldM_keylocal_ok unbind_entry (map_to_list c) c) as [d' Hd'].
    { apply NoDup_fst_map_to_list. }
    { intros k v Hin. apply elem_of_map_to_list in Hin.
      specialize (Hst k). rewrite Hin in Hst. unfold stacked in Hst.
      destruct (column k batch) as [|v0 vs0] eqn:Ecol; [discriminate|].
      destruct Hst as [(s & ts & E & Hts & Hv) | (Hnt & Hv)]; injection Hv as ->.
      - unfold unbind_entry. rewrite (torch_unbind_stack s ts Hts).
        eexists; reflexivity.
      - eexists; reflexivity. }
    pose proof (F4 d' Hd') as ->. specialize (F3 eq_refl).
    rewrite Hd' in F3. injection F3 as F3.
    pose proof (foldM_keylocal unbind_entry _ _ _
                  (NoDup_fst_map_to_list c) Hd') as Hkl.
    assert (Hc' : forall k,
               match column k batch with
               | [] => d' !! k = None
               | _ => exists v, d' !! k = Some v /\ py_iter v = Ok (column k batch)
               end).
    { intros k. specialize (Hkl k). rewrite list_to_map_to_list in Hkl.
      specialize (Hst k). unfold stacked in Hst.
      destruct (column k batch) as [|v0 vs0] eqn:Ecol.
      - rewrite Hst in Hkl. exact Hkl.
      - destruct Hst as [(s & ts & E & Hts & Hv) | (Hnt & Hv)];
          rewrite Hv in Hkl; destruct Hkl as (ob & Hob & Hnew);
          unfold unbind_entry in Hob.
        + rewrite (torch_unbind_stack s ts Hts) in Hob. injection Hob as <-.
          eexists; split; [exact Hnew|]. simpl. rewrite E. reflexivity.
        + injection Hob as <-. eexists; split; [exact Hnew|]. reflexivity. }
    destruct (d2l_run lc h2 (fun k => column k batch) (length batch))
      as (out & Hout & Hlen & Hrows).
    { rewrite <- F3. apply map_choose in Hne0. destruct Hne0 as (k & v & Hkv).
      assert (Hv : v ∈ column k batch) by (apply column_elem; eauto).
      specialize (Hc' k). destruct (column k batch); [inversion Hv|].
      destruct Hc' as (v' & Hv' & _). intros E. rewrite E, lookup_empty in Hv'.
      discriminate. }
    { intros k v Hk. rewrite <- F3 in Hk. specialize (Hc' k).
      destruct (column k batch) as [|v0 vs0] eqn:Ecol; [congruence|].
      destruct Hc' as (v' & Hv' & Hit). rewrite Hk in Hv'. injection Hv' as <-.
      split; [exact Hit|]. rewrite <- Ecol. apply Hfull. rewrite Ecol. discriminate. }
    rewrite Hout. simpl. f_equal.
    apply (list_eq_same_length _ _ (length batch)); [reflexivity | assumption |].
    intros i row d Hi Hrow Hd. apply map_eq. intros k.
    rewrite (Hrows i row Hrow k). rewrite <- F3. specialize (Hc' k).
    destruct (column k batch) as [|v0 vs0] eqn:Ecol.
    + rewrite Hc'. destruct (d !! k) as [v|] eqn:Edk; [|reflexivity].
      assert (Hv : v ∈ column k batch)
        by (apply column_elem; exists d; split;
            [eapply list_elem_of_lookup_2; eassumption | assumption]).
      rewrite Ecol in Hv. inversion Hv.
    + destruct Hc' as (v' & -> & _).
      destruct (Hfull k) as [_ Hcol]; [rewrite Ecol; discriminate|].
      rewrite Ecol in Hcol. rewrite Hcol, Hd. reflexivity.
  - exists c. split; [exact Hc|]. intros d k t Hd Hk.
    assert (Hv : VTensor t ∈ column k batch) by (apply column_elem; eauto).
    specialize (Hst k). unfold stacked in Hst.
    destruct (column k batch) as [|v0 vs0] eqn:Ecol; [inversion Hv|].
    destruct Hst as [(s & ts & E & Hts & Hv') | (Hnt & _)].
    + eexists. split; [exact Hv'|]. simpl.
      rewrite E in Hv. apply list_elem_of_fmap in Hv.
      destruct Hv as (t1 & [= <-] & Ht1).
      rewrite Forall_forall in Hts. destruct (Hts t Ht1) as [-> _].
      destruct (Hfull k) as [Hl _]; [rewrite Ecol; discriminate|].
      rewrite <- Hl, Ecol, E, length_fmap. reflexivity.
    + rewrite Forall_forall in Hnt. specialize (Hnt _ Hv). discriminate.
Qed.

Lemma unbind_stack_roundtrip_witness :
  (unbind_stack [0; 1]%nat heap_arrays).1
  = Ok [ {[ "a"%string := VTensor arr1 ]}; {[ "a"%string := VTensor arr2 ]} ]
  /\ exists c t',
      stack_samples [0; 1]%nat heap_arrays = (Ok c, heap_arrays)
      /\ c !! "a"%string = Some (VTensor t')
      /\ shape t' = [2; 3; 3]%nat.
Proof.
  assert (Hb : batch_of heap_arrays [0; 1]%nat
               = [ {[ "a"%string := VTensor arr1 ]};
                   {[ "a"%string := VTensor arr2 ]} ])
    by (vm_compute; reflexivity).
  destruct (unbind_stack_roundtrip [0; 1]%nat heap_arrays) as (Hrt & c & Hc & Hsh).
  - rewrite Hb. exists {[ "a"%string := VTensor arr1 ]}. split; [left|].
    intros E. apply (f_equal (fun d : dict => d !! "a"%string)) in E.
    rewrite lookup_singleton_eq, lookup_empty in E. discriminate.
  - rewrite Hb. intros d1 d2 H1 H2.
    apply elem_of_cons in H1. apply elem_of_cons in H2.
    rewrite list_elem_of_singleton in H1, H2.
    destruct H1 as [->| ->], H2 as [->| ->]; rewrite !dom_singleton_L; reflexivity.
  - rewrite Hb. intros k. left. exists [3; 3]%nat. unfold column. simpl.
    destruct (decide (k = "a"%string)) as [->|Hne].
    + rewrite !lookup_singleton_eq.
      repeat constructor; eexists; (split; [reflexivity|]); split; reflexivity.
    + rewrite !lookup_singleton_ne by congruence. constructor.
  - rewrite Hb in Hrt. split; [exact Hrt|].
    destruct (Hsh {[ "a"%string := VTensor arr1 ]} "a"%string arr1)
      as (t' & Ht' & Hs').
    + rewrite Hb. left.
    + apply lookup_singleton_eq.
    + exists c, t'. rewrite Hb in Hs'. auto.
Defined.

(** ** [merge_samples] *)

Lemma merge_step_keylocal c kv : merge_step c kv = keylocal_step merge_entry c kv.
Proof.
  unfold merge_step, keylocal_step, merge_entry.
  destruct (c !! kv.1) as [old|]; [|reflexivity].
  destruct (is_tensor kv.2); [|reflexivity].
  destruct (torch_maximum old kv.2); reflexivity.
Qed.

Lemma foldM_ext {E A B} (f g : B -> A -> result E B) l b :
  (forall b x, f b x = g b x) -> foldM f l b = foldM g l b.
Proof.
  intros H. revert b. induction l as [|x l IH]; intros b; simpl; [reflexivity|].
  rewrite H. destruct (g b x); simpl; auto.
Qed.

Lemma merge_entry_some o v ob : merge_entry o v = Ok ob -> exists b, ob = Some b.
Proof.
  unfold merge_entry. destruct o as [old|]; [|intros [= <-]; eauto].
  destruct (is_tensor v); [|intros [= <-]; eauto].
  destruct (torch_maximum old v); simpl; [intros [= <-]; eauto | discriminate].
Qed.

Lemma merge_run samples : forall acc h,
  (forall k, exists o, merge_col (acc !! k) (column k (batch_of h samples)) = Ok o) ->
  exists m,
    foldMM
      (fun collated sample =>
         its <~ items sample ;; lift (foldM merge_step its collated))
      samples acc h = (Ok m, h)
    /\ forall k, merge_col (acc !! k) (column k (batch_of h samples)) = Ok (m !! k).
Proof.
  induction samples as [|l samples IH]; intros acc h Hok.
  - exists acc. split; [reflexivity|]. intros k. reflexivity.
  - simpl foldMM. unfold bindM at 1. unfold bindM at 1, items, lift.
    set (d := deref h l).
    rewrite (foldM_ext merge_step (keylocal_step merge_entry))
      by apply merge_step_keylocal.
    assert (Hcol : forall k, column k (batch_of h (l :: samples))
                   = match d !! k with
                     | Some v => v :: column k (batch_of h samples)
                     | None => column k (batch_of h samples)
                     end) by (intros k; apply column_cons).
    destruct (foldM_keylocal_ok merge_entry (map_to_list d) acc) as [acc' Hacc'].
    { apply NoDup_fst_map_to_list. }
    { intros k v Hin. apply elem_of_map_to_list in Hin.
      destruct (Hok k) as [o Ho]. rewrite Hcol, Hin in Ho.
      unfold merge_col in Ho. simpl in Ho.
      destruct (merge_entry (acc !! k) v) as [ob|e]; [eauto | discriminate]. }
    rewrite Hacc'.
    pose proof (foldM_keylocal merge_entry _ _ _
                  (NoDup_fst_map_to_list d) Hacc') as Hkl.
    assert (Hnext : forall k,
               merge_col (acc !! k) (column k (batch_of h (l :: samples)))
               = merge_col (acc' !! k) (column k (batch_of h samples))).
    { intros k. specialize (Hkl k). rewrite list_to_map_to_list in Hkl.
      rewrite Hcol. destruct (d !! k) as [v|].
      - destruct Hkl as (ob & Hob & Hnew). unfold merge_col. simpl.
        rewrite Hob. simpl. destruct (merge_entry_some _ _ _ Hob) as [b ->].
        simpl in Hnew. rewrite Hnew. reflexivity.
      - rewrite Hkl. reflexivity. }
    destruct (IH acc' h) as (m & Hm & Hmk).
    { intros k. rewrite <- Hnext. apply Hok. }
    exists m. split; [exact Hm|]. intros k. rewrite Hnext. apply Hmk.
Qed.

Lemma merge_col_others vs : forall o,
  Forall (fun v => is_tensor v = false) vs ->
  merge_col o vs = Ok (match last vs with Some v => Some v | None => o end).
Proof.
  induction vs as [|v vs IH]; intros o H; [reflexivity|].
  apply Forall_cons in H. destruct H as [Hv H].
  unfold merge_col in *. simpl.
  assert (E : merge_entry o v = Ok (Some v))
    by (unfold merge_entry; destruct o; [rewrite Hv|]; reflexivity).
  rewrite E. simpl. rewrite IH by assumption.
  destruct vs as [|v' vs]; [reflexivity|]. simpl.
  destruct (last (v' :: vs)) eqn:El; [reflexivity|].
  apply last_None in El. discriminate.
Qed.

Lemma torch_maximum_same a b :
  shape a = shape b ->
  torch_maximum (VTensor a) (VTensor b) = Ok (tmax a b).
Proof.
  intros H. unfold torch_maximum, same_shape. simpl.
  rewrite bool_decide_eq_true_2 by assumption. reflexivity.
Qed.

Lemma merge_col_tensors s ts : forall a,
  shape a = s ->
  Forall (fun t => shape t = s /\ wf_tensor t) ts ->
  merge_col (Some (VTensor a)) (VTensor <$> ts)
  = Ok (Some (VTensor (foldl tmax a ts))).
Proof.
  induction ts as [|t ts IH]; intros a Ha H; [reflexivity|].
  apply Forall_cons in H. destruct H as [[Ht Hw] H].
  rewrite fmap_cons. unfold merge_col in *. simpl.
  rewrite torch_maximum_same by congruence. simpl.
  apply IH; [exact Ha | exact H].
Qed.

Lemma tmax_spec s seen a t :
  shape a = s -> wf_tensor a -> shape t = s -> wf_tensor t ->
  elementwise_max seen a ->
  shape (tmax a t) = s /\ wf_tensor (tmax a t)
  /\ elementwise_max (seen ++ [t]) (tmax a t).
Proof.
  intros Ha Hwa Ht Hwt Hmax. unfold wf_tensor in *.
  split; [exact Ha|]. split.
  - simpl. rewrite length_zip_with, Hwa, Hwt, Ha, Ht. lia.
  - intros i z Hz. simpl in Hz. rewrite lookup_zip_with in Hz.
    destruct (data a !! i) as [x|] eqn:Ex; [|discriminate].
    destruct (data t !! i) as [y|] eqn:Ey; [|discriminate].
    simpl in Hz. injection Hz as <-.
    destruct (Hmax i x Ex) as [Hub Hatt]. split.
    + intros t' Hin. apply elem_of_app in Hin. destruct Hin as [Hin|Hin].
      * destruct (Hub t' Hin) as (y' & Hy' & Hle). exists y'. split; [assumption | lia].
      * apply list_elem_of_singleton in Hin. subst t'. exists y. split; [assumption | lia].
    + destruct (Z.max_spec x y) as [[_ ->]|[_ ->]].
      * exists t. split; [apply elem_of_app; right; left | assumption].
      * destruct Hatt as (t' & Hin & Hx). exists t'.
        split; [apply elem_of_app; left; assumption | assumption].
Qed.

Lemma foldl_tmax_spec s ts : forall seen a,
  shape a = s -> wf_tensor a -> elementwise_max seen a ->
  Forall (fun t => shape t = s /\ wf_tensor t) ts ->
  shape (foldl tmax a ts) = s /\ wf_tensor (foldl tmax a ts)
  /\ elementwise_max (seen ++ ts) (foldl tmax a ts).
Proof.
  induction ts as [|t ts IH]; intros seen a Ha Hwa Hmax H.
  - rewrite app_nil_r. auto.
  - apply Forall_cons in H. destruct H as [[Ht Hwt] H]. simpl foldl.
    destruct (tmax_spec s seen a t Ha Hwa Ht Hwt Hmax) as (S1 & S2 & S3).
    destruct (IH (seen ++ [t]) (tmax a t) S1 S2 S3 H) as (R1 & R2 & R3).
    rewrite <- app_assoc in R3. auto.
Qed.

Lemma elementwise_max_single a : elementwise_max [a] a.
Proof.
  intros i x Hx. split.
  - intros t Ht. apply list_elem_of_singleton in Ht. subst t. exists x. split; [assumption | lia].
  - exists a. split; [left | assumption].
Qed.

Lemma merge_col_homogeneous v vs :
  homogeneous (v :: vs) ->
  exists o, merge_col None (v :: vs) = Ok o /\ merged (v :: vs) o.
Proof.
  intros [[s H]|H].
  - destruct (tensors_of_shape s _ H) as (ts & E & Hts).
    destruct ts as [|t0 ts]; [discriminate|].
    pose proof Hts as Hts0. apply Forall_cons in Hts. destruct Hts as [[Hs0 Hw0] Hts].
    exists (Some (VTensor (foldl tmax t0 ts))). split.
    + rewrite E, fmap_cons. unfold merge_col. simpl.
      apply (merge_col_tensors s ts t0 Hs0 Hts).
    + destruct (foldl_tmax_spec s ts [t0] t0 Hs0 Hw0 (elementwise_max_single t0) Hts)
        as (R1 & R2 & R3).
      simpl. left. exists (t0 :: ts), (foldl tmax t0 ts).
      split; [exact E|]. split; [reflexivity|].
      split; [|split; [exact R2 | exact R3]].
      eapply Forall_impl; [exact Hts0|]. intros t [-> _]. symmetry. exact R1.
  - exists (last (v :: vs)). split.
    + rewrite (merge_col_others (v :: vs) None H).
      destruct (last (v :: vs)) eqn:El; [reflexivity|].
      apply last_None in El. discriminate.
    + simpl. right. split; [exact H | reflexivity].
Qed.

(** C8 fails as stated, for every batch: masks of the lengths 2 and 3
    under one key make [torch.maximum] raise RuntimeError, and a tensor
    that follows a value that is not a tensor makes it raise TypeError;
    neither batch holds, under the key, tensors of one shape or no tensor. *)
Lemma merge_samples_mixed_counterexample :
  (merge_samples [0; 1]%nat heap_mismatch).1 = Err RuntimeError
  /\ (merge_samples [0; 1]%nat heap_late_tensor).1 = Err TypeError
  /\ ~ homogeneous (column "m" (batch_of heap_mismatch [0; 1]%nat))
  /\ ~ homogeneous (column "m" (batch_of heap_late_tensor [0; 1]%nat)).
Proof.
  split; [vm_compute; reflexivity|]. split; [vm_compute; reflexivity|].
  assert (Hb1 : column "m" (batch_of heap_mismatch [0; 1]%nat)
                = [VTensor (mkTensor [2%nat] [0; 5]%Z);
                   VTensor (mkTensor [3%nat] [3; 0; 0]%Z)])
    by (vm_compute; reflexivity).
  assert (Hb2 : column "m" (batch_of heap_late_tensor [0; 1]%nat)
                = [VInt 7; VTensor (mkTensor [3%nat] [3; 0; 0]%Z)])
    by (vm_compute; reflexivity).
  rewrite Hb1, Hb2. split.
  - intros [[s H]|H].
    + inversion H as [|? ? (t1 & E1 & S1 & _) H']; subst.
      inversion H' as [|? ? (t2 & E2 & S2 & _) _]; subst.
      injection E1 as <-. injection E2 as <-. simpl in S2. discriminate.
    + inversion H as [|? ? Hv _]; subst. discriminate.
  - intros [[s H]|H].
    + inversion H as [|? ? (t1 & E1 & _) _]; subst. discriminate.
    + inversion H as [|? ? _ H']; subst.
      inversion H' as [|? ? Hv _]; subst. discriminate.
Qed.

(** C8, as the code has it: under each key that holds tensors of one shape
    or no tensor, [merge_samples] leaves the elementwise maximum of
    the tensors the batch holds there, or else the last value written; the
    two masks [0, 5, 0] and [3, 0, 0] merge into [3, 5, 0]. *)
Theorem merge_samples_spec (samples : list nat) (h : heap) :
  (forall k, homogeneous (column k (batch_of h samples))) ->
  (exists m, merge_samples samples h = (Ok m, h)
             /\ forall k, merged (column k (batch_of h samples)) (m !! k))
  /\ (merge_samples [0; 1]%nat heap_masks).1
     = Ok {[ "m"%string := VTensor (mkTensor [3%nat] [3; 5; 0]%Z) ]}.
Proof.
  intros Hhom. split; [|vm_compute; reflexivity].
  assert (Hcols : forall k, exists o,
             merge_col None (column k (batch_of h samples)) = Ok o
             /\ merged (column k (batch_of h samples)) o).
  { intros k. specialize (Hhom k).
    destruct (column k (batch_of h samples)) as [|v vs].
    - exists None. split; reflexivity.
    - apply merge_col_homogeneous. exact Hhom. }
  destruct (merge_run samples ∅ h) as (m & Hm & Hmk).
  - intros k. rewrite lookup_empty. destruct (Hcols k) as (o & Ho & _). eauto.
  - exists m. split; [exact Hm|]. intros k. specialize (Hmk k).
    rewrite lookup_empty in Hmk. destruct (Hcols k) as (o & Ho & Hmerged).
    rewrite Ho in Hmk. injection Hmk as ->. exact Hmerged.
Qed.

Lemma merge_samples_spec_witness :
  (exists m, merge_samples [0; 1]%nat heap_masks = (Ok m, heap_masks)
             /\ forall k, merged (column k (batch_of heap_masks [0; 1]%nat)) (m !! k))
  /\ (merge_samples [0; 1]%nat heap_masks).1
     = Ok {[ "m"%string := VTensor (mkTensor [3%nat] [3; 5; 0]%Z) ]}.
Proof.
  apply (merge_samples_spec [0; 1]%nat heap_masks).
  assert (Hb : batch_of heap_masks [0; 1]%nat
               = [ {[ "m"%string := VTensor (mkTensor [3%nat] [0; 5; 0]%Z) ]};
                   {[ "m"%string := VTensor (mkTensor [3%nat] [3; 0; 0]%Z) ]} ])
    by (vm_compute; reflexivity).
  rewrite Hb. intros k. left. exists [3%nat]. unfold column. simpl.
  destruct (decide (k = "m"%string)) as [->|Hne].
  - rewrite !lookup_singleton_eq.
    repeat constructor; eexists; (split; [reflexivity|]); split; reflexivity.
  - rewrite !lookup_singleton_ne by congruence. constructor.
Defined.

End Collate.

(* ================================================================== *)
(** * Recursive listing of files *)

Module Vfs.
Import PyStr.

(** What [fiona.listdir] raises: FionaValueError with its message, or any
    other exception. *)
Inductive vfs_error : Set :=
| FionaValueErr (msg : string)
| OtherErr (e : pyexn).

(** The directory-listing driver, [fiona.listdir]. *)
Definition driver : Type := string -> result vfs_error (list string).

(** [path_is_gdal_vsi] *)
Definition path_is_gdal_vsi (path : string) : bool :=
  str_in "://" path || startswith "/vsi" path.

(** [dirs.pop()]: the last element of the list, and the list without it. *)
Definition pop (dirs : list string) : option (string * list string) :=
  match rev dirs with
  | [] => None
  | x :: r => Some (x, rev r)
  end.

(** The loop of [listdir_vfs_recursive]; [fuel] bounds the number of
    iterations, [None] is an unfinished walk. *)
Fixpoint walk (listdir : driver) (fuel : nat) (dirs files : list string)
  : option (result vfs_error (list string)) :=
  match fuel with
  | O => None
  | S fuel =>
      match pop dirs with
      | None => Some (Ok files)
      | Some (dir, dirs) =>
          match listdir dir with
          | Ok subdirs =>
              walk listdir fuel
                   (dirs ++ map (fun subdir => dir ++ "/" ++ subdir)%string subdirs)
                   files
          | Err (FionaValueErr msg) =>
              if str_in "is not a directory" msg then
                (* Assuming dir is a file as it is not a directory *)
                walk listdir fuel dirs (files ++ [dir])
              else Some (Err (FionaValueErr msg))
          | Err e => Some (Err e)
          end
      end
  end.

(** [listdir_vfs_recursive] *)
Definition listdir_vfs_recursive (listdir : driver) (fuel : nat) (root : string)
  : option (result vfs_error (list string)) :=
  walk listdir fuel [root] [].

(** [list_directory_recursive]; [fnmatch] is [fnmatch.fnmatch] and [iglob]
    is the recursive [glob.iglob] of the local file system. *)
Definition list_directory_recursive (listdir : driver)
           (fnmatch : string -> string -> bool) (iglob : string -> list string)
           (fuel : nat) (root filename_glob : string)
  : option (result vfs_error (list string)) :=
  if path_is_gdal_vsi root then
    match listdir_vfs_recursive listdir fuel root with
    | None => None
    | Some (Err (OtherErr e)) => Some (Err (OtherErr e))
    | Some r =>
        let all_files :=
          match r with
          | Ok fs => fs
          | Err _ =>
              (* To match the behaviour of glob.iglob we silently return
                 empty list for non-existing root. *)
              []
          end in
        (* Prefix glob with wildcard to ignore directories *)
        Some (Ok (List.filter (fun f => fnmatch f (path_join "*" filename_glob))
                              all_files))
    end
  else
    Some (Ok (iglob (path_join (path_join root "**") filename_glob))).

(** A container with one file and one entry that its driver lists but
    cannot open. *)
Definition dangling_driver : driver :=
  fun path =>
    if String.eqb path "/vsiaz/container" then Ok ["sub"; "a.tif"]%string
    else if String.eqb path "/vsiaz/container/a.tif"
    then Err (FionaValueErr "Path '/vsiaz/container/a.tif' is not a directory")
    else Err (FionaValueErr ("Path '" ++ path ++ "' does not exist")).

(** A driver that does not know the root. *)
Definition empty_driver : driver :=
  fun path => Err (FionaValueErr ("Path '" ++ path ++ "' does not exist")).

(** ** Propagation of driver errors *)

(** The walk itself raises exactly what the driver raised, unless that is
    the "is not a directory" FionaValueError. *)
Lemma walk_error listdir fuel : forall dirs files e,
  walk listdir fuel dirs files = Some (Err e) ->
  (exists dir, listdir dir = Err e)
  /\ match e with
     | FionaValueErr msg => str_in "is not a directory" msg = false
     | OtherErr _ => True
     end.
Proof.
  induction fuel as [|fuel IH]; intros dirs files e; simpl; [discriminate|].
  destruct (pop dirs) as [[dir dirs']|]; [|discriminate].
  destruct (listdir dir) as [subdirs|[msg|e']] eqn:El.
  - apply IH.
  - destruct (str_in "is not a directory" msg) eqn:Em; [apply IH|].
    intros [= <-]. split; [eauto | assumption].
  - intros [= <-]. split; [eauto | exact I].
Qed.

(** A root that does not exist gives the empty list. *)
Lemma missing_root_empty fnmatch iglob :
  list_directory_recursive empty_driver fnmatch iglob 1 "/vsiaz/container" "*.tif"
  = Some (Ok []).
Proof. reflexivity. Qed.

(** Every FionaValueError that leaves the walk, wherever it arose, becomes
    the empty list; other exceptions pass. *)
Lemma list_directory_recursive_error listdir fnmatch iglob fuel root g e :
  path_is_gdal_vsi root = true ->
  listdir_vfs_recursive listdir fuel root = Some (Err e) ->
  list_directory_recursive listdir fnmatch iglob fuel root g
  = match e with
    | FionaValueErr _ => Some (Ok [])
    | OtherErr _ => Some (Err e)
    end.
Proof.
  intros Hv Hw. unfold list_directory_recursive. rewrite Hv, Hw.
  destruct e; reflexivity.
Qed.

(** C5 fails on the code: the entry [sub] is reached after the file
    [a.tif] was found; the driver's "does not exist" leaves the walk, and
    [list_directory_recursive] returns the empty list instead of raising. *)
Theorem midwalk_error_suppressed fnmatch iglob :
  path_is_gdal_vsi "/vsiaz/container" = true
  /\ dangling_driver "/vsiaz/container" = Ok ["sub"; "a.tif"]%string
  /\ listdir_vfs_recursive dangling_driver 4 "/vsiaz/container"
     = Some (Err (FionaValueErr "Path '/vsiaz/container/sub' does not exist"))
  /\ list_directory_recursive dangling_driver fnmatch iglob 4
       "/vsiaz/container" "*.tif"
     = Some (Ok []).
Proof.
  repeat split; vm_compute; reflexivity.
Qed.

End Vfs.

(* ================================================================== *)
(** * BoundingBox: order and lattice laws *)

Module BBoxLaws.
Import PyFloat BBox.

#[local] Hint Resolve fle_refl py_min_le_l py_min_le_r py_max_ge_l py_max_ge_r
  py_min_num py_max_num py_min_glb py_max_lub
  ord_nminx ord_nmaxx ord_nminy ord_nmaxy ord_nmint ord_nmaxt ord_x ord_y ord_t : fle.

(** [min] and [max] do not depend on the order of their arguments, up to
    [==] (the two zeros differ as objects). *)
Lemma py_min_comm a b : num a -> num b -> feq (py_min a b) (py_min b a) = true.
Proof.
  intros Na Nb. unfold py_min.
  destruct (flt b a) eqn:E1, (flt a b) eqn:E2; try (apply feq_refl; assumption).
  - apply flt_nle in E1. apply flt_fle in E2. congruence.
  - apply fle_antisym; apply nlt_fle; assumption.
Qed.

Lemma py_max_comm a b : num a -> num b -> feq (py_max a b) (py_max b a) = true.
Proof.
  intros Na Nb. unfold py_max, fgt.
  destruct (flt a b) eqn:E1, (flt b a) eqn:E2; try (apply feq_refl; assumption).
  - apply flt_nle in E1. apply flt_fle in E2. congruence.
  - apply fle_antisym; apply nlt_fle; assumption.
Qed.

Lemma bbox_eqb_intro a b :
  feq (minx a) (minx b) = true -> feq (maxx a) (maxx b) = true ->
  feq (miny a) (miny b) = true -> feq (maxy a) (maxy b) = true ->
  feq (mint a) (mint b) = true -> feq (maxt a) (maxt b) = true ->
  bbox_eqb a b = true.
Proof.
  intros. unfold bbox_eqb. repeat (apply andb_true_intro; split); assumption.
Qed.

(** A box whose bounds are numbers and that passed the checks of the
    constructor is ordered. *)
Lemma checked_ordered b :
  Forall num (to_list b) -> post_init b = Ok tt -> ordered b.
Proof.
  intros Hn Hp. unfold to_list in Hn.
  repeat match goal with
         | H : Forall _ (_ :: _) |- _ => apply Forall_cons_iff in H; destruct H as [? H]
         end.
  unfold post_init, fgt in Hp.
  destruct (flt (maxx b) (minx b)) eqn:Ex; [discriminate|].
  destruct (flt (maxy b) (miny b)) eqn:Ey; [discriminate|].
  destruct (flt (maxt b) (mint b)) eqn:Et; [discriminate|].
  constructor; auto using nlt_fle.
Qed.

(** X1: [in] is a partial order.  For any boxes, containment is transitive
    and two boxes that contain each other are equal ([==]).  A box that
    passed the checks of the constructor contains itself exactly when none
    of its bounds is a NaN. *)
Theorem contains_partial_order (A B C : BoundingBox) :
  (post_init A = Ok tt -> (contains A A = true <-> Forall num (to_list A)))
  /\ (contains A B = true -> contains B C = true -> contains A C = true)
  /\ (contains A B = true -> contains B A = true -> bbox_eqb A B = true).
Proof.
  split; [|split].
  - intros Hp. split.
    + intros H. apply contains_elim in H.
      destruct H as (X0 & X1 & Y0 & Y1 & T0 & T1).
      unfold to_list. repeat constructor; eapply fle_num_l; eassumption.
    + intros Hn. pose proof (checked_ordered A Hn Hp) as HA.
      apply contains_intro; auto 3 with fle.
  - unfold contains. intros H1 H2.
    repeat match goal with
           | H : _ && _ = true |- _ => apply andb_prop in H; destruct H
           end.
    repeat (apply andb_true_intro; split);
      first [ apply (fle_trans _ (minx B)); assumption
            | apply (fle_trans _ (maxx B)); assumption
            | apply (fle_trans _ (miny B)); assumption
            | apply (fle_trans _ (maxy B)); assumption
            | apply (fle_trans _ (mint B)); assumption
            | apply (fle_trans _ (maxt B)); assumption ].
  - intros H1 H2. apply contains_elim in H1, H2.
    destruct H1 as (X0 & X1 & Y0 & Y1 & T0 & T1).
    destruct H2 as (X0' & X1' & Y0' & Y1' & T0' & T1').
    apply bbox_eqb_intro; apply fle_antisym; assumption.
Qed.

(** X2: the union is the least box that contains both operands: every box
    that contains [A] and [B] contains [A | B]. *)
Theorem union_least (A B C : BoundingBox) :
  valid A -> valid B -> valid C ->
  contains C A = true -> contains C B = true ->
  exists U, union A B = Ok U /\ contains C U = true.
Proof.
  intros HA HB HC H1 H2. apply valid_ordered in HA, HB, HC.
  apply contains_elim in H1, H2.
  destruct H1 as (X0 & X1 & Y0 & Y1 & T0 & T1).
  destruct H2 as (X0' & X1' & Y0' & Y1' & T0' & T1').
  eexists. split; [apply union_ok; assumption|].
  apply contains_intro; simpl; auto 3 with fle.
  constructor; simpl; auto 3 with fle.
  - apply (fle_trans _ (minx A)); auto 3 with fle.
    apply (fle_trans _ (maxx A)); auto 3 with fle.
  - apply (fle_trans _ (miny A)); auto 3 with fle.
    apply (fle_trans _ (maxy A)); auto 3 with fle.
  - apply (fle_trans _ (mint A)); auto 3 with fle.
    apply (fle_trans _ (maxt A)); auto 3 with fle.
Qed.

Lemma union_least_witness :
  exists U, union (box 0 2 0 2 0 2) (box 1 3 1 3 1 3) = Ok U
            /\ contains (box 0 5 0 5 0 5) U = true.
Proof.
  apply (union_least (box 0 2 0 2 0 2) (box 1 3 1 3 1 3) (box 0 5 0 5 0 5));
    try (apply valid_compute; vm_compute; reflexivity); vm_compute; reflexivity.
Defined.

(** X3: the intersection is the greatest box contained in both operands:
    when a valid box lies in [A] and in [B], [A & B] does not raise and
    contains it. *)
Theorem intersect_greatest (A B C : BoundingBox) :
  valid A -> valid B -> valid C ->
  contains A C = true -> contains B C = true ->
  exists I, intersect A B = Ok I /\ contains I C = true.
Proof.
  intros HA HB HC H1 H2. apply valid_ordered in HA, HB, HC.
  apply contains_elim in H1, H2.
  destruct H1 as (X0 & X1 & Y0 & Y1 & T0 & T1).
  destruct H2 as (X0' & X1' & Y0' & Y1' & T0' & T1').
  assert (Hx : fle (py_max (minx A) (minx B)) (py_min (maxx A) (maxx B)) = true).
  { apply (fle_trans _ (minx C)); auto 3 with fle.
    apply (fle_trans _ (maxx C)); auto 3 with fle. }
  assert (Hy : fle (py_max (miny A) (miny B)) (py_min (maxy A) (maxy B)) = true).
  { apply (fle_trans _ (miny C)); auto 3 with fle.
    apply (fle_trans _ (maxy C)); auto 3 with fle. }
  assert (Ht : fle (py_max (mint A) (mint B)) (py_min (maxt A) (maxt B)) = true).
  { apply (fle_trans _ (mint C)); auto 3 with fle.
    apply (fle_trans _ (maxt C)); auto 3 with fle. }
  eexists. split.
  - unfold intersect. rewrite (new_ok _ _ _ _ _ _ Hx Hy Ht). reflexivity.
  - apply contains_intro; simpl; auto 3 with fle.
Qed.

Lemma intersect_greatest_witness :
  exists I, intersect (box 0 3 0 3 0 3) (box 1 4 1 4 1 4) = Ok I
            /\ contains I (box 2 3 2 3 2 3) = true.
Proof.
  apply (intersect_greatest (box 0 3 0 3 0 3) (box 1 4 1 4 1 4) (box 2 3 2 3 2 3));
    try (apply valid_compute; vm_compute; reflexivity); vm_compute; reflexivity.
Defined.

(** X4: [|] and [&] do not depend on the order of their operands (up to
    [==]), and a box combined with itself is that box. *)
Theorem union_intersect_commute (A B : BoundingBox) :
  valid A -> valid B ->
  (exists U U', union A B = Ok U /\ union B A = Ok U' /\ bbox_eqb U U' = true)
  /\ (forall I, intersect A B = Ok I ->
        exists I', intersect B A = Ok I' /\ bbox_eqb I I' = true)
  /\ union A A = Ok A
  /\ intersect A A = Ok A.
Proof.
  intros HA HB. apply valid_ordered in HA, HB.
  pose proof HA as [Ax0 Ax1 Ay0 Ay1 At0 At1 Ax Ay At].
  pose proof HB as [Bx0 Bx1 By0 By1 Bt0 Bt1 Bx By Bt].
  split; [|split; [|split]].
  - eexists. eexists. split; [apply union_ok; assumption|].
    split; [apply union_ok; assumption|].
    apply bbox_eqb_intro; simpl; auto using py_min_comm, py_max_comm.
  - intros I HI. destruct (intersect_inv A B I HA HB HI) as [-> HO].
    pose proof (ord_x _ HO) as Hx. pose proof (ord_y _ HO) as Hy.
    pose proof (ord_t _ HO) as Ht. simpl in Hx, Hy, Ht.
    assert (Hx' : fle (py_max (minx B) (minx A)) (py_min (maxx B) (maxx A)) = true).
    { apply py_max_le_inv in Hx; auto. destruct Hx as [H1 H2].
      apply py_min_ge_inv in H1, H2; auto.
      apply py_max_lub; apply py_min_glb; tauto. }
    assert (Hy' : fle (py_max (miny B) (miny A)) (py_min (maxy B) (maxy A)) = true).
    { apply py_max_le_inv in Hy; auto. destruct Hy as [H1 H2].
      apply py_min_ge_inv in H1, H2; auto.
      apply py_max_lub; apply py_min_glb; tauto. }
    assert (Ht' : fle (py_max (mint B) (mint A)) (py_min (maxt B) (maxt A)) = true).
    { apply py_max_le_inv in Ht; auto. destruct Ht as [H1 H2].
      apply py_min_ge_inv in H1, H2; auto.
      apply py_max_lub; apply py_min_glb; tauto. }
    eexists. split.
    + unfold intersect. rewrite (new_ok _ _ _ _ _ _ Hx' Hy' Ht'). reflexivity.
    + apply bbox_eqb_intro; simpl; auto using py_min_comm, py_max_comm.
  - rewrite union_ok by assumption. rewrite !py_min_same, !py_max_same.
    destruct A; reflexivity.
  - unfold intersect. rewrite !py_min_same, !py_max_same.
    rewrite (new_ok _ _ _ _ _ _ Ax Ay At). destruct A; reflexivity.
Qed.

Lemma union_intersect_commute_witness :
  (exists U U', union (box 0 2 0 2 0 2) (box 1 3 1 3 1 3) = Ok U
                /\ union (box 1 3 1 3 1 3) (box 0 2 0 2 0 2) = Ok U'
                /\ bbox_eqb U U' = true)
  /\ (forall I, intersect (box 0 2 0 2 0 2) (box 1 3 1 3 1 3) = Ok I ->
        exists I', intersect (box 1 3 1 3 1 3) (box 0 2 0 2 0 2) = Ok I'
                   /\ bbox_eqb I I' = true)
  /\ union (box 0 2 0 2 0 2) (box 0 2 0 2 0 2) = Ok (box 0 2 0 2 0 2)
  /\ intersect (box 0 2 0 2 0 2) (box 0 2 0 2 0 2) = Ok (box 0 2 0 2 0 2).
Proof.
  apply (union_intersect_commute (box 0 2 0 2 0 2) (box 1 3 1 3 1 3));
    apply valid_compute; vm_compute; reflexivity.
Defined.

(** X5: [intersects] is symmetric, and a box intersects every box it
    contains; neither needs the boxes to be valid. *)
Theorem intersects_symmetric (A B : BoundingBox) :
  intersects A B = intersects B A
  /\ (contains A B = true -> intersects A B = true).
Proof.
  split.
  - unfold intersects, fge.
    destruct (fle (minx A) (maxx B)), (fle (minx B) (maxx A)),
             (fle (miny A) (maxy B)), (fle (miny B) (maxy A)),
             (fle (mint A) (maxt B)), (fle (mint B) (maxt A)); reflexivity.
  - unfold contains. intros H.
    repeat match goal with
           | H : _ && _ = true |- _ => apply andb_prop in H; destruct H
           end.
    apply intersects_intro; assumption.
Qed.

(** ** Slices *)

(** A slice bound as the language defines it: counted from the end when
    negative, then clamped to the list. *)
Definition slice_bound (n dflt : Z) (o : option Z) : Z :=
  match o with
  | None => dflt
  | Some v => Z.max 0 (Z.min n (if (v <? 0)%Z then (v + n)%Z else v))
  end.

Lemma clamp_bound_unit n dflt o :
  (0 <= n)%Z -> clamp_bound n 1 dflt o = slice_bound n dflt o.
Proof.
  intros Hn. unfold clamp_bound, slice_bound. destruct o as [v|]; [|reflexivity].
  change (1 <? 0)%Z with false. cbv iota.
  set (v' := if (v <? 0)%Z then (v + n)%Z else v).
  destruct (v' <? 0)%Z eqn:E2.
  - apply Z.ltb_lt in E2. lia.
  - apply Z.ltb_ge in E2. destruct (n <=? v')%Z eqn:E3.
    + apply Z.leb_le in E3. lia.
    + apply Z.leb_gt in E3. lia.
Qed.

Lemma slice_take_unit (l : list float) : forall (count : nat) (lo : Z),
  (0 <= lo)%Z -> (Z.to_nat lo + count <= length l)%nat ->
  slice_take l lo 1 count = take count (drop (Z.to_nat lo) l).
Proof.
  induction count as [|c IH]; intros lo Hlo Hlen; [reflexivity|].
  cbn [slice_take].
  destruct (lookup_lt_is_Some_2 l (Z.to_nat lo) ltac:(lia)) as [x Hx].
  assert (Hn : nth_error l (Z.to_nat lo) = Some x).
  { rewrite <- Hx. clear. revert l. induction (Z.to_nat lo) as [|k IHk]; intros [|y l];
      simpl; auto. }
  rewrite Hn. rewrite IH by lia.
  replace (Z.to_nat (lo + 1)) with (S (Z.to_nat lo)) by lia.
  rewrite (drop_S l x (Z.to_nat lo) Hx). reflexivity.
Qed.

(** X6: a slice with the default step never raises: bounds outside the six
    positions are clamped, negative bounds count from the end, and the
    result is the run of bounds between them; a zero step raises
    ValueError. *)
Theorem getitem_slice (b : BoundingBox) (start stop : option Z) :
  let lo := slice_bound 6 0 start in
  let hi := slice_bound 6 6 stop in
  getitem b (KSlice start stop None)
  = Ok (Items (take (Z.to_nat (hi - lo)) (drop (Z.to_nat lo) (to_list b))))
  /\ getitem b (KSlice start stop (Some 1%Z)) = getitem b (KSlice start stop None)
  /\ exists e, getitem b (KSlice start stop (Some 0%Z)) = Err e
               /\ exn_class e = ValueError.
Proof.
  intros lo hi. split; [|split].
  - unfold getitem, list_slice. change (Z.of_nat (length (to_list b))) with 6%Z.
    change (1 =? 0)%Z with false. change (1 <? 0)%Z with false.
    change (0 <? 1)%Z with true. cbv iota.
    rewrite !clamp_bound_unit by lia. fold lo hi.
    assert (Hlo : (0 <= lo <= 6)%Z).
    { unfold lo, slice_bound. destruct start; lia. }
    assert (Hhi : (0 <= hi <= 6)%Z).
    { unfold hi, slice_bound. destruct stop; lia. }
    destruct (lo <? hi)%Z eqn:E.
    + apply Z.ltb_lt in E. rewrite Z.div_1_r.
      replace (hi - lo - 1 + 1)%Z with (hi - lo)%Z by lia.
      rewrite slice_take_unit; [reflexivity | lia | simpl; lia].
    + apply Z.ltb_ge in E. replace (Z.to_nat (hi - lo)) with 0%nat by lia.
      reflexivity.
  - reflexivity.
  - exists SliceStepZero. split; reflexivity.
Qed.

(** ** Area and volume *)

Lemma sub_nonneg (a b : float) :
  is_finite a = true -> is_finite b = true -> fle a b = true ->
  fle 0 (b - a) = true.
Proof.
  intros Fa Fb Hab. apply Binary64.is_finite_vf in Fa, Fb.
  unfold fle in *. rewrite FloatAxioms.leb_spec in Hab |- *.
  apply (Binary64.SFleb_V _ _ Fa Fb) in Hab.
  destruct (Binary64.SFsub_rounds _ _ Fb Fa) as [_ R].
  specialize (R (S754_zero false) (Binary64.vf_zero false) ltac:(simpl; lia)).
  rewrite FloatAxioms.sub_spec. change (Prim2SF 0) with (S754_zero false).
  fold (SF64sub (Prim2SF b) (Prim2SF a)).
  pose proof (Prim2SF_valid (b - a)) as Vw. rewrite FloatAxioms.sub_spec in Vw.
  destruct R as [R|[F R]].
  - unfold SF64sub. rewrite R. reflexivity.
  - apply (Binary64.SFleb_V _ _ (Binary64.vf_zero false)); [split; assumption|].
    exact R.
Qed.

Lemma equal_difference (a b : float) :
  is_finite a = true -> is_finite b = true -> feq a b = true ->
  feq (b - a) 0 = true /\ is_finite (b - a) = true.
Proof.
  intros Fa Fb Hab. apply Binary64.is_finite_vf in Fa, Fb.
  assert (HV : Binary64.V (Prim2SF a) = Binary64.V (Prim2SF b)).
  { unfold feq in Hab. rewrite FloatAxioms.eqb_spec in Hab. unfold SFeqb in Hab.
    rewrite (Binary64.SFcompare_V _ _ Fa Fb) in Hab.
    destruct (Z.compare_spec (Binary64.V (Prim2SF a)) (Binary64.V (Prim2SF b)));
      [assumption | discriminate | discriminate]. }
  destruct (Binary64.SFsub_rounds _ _ Fb Fa) as [R1 R2].
  specialize (R1 (S754_zero false) (Binary64.vf_zero false) ltac:(simpl; lia)).
  specialize (R2 (S754_zero false) (Binary64.vf_zero false) ltac:(simpl; lia)).
  rewrite <- FloatAxioms.sub_spec in R1, R2.
  assert (H : Binary64.finite (Prim2SF (b - a))
              /\ Binary64.V (Prim2SF (b - a)) = 0%Z).
  { destruct R1 as [R1|[F1 R1]]; destruct R2 as [R2|[F2 R2]].
    - rewrite R1 in R2. discriminate.
    - rewrite R1 in F2. contradiction.
    - rewrite R2 in F1. contradiction.
    - split; [assumption|]. simpl in R1, R2. lia. }
  destruct H as [F HV0].
  assert (Hw : Binary64.vf (Prim2SF (b - a)))
    by (split; [assumption | apply Prim2SF_valid]).
  split; [|apply Binary64.vf_is_finite; assumption].
  destruct (Binary64.null_inv _ Hw HV0) as [s Hs].
  unfold feq. rewrite FloatAxioms.eqb_spec, Hs. destruct s; reflexivity.
Qed.

Lemma nonneg_inv (x : float) :
  is_finite x = true -> fle 0 x = true ->
  (exists s, Prim2SF x = S754_zero s) \/ (exists m e, Prim2SF x = S754_finite false m e).
Proof.
  intros Fx H. pose proof (Binary64.is_finite_vf x Fx) as Hx.
  unfold fle in H. rewrite FloatAxioms.leb_spec in H.
  apply (Binary64.SFleb_V _ _ (Binary64.vf_zero false) Hx) in H. simpl in H.
  destruct (Z.eq_dec (Binary64.V (Prim2SF x)) 0%Z) as [E|N].
  - left. apply Binary64.null_inv; assumption.
  - right. apply Binary64.pos_inv; [assumption | lia].
Qed.

Lemma mul_nonneg (x y : float) :
  is_finite x = true -> is_finite y = true ->
  fle 0 x = true -> fle 0 y = true -> fle 0 (x * y) = true.
Proof.
  intros Fx Fy Hx Hy.
  pose proof (Prim2SF_valid x) as Vx. pose proof (Prim2SF_valid y) as Vy.
  pose proof (Prim2SF_valid (x * y)) as Vr.
  unfold fle. rewrite FloatAxioms.leb_spec, FloatAxioms.mul_spec.
  rewrite FloatAxioms.mul_spec in Vr.
  change (Prim2SF 0) with (S754_zero false). unfold SF64mul in *.
  destruct (nonneg_inv x Fx Hx) as [[s Ex]|(m & e & Ex)];
    destruct (nonneg_inv y Fy Hy) as [[s' Ey]|(m' & e' & Ey)];
    rewrite Ex, Ey in *.
  - destruct s, s'; reflexivity.
  - destruct s; reflexivity.
  - destruct s'; reflexivity.
  - destruct (Binary64.SFmul_rounds_pos m e m' e' Vx Vy)
      as (q & q' & e1 & He1 & Hq0 & _ & _ & _ & Hnear & _ & _ & Hr).
    pose proof (Binary64.P2_pos (e1 + Binary64.K) ltac:(unfold Binary64.K; lia)) as HU.
    destruct Hr as [[F HV]|[-> _]]; [|reflexivity].
    apply (Binary64.SFleb_V _ _ (Binary64.vf_zero false)); [split; assumption|].
    rewrite HV. simpl. nia.
Qed.

Lemma mul_null (x y : float) :
  is_finite x = true -> is_finite y = true ->
  feq x 0 = true \/ feq y 0 = true -> feq (x * y) 0 = true.
Proof.
  intros Fx Fy H.
  apply Binary64.is_finite_vf in Fx, Fy. destruct Fx as [Fx _], Fy as [Fy _].
  unfold feq in *. rewrite FloatAxioms.eqb_spec, FloatAxioms.mul_spec.
  rewrite !FloatAxioms.eqb_spec in H.
  change (Prim2SF 0) with (S754_zero false) in *. unfold SF64mul.
  destruct (Prim2SF x) as [s| | |s m e], (Prim2SF y) as [s'| | |s' m' e'];
    simpl in Fx, Fy; try contradiction.
  - reflexivity.
  - reflexivity.
  - reflexivity.
  - destruct H as [H|H]; destruct s; discriminate || (destruct s'; discriminate).
Qed.

(** X7: on a valid box whose extents along x and y do not overflow, the
    area is a number and is not negative, and it is zero when the box is
    flat along x or along y. *)
Theorem area_nonneg (b : BoundingBox) :
  valid b ->
  is_finite (maxx b - minx b) = true -> is_finite (maxy b - miny b) = true ->
  fle 0 (area b) = true
  /\ (feq (minx b) (maxx b) = true \/ feq (miny b) (maxy b) = true ->
      feq (area b) 0 = true).
Proof.
  intros Hv Fw Fh.
  destruct (valid_split_axis b true Hv) as (Fx0 & Fx1 & Hx).
  destruct (valid_split_axis b false Hv) as (Fy0 & Fy1 & Hy).
  simpl in *. unfold area. split.
  - apply mul_nonneg; try assumption; apply sub_nonneg; assumption.
  - intros [E|E]; apply mul_null; try assumption.
    + left. apply equal_difference; assumption.
    + right. apply equal_difference; assumption.
Qed.

Lemma area_nonneg_witness :
  fle 0 (area (box 0 8 0 4 0 1)) = true
  /\ (feq (minx (box 0 8 0 4 0 1)) (maxx (box 0 8 0 4 0 1)) = true
      \/ feq (miny (box 0 8 0 4 0 1)) (maxy (box 0 8 0 4 0 1)) = true ->
      feq (area (box 0 8 0 4 0 1)) 0 = true).
Proof.
  apply (area_nonneg (box 0 8 0 4 0 1));
    [apply valid_compute | | ]; vm_compute; reflexivity.
Defined.

(** X8: when moreover the area and the time extent are finite, the volume
    is a number and is not negative, and a box that covers a single instant
    has volume zero. *)
Theorem volume_nonneg (b : BoundingBox) :
  valid b ->
  is_finite (maxx b - minx b) = true -> is_finite (maxy b - miny b) = true ->
  is_finite (area b) = true -> is_finite (maxt b - mint b) = true ->
  fle 0 (volume b) = true
  /\ (feq (mint b) (maxt b) = true -> feq (volume b) 0 = true).
Proof.
  intros Hv Fw Fh Fa Ft.
  pose proof (valid_ordered b Hv) as [_ _ _ _ _ _ _ _ Ht].
  assert (Fb : is_finite (mint b) = true /\ is_finite (maxt b) = true).
  { destruct Hv as [Hf _]. unfold finite_bounds, to_list in Hf.
    repeat match goal with
           | H : Forall _ (_ :: _) |- _ => apply Forall_cons_iff in H; destruct H as [? H]
           end.
    auto. }
  destruct Fb as [Ft0 Ft1].
  destruct (valid_split_axis b true Hv) as (Fx0 & Fx1 & Hx).
  destruct (valid_split_axis b false Hv) as (Fy0 & Fy1 & Hy).
  simpl in *. unfold volume. split.
  - apply mul_nonneg; try assumption.
    + unfold area. apply mul_nonneg; try assumption; apply sub_nonneg; assumption.
    + apply sub_nonneg; assumption.
  - intros E. apply mul_null; try assumption.
    right. apply equal_difference; assumption.
Qed.

Lemma volume_nonneg_witness :
  fle 0 (volume (box 0 8 0 4 0 1)) = true
  /\ (feq (mint (box 0 8 0 4 0 1)) (maxt (box 0 8 0 4 0 1)) = true ->
      feq (volume (box 0 8 0 4 0 1)) 0 = true).
Proof.
  apply (volume_nonneg (box 0 8 0 4 0 1));
    [apply valid_compute | | | | ]; vm_compute; reflexivity.
Defined.

(** ** The two halves of a split *)

(** X9: on a valid box whose width along the split axis does not overflow,
    the two halves [split] returns are valid boxes contained in the box;
    they share the cut coordinate, so they intersect. *)
Theorem split_halves (A : BoundingBox) (p : float) (horizontal : bool) :
  valid A ->
  flt 0 p = true -> flt p 1 = true ->
  is_finite (split_hi A horizontal - split_lo A horizontal)%float = true ->
  exists b1 b2,
    split A p horizontal = Ok (b1, b2)
    /\ valid b1 /\ valid b2
    /\ contains A b1 = true /\ contains A b2 = true
    /\ split_hi b1 horizontal = split_lo b2 horizontal
    /\ intersects b1 b2 = true.
Proof.
  intros HA Hp0 Hp1 Hw.
  destruct (valid_split_axis A horizontal HA) as (Flo & Fhi & Hle).
  destruct (Binary64.split_point_bounds _ _ p Flo Fhi Hle Hp0 Hp1 Hw)
    as (Fs & Hlo & Hhi).
  destruct (split_within A p horizontal HA Hp0 Hp1 Hlo Hhi) as [Hsplit _].
  fold (split_point A p horizontal) in Fs, Hlo, Hhi.
  remember (split_point A p horizontal) as s eqn:Es. clear Es.
  pose proof (valid_ordered A HA) as HO.
  pose proof HO as [Nx0 Nx1 Ny0 Ny1 Nt0 Nt1 Ax Ay At].
  destruct HA as [HfA HpA]. unfold finite_bounds, to_list in HfA.
  repeat match goal with
         | H : Forall _ (_ :: _) |- _ => apply Forall_cons_iff in H; destruct H as [? H]
         end.
  exists (with_hi A horizontal s), (with_lo A horizontal s).
  split; [exact Hsplit|].
  unfold with_hi, with_lo, split_lo, split_hi in *.
  destruct horizontal.
  - repeat split.
    + repeat constructor; simpl; assumption.
    + unfold post_init, fgt; simpl.
      rewrite (fle_nlt _ _ Hlo), (fle_nlt _ _ Ay), (fle_nlt _ _ At). reflexivity.
    + repeat constructor; simpl; assumption.
    + unfold post_init, fgt; simpl.
      rewrite (fle_nlt _ _ Hhi), (fle_nlt _ _ Ay), (fle_nlt _ _ At). reflexivity.
    + apply contains_intro; simpl; auto 3 with fle.
      constructor; simpl; eauto 3 using fle_num_r with fle.
    + apply contains_intro; simpl; auto 3 with fle.
      constructor; simpl; eauto 3 using fle_num_r with fle.
    + apply intersects_intro; simpl; eauto 3 using fle_num_r, fle_trans with fle.
  - repeat split.
    + repeat constructor; simpl; assumption.
    + unfold post_init, fgt; simpl.
      rewrite (fle_nlt _ _ Ax), (fle_nlt _ _ Hlo), (fle_nlt _ _ At). reflexivity.
    + repeat constructor; simpl; assumption.
    + unfold post_init, fgt; simpl.
      rewrite (fle_nlt _ _ Ax), (fle_nlt _ _ Hhi), (fle_nlt _ _ At). reflexivity.
    + apply contains_intro; simpl; auto 3 with fle.
      constructor; simpl; eauto 3 using fle_num_r with fle.
    + apply contains_intro; simpl; auto 3 with fle.
      constructor; simpl; eauto 3 using fle_num_r with fle.
    + apply intersects_intro; simpl; eauto 3 using fle_num_r, fle_trans with fle.
Qed.

Lemma split_halves_witness :
  exists b1 b2,
    split (box 0 8 0 4 0 1) 0.25 true = Ok (b1, b2)
    /\ valid b1 /\ valid b2
    /\ contains (box 0 8 0 4 0 1) b1 = true /\ contains (box 0 8 0 4 0 1) b2 = true
    /\ split_hi b1 true = split_lo b2 true
    /\ intersects b1 b2 = true.
Proof.
  apply (split_halves (box 0 8 0 4 0 1) 0.25 true);
    [apply valid_compute | | | ]; vm_compute; reflexivity.
Defined.

End BBoxLaws.

(* ================================================================== *)
(** * Collation: the result, key by key *)

Module CollateLaws.
Import Collate.

Section KeyLocalErr.
Context {A B : Type}.
Variable g : option B -> A -> result pyexn (option B).

(** A key-local loop raises what the step raised on one of the items. *)
Lemma foldM_keylocal_err (l : list (string * A)) (acc : gmap string B) e :
  NoDup l.*1 ->
  foldM (keylocal_step g) l acc = Err e ->
  exists k v, (k, v) ∈ l /\ g (acc !! k) v = Err e.
Proof.
  revert acc. induction l as [|[k0 v0] l IH]; intros acc Hnd Hr; simpl in *.
  - discriminate.
  - apply NoDup_cons in Hnd. destruct Hnd as [Hk0 Hnd].
    unfold keylocal_step in Hr at 1. simpl in Hr.
    destruct (g (acc !! k0) v0) as [ob|e'] eqn:Eg; simpl in Hr.
    + set (acc' := match ob with Some b => <[k0 := b]> acc | None => acc end).
      assert (Hr' : foldM (keylocal_step g) l acc' = Err e)
        by (subst acc'; destruct ob; exact Hr).
      destruct (IH acc' Hnd Hr') as (k & v & Hin & Hg).
      exists k, v. split; [right; assumption|].
      assert (Hne : k0 <> k).
      { intros ->. apply Hk0. apply list_elem_of_fmap.
        exists (k, v). split; [reflexivity | assumption]. }
      assert (Hacc : acc' !! k = acc !! k)
        by (subst acc'; destruct ob;
            [apply lookup_insert_ne; assumption | reflexivity]).
      rewrite <- Hacc. exact Hg.
    + injection Hr as <-. exists k0, v0. split; [left | assumption].
Qed.

End KeyLocalErr.

(** ** [stack_samples] *)

(** X10: [stack_samples] looks only at the first value under a key.  When
    it is not a tensor, the result holds there the list of all the values,
    in batch order, whatever they are; when it is a tensor, the result
    holds [torch.stack] of all the values, and [stack_samples] raises only
    what [torch.stack] raised on such a key. *)
Theorem stack_samples_columns (samples : list nat) (h : heap) :
  (forall c, (stack_samples samples h).1 = Ok c ->
     forall k,
       match column k (batch_of h samples) with
       | [] => c !! k = None
       | v :: vs =>
           if is_tensor v
           then exists t, torch_stack (v :: vs) = Ok t /\ c !! k = Some (VTensor t)
           else c !! k = Some (VList (v :: vs))
       end)
  /\ (forall e, (stack_samples samples h).1 = Err e ->
        exists k v vs,
          column k (batch_of h samples) = v :: vs
          /\ is_tensor v = true /\ torch_stack (v :: vs) = Err e).
Proof.
  rewrite stack_samples_unfold. cbn [fst].
  set (batch := batch_of h samples).
  set (coll := collate_from ∅ batch).
  split.
  - intros c Hc k.
    pose proof (foldM_keylocal stack_entry _ _ _
                  (NoDup_fst_map_to_list coll) Hc k) as Hk.
    rewrite list_to_map_to_list, lookup_fmap in Hk.
    unfold coll in Hk. rewrite collate_lookup in Hk.
    destruct (column k batch) as [|v vs]; simpl in Hk; [exact Hk|].
    destruct Hk as (ob & Hob & Hck). unfold stack_entry in Hob. simpl in Hob.
    destruct (is_tensor v).
    + destruct (torch_stack (v :: vs)) as [t|e]; [|discriminate].
      injection Hob as <-. exists t. split; [reflexivity | exact Hck].
    + injection Hob as <-. exact Hck.
  - intros e He.
    destruct (foldM_keylocal_err stack_entry _ _ _
                (NoDup_fst_map_to_list coll) He) as (k & vs & Hin & Hg).
    apply elem_of_map_to_list in Hin. unfold coll in Hin.
    rewrite collate_lookup in Hin.
    destruct (column k batch) as [|v vs'] eqn:Ecol; [discriminate|].
    injection Hin as <-. exists k, v, vs'. split; [exact Ecol|].
    unfold stack_entry in Hg. simpl in Hg.
    destruct (is_tensor v); [|discriminate]. split; [reflexivity|].
    destruct (torch_stack (v :: vs')); [discriminate|].
    injection Hg as <-. reflexivity.
Qed.

(** ** [concat_samples] *)

(** The entry the loop of [concat_samples] writes for the list [values]. *)
Definition concat_entry (_ : option value) (values : list value)
  : result pyexn (option value) :=
  v0 <- head_of values ;;
  if is_tensor v0 then t <- torch_cat values ;; Ok (Some (VTensor t))
  else Ok (Some v0).

Lemma concat_samples_unfold samples h :
  concat_samples samples h
  = (foldM (keylocal_step concat_entry)
       (map_to_list (collate_from ∅ (batch_of h samples)))
       (VList <$> collate_from ∅ (batch_of h samples)), h).
Proof.
  unfold concat_samples, _list_dict_to_dict_list, bindM. rewrite l2d_run.
  unfold lift. f_equal.
  generalize (VList <$> collate_from ∅ (batch_of h samples)) as acc.
  generalize (map_to_list (collate_from ∅ (batch_of h samples))) as l.
  induction l as [|kv l IH]; intros acc; simpl; [reflexivity|].
  assert (E : forall c, (v0 <- head_of kv.2 ;;
                         if is_tensor v0
                         then t <- torch_cat kv.2 ;; Ok (<[kv.1 := VTensor t]> c)
                         else Ok (<[kv.1 := v0]> c))
                        = keylocal_step concat_entry c kv).
  { intros c. unfold keylocal_step, concat_entry.
    destruct (head_of kv.2) as [v0|e]; simpl; [|reflexivity].
    destruct (is_tensor v0); simpl; [|reflexivity].
    destruct (torch_cat kv.2); reflexivity. }
  rewrite E. destruct (keylocal_step concat_entry acc kv); simpl; [apply IH | reflexivity].
Qed.

(** The leading axis of a tensor. *)
Definition leading (t : tensor) : nat := hd 0%nat (shape t).

(** [torch.cat] of well-formed tensors that agree on every axis but the
    first: the leading axes add up and the elements follow each other. *)
Lemma torch_cat_ok (s : list nat) (ts : list tensor) :
  ts <> [] ->
  Forall (fun t => exists n, shape t = n :: s /\ wf_tensor t) ts ->
  torch_cat (VTensor <$> ts)
  = Ok (mkTensor (sum_list (leading <$> ts) :: s) (concat (data <$> ts))).
Proof.
  intros Hne Hts. unfold torch_cat. rewrite mapM_as_tensor. cbn [bind].
  assert (Hex : existsb (fun t => bool_decide (shape t = [])) ts = false).
  { clear Hne. induction Hts as [|t ts' (n & Hs & _) _ IH]; [reflexivity|].
    simpl. rewrite IH, orb_false_r. apply bool_decide_eq_false_2.
    rewrite Hs. discriminate. }
  destruct ts as [|t0 ts0]; [congruence|]. cbv iota.
  remember (t0 :: ts0) as ts eqn:Ets. rewrite Hex. clear Ets Hex t0 ts0.
  (* the operands of shape [0] carry no element and add nothing *)
  assert (Hf : sum_list (leading <$> filter (fun t => shape t <> [0%nat]) ts)
               = sum_list (leading <$> ts)
               /\ concat (data <$> filter (fun t => shape t <> [0%nat]) ts)
                  = concat (data <$> ts)
               /\ Forall (fun t => exists n, shape t = n :: s /\ wf_tensor t)
                         (filter (fun t => shape t <> [0%nat]) ts)
               /\ (filter (fun t => shape t <> [0%nat]) ts = [] ->
                   s = [] \/ ts = [])).
  { clear Hne. induction Hts as [|t ts' (n & Hs & Hw) Hts' (I1 & I2 & I3 & I4)].
    - repeat split; auto.
    - rewrite filter_cons. destruct (decide (shape t <> [0%nat])) as [Hn|Hn].
      + rewrite !fmap_cons. simpl. rewrite I1, I2.
        repeat split; auto; try discriminate.
        constructor; eauto.
      + apply dec_stable in Hn. rewrite !fmap_cons. simpl.
        assert (Hd : data t = []).
        { unfold wf_tensor in Hw. rewrite Hn in Hw. simpl in Hw.
          destruct (data t); [reflexivity | discriminate]. }
        unfold leading at 2. rewrite Hn, Hd. simpl. repeat split; auto.
        intros _. left. rewrite Hs in Hn. injection Hn as _ <-. reflexivity. }
  destruct Hf as (F1 & F2 & F3 & F4).
  destruct (filter (fun t => shape t <> [0%nat]) ts) as [|t0 ts'] eqn:Ef.
  - simpl in F1, F2. rewrite <- F1, <- F2.
    destruct (F4 eq_refl) as [-> | ->]; [reflexivity | congruence].
  - apply Forall_cons in F3. destruct F3 as [(n0 & Hs0 & _) F3].
    assert (Hall : forallb (fun t => bool_decide (tail (shape t) = tail (shape t0))) ts'
                   = true).
    { apply forallb_forall. intros t Hin. apply bool_decide_eq_true_2.
      rewrite Forall_forall in F3. apply list_elem_of_In in Hin.
      destruct (F3 t Hin) as (n & Hs & _). rewrite Hs, Hs0. reflexivity. }
    rewrite Hall. fold leading. rewrite F1, F2, Hs0. reflexivity.
Qed.

(** The values under a key can be concatenated: they are well-formed
    tensors that agree on every axis but the first, or the first of them is
    not a tensor. *)
Definition concatenable (vs : list value) : Prop :=
  (exists s ts, vs = VTensor <$> ts
                /\ Forall (fun t => exists n, shape t = n :: s /\ wf_tensor t) ts)
  \/ match vs with v :: _ => is_tensor v = false | [] => True end.

(** What [concat_samples] leaves under a key whose column is [vs]. *)
Definition concatenated (vs : list value) (o : option value) : Prop :=
  match vs with
  | [] => o = None
  | v :: _ =>
      if is_tensor v
      then exists s ts,
          vs = VTensor <$> ts
          /\ o = Some (VTensor (mkTensor (sum_list (leading <$> ts) :: s)
                                         (concat (data <$> ts))))
      else o = Some v
  end.

Lemma concat_entry_ok o v vs :
  concatenable (v :: vs) ->
  exists b, concat_entry o (v :: vs) = Ok (Some b) /\ concatenated (v :: vs) (Some b).
Proof.
  intros [(s & ts & E & Hts)|H].
  - destruct ts as [|t0 ts]; [discriminate|].
    pose proof (torch_cat_ok s (t0 :: ts) ltac:(discriminate) Hts) as Hcat.
    rewrite <- E in Hcat.
    assert (Hv : is_tensor v = true)
      by (rewrite fmap_cons in E; injection E as -> _; reflexivity).
    unfold concat_entry. simpl head_of. cbn [bind]. rewrite Hv, Hcat. cbn [bind].
    eexists. split; [reflexivity|]. simpl. rewrite Hv.
    exists s, (t0 :: ts). auto.
  - unfold concat_entry. simpl head_of. cbn [bind]. simpl in H. rewrite H.
    eexists. split; [reflexivity|]. simpl. rewrite H. reflexivity.
Qed.

(** X11: [concat_samples] keeps, under a key whose first value is not a
    tensor, that first value; under a key that holds tensors agreeing on
    every axis but the first, it leaves their concatenation along the first
    axis: the leading axes add up and the elements follow each other in
    batch order.  A key no sample has is absent from the result. *)
Theorem concat_samples_spec (samples : list nat) (h : heap) :
  (forall k, concatenable (column k (batch_of h samples))) ->
  exists c, concat_samples samples h = (Ok c, h)
            /\ forall k, concatenated (column k (batch_of h samples)) (c !! k).
Proof.
  intros Hcat. rewrite concat_samples_unfold.
  set (batch := batch_of h samples) in *.
  set (coll := collate_from ∅ batch).
  destruct (foldM_keylocal_ok concat_entry (map_to_list coll) (VList <$> coll))
    as [c Hc].
  - apply NoDup_fst_map_to_list.
  - intros k vs Hin. apply elem_of_map_to_list in Hin.
    unfold coll in Hin. rewrite collate_lookup in Hin.
    destruct (column k batch) as [|v vs'] eqn:Ecol; [discriminate|].
    injection Hin as <-. specialize (Hcat k). rewrite Ecol in Hcat.
    destruct (concat_entry_ok (((VList <$> coll) : dict) !! k) v vs' Hcat)
      as (b & Hb & _).
    eauto.
  - exists c. split; [rewrite Hc; reflexivity|]. intros k.
    pose proof (foldM_keylocal concat_entry _ _ _
                  (NoDup_fst_map_to_list coll) Hc k) as Hk.
    rewrite list_to_map_to_list in Hk. rewrite lookup_fmap in Hk.
    unfold coll in Hk. rewrite collate_lookup in Hk.
    destruct (column k batch) as [|v vs'] eqn:Ecol; simpl in Hk.
    + simpl. exact Hk.
    + destruct Hk as (ob & Hob & Hck). specialize (Hcat k). rewrite Ecol in Hcat.
      destruct (concat_entry_ok (Some (VList (v :: vs'))) v vs' Hcat)
        as (b & Hb & Hcd).
      rewrite Hob in Hb. injection Hb as ->. rewrite Hck. exact Hcd.
Qed.

(** Two samples with an array and a string each. *)
Definition heap_tiles : heap :=
  <[ 0%nat := <[ "crs"%string := VStr "EPSG:4326" ]>
                {[ "image"%string := VTensor arr1 ]} ]>
    {[ 1%nat := <[ "crs"%string := VStr "EPSG:32633" ]>
                  {[ "image"%string := VTensor arr2 ]} ]}.

Lemma concat_samples_spec_witness :
  exists c, concat_samples [0; 1]%nat heap_tiles = (Ok c, heap_tiles)
            /\ forall k, concatenated (column k (batch_of heap_tiles [0; 1]%nat)) (c !! k).
Proof.
  apply (concat_samples_spec [0; 1]%nat heap_tiles).
  assert (Hb : batch_of heap_tiles [0; 1]%nat
               = [ <[ "crs"%string := VStr "EPSG:4326" ]>
                     {[ "image"%string := VTensor arr1 ]};
                   <[ "crs"%string := VStr "EPSG:32633" ]>
                     {[ "image"%string := VTensor arr2 ]} ])
    by (vm_compute; reflexivity).
  rewrite Hb. intros k. unfold column. simpl.
  destruct (decide (k = "crs"%string)) as [->|Hne].
  - rewrite !lookup_insert_eq. right. reflexivity.
  - rewrite !lookup_insert_ne by congruence.
    destruct (decide (k = "image"%string)) as [->|Hne'].
    + rewrite !lookup_singleton_eq. left. exists [3%nat], [arr1; arr2].
      split; [reflexivity|].
      repeat constructor; exists 3%nat; split; reflexivity.
    + rewrite !lookup_singleton_ne by congruence. right. exact I.
Defined.

(** ** [unbind_samples] on columns of unequal length *)

(** The elements [unbind_samples] spreads over the rows: the slices of a
    tensor along its first axis, the items of a list or tuple, the
    characters of a string. *)
Definition elements (v : value) : result pyexn (list value) :=
  match v with
  | VTensor t => ts <- torch_unbind t ;; Ok (VTensor <$> ts)
  | _ => py_iter v
  end.

Lemma mapM_py_len_cols (cols : string -> list value) (its : list (string * value)) :
  (forall k v, (k, v) ∈ its -> py_iter v = Ok (cols k)) ->
  mapM py_len (snd <$> its) = Ok ((fun kv => length (cols kv.1)) <$> its).
Proof.
  induction its as [|[k v] its IH]; intros H; [reflexivity|].
  rewrite !fmap_cons. cbn [mapM snd fst].
  rewrite (py_iter_len _ _ (H k v ltac:(left))). cbn [bind].
  rewrite IH by (intros k' v' Hin; apply H; right; assumption).
  reflexivity.
Qed.

(** [_dict_list_to_list_dict] on values of any lengths: as many rows as the
    longest value has elements; a row holds a key when the value under
    that key reaches it. *)
Lemma d2l_ragged l h (cols : string -> list value) :
  deref h l <> ∅ ->
  (forall k v, deref h l !! k = Some v -> py_iter v = Ok (cols k)) ->
  exists out,
    _dict_list_to_list_dict l h = (Ok out, h)
    /\ (forall k, is_Some (deref h l !! k) -> length (cols k) <= length out)
    /\ (exists k, is_Some (deref h l !! k) /\ length (cols k) = length out)
    /\ forall i row, out !! i = Some row ->
         forall k, row !! k
                   = match deref h l !! k with
                     | Some _ => cols k !! i
                     | None => None
                     end.
Proof.
  intros Hne Hcols. unfold _dict_list_to_list_dict, bindM, items, lift.
  set (d := deref h l) in *.
  set (its := map_to_list d).
  assert (Hits : forall k v, (k, v) ∈ its -> py_iter v = Ok (cols k)).
  { intros k v Hin. apply elem_of_map_to_list in Hin. eauto. }
  rewrite (mapM_py_len_cols cols its Hits). cbn [bind].
  set (lens := (fun kv : string * value => length (cols kv.1)) <$> its).
  assert (Hlens : lens <> []).
  { unfold lens, its. destruct (map_to_list d) eqn:E; [|discriminate].
    exfalso. apply Hne. apply map_to_list_empty_iff. exact E. }
  destruct lens as [|n0 lens0] eqn:Elens; [congruence|]. rewrite <- Elens in *.
  set (n := max_list lens).
  assert (Hle : forall k v, (k, v) ∈ its -> length (cols k) <= n).
  { intros k v Hin. apply max_list_elem_of_le. unfold lens.
    apply list_elem_of_fmap. exists (k, v). split; [reflexivity | assumption]. }
  destruct (d2l_outer_run cols its (replicate n ∅)) as (out & Hout & Hlo & Hrows).
  - apply NoDup_fst_map_to_list.
  - intros k v Hin. split; [eauto|]. rewrite length_replicate. eauto.
  - exists out. rewrite length_replicate in Hlo. rewrite Hout.
    split; [reflexivity|]. rewrite Hlo. split; [|split].
    + intros k [v Hv]. apply (Hle k v). apply elem_of_map_to_list. exact Hv.
    + pose proof (max_list_elem_of lens Hlens) as Hmax. fold n in Hmax.
      unfold lens in Hmax. apply list_elem_of_fmap in Hmax.
      destruct Hmax as ([k v] & Hn & Hin). simpl in Hn.
      exists k. split; [|congruence].
      exists v. apply elem_of_map_to_list. exact Hin.
    + intros i row Hi k.
      assert (Hin : i < n) by (rewrite <- Hlo; eapply lookup_lt_Some; eassumption).
      destruct (Hrows i ∅) as (row' & Hrow' & Hk);
        [apply lookup_replicate_2; assumption|].
      rewrite Hi in Hrow'. injection Hrow' as <-. rewrite Hk.
      unfold its. rewrite list_to_map_to_list, lookup_empty.
      destruct (d !! k); [|reflexivity]. destruct (cols k !! i); reflexivity.
Qed.

(** X12: [unbind_samples] on a mapping whose values have any lengths
    returns as many rows as the longest value has elements; row [i] holds a
    key exactly when the value under that key has an element [i], and holds
    that element.  Shorter values leave the later rows without their key;
    a string value is spread character by character. *)
Theorem unbind_samples_rows (sample : nat) (h : heap) (cols : string -> list value) :
  deref h sample <> ∅ ->
  (forall k v, deref h sample !! k = Some v -> elements v = Ok (cols k)) ->
  exists out,
    (unbind_samples sample h).1 = Ok out
    /\ (forall k, is_Some (deref h sample !! k) -> length (cols k) <= length out)
    /\ (exists k, is_Some (deref h sample !! k) /\ length (cols k) = length out)
    /\ forall i row, out !! i = Some row ->
         forall k, row !! k
                   = match deref h sample !! k with
                     | Some _ => cols k !! i
                     | None => None
                     end.
Proof.
  intros Hne Hcols. rewrite unbind_samples_unfold.
  set (d := deref h sample) in *.
  destruct (foldM_keylocal_ok unbind_entry (map_to_list d) d) as [d1 Hd1].
  { apply NoDup_fst_map_to_list. }
  { intros k v Hin. apply elem_of_map_to_list in Hin.
    specialize (Hcols k v Hin). unfold unbind_entry.
    destruct v as [t| | | |]; try (eexists; reflexivity).
    simpl in Hcols. destruct (torch_unbind t); [|discriminate].
    eexists; reflexivity. }
  destruct (foldMM (unbind_step sample) (map_to_list d) tt h) as [r h1] eqn:Erun.
  destruct (unbind_loop sample _ _ _ _ Erun) as (F1 & F2 & F3 & F4).
  fold d in F3, F4. rewrite (F4 d1 Hd1) in *. specialize (F3 eq_refl).
  rewrite Hd1 in F3. injection F3 as F3.
  pose proof (foldM_keylocal unbind_entry _ _ _
                (NoDup_fst_map_to_list d) Hd1) as Hkl.
  assert (Hd1k : forall k, match d !! k with
                           | Some v => exists v', d1 !! k = Some v'
                                         /\ py_iter v' = Ok (cols k)
                           | None => d1 !! k = None
                           end).
  { intros k. specialize (Hkl k). rewrite list_to_map_to_list in Hkl.
    destruct (d !! k) as [v|] eqn:Ek; [|exact Hkl].
    destruct Hkl as (ob & Hob & Hnew). specialize (Hcols k v Ek).
    unfold unbind_entry in Hob. destruct v as [t| | | |];
      try (injection Hob as <-; simpl in Hnew; eexists; split;
           [exact Hnew | exact Hcols]).
    simpl in Hcols. destruct (torch_unbind t) as [ts|]; [|discriminate].
    simpl in Hob, Hcols. injection Hob as <-. injection Hcols as <-.
    simpl in Hnew. eexists. split; [exact Hnew | reflexivity]. }
  assert (Hsame : forall k, is_Some (deref h1 sample !! k) <-> is_Some (d !! k)).
  { intros k. rewrite <- F3. specialize (Hd1k k). destruct (d !! k) as [v|].
    - destruct Hd1k as (v' & -> & _). split; eauto.
    - rewrite Hd1k. reflexivity. }
  destruct (d2l_ragged sample h1 cols) as (out & Hout & Hle & Hmax & Hrows).
  - rewrite <- F3. intros E. apply Hne. apply map_eq. intros k.
    specialize (Hd1k k). rewrite E, lookup_empty in Hd1k. rewrite lookup_empty.
    destruct (d !! k); [destruct Hd1k as (? & ? & _); discriminate | reflexivity].
  - intros k v' Hk. rewrite <- F3 in Hk. specialize (Hd1k k).
    destruct (d !! k); [|congruence].
    destruct Hd1k as (v'' & Hv'' & Hit). congruence.
  - exists out. rewrite Hout. split; [reflexivity|]. split; [|split].
    + intros k Hk. apply Hle. apply Hsame. exact Hk.
    + destruct Hmax as (k & Hk & Hlen). exists k. split; [apply Hsame; exact Hk | exact Hlen].
    + intros i row Hi k. rewrite (Hrows i row Hi k).
      specialize (Hsame k).
      destruct (deref h1 sample !! k), (d !! k); try reflexivity.
      * destruct Hsame as [H1 _]. destruct (H1 ltac:(eauto)); discriminate.
      * destruct Hsame as [_ H2]. destruct (H2 ltac:(eauto)); discriminate.
Qed.

(** A stacked sample whose array holds two slices while its list of names
    holds three. *)
Definition heap_ragged : heap :=
  {[ 0%nat := <[ "names"%string := VList [VStr "a"; VStr "b"; VStr "c"] ]>
                {[ "image"%string := VTensor (mkTensor [2%nat] [1%Z; 2%Z]) ]} ]}.

Definition cols_ragged (k : string) : list value :=
  if String.eqb k "names" then [VStr "a"; VStr "b"; VStr "c"]
  else if String.eqb k "image"
       then [VTensor (mkTensor [] [1%Z]); VTensor (mkTensor [] [2%Z])]
       else [].

Lemma unbind_samples_rows_witness :
  exists out,
    (unbind_samples 0 heap_ragged).1 = Ok out
    /\ (forall k, is_Some (deref heap_ragged 0 !! k) ->
          length (cols_ragged k) <= length out)
    /\ (exists k, is_Some (deref heap_ragged 0 !! k)
                  /\ length (cols_ragged k) = length out)
    /\ forall i row, out !! i = Some row ->
         forall k, row !! k
                   = match deref heap_ragged 0 !! k with
                     | Some _ => cols_ragged k !! i
                     | None => None
                     end.
Proof.
  apply (unbind_samples_rows 0 heap_ragged cols_ragged).
  - intros E.
    pose proof (f_equal (fun d : dict => d !! "names"%string) E) as E'.
    vm_compute in E'. discriminate E'.
  - assert (Hd : deref heap_ragged 0
                 = <[ "names"%string := VList [VStr "a"; VStr "b"; VStr "c"] ]>
                     {[ "image"%string := VTensor (mkTensor [2%nat] [1%Z; 2%Z]) ]})
      by (vm_compute; reflexivity).
    rewrite Hd. intros k v Hk.
    destruct (decide (k = "names"%string)) as [->|Hne].
    + rewrite lookup_insert_eq in Hk. injection Hk as <-. reflexivity.
    + rewrite lookup_insert_ne in Hk by congruence.
      destruct (decide (k = "image"%string)) as [->|Hne'].
      * rewrite lookup_singleton_eq in Hk. injection Hk as <-. reflexivity.
      * rewrite lookup_singleton_ne in Hk by congruence. discriminate.
Defined.

(** ** [merge_samples] on any batch *)

Lemma merge_col_cons o v vs :
  merge_col o (v :: vs) = (o' <- merge_entry o v ;; merge_col o' vs).
Proof. reflexivity. Qed.

Lemma merge_col_app vs1 : forall o vs2,
  merge_col o (vs1 ++ vs2) = (o' <- merge_col o vs1 ;; merge_col o' vs2).
Proof.
  induction vs1 as [|v vs1 IH]; intros o vs2; [reflexivity|].
  rewrite <- app_comm_cons, !merge_col_cons.
  destruct (merge_entry o v) as [o'|e]; simpl; [apply IH | reflexivity].
Qed.

(** The loops of [merge_samples], read key by key. *)
Lemma merge_run_inv samples : forall acc h,
  match foldMM
          (fun collated sample =>
             its <~ items sample ;; lift (foldM merge_step its collated))
          samples acc h with
  | (Ok m, _) =>
      forall k, merge_col (acc !! k) (column k (batch_of h samples)) = Ok (m !! k)
  | (Err e, _) =>
      exists k, merge_col (acc !! k) (column k (batch_of h samples)) = Err e
  end.
Proof.
  induction samples as [|l samples IH]; intros acc h.
  - simpl. intros k. reflexivity.
  - simpl foldMM. unfold bindM at 1. unfold bindM at 1, items, lift.
    set (d := deref h l).
    rewrite (foldM_ext merge_step (keylocal_step merge_entry))
      by apply merge_step_keylocal.
    assert (Hcol : forall k, column k (batch_of h (l :: samples))
                   = match d !! k with
                     | Some v => v :: column k (batch_of h samples)
                     | None => column k (batch_of h samples)
                     end) by (intros k; apply column_cons).
    destruct (foldM (keylocal_step merge_entry) (map_to_list d) acc)
      as [acc'|e] eqn:Hacc'.
    + pose proof (foldM_keylocal merge_entry _ _ _
                    (NoDup_fst_map_to_list d) Hacc') as Hkl.
      assert (Hnext : forall k,
                 merge_col (acc !! k) (column k (batch_of h (l :: samples)))
                 = merge_col (acc' !! k) (column k (batch_of h samples))).
      { intros k. specialize (Hkl k). rewrite list_to_map_to_list in Hkl.
        rewrite Hcol. destruct (d !! k) as [v|].
        - destruct Hkl as (ob & Hob & Hnew). rewrite merge_col_cons, Hob. simpl.
          destruct (merge_entry_some _ _ _ Hob) as [b ->].
          simpl in Hnew. rewrite Hnew. reflexivity.
        - rewrite Hkl. reflexivity. }
      specialize (IH acc' h).
      destruct (foldMM _ samples acc' h) as [[m|e] h'].
      * intros k. rewrite Hnext. apply IH.
      * destruct IH as [k Hk]. exists k. rewrite Hnext. exact Hk.
    + destruct (foldM_keylocal_err merge_entry _ _ _
                  (NoDup_fst_map_to_list d) Hacc') as (k & v & Hin & Hg).
      apply elem_of_map_to_list in Hin. exists k.
      rewrite Hcol, Hin, merge_col_cons, Hg. reflexivity.
Qed.

Lemma merge_col_err vs : forall o e,
  merge_col o vs = Err e ->
  exists pre t rest old,
    vs = pre ++ VTensor t :: rest
    /\ merge_col o pre = Ok (Some old)
    /\ torch_maximum old (VTensor t) = Err e.
Proof.
  induction vs as [|v vs IH]; intros o e H; [discriminate|].
  rewrite merge_col_cons in H.
  destruct (merge_entry o v) as [o'|e'] eqn:Ev; simpl in H.
  - destruct (IH o' e H) as (pre & t & rest & old & -> & Hpre & Hmax).
    exists (v :: pre), t, rest, old. split; [reflexivity|].
    split; [|exact Hmax]. rewrite merge_col_cons, Ev. exact Hpre.
  - injection H as <-. unfold merge_entry in Ev.
    destruct o as [old|]; [|discriminate].
    destruct v as [t| | | |]; simpl in Ev; try discriminate.
    destruct (torch_maximum old (VTensor t)) as [r|e''] eqn:Em; [discriminate|].
    injection Ev as <-. exists [], t, vs, old. auto.
Qed.

Lemma merge_col_is_Some v vs : forall o r,
  merge_col o (v :: vs) = Ok r -> is_Some r.
Proof.
  revert v. induction vs as [|v' vs IH]; intros v o r H;
    rewrite merge_col_cons in H;
    destruct (merge_entry o v) as [o'|] eqn:Ev; simpl in H; try discriminate.
  - injection H as <-. destruct (merge_entry_some _ _ _ Ev) as [b ->]. eauto.
  - eapply IH. exact H.
Qed.

(** X13: what [merge_samples] returns on any batch.  The keys of the result
    are the keys of the samples; a value that is alone under its key is
    returned as it is; a last value that is not a tensor replaces whatever
    came before it.  A tensor that follows a value that is not a tensor
    makes the call raise, and [merge_samples] raises only what
    [torch.maximum] raised when a tensor met the value merged before it. *)
Theorem merge_samples_columns (samples : list nat) (h : heap) :
  (forall m, (merge_samples samples h).1 = Ok m ->
     forall k,
       (m !! k = None <-> column k (batch_of h samples) = [])
       /\ (forall v, column k (batch_of h samples) = [v] -> m !! k = Some v)
       /\ (forall vs v, column k (batch_of h samples) = vs ++ [v] ->
             is_tensor v = false -> m !! k = Some v)
       /\ (forall pre v t rest,
             column k (batch_of h samples) = pre ++ v :: VTensor t :: rest ->
             is_tensor v = true))
  /\ (forall e, (merge_samples samples h).1 = Err e ->
        exists k pre t rest old,
          column k (batch_of h samples) = pre ++ VTensor t :: rest
          /\ merge_col None pre = Ok (Some old)
          /\ torch_maximum old (VTensor t) = Err e).
Proof.
  pose proof (merge_run_inv samples ∅ h) as Hrun.
  unfold merge_samples.
  destruct (foldMM _ samples ∅ h) as [[m|e] h'] eqn:E; cbn [fst]; split.
  - intros m' [= <-] k. specialize (Hrun k). rewrite lookup_empty in Hrun.
    generalize dependent (column k (batch_of h samples)). intros col Hrun.
    split; [|split; [|split]].
    + split.
      * intros Hm. destruct col as [|v vs]; [reflexivity|].
        destruct (merge_col_is_Some _ _ _ _ Hrun) as [b Hb]. congruence.
      * intros ->. unfold merge_col in Hrun. simpl in Hrun. congruence.
    + intros v Hv. rewrite Hv in Hrun. unfold merge_col in Hrun. simpl in Hrun.
      congruence.
    + intros vs v Hv Hnt. rewrite Hv, merge_col_app in Hrun.
      destruct (merge_col None vs) as [o|]; simpl in Hrun; [|discriminate].
      rewrite merge_col_cons in Hrun.
      assert (Ev : merge_entry o v = Ok (Some v))
        by (unfold merge_entry; destruct o; [rewrite Hnt|]; reflexivity).
      rewrite Ev in Hrun. cbn [bind] in Hrun. unfold merge_col in Hrun.
      simpl in Hrun. congruence.
    + intros pre v t rest Hv.
      destruct (is_tensor v) eqn:Hnt; [reflexivity|]. exfalso.
      rewrite Hv, merge_col_app in Hrun.
      destruct (merge_col None pre) as [o|]; simpl in Hrun; [|discriminate].
      rewrite merge_col_cons in Hrun.
      assert (Ev : merge_entry o v = Ok (Some v))
        by (unfold merge_entry; destruct o; [rewrite Hnt|]; reflexivity).
      rewrite Ev in Hrun. cbn [bind] in Hrun. rewrite merge_col_cons in Hrun.
      assert (Et : merge_entry (Some v) (VTensor t) = Err TypeError)
        by (destruct v; simpl in Hnt; [discriminate | reflexivity..]).
      rewrite Et in Hrun. discriminate.
  - intros e [=].
  - intros m' [=].
  - intros e' [= <-]. destruct Hrun as [k Hk]. rewrite lookup_empty in Hk.
    destruct (merge_col_err _ _ _ Hk) as (pre & t & rest & old & Hc & Hp & Hm).
    exists k, pre, t, rest, old. auto.
Qed.

End CollateLaws.

(* ================================================================== *)
(** * Recursive listing: the walk over a directory tree *)

Module VfsLaws.
Import PyStr Vfs.

(** A finite directory tree: a file, or a directory with its named
    entries in the order the driver lists them. *)
#[local] Set Warnings "-register-all".
Inductive tree : Set :=
| File
| Dir (entries : list (string * tree)).
#[local] Set Warnings "register-all".

Fixpoint size (t : tree) : nat :=
  match t with
  | File => 1
  | Dir entries => S (list_sum (List.map (fun e => let '(_, t') := e in size t') entries))
  end.

(** The paths of the files of the tree at [path], in the order the loop
    of [listdir_vfs_recursive] reaches them: the stack gives the entry
    listed last first. *)
Fixpoint files_of (path : string) (t : tree) : list string :=
  match t with
  | File => [path]
  | Dir entries =>
      concat (rev (List.map
                     (fun e => let '(name, t') := e in
                               files_of (path ++ "/" ++ name) t')
                     entries))
  end.

(** The driver shows the tree [t] at [path]: on a file it raises the
    "is not a directory" FionaValueError, on a directory it returns the
    names of the entries. *)
#[local] Set Warnings "-register-all".
Inductive shows (listdir : driver) : string -> tree -> Prop :=
| shows_file path msg :
    listdir path = Err (FionaValueErr msg) ->
    str_in "is not a directory" msg = true ->
    shows listdir path File
| shows_dir path entries :
    listdir path = Ok (List.map fst entries) ->
    Forall (fun e => shows listdir (path ++ "/" ++ fst e) (snd e)) entries ->
    shows listdir path (Dir entries).
#[local] Set Warnings "register-all".

Definition work (stack : list (string * tree)) : nat :=
  list_sum (List.map (fun e => size (snd e)) stack).

Definition found (stack : list (string * tree)) : list string :=
  concat (List.map (fun e => files_of (fst e) (snd e)) (rev stack)).

Definition children (path : string) (entries : list (string * tree))
  : list (string * tree) :=
  List.map (fun e => (path ++ "/" ++ fst e, snd e))%string entries.

Lemma pop_snoc (dirs : list string) (d : string) : pop (dirs ++ [d]) = Some (d, dirs).
Proof. unfold pop. rewrite rev_app_distr. simpl. rewrite rev_involutive. reflexivity. Qed.

Lemma size_Dir entries : size (Dir entries) = S (work entries).
Proof.
  unfold work. simpl. f_equal. f_equal. apply map_ext. intros [n t]. reflexivity.
Qed.

Lemma files_of_Dir path entries :
  files_of path (Dir entries) = found (children path entries).
Proof.
  unfold found, children. simpl. f_equal. rewrite List.map_rev, List.map_map.
  f_equal. apply map_ext. intros [n t]. reflexivity.
Qed.

Lemma work_app a b : work (a ++ b) = work a + work b.
Proof. unfold work. rewrite List.map_app, list_sum_app. reflexivity. Qed.

Lemma work_children path entries : work (children path entries) = work entries.
Proof. unfold work, children. rewrite List.map_map. reflexivity. Qed.

Lemma found_app a b : found (a ++ b) = found b ++ found a.
Proof. unfold found. rewrite rev_app_distr, List.map_app, concat_app. reflexivity. Qed.

Lemma snoc_case {A} (l : list A) : l = [] \/ exists l' x, l = l' ++ [x].
Proof. induction l as [|x l _] using rev_ind; [left | right]; eauto. Qed.

(** The loop, from a stack of trees the driver shows. *)
Lemma walk_trees (listdir : driver) : forall fuel stack files,
  Forall (fun e => shows listdir (fst e) (snd e)) stack ->
  work stack < fuel ->
  walk listdir fuel (List.map fst stack) files = Some (Ok (files ++ found stack)).
Proof.
  induction fuel as [|fuel IH]; intros stack files Hshow Hfuel; [lia|].
  destruct (snoc_case stack) as [->|(stack' & [p t] & ->)].
  - simpl. unfold found. simpl. rewrite app_nil_r. reflexivity.
  - apply Forall_app in Hshow. destruct Hshow as [Hshow' Hpt].
    apply Forall_cons in Hpt. destruct Hpt as [Hpt _]. simpl in Hpt.
    rewrite work_app in Hfuel. unfold work at 2 in Hfuel. simpl in Hfuel.
    rewrite List.map_app. cbn [List.map fst walk]. rewrite pop_snoc.
    rewrite found_app. unfold found at 1. cbn [rev List.map app concat fst snd].
    rewrite app_nil_r.
    inversion Hpt as [path msg Hl Hmsg|path entries Hl Hall]; subst.
    + rewrite Hl, Hmsg. rewrite IH; [|assumption|simpl in Hfuel; lia].
      simpl. rewrite <- app_assoc. reflexivity.
    + rewrite Hl.
      replace (List.map fst stack'
               ++ List.map (fun subdir => p ++ "/" ++ subdir)%string (List.map fst entries))
        with (List.map fst (stack' ++ children p entries))
        by (rewrite List.map_app; unfold children; rewrite !List.map_map; reflexivity).
      rewrite IH.
      * rewrite found_app, files_of_Dir. reflexivity.
      * apply Forall_app. split; [assumption|].
        unfold children. apply Forall_map. simpl. exact Hall.
      * rewrite work_app, work_children. rewrite size_Dir in Hfuel. lia.
Qed.

(** X14: on a finite directory tree [listdir_vfs_recursive] ends and
    returns the paths of exactly the files of the tree, each once, the
    entry listed last first; directories, empty ones included, are not
    returned. *)
Theorem listdir_vfs_recursive_tree (listdir : driver) (root : string) (t : tree)
        (fuel : nat) :
  shows listdir root t -> size t < fuel ->
  listdir_vfs_recursive listdir fuel root = Some (Ok (files_of root t)).
Proof.
  intros Hshow Hfuel. unfold listdir_vfs_recursive.
  pose proof (walk_trees listdir fuel [(root, t)] []) as H.
  simpl in H. rewrite H.
  - unfold found. simpl. rewrite app_nil_r. reflexivity.
  - constructor; [exact Hshow | constructor].
  - unfold work. simpl. lia.
Qed.

(** An archive with a file, a directory that holds a file, and an empty
    directory. *)
Definition archive_driver : driver :=
  fun path =>
    if String.eqb path "/vsizip/a.zip" then Ok ["x.tif"; "sub"; "empty"]%string
    else if String.eqb path "/vsizip/a.zip/sub" then Ok ["y.tif"]%string
    else if String.eqb path "/vsizip/a.zip/empty" then Ok []
    else if String.eqb path "/vsizip/a.zip/x.tif"
    then Err (FionaValueErr "Path '/vsizip/a.zip/x.tif' is not a directory")
    else if String.eqb path "/vsizip/a.zip/sub/y.tif"
    then Err (FionaValueErr "Path '/vsizip/a.zip/sub/y.tif' is not a directory")
    else Err (FionaValueErr ("Path '" ++ path ++ "' does not exist")).

Definition archive_tree : tree :=
  Dir [("x.tif", File); ("sub", Dir [("y.tif", File)]); ("empty", Dir [])]%string.

Lemma archive_shows : shows archive_driver "/vsizip/a.zip" archive_tree.
Proof.
  unfold archive_tree.
  apply shows_dir; [reflexivity|].
  apply Forall_cons. split; [eapply shows_file; reflexivity|].
  apply Forall_cons. split.
  { apply shows_dir; [reflexivity|].
    apply Forall_cons. split; [eapply shows_file; reflexivity | constructor]. }
  apply Forall_cons. split; [|constructor].
  apply shows_dir; [reflexivity | constructor].
Qed.

Lemma listdir_vfs_recursive_tree_witness :
  listdir_vfs_recursive archive_driver 7 "/vsizip/a.zip"
  = Some (Ok ["/vsizip/a.zip/sub/y.tif"; "/vsizip/a.zip/x.tif"]%string).
Proof.
  apply (listdir_vfs_recursive_tree archive_driver "/vsizip/a.zip" archive_tree 7).
  - exact archive_shows.
  - vm_compute. lia.
Defined.

(** ** [list_directory_recursive] on a virtual file system *)

Lemma path_join_star_glob (g : string) :
  path_join "*" g = if startswith "/" g then g else ("*/" ++ g)%string.
Proof. unfold path_join. destruct (startswith "/" g); reflexivity. Qed.

(** X15: on a virtual root that shows a finite tree,
    [list_directory_recursive] returns the files of the tree whose path
    matches the pattern, in the order of the walk; the pattern is the glob
    behind ["*/"], or the glob alone when it starts with a slash.  On a
    virtual root for which the driver raises another FionaValueError than
    "is not a directory", it returns the empty list. *)
Theorem list_directory_recursive_tree (listdir : driver)
        (fnmatch : string -> string -> bool) (iglob : string -> list string)
        (root g : string) :
  path_is_gdal_vsi root = true ->
  (forall t fuel, shows listdir root t -> size t < fuel ->
     list_directory_recursive listdir fnmatch iglob fuel root g
     = Some (Ok (List.filter
                   (fun f => fnmatch f (if startswith "/" g then g
                                        else ("*/" ++ g)%string))
                   (files_of root t))))
  /\ (forall msg fuel,
        listdir root = Err (FionaValueErr msg) ->
        str_in "is not a directory" msg = false ->
        list_directory_recursive listdir fnmatch iglob (S fuel) root g
        = Some (Ok [])).
Proof.
  intros Hv. split.
  - intros t fuel Hshow Hfuel. unfold list_directory_recursive. rewrite Hv.
    unfold listdir_vfs_recursive.
    pose proof (walk_trees listdir fuel [(root, t)] []) as H.
    simpl in H. rewrite H.
    + unfold found. simpl. rewrite app_nil_r, path_join_star_glob. reflexivity.
    + constructor; [exact Hshow | constructor].
    + unfold work. simpl. lia.
  - intros msg fuel Hl Hmsg. unfold list_directory_recursive. rewrite Hv.
    unfold listdir_vfs_recursive. cbn [walk]. unfold pop. simpl.
    rewrite Hl, Hmsg. reflexivity.
Qed.

Lemma list_directory_recursive_tree_witness :
  (forall t fuel, shows archive_driver "/vsizip/a.zip" t -> size t < fuel ->
     list_directory_recursive archive_driver String.eqb (fun _ => []) fuel
                              "/vsizip/a.zip" "*.tif"
     = Some (Ok (List.filter
                   (fun f => String.eqb f (if startswith "/" "*.tif" then "*.tif"
                                           else ("*/" ++ "*.tif")%string))
                   (files_of "/vsizip/a.zip" t))))
  /\ (forall msg fuel,
        archive_driver "/vsizip/a.zip" = Err (FionaValueErr msg) ->
        str_in "is not a directory" msg = false ->
        list_directory_recursive archive_driver String.eqb (fun _ => []) (S fuel)
                                 "/vsizip/a.zip" "*.tif"
        = Some (Ok [])).
Proof.
  apply (list_directory_recursive_tree archive_driver String.eqb (fun _ => [])
           "/vsizip/a.zip" "*.tif").
  reflexivity.
Defined.

(** ** [path_is_gdal_vsi] *)

Lemma prefix_spec (p s : string) :
  String.prefix p s = true <-> exists rest, s = (p ++ rest)%string.
Proof.
  revert s. induction p as [|c p IH]; intros s.
  - split; [intros _; exists s; reflexivity | intros _; destruct s; reflexivity].
  - destruct s as [|d s]; [split; [discriminate | intros [r Hr]; discriminate]|].
    simpl. destruct (Ascii.ascii_dec c d) as [->|Hne].
    + rewrite IH. split; intros [r Hr]; exists r; [rewrite Hr; reflexivity|].
      injection Hr as Hr. exact Hr.
    + split; [discriminate|]. intros [r Hr]. injection Hr as Hc _. congruence.
Qed.

Lemma str_in_spec (needle hay : string) :
  str_in needle hay = true
  <-> exists pre post, hay = (pre ++ needle ++ post)%string.
Proof.
  induction hay as [|c hay IH].
  - cbn [str_in]. rewrite orb_false_r, prefix_spec. split.
    + intros [r Hr]. exists ""%string, r. exact Hr.
    + intros (pre & post & H). destruct pre; [exists post; exact H|discriminate].
  - cbn [str_in]. rewrite orb_true_iff, prefix_spec, IH. split.
    + intros [[r Hr]|(pre & post & H)].
      * exists ""%string, r. exact Hr.
      * exists (String c pre), post. simpl. rewrite H. reflexivity.
    + intros (pre & post & H). destruct pre as [|d pre].
      * left. exists post. exact H.
      * right. simpl in H. injection H as _ H. exists pre, post. exact H.
Qed.

(** X16: [path_is_gdal_vsi] holds exactly for the paths that contain
    ["://"] somewhere or start with ["/vsi"]; the path is not looked up. *)
Theorem path_is_gdal_vsi_spec (path : string) :
  path_is_gdal_vsi path = true
  <-> (exists scheme rest, path = (scheme ++ "://" ++ rest)%string)
      \/ (exists rest, path = ("/vsi" ++ rest)%string).
Proof.
  unfold path_is_gdal_vsi, startswith.
  rewrite orb_true_iff, str_in_spec, prefix_spec. reflexivity.
Qed.

End VfsLaws.

(* ================================================================== *)
(** * The calendar of [datetime]: ordinals and dates *)

Module TimestampCal.
Import PyStr Timestamp.
Local Open Scope Z_scope.

(** ** The calendar: ordinals and dates *)

(** A month and a day of the year [y]. *)
Definition valid_md (y m d : Z) : bool :=
  (1 <=? m) && (m <=? 12) && (1 <=? d) && (d <=? days_in_month y m).

(** The check of one ordinal of the first 400 years: [ord2ymd] gives a date
    of the calendar whose ordinal is the one it came from; the last year of
    the cycle begins after day 145731. *)
Definition ord_ok (n : Z) : bool :=
  let '(y, m, d) := ord2ymd n in
  (1 <=? y) && (y <=? 400) && valid_md y m d && (ymd2ord y m d =? n)
  && ((145731 <? n) || (y <=? 399)).

(** [count] consecutive ordinals from [n] pass the check. *)
Fixpoint run_ok (count : nat) (n : Z) : bool :=
  match count with
  | O => true
  | S c => ord_ok n && run_ok c (n + 1)
  end.

Lemma cycle_checked : run_ok (Z.to_nat 146097) 1 = true.
Proof. vm_compute. reflexivity. Qed.

Lemma run_ok_elim count : forall n k,
  run_ok count n = true -> n <= k < n + Z.of_nat count -> ord_ok k = true.
Proof.
  induction count as [|c IH]; intros n k H Hk; [lia|].
  cbn [run_ok] in H. apply andb_prop in H. destruct H as [H1 H2].
  destruct (Z.eq_dec k n) as [->|Hne]; [exact H1|].
  apply (IH (n + 1)); [exact H2 | lia].
Qed.

Lemma cycle_ok k : 1 <= k <= 146097 -> ord_ok k = true.
Proof.
  intros Hk. apply (run_ok_elim (Z.to_nat 146097) 1); [apply cycle_checked | lia].
Qed.


(** The month after month [m] of year [y]. *)
Definition next_month (y m : Z) : Z * Z :=
  if m =? 12 then (y + 1, 1) else (y, m + 1).

(** The check of one month of the first 400 years: the day before the
    first of the next month is the last day of the month. *)
Definition month_ok (y m : Z) : bool :=
  let '(y', m') := next_month y m in
  let n := ymd2ord y' m' 1 - 1 in
  (1 <=? n) && (n <=? 146097) && ((400 <=? y) || (n <=? 145731))
  && match ord2ymd n with
     | (a, b, c) => (a =? y) && (b =? m) && (c =? days_in_month y m)
     end.

Definition year_ok (y : Z) : bool :=
  forallb (month_ok y) [1; 2; 3; 4; 5; 6; 7; 8; 9; 10; 11; 12].

Fixpoint years_ok (count : nat) (y : Z) : bool :=
  match count with
  | O => true
  | S c => year_ok y && years_ok c (y + 1)
  end.

Lemma months_checked : years_ok 400 1 = true.
Proof. vm_compute. reflexivity. Qed.

Lemma years_ok_elim count : forall y k,
  years_ok count y = true -> y <= k < y + Z.of_nat count -> year_ok k = true.
Proof.
  induction count as [|c IH]; intros y k H Hk; [lia|].
  cbn [years_ok] in H. apply andb_prop in H. destruct H as [H1 H2].
  destruct (Z.eq_dec k y) as [->|Hne]; [exact H1|].
  apply (IH (y + 1)); [exact H2 | lia].
Qed.

Lemma month_checked y m : 1 <= y <= 400 -> 1 <= m <= 12 -> month_ok y m = true.
Proof.
  intros Hy Hm.
  pose proof (years_ok_elim 400 1 y months_checked ltac:(lia)) as H.
  unfold year_ok in H. rewrite forallb_forall in H. apply H.
  simpl. lia.
Qed.

End TimestampCal.

(* ================================================================== *)
(** * The calendar arithmetic of [datetime] and the codes of a format *)

Module TimestampLaws.
Import PyStr Timestamp TimestampCal.
Local Open Scope Z_scope.

(** The calendar repeats after 400 years, which are 146097 days. *)
Lemma is_leap_period y : is_leap (y + 400) = is_leap y.
Proof.
  unfold is_leap.
  replace ((y + 400) mod 4) with (y mod 4)
    by (replace (y + 400) with (y + 100 * 4) by lia; rewrite Z_mod_plus_full; reflexivity).
  replace ((y + 400) mod 100) with (y mod 100)
    by (replace (y + 400) with (y + 4 * 100) by lia; rewrite Z_mod_plus_full; reflexivity).
  replace ((y + 400) mod 400) with (y mod 400)
    by (replace (y + 400) with (y + 1 * 400) by lia; rewrite Z_mod_plus_full; reflexivity).
  reflexivity.
Qed.

Lemma days_in_month_period y m : days_in_month (y + 400) m = days_in_month y m.
Proof. unfold days_in_month. rewrite is_leap_period. reflexivity. Qed.

Lemma ymd2ord_period y m d : ymd2ord (y + 400) m d = ymd2ord y m d + 146097.
Proof.
  unfold ymd2ord, days_before_year, days_before_month. rewrite is_leap_period.
  cbv zeta.
  replace ((y + 400 - 1) / 4) with ((y - 1) / 4 + 100)
    by (replace (y + 400 - 1) with (y - 1 + 100 * 4) by lia;
        rewrite Z.div_add by lia; reflexivity).
  replace ((y + 400 - 1) / 100) with ((y - 1) / 100 + 4)
    by (replace (y + 400 - 1) with (y - 1 + 4 * 100) by lia;
        rewrite Z.div_add by lia; reflexivity).
  replace ((y + 400 - 1) / 400) with ((y - 1) / 400 + 1)
    by (replace (y + 400 - 1) with (y - 1 + 1 * 400) by lia;
        rewrite Z.div_add by lia; reflexivity).
  lia.
Qed.

Lemma ord2ymd_period n :
  ord2ymd (n + 146097) = let '(y, m, d) := ord2ymd n in (y + 400, m, d).
Proof.
  unfold ord2ymd. cbv zeta.
  replace ((n + 146097 - 1) / 146097) with ((n - 1) / 146097 + 1)
    by (replace (n + 146097 - 1) with (n - 1 + 1 * 146097) by lia;
        rewrite Z.div_add by lia; reflexivity).
  replace ((n + 146097 - 1) mod 146097) with ((n - 1) mod 146097)
    by (replace (n + 146097 - 1) with (n - 1 + 1 * 146097) by lia;
        rewrite Z_mod_plus_full; reflexivity).
  set (r := (n - 1) mod 146097).
  destruct ((r mod 36524 mod 1461 / 365 =? 4) || (r / 36524 =? 4)).
  - f_equal. f_equal. lia.
  - destruct (r mod 36524 mod 1461 mod 365 <? _).
    + f_equal. f_equal. lia.
    + f_equal. f_equal. lia.
Qed.

(** Every ordinal of the calendar is the ordinal of the date [ord2ymd]
    gives for it, and that date is a date of the calendar. *)
Lemma ord2ymd_spec_aux (a : nat) : forall n,
  1 + 146097 * Z.of_nat a <= n <= 146097 + 146097 * Z.of_nat a ->
  let '(y, m, d) := ord2ymd n in
  1 + 400 * Z.of_nat a <= y <= 400 + 400 * Z.of_nat a
  /\ valid_md y m d = true /\ ymd2ord y m d = n
  /\ (n <= 145731 + 146097 * Z.of_nat a -> y <= 399 + 400 * Z.of_nat a).
Proof.
  induction a as [|a IH]; intros n Hn.
  - pose proof (cycle_ok n ltac:(lia)) as H. unfold ord_ok in H.
    destruct (ord2ymd n) as [[y m] d].
    apply andb_prop in H. destruct H as [H H5].
    apply andb_prop in H. destruct H as [H H4].
    apply andb_prop in H. destruct H as [H H3].
    apply andb_prop in H. destruct H as [H1 H2].
    apply orb_prop in H5.
    split; [lia|]. split; [exact H3|]. split; [lia|].
    intros Hk. destruct H5 as [H5|H5]; lia.
  - specialize (IH (n - 146097) ltac:(lia)).
    assert (E : ord2ymd n
                = let '(y, m, d) := ord2ymd (n - 146097) in (y + 400, m, d))
      by (rewrite <- ord2ymd_period; f_equal; lia).
    rewrite E. clear E.
    destruct (ord2ymd (n - 146097)) as [[y m] d].
    destruct IH as (Hy & Hmd & Hord & Hlast).
    split; [lia|]. split; [|split; [|lia]].
    + unfold valid_md in *. rewrite days_in_month_period. exact Hmd.
    + rewrite ymd2ord_period. lia.
Qed.

Lemma ord2ymd_spec n :
  1 <= n <= MAXORDINAL ->
  let '(y, m, d) := ord2ymd n in
  1 <= y <= 9999 /\ valid_md y m d = true /\ ymd2ord y m d = n.
Proof.
  intros Hn. unfold MAXORDINAL in Hn.
  pose proof (ord2ymd_spec_aux (Z.to_nat ((n - 1) / 146097)) n) as H.
  assert (Ha : 0 <= (n - 1) / 146097 <= 24).
  { split; [apply Z.div_pos; lia|].
    assert ((n - 1) / 146097 < 25) by (apply Z.div_lt_upper_bound; lia). lia. }
  rewrite Z2Nat.id in H by lia.
  assert (Hdm : n - 1 = 146097 * ((n - 1) / 146097) + (n - 1) mod 146097)
    by (apply Z.div_mod; lia).
  pose proof (Z.mod_pos_bound (n - 1) 146097 ltac:(lia)) as Hr.
  specialize (H ltac:(lia)).
  destruct (ord2ymd n) as [[y m] d]. destruct H as (Hy & Hmd & Hord & Hlast).
  split; [|split; assumption]. lia.
Qed.

(** ** Datetimes as microseconds *)

(** Microseconds from 0001-01-01T00:00:00 to [dt]. *)
Definition micros (dt : datetime) : Z := wall_seconds dt * 1000000 + microsecond dt.

(** One day, in microseconds. *)
Definition DAY : Z := 86400000000.

(** The fields of a datetime are in range. *)
Definition wf_datetime (dt : datetime) : Prop :=
  1 <= year dt <= 9999
  /\ valid_md (year dt) (month dt) (day dt) = true
  /\ 0 <= hour dt <= 23 /\ 0 <= minute dt <= 59 /\ 0 <= second dt <= 59
  /\ 0 <= microsecond dt <= 999999.

Lemma datetime_new_inv y m d hh mm ss us dt :
  datetime_new y m d hh mm ss us = Ok dt ->
  dt = mkdatetime y m d hh mm ss us /\ wf_datetime dt.
Proof.
  unfold datetime_new, MINYEAR, MAXYEAR.
  destruct (_ && _) eqn:E; [|discriminate]. intros [= <-].
  repeat match goal with
         | H : _ && _ = true |- _ => apply andb_prop in H; destruct H
         end.
  repeat match goal with
         | H : (_ <=? _) = true |- _ => apply Z.leb_le in H
         end.
  split; [reflexivity|]. unfold wf_datetime, valid_md. simpl.
  repeat split; try lia.
  all: repeat (apply andb_true_intro; split); apply Z.leb_le; lia.
Qed.

Lemma datetime_new_ok y m d hh mm ss us :
  wf_datetime (mkdatetime y m d hh mm ss us) ->
  datetime_new y m d hh mm ss us = Ok (mkdatetime y m d hh mm ss us).
Proof.
  unfold wf_datetime, valid_md, datetime_new, MINYEAR, MAXYEAR. simpl.
  intros (Hy & Hmd & Hh & Hmi & Hs & Hus).
  repeat match goal with
         | H : _ && _ = true |- _ => apply andb_prop in H; destruct H
         end.
  repeat match goal with
         | H : (_ <=? _) = true |- _ => apply Z.leb_le in H
         end.
  replace (_ && _) with true; [reflexivity|]. symmetry.
  repeat (apply andb_true_intro; split); apply Z.leb_le; lia.
Qed.

Lemma days_before_year_nonneg y : 1 <= y -> 0 <= days_before_year y.
Proof.
  intros Hy. unfold days_before_year. cbv zeta.
  assert (0 <= (y - 1) / 4) by (apply Z.div_pos; lia).
  assert ((y - 1) / 100 <= (y - 1) / 4).
  { apply Z.div_le_compat_l; lia. }
  assert (0 <= (y - 1) / 400) by (apply Z.div_pos; lia).
  lia.
Qed.

Lemma valid_md_inv y m d :
  valid_md y m d = true -> 1 <= m <= 12 /\ 1 <= d <= days_in_month y m.
Proof.
  unfold valid_md. intros H.
  repeat match goal with
         | H : _ && _ = true |- _ => apply andb_prop in H; destruct H
         end.
  repeat match goal with
         | H : (_ <=? _) = true |- _ => apply Z.leb_le in H
         end.
  lia.
Qed.

Lemma ymd2ord_pos y m d : 1 <= y -> valid_md y m d = true -> 1 <= ymd2ord y m d.
Proof.
  intros Hy Hmd. apply valid_md_inv in Hmd. destruct Hmd as [Hm Hd].
  pose proof (days_before_year_nonneg y Hy).
  unfold ymd2ord, days_before_month.
  assert (0 <= DAYS_BEFORE_MONTH m).
  { assert (m = 1 \/ m = 2 \/ m = 3 \/ m = 4 \/ m = 5 \/ m = 6 \/ m = 7 \/ m = 8
            \/ m = 9 \/ m = 10 \/ m = 11 \/ m = 12) as Hc by lia.
    repeat (destruct Hc as [->|Hc]; [simpl; lia|]). subst; simpl; lia. }
  destruct ((2 <? m) && is_leap y); cbv iota; lia.
Qed.

Lemma micros_lower dt : wf_datetime dt -> DAY <= micros dt.
Proof.
  intros (Hy & Hmd & Hh & Hmi & Hs & Hus).
  pose proof (ymd2ord_pos (year dt) (month dt) (day dt) ltac:(lia) Hmd).
  unfold micros, wall_seconds, DAY. lia.
Qed.

(** [dt + delta] is exact: it raises OverflowError exactly when the sum
    leaves the calendar, and is otherwise the datetime that many
    microseconds away. *)
Lemma datetime_add_spec dt delta :
  (DAY <= micros dt + delta < (MAXORDINAL + 1) * DAY ->
   exists r, datetime_add dt delta = Ok r
             /\ micros r = micros dt + delta /\ wf_datetime r)
  /\ (~ (DAY <= micros dt + delta < (MAXORDINAL + 1) * DAY) ->
      datetime_add dt delta = Err DateOverflow).
Proof.
  unfold datetime_add, DAY. cbv zeta.
  replace (wall_seconds dt * 1000000 + microsecond dt + delta)
    with (micros dt + delta) by (unfold micros; lia).
  generalize (micros dt + delta). intros total.
  pose proof (Z.div_mod total 86400000000 ltac:(lia)) as Hdm.
  pose proof (Z.mod_pos_bound total 86400000000 ltac:(lia)) as Hrem.
  set (days := total / 86400000000) in *.
  set (rem := total mod 86400000000) in *.
  split.
  - intros Hrange.
    assert (Hdays : 1 <= days <= MAXORDINAL) by (unfold MAXORDINAL in *; nia).
    replace ((0 <? days) && (days <=? MAXORDINAL)) with true
      by (symmetry; apply andb_true_intro; split;
          [apply Z.ltb_lt | apply Z.leb_le]; lia).
    pose proof (ord2ymd_spec days Hdays) as Hord.
    destruct (ord2ymd days) as [[y m] d]. destruct Hord as (Hy & Hmd & Hord).
    eexists. split; [reflexivity|].
    pose proof (Z.div_mod rem 1000000 ltac:(lia)) as Hs.
    pose proof (Z.mod_pos_bound rem 1000000 ltac:(lia)) as Hus.
    set (secs := rem / 1000000) in *. set (us := rem mod 1000000) in *.
    assert (Hsecs : 0 <= secs < 86400) by lia.
    pose proof (Z.div_mod secs 3600 ltac:(lia)) as Hh.
    pose proof (Z.mod_pos_bound secs 3600 ltac:(lia)) as Hh'.
    pose proof (Z.div_mod (secs mod 3600) 60 ltac:(lia)) as Hm.
    pose proof (Z.mod_pos_bound (secs mod 3600) 60 ltac:(lia)) as Hm'.
    assert (E60 : secs mod 60 = (secs mod 3600) mod 60).
    { clear. Z.div_mod_to_equations. lia. }
    split.
    + unfold micros, wall_seconds. simpl. rewrite Hord, E60. lia.
    + unfold wf_datetime. simpl. rewrite E60.
      repeat split; try lia; try assumption.
  - intros Hout.
    replace ((0 <? days) && (days <=? MAXORDINAL)) with false; [reflexivity|].
    symmetry. apply andb_false_iff.
    destruct (Z_lt_le_dec 0 days) as [Hp|Hn].
    + right. apply Z.leb_gt. unfold MAXORDINAL in *. nia.
    + left. apply Z.ltb_ge. exact Hn.
Qed.

(** ** The format codes the resolution is read from *)

(** The directives of a format, as [strptime] reads it: from left to right,
    a percent sign takes the character after it, which is the letter of a
    directive unless it is a second percent sign.  [pct] tells that the
    character before was such a percent sign. *)
Fixpoint directive_letters (pct : bool) (f : string) : list ascii :=
  match f with
  | EmptyString => []
  | String c rest =>
      if pct then
        if Ascii.eqb c "%" then directive_letters false rest
        else c :: directive_letters false rest
      else if Ascii.eqb c "%" then directive_letters true rest
      else directive_letters false rest
  end.

(** One of the letters of [codes] is among the letters [ls]. *)
Definition has_any (codes : string) (ls : list ascii) : bool :=
  existsb (fun c => existsb (Ascii.eqb c) ls) (list_ascii_of_string codes).

(** The letter of a directive of the model of [strptime]. *)
Definition letter (d : directive) : ascii :=
  match d with
  | DY => "Y" | Dy => "y" | Dm => "m" | Dd => "d" | DH => "H" | DM => "M"
  | DS => "S" | Df => "f" | Dj => "j"
  end%char.

Lemma directive_of_inv c d : directive_of c = Ok d -> c = letter d.
Proof.
  destruct c as [[] [] [] [] [] [] [] []]; simpl; intros H;
    try discriminate; injection H as <-; reflexivity.
Qed.

Definition code (c : ascii) : string := String "%" (String c EmptyString).

Lemma prefix_nil s : String.prefix "" s = true.
Proof. destruct s; reflexivity. Qed.

Lemma ascii_dec_ne {A} (a b : ascii) (x y : A) :
  a <> b -> (if Ascii.ascii_dec a b then x else y) = y.
Proof. intros H. destruct (Ascii.ascii_dec a b); [contradiction | reflexivity]. Qed.

Lemma ascii_dec_eq {A} (a : ascii) (x y : A) :
  (if Ascii.ascii_dec a a then x else y) = x.
Proof. destruct (Ascii.ascii_dec a a); [reflexivity | contradiction]. Qed.

(** The format with its escaped percent signs removed. *)
Definition unescaped (f : string) : string := str_replace "%%" "" f.

Lemma unescaped_other c rest :
  c <> "%"%char -> unescaped (String c rest) = String c (unescaped rest).
Proof.
  intros H. unfold unescaped, str_replace. cbn [replace_from String.prefix].
  rewrite ascii_dec_ne by congruence. reflexivity.
Qed.

Lemma unescaped_escape rest :
  unescaped (String "%" (String "%" rest)) = unescaped rest.
Proof.
  unfold unescaped, str_replace. cbn [replace_from String.prefix].
  rewrite !ascii_dec_eq, prefix_nil. reflexivity.
Qed.

Lemma unescaped_directive c rest :
  c <> "%"%char ->
  unescaped (String "%" (String c rest)) = String "%" (String c (unescaped rest)).
Proof.
  intros H. unfold unescaped, str_replace.
  cbn [replace_from String.prefix].
  rewrite ascii_dec_eq. rewrite !ascii_dec_ne by congruence. reflexivity.
Qed.

Lemma str_in_code_other x c s :
  c <> "%"%char -> str_in (code x) (String c s) = str_in (code x) s.
Proof.
  intros H. unfold code. cbn [str_in String.prefix].
  rewrite ascii_dec_ne by congruence. reflexivity.
Qed.

Lemma str_in_code_directive x c s :
  c <> "%"%char ->
  str_in (code x) (String "%" (String c s)) = Ascii.eqb x c || str_in (code x) s.
Proof.
  intros H. rewrite <- (str_in_code_other x c s H).
  unfold code at 1. cbn [str_in String.prefix]. rewrite ascii_dec_eq.
  fold (code x).
  destruct (Ascii.ascii_dec x c) as [->|Hne].
  - rewrite prefix_nil, Ascii.eqb_refl. reflexivity.
  - replace (Ascii.eqb x c) with false
      by (symmetry; apply Ascii.eqb_neq; assumption).
    reflexivity.
Qed.

(** The test [f'%{x}' in format] on the unescaped format finds the
    directives, whether the scan stands after a percent sign or not. *)
Lemma code_in_format x f :
  str_in (code x) (unescaped f) = existsb (Ascii.eqb x) (directive_letters false f)
  /\ str_in (code x) (unescaped (String "%" f))
     = existsb (Ascii.eqb x) (directive_letters true f).
Proof.
  induction f as [|c rest [IH1 IH2]].
  - split; reflexivity.
  - split.
    + cbn [directive_letters]. destruct (Ascii.eqb_spec c "%"%char) as [->|Hne].
      * exact IH2.
      * rewrite unescaped_other, str_in_code_other by assumption. exact IH1.
    + cbn [directive_letters]. destruct (Ascii.eqb_spec c "%"%char) as [->|Hne].
      * rewrite unescaped_escape. exact IH1.
      * rewrite unescaped_directive, str_in_code_directive by assumption.
        cbn [existsb]. rewrite IH1. reflexivity.
Qed.

Lemma any_code_spec (format codes : string) :
  any_code codes (str_replace "%%" "" format)
  = has_any codes (directive_letters false format).
Proof.
  unfold any_code, has_any. fold (unescaped format).
  induction (list_ascii_of_string codes) as [|c l IH]; [reflexivity|].
  cbn [existsb]. rewrite IH. f_equal.
  fold (code c). apply (proj1 (code_in_format c format)).
Qed.

(** Where the model of [strptime] accepts a format, its directives are the
    directives of the scan. *)
Lemma parse_format_letters f :
  (forall pp items, parse_format pp false f = Ok items ->
     List.map letter (directives items) = directive_letters false f)
  /\ (forall pp items, parse_format pp true f = Ok items ->
        List.map letter (directives items) = directive_letters true f).
Proof.
  induction f as [|c rest [IH1 IH2]].
  - split; intros pp items H; simpl in H; [|discriminate].
    injection H as <-. reflexivity.
  - split; intros pp items H; cbn [parse_format] in H; cbn [directive_letters].
    + destruct (Ascii.eqb_spec c "%"%char) as [->|Hne].
      * apply (IH2 false). exact H.
      * destruct (is_space c).
        -- destruct pp; [apply (IH1 true); exact H|].
           destruct (parse_format true false rest) as [l|] eqn:E; [|discriminate].
           injection H as <-. exact (IH1 true l E).
        -- destruct (parse_format false false rest) as [l|] eqn:E; [|discriminate].
           injection H as <-. exact (IH1 false l E).
    + destruct (Ascii.eqb_spec c "%"%char) as [->|Hne].
      * destruct (parse_format false false rest) as [l|] eqn:E; [|discriminate].
        injection H as <-. exact (IH1 false l E).
      * destruct (directive_of c) as [d|] eqn:Ed; [|discriminate]. simpl in H.
        destruct (parse_format false false rest) as [l|] eqn:E; [|discriminate].
        injection H as <-. cbn [directives List.map].
        rewrite (IH1 false l E), <- (directive_of_inv c d Ed). reflexivity.
Qed.

(** X17: for every format and every set of letters, the test
    [any([f'%{c}' in format for c in codes])] on the format with its
    escaped percent signs removed is true exactly when the format, read as
    [strptime] reads it, holds a directive with one of the letters; an
    escaped percent sign followed by a letter is never taken for a
    directive, and a directive after an escaped percent sign is found. *)
Theorem any_code_directives (format codes : string) :
  any_code codes (str_replace "%%" "" format)
  = has_any codes (directive_letters false format)
  /\ directive_letters false ("%%" ++ format) = directive_letters false format
  /\ (forall c, c <> "%"%char ->
        directive_letters false (String "%" (String c format))
        = c :: directive_letters false format).
Proof.
  split; [apply any_code_spec|]. split; [reflexivity|].
  intros c Hc. cbn [directive_letters]. rewrite Ascii.eqb_refl.
  destruct (Ascii.eqb_spec c "%"%char); [contradiction | reflexivity].
Qed.

(** ** The end of a month *)

Lemma next_month_period y m :
  next_month (y + 400) m = let '(y', m') := next_month y m in (y' + 400, m').
Proof. unfold next_month. destruct (m =? 12); f_equal; lia. Qed.

Lemma month_end_aux (a : nat) : forall y m,
  1 + 400 * Z.of_nat a <= y <= 400 + 400 * Z.of_nat a -> 1 <= m <= 12 ->
  let '(y', m') := next_month y m in
  let n := ymd2ord y' m' 1 - 1 in
  1 + 146097 * Z.of_nat a <= n <= 146097 + 146097 * Z.of_nat a
  /\ (y <= 399 + 400 * Z.of_nat a -> n <= 145731 + 146097 * Z.of_nat a)
  /\ ord2ymd n = (y, m, days_in_month y m).
Proof.
  induction a as [|a IH]; intros y m Hy Hm.
  - pose proof (month_checked y m ltac:(lia) Hm) as H. unfold month_ok in H.
    destruct (next_month y m) as [y' m']. cbv zeta in *.
    apply andb_prop in H. destruct H as [H H4].
    apply andb_prop in H. destruct H as [H H3].
    apply andb_prop in H. destruct H as [H1 H2].
    apply Z.leb_le in H1, H2. apply orb_prop in H3.
    destruct (ord2ymd (ymd2ord y' m' 1 - 1)) as [[a b] c].
    apply andb_prop in H4. destruct H4 as [H4 H6].
    apply andb_prop in H4. destruct H4 as [H4 H5].
    apply Z.eqb_eq in H4, H5, H6. subst a b c.
    split; [lia|]. split; [|reflexivity].
    intros Hk. destruct H3 as [H3|H3]; [apply Z.leb_le in H3; lia|].
    apply Z.leb_le in H3. lia.
  - specialize (IH (y - 400) m ltac:(lia) Hm).
    assert (E : next_month y m
                = let '(y', m') := next_month (y - 400) m in (y' + 400, m'))
      by (rewrite <- next_month_period; f_equal; lia).
    rewrite E. clear E.
    destruct (next_month (y - 400) m) as [y' m']. cbv zeta in *.
    rewrite ymd2ord_period.
    destruct IH as (Hn & Hlast & Hord).
    split; [lia|]. split; [lia|].
    replace (ymd2ord y' m' 1 + 146097 - 1) with (ymd2ord y' m' 1 - 1 + 146097) by lia.
    rewrite ord2ymd_period, Hord.
    replace (y - 400 + 400) with y by lia.
    rewrite <- (days_in_month_period (y - 400) m).
    replace (y - 400 + 400) with y by lia. reflexivity.
Qed.

Lemma month_end y m :
  1 <= y <= 9999 -> 1 <= m <= 12 ->
  let '(y', m') := next_month y m in
  1 <= ymd2ord y' m' 1 - 1 <= MAXORDINAL
  /\ ord2ymd (ymd2ord y' m' 1 - 1) = (y, m, days_in_month y m).
Proof.
  intros Hy Hm.
  pose proof (month_end_aux (Z.to_nat ((y - 1) / 400)) y m) as H.
  assert (Ha : 0 <= (y - 1) / 400 <= 24).
  { split; [apply Z.div_pos; lia|].
    assert ((y - 1) / 400 < 25) by (apply Z.div_lt_upper_bound; lia). lia. }
  rewrite Z2Nat.id in H by lia.
  pose proof (Z.div_mod (y - 1) 400 ltac:(lia)) as Hdm.
  pose proof (Z.mod_pos_bound (y - 1) 400 ltac:(lia)) as Hr.
  specialize (H ltac:(lia) Hm).
  destruct (next_month y m) as [y' m']. cbv zeta in H.
  destruct H as (Hn & Hlast & Hord). split; [|exact Hord].
  unfold MAXORDINAL. lia.
Qed.

(** One microsecond before the first instant of the next month is the last
    microsecond of the month. *)
Lemma last_instant y m :
  1 <= y <= 9999 -> 1 <= m <= 12 ->
  let '(y', m') := next_month y m in
  datetime_add (mkdatetime y' m' 1 0 0 0 0) (- timedelta 0 0 0 0 1)
  = Ok (mkdatetime y m (days_in_month y m) 23 59 59 999999).
Proof.
  intros Hy Hm. pose proof (month_end y m Hy Hm) as H.
  destruct (next_month y m) as [y' m']. destruct H as [Hn Hord].
  unfold datetime_add, wall_seconds. cbn [year month day hour minute second microsecond].
  change (- timedelta 0 0 0 0 1) with (-1). cbv zeta.
  set (N := ymd2ord y' m' 1) in *.
  replace (((N * 24 + 0) * 60 + 0) * 60 + 0) with (N * 86400) by lia.
  replace (N * 86400 * 1000000 + 0 + -1)
    with (86399999999 + (N - 1) * 86400000000) by lia.
  rewrite Z.div_add, Z_mod_plus_full by lia.
  change (86399999999 / 86400000000) with 0.
  change (86399999999 mod 86400000000) with 86399999999.
  replace (0 + (N - 1)) with (N - 1) by lia.
  replace ((0 <? N - 1) && (N - 1 <=? MAXORDINAL)) with true
    by (symmetry; apply andb_true_intro; split;
        [apply Z.ltb_lt | apply Z.leb_le]; lia).
  rewrite Hord. reflexivity.
Qed.

(** ** What the model of [strptime] returns *)

Lemma strptime_inv date_str format mint :
  strptime date_str format = Ok mint -> wf_datetime mint.
Proof.
  unfold strptime. destruct (parse_format false false format) as [items|]; [|discriminate].
  cbn [bind]. intros H.
  destruct (has_repeat (directives items)); [discriminate|].
  destruct (match_items items (list_ascii_of_string date_str) []) as [[g rest]|];
    [|discriminate].
  destruct rest; [|discriminate].
  destruct (group g Dj) as [txt|].
  - destruct (datetime_new _ 1 1 0 0 0 0); [|discriminate]. cbn [bind] in H.
    destruct (_ <=? MAXORDINAL); [|discriminate].
    destruct (ord2ymd _) as [[y' m'] d'].
    apply datetime_new_inv in H. tauto.
  - apply datetime_new_inv in H. tauto.
Qed.

Lemma first_of_month_ok y m :
  1 <= y <= 9999 -> 1 <= m <= 12 ->
  datetime_new y m 1 0 0 0 0 = Ok (mkdatetime y m 1 0 0 0 0).
Proof.
  intros Hy Hm. apply datetime_new_ok. unfold wf_datetime, valid_md. simpl.
  repeat split; try lia.
  assert (28 <= days_in_month y m).
  { unfold days_in_month. destruct (m =? 2); [destruct (is_leap y); lia|].
    destruct (_ || _); lia. }
  repeat (apply andb_true_intro; split); apply Z.leb_le; lia.
Qed.

End TimestampLaws.

(* ================================================================== *)
(** * Partial timestamps: the interval, over any [strptime] *)

Module Disambiguate.
Import PyStr Timestamp TimestampCal TimestampLaws.
Local Open Scope Z_scope.

(** A [datetime] object: its fields and, when it is aware, its [tzinfo]. *)
Record pydatetime (tzinfo : Type) : Type := mkpy {
  fields : datetime;
  tz_of : option tzinfo
}.
Arguments mkpy {tzinfo} fields tz_of.
Arguments fields {tzinfo} p.
Arguments tz_of {tzinfo} p.

(** What the call raises: an exception of [strptime] or of [timestamp], or
    the ValueError and OverflowError of the constructor and of the sum. *)
Inductive raised (exc : Type) : Type :=
| Library (e : exc)
| Arithmetic (e : ts_error).
Arguments Library {exc} e.
Arguments Arithmetic {exc} e.

(** The resolutions the function tells apart. *)
Inductive resolution : Set :=
| NoTemporal | RYear | RMonth | RDay | RHour | RMinute | RSecond | RMicrosecond.

(** The resolution of a format with the directives [ls]: the chain of
    tests of the function, on the letters of the directives. *)
Definition resolution_of (ls : list ascii) : resolution :=
  if negb (has_any "yYcxG" ls) then NoTemporal
  else if negb (has_any "bBmjUWcxV" ls) then RYear
  else if negb (has_any "aAwdjcxV" ls) then RMonth
  else if negb (has_any "HIcX" ls) then RDay
  else if negb (has_any "McX" ls) then RHour
  else if negb (has_any "ScX" ls) then RMinute
  else if negb (has_any "f" ls) then RSecond
  else RMicrosecond.

(** The length of the interval of a resolution below the month, in
    microseconds. *)
Definition span (r : resolution) : option Z :=
  match r with
  | RDay => Some (timedelta 1 0 0 0 0)
  | RHour => Some (timedelta 0 1 0 0 0)
  | RMinute => Some (timedelta 0 0 1 0 0)
  | RSecond => Some (timedelta 0 0 0 1 0)
  | RMicrosecond => Some (timedelta 0 0 0 0 1)
  | _ => None
  end.

Section Library.

Context {tzinfo exc : Type}.

(** [datetime.strptime] and [datetime.timestamp] of the library. *)
Variable strptime : string -> string -> result exc (pydatetime tzinfo).
Variable timestamp : pydatetime tzinfo -> result exc float.

Definition library {A} (r : result exc A) : result (raised exc) A :=
  match r with
  | Ok a => Ok a
  | Err e => Err (Library e)
  end.

(** [datetime(year, month, day)]: a naive datetime. *)
Definition naive (r : result ts_error datetime) : result (raised exc) (pydatetime tzinfo) :=
  match r with
  | Ok d => Ok (mkpy d None)
  | Err e => Err (Arithmetic e)
  end.

(** [d + delta]: the fields move, the [tzinfo] stays. *)
Definition shifted (d : pydatetime tzinfo) (delta : Z)
  : result (raised exc) (pydatetime tzinfo) :=
  match datetime_add (fields d) delta with
  | Ok f => Ok (mkpy f (tz_of d))
  | Err e => Err (Arithmetic e)
  end.

(** [disambiguate_timestamp] *)
Definition disambiguate_timestamp (date_str format : string)
  : result (raised exc) (pynum * pynum) :=
  mint <- library (strptime date_str format) ;;
  let format := str_replace "%%" "" format in
  if negb (any_code "yYcxG" format) then
    (* No temporal info *)
    Ok (PInt 0, PInt sys_maxsize)
  else
    maxt <-
      (if negb (any_code "bBmjUWcxV" format) then
         (* Year resolution *)
         naive (datetime_new (year (fields mint) + 1) 1 1 0 0 0 0)
       else if negb (any_code "aAwdjcxV" format) then
         (* Month resolution *)
         if month (fields mint) =? 12
         then naive (datetime_new (year (fields mint) + 1) 1 1 0 0 0 0)
         else naive (datetime_new (year (fields mint)) (month (fields mint) + 1) 1 0 0 0 0)
       else if negb (any_code "HIcX" format) then
         (* Day resolution *)
         shifted mint (timedelta 1 0 0 0 0)
       else if negb (any_code "McX" format) then
         (* Hour resolution *)
         shifted mint (timedelta 0 1 0 0 0)
       else if negb (any_code "ScX" format) then
         (* Minute resolution *)
         shifted mint (timedelta 0 0 1 0 0)
       else if negb (any_code "f" format) then
         (* Second resolution *)
         shifted mint (timedelta 0 0 0 1 0)
       else
         (* Microsecond resolution *)
         shifted mint (timedelta 0 0 0 0 1)) ;;
    maxt <- shifted maxt (- timedelta 0 0 0 0 1) ;;
    lo <- library (timestamp mint) ;;
    hi <- library (timestamp maxt) ;;
    Ok (PFloat lo, PFloat hi).

(** The pair of the timestamps of two datetimes, the first one first. *)
Definition interval (mint maxt : pydatetime tzinfo) : result (raised exc) (pynum * pynum) :=
  lo <- library (timestamp mint) ;;
  hi <- library (timestamp maxt) ;;
  Ok (PFloat lo, PFloat hi).

(** The first instant after the interval. *)
Definition next_start (r : resolution) (mint : pydatetime tzinfo)
  : result (raised exc) (pydatetime tzinfo) :=
  match r with
  | NoTemporal => Ok mint
  | RYear => naive (datetime_new (year (fields mint) + 1) 1 1 0 0 0 0)
  | RMonth =>
      if month (fields mint) =? 12
      then naive (datetime_new (year (fields mint) + 1) 1 1 0 0 0 0)
      else naive (datetime_new (year (fields mint)) (month (fields mint) + 1) 1 0 0 0 0)
  | RDay => shifted mint (timedelta 1 0 0 0 0)
  | RHour => shifted mint (timedelta 0 1 0 0 0)
  | RMinute => shifted mint (timedelta 0 0 1 0 0)
  | RSecond => shifted mint (timedelta 0 0 0 1 0)
  | RMicrosecond => shifted mint (timedelta 0 0 0 0 1)
  end.

(** [disambiguate_timestamp], branch by branch. *)
#[local] Opaque datetime_add datetime_new.
Lemma disambiguate_branches date_str format mint :
  strptime date_str format = Ok mint ->
  disambiguate_timestamp date_str format
  = match resolution_of (directive_letters false format) with
    | NoTemporal => Ok (PInt 0, PInt sys_maxsize)
    | r =>
        maxt <- next_start r mint ;;
        maxt <- shifted maxt (- timedelta 0 0 0 0 1) ;;
        interval mint maxt
    end.
Proof.
  intros Hs. unfold disambiguate_timestamp, interval. rewrite Hs. cbn [bind library].
  rewrite !any_code_spec. unfold resolution_of.
  set (ls := directive_letters false format).
  generalize (has_any "yYcxG" ls), (has_any "bBmjUWcxV" ls), (has_any "aAwdjcxV" ls),
             (has_any "HIcX" ls), (has_any "McX" ls), (has_any "ScX" ls),
             (has_any "f" ls).
  intros b1 b2 b3 b4 b5 b6 b7.
  generalize (fun maxt : pydatetime tzinfo =>
                maxt0 <- shifted maxt (- timedelta 0 0 0 0 1) ;;
                lo <- library (timestamp mint) ;;
                hi <- library (timestamp maxt0) ;;
                Ok (PFloat lo, PFloat hi)).
  intros k.
  destruct b1; cbn [negb]; cbv iota; [|reflexivity].
  destruct b2; cbn [negb]; cbv iota; [|reflexivity].
  destruct b3; cbn [negb]; cbv iota; [|reflexivity].
  destruct b4; cbn [negb]; cbv iota; [|reflexivity].
  destruct b5; cbn [negb]; cbv iota; [|reflexivity].
  destruct b6; cbn [negb]; cbv iota; [|reflexivity].
  destruct b7; cbn [negb]; cbv iota; reflexivity.
Qed.
#[local] Transparent datetime_add datetime_new.

(** The year and month branches, for a year [Y] and a month [M]. *)
Lemma year_end mint Y :
  1 <= Y <= 9999 ->
  (maxt <- naive (datetime_new (Y + 1) 1 1 0 0 0 0) ;;
   maxt <- shifted maxt (- timedelta 0 0 0 0 1) ;;
   interval mint maxt)
  = if Y <? 9999
    then interval mint (mkpy (dt Y 12 31 23 59 59 999999) None)
    else Err (Arithmetic FieldOutOfRange).
Proof.
  intros HY. destruct (Y <? 9999) eqn:E.
  - apply Z.ltb_lt in E. rewrite first_of_month_ok by lia. cbn [bind naive].
    pose proof (last_instant Y 12 HY ltac:(lia)) as L.
    unfold next_month in L. simpl in L. unfold shifted. cbn [fields tz_of].
    rewrite L. reflexivity.
  - apply Z.ltb_ge in E. replace Y with 9999 by lia. reflexivity.
Qed.

(** X18: the interval of a year or of a month, for any datetime in range
    that [strptime] returns.  Without a directive of the year the bounds
    are the integers [0] and [sys.maxsize].  With a year and no finer
    directive the interval runs from the parsed instant to the last
    microsecond of 31 December of its year; with a month and no finer
    directive it runs to the last microsecond of the last day of the parsed
    month, leap years included.  The end is a naive datetime also when the
    parsed one is aware.  When the next year would be 10000 the call raises
    the ValueError of the constructor, before any timestamp is taken. *)
Theorem disambiguate_calendar (date_str format : string) (mint : pydatetime tzinfo) :
  strptime date_str format = Ok mint ->
  wf_datetime (fields mint) ->
  (resolution_of (directive_letters false format) = NoTemporal ->
   disambiguate_timestamp date_str format = Ok (PInt 0, PInt sys_maxsize))
  /\ (resolution_of (directive_letters false format) = RYear ->
      disambiguate_timestamp date_str format
      = if year (fields mint) <? 9999
        then interval mint (mkpy (dt (year (fields mint)) 12 31 23 59 59 999999) None)
        else Err (Arithmetic FieldOutOfRange))
  /\ (resolution_of (directive_letters false format) = RMonth ->
      disambiguate_timestamp date_str format
      = if (year (fields mint) <? 9999) || (month (fields mint) <? 12)
        then interval mint
               (mkpy (dt (year (fields mint)) (month (fields mint))
                         (days_in_month (year (fields mint)) (month (fields mint)))
                         23 59 59 999999) None)
        else Err (Arithmetic FieldOutOfRange)).
Proof.
  intros Hs (Hy & Hmd & _). rewrite (disambiguate_branches _ _ _ Hs).
  apply valid_md_inv in Hmd. destruct Hmd as [Hm _].
  split; [|split].
  - intros ->. reflexivity.
  - intros ->. cbn [next_start]. apply year_end. exact Hy.
  - intros ->. cbn [next_start].
    destruct (month (fields mint) =? 12) eqn:E12.
    + apply Z.eqb_eq in E12. rewrite (year_end mint _ Hy), E12.
      replace (12 <? 12) with false by reflexivity. rewrite orb_false_r.
      reflexivity.
    + apply Z.eqb_neq in E12.
      replace (month (fields mint) <? 12) with true by (symmetry; apply Z.ltb_lt; lia).
      rewrite orb_true_r. rewrite first_of_month_ok by lia. cbn [bind naive].
      pose proof (last_instant (year (fields mint)) (month (fields mint)) Hy Hm) as L.
      unfold next_month in L.
      replace (month (fields mint) =? 12) with false in L
        by (symmetry; apply Z.eqb_neq; assumption).
      unfold shifted. cbn [fields tz_of]. rewrite L. reflexivity.
Qed.

Lemma shifted_ok (d : pydatetime tzinfo) (delta : Z) (f : datetime) :
  datetime_add (fields d) delta = Ok f -> shifted d delta = Ok (mkpy f (tz_of d)).
Proof. intros H. unfold shifted. rewrite H. reflexivity. Qed.

Lemma shifted_err (d : pydatetime tzinfo) (delta : Z) (e : ts_error) :
  datetime_add (fields d) delta = Err e -> shifted d delta = Err (Arithmetic e).
Proof. intros H. unfold shifted. rewrite H. reflexivity. Qed.

(** The branches below the month, for a sum of [delta] microseconds. *)
Lemma shifted_interval (mint : pydatetime tzinfo) (delta : Z) :
  wf_datetime (fields mint) -> 1 <= delta ->
  (micros (fields mint) + delta < (MAXORDINAL + 1) * DAY ->
   exists maxt,
     (maxt <- shifted mint delta ;;
      maxt <- shifted maxt (- timedelta 0 0 0 0 1) ;;
      interval mint maxt)
     = interval mint (mkpy maxt (tz_of mint))
     /\ micros maxt = micros (fields mint) + delta - 1
     /\ wf_datetime maxt)
  /\ ((MAXORDINAL + 1) * DAY <= micros (fields mint) + delta ->
      (maxt <- shifted mint delta ;;
       maxt <- shifted maxt (- timedelta 0 0 0 0 1) ;;
       interval mint maxt)
      = Err (Arithmetic DateOverflow)).
Proof.
  intros Hwf Hpos. pose proof (micros_lower (fields mint) Hwf) as Hlow.
  change (- timedelta 0 0 0 0 1) with (-1).
  destruct (datetime_add_spec (fields mint) delta) as [Hok Herr].
  split.
  - intros Hlim. destruct (Hok ltac:(lia)) as (r1 & Hr1 & Hm1 & Hw1).
    rewrite (shifted_ok _ _ _ Hr1). cbn [bind].
    destruct (datetime_add_spec r1 (-1)) as [Hok2 _].
    destruct (Hok2 ltac:(lia)) as (maxt & Hr2 & Hm2 & Hw2).
    rewrite (shifted_ok (mkpy r1 (tz_of mint)) _ _ Hr2). cbn [bind tz_of].
    exists maxt. split; [reflexivity|]. split; [lia | exact Hw2].
  - intros Hlim. rewrite (shifted_err _ _ _ (Herr ltac:(lia))). reflexivity.
Qed.

(** X19: the interval of a day, an hour, a minute, a second or a
    microsecond, for any datetime in range that [strptime] returns.  It
    runs from the parsed instant to the datetime one unit minus one
    microsecond later, which is in range and keeps the [tzinfo] of the
    parsed one.  When the parsed instant plus the unit falls after the year
    9999 the call raises OverflowError before any timestamp is taken, also
    when the last microsecond of the interval is still in the year 9999. *)
Theorem disambiguate_span (date_str format : string) (mint : pydatetime tzinfo)
        (delta : Z) :
  strptime date_str format = Ok mint ->
  wf_datetime (fields mint) ->
  span (resolution_of (directive_letters false format)) = Some delta ->
  (micros (fields mint) + delta < (MAXORDINAL + 1) * DAY ->
   exists maxt,
     disambiguate_timestamp date_str format = interval mint (mkpy maxt (tz_of mint))
     /\ micros maxt = micros (fields mint) + delta - 1
     /\ wf_datetime maxt)
  /\ ((MAXORDINAL + 1) * DAY <= micros (fields mint) + delta ->
      disambiguate_timestamp date_str format = Err (Arithmetic DateOverflow)).
Proof.
  intros Hs Hwf Hspan. rewrite (disambiguate_branches _ _ _ Hs).
  destruct (resolution_of (directive_letters false format));
    simpl in Hspan; try discriminate; injection Hspan as <-; cbn [next_start];
    (apply shifted_interval; [exact Hwf | vm_compute; discriminate]).
Qed.

End Library.

(** ** The model of the numeric directives as an instance *)

(** The model of [strptime] of [Timestamp], which returns naive datetimes,
    and its [timestamp] in the zone [tz]. *)
Definition model_strptime (date_str format : string)
  : result ts_error (pydatetime Empty_set) :=
  match Timestamp.strptime date_str format with
  | Ok d => Ok (mkpy d None)
  | Err e => Err e
  end.

Definition model_timestamp (tz : Z -> Z) (d : pydatetime Empty_set)
  : result ts_error float :=
  Ok (Timestamp.timestamp tz (fields d)).

Definition flatten {A} (r : result (raised ts_error) A) : result ts_error A :=
  match r with
  | Ok a => Ok a
  | Err (Library e) => Err e
  | Err (Arithmetic e) => Err e
  end.

(** [Timestamp.disambiguate_timestamp] is the function above over the
    model of [strptime]. *)
#[local] Opaque datetime_add datetime_new Timestamp.timestamp Timestamp.strptime.
Lemma model_instance tz date_str format :
  Timestamp.disambiguate_timestamp tz date_str format
  = flatten (disambiguate_timestamp model_strptime (model_timestamp tz) date_str format).
Proof.
  unfold Timestamp.disambiguate_timestamp, disambiguate_timestamp, model_strptime.
  destruct (Timestamp.strptime date_str format) as [mint|e]; [|reflexivity].
  cbn [bind library fields].
  assert (Htail : forall r : result ts_error datetime,
            bind r (fun maxt =>
              bind (datetime_add maxt (- timedelta 0 0 0 0 1)) (fun maxt0 =>
              Ok (PFloat (Timestamp.timestamp tz mint),
                  PFloat (Timestamp.timestamp tz maxt0))))
            = flatten
                (maxt <- naive r ;;
                 maxt <- shifted maxt (- timedelta 0 0 0 0 1) ;;
                 lo <- library (model_timestamp tz (mkpy (tzinfo := Empty_set) mint None)) ;;
                 hi <- library (model_timestamp tz maxt) ;;
                 Ok (PFloat lo, PFloat hi))).
  { intros [d|e]; [|reflexivity]. cbn [bind naive].
    destruct (datetime_add d (- timedelta 0 0 0 0 1)) as [f|e] eqn:E.
    - rewrite (shifted_ok (exc := ts_error) (mkpy (tzinfo := Empty_set) d None) _ f E).
      reflexivity.
    - rewrite (shifted_err (exc := ts_error) (mkpy (tzinfo := Empty_set) d None) _ e E).
      reflexivity. }
  assert (Hadd : forall delta,
            bind (datetime_add mint delta) (fun maxt =>
              bind (datetime_add maxt (- timedelta 0 0 0 0 1)) (fun maxt0 =>
              Ok (PFloat (Timestamp.timestamp tz mint),
                  PFloat (Timestamp.timestamp tz maxt0))))
            = flatten
                (maxt <- shifted (mkpy (tzinfo := Empty_set) mint None) delta ;;
                 maxt <- shifted maxt (- timedelta 0 0 0 0 1) ;;
                 lo <- library (model_timestamp tz (mkpy (tzinfo := Empty_set) mint None)) ;;
                 hi <- library (model_timestamp tz maxt) ;;
                 Ok (PFloat lo, PFloat hi))).
  { intros delta. destruct (datetime_add mint delta) as [d|e] eqn:E1.
    - rewrite (shifted_ok (exc := ts_error) (mkpy (tzinfo := Empty_set) mint None) _ d E1).
      cbn [bind tz_of].
      destruct (datetime_add d (- timedelta 0 0 0 0 1)) as [f|e] eqn:E.
      + rewrite (shifted_ok (exc := ts_error) (mkpy (tzinfo := Empty_set) d None) _ f E).
        reflexivity.
      + rewrite (shifted_err (exc := ts_error) (mkpy (tzinfo := Empty_set) d None) _ e E).
        reflexivity.
    - rewrite (shifted_err (exc := ts_error) (mkpy (tzinfo := Empty_set) mint None) _ e E1).
      reflexivity. }
  destruct (any_code "yYcxG" _); cbn [negb]; cbv iota; [|reflexivity].
  destruct (any_code "bBmjUWcxV" _); cbn [negb]; cbv iota; [|apply Htail].
  destruct (any_code "aAwdjcxV" _); cbn [negb]; cbv iota;
    [|destruct (month mint =? 12); apply Htail].
  destruct (any_code "HIcX" _); cbn [negb]; cbv iota; [|apply Hadd].
  destruct (any_code "McX" _); cbn [negb]; cbv iota; [|apply Hadd].
  destruct (any_code "ScX" _); cbn [negb]; cbv iota; [|apply Hadd].
  destruct (any_code "f" _); cbn [negb]; cbv iota; apply Hadd.
Qed.
#[local] Transparent datetime_add datetime_new Timestamp.timestamp Timestamp.strptime.

Lemma disambiguate_calendar_witness :
  disambiguate_timestamp model_strptime (model_timestamp utc) "2024-02" "%Y-%m"
  = Ok (PFloat (Timestamp.timestamp utc (dt 2024 2 1 0 0 0 0)),
        PFloat (Timestamp.timestamp utc (dt 2024 2 29 23 59 59 999999))).
Proof.
  assert (Hmint : model_strptime "2024-02" "%Y-%m"
                  = Ok (mkpy (dt 2024 2 1 0 0 0 0) None))
    by (vm_compute; reflexivity).
  assert (Hwf : wf_datetime (dt 2024 2 1 0 0 0 0))
    by (unfold wf_datetime; simpl; repeat split; (lia || reflexivity)).
  exact (proj2 (proj2 (disambiguate_calendar model_strptime (model_timestamp utc)
                         _ _ _ Hmint Hwf)) eq_refl).
Defined.

Lemma disambiguate_span_witness :
  exists maxt,
    disambiguate_timestamp model_strptime (model_timestamp utc)
                           "2021-02-03 04" "%Y-%m-%d %H"
    = interval (model_timestamp utc) (mkpy (dt 2021 2 3 4 0 0 0) None) (mkpy maxt None)
    /\ micros maxt = micros (dt 2021 2 3 4 0 0 0) + 3600000000 - 1
    /\ wf_datetime maxt.
Proof.
  assert (Hmint : model_strptime "2021-02-03 04" "%Y-%m-%d %H"
                  = Ok (mkpy (dt 2021 2 3 4 0 0 0) None))
    by (vm_compute; reflexivity).
  assert (Hwf : wf_datetime (dt 2021 2 3 4 0 0 0))
    by (unfold wf_datetime; simpl; repeat split; (lia || reflexivity)).
  apply (proj1 (disambiguate_span model_strptime (model_timestamp utc)
                  _ _ _ 3600000000 Hmint Hwf eq_refl)).
  vm_compute. reflexivity.
Defined.

End Disambiguate.

(* ================================================================== *)
(** * More of Python's strings and of os.path *)

Module PyText.
Import PyStr.
Local Open Scope string_scope.

(** [s.rfind(c)] for a one-character [c]: the last index of [c] in [s], or
    [-1]; [i] is the index of the head of [s], [found] the last index seen. *)
Fixpoint rfind_from (c : ascii) (s : string) (i found : Z) : Z :=
  match s with
  | EmptyString => found
  | String x rest => rfind_from c rest (i + 1) (if Ascii.eqb x c then i else found)
  end.

Definition rfind (c : ascii) (s : string) : Z := rfind_from c s 0 (-1).

(** The slices [s[i:]] and [s[:i]] for [0 <= i]. *)
Fixpoint drop_str (n : nat) (s : string) : string :=
  match n, s with
  | O, _ => s
  | S n, String _ rest => drop_str n rest
  | S _, EmptyString => EmptyString
  end.

Fixpoint take_str (n : nat) (s : string) : string :=
  match n, s with
  | O, _ => EmptyString
  | S n, String x rest => String x (take_str n rest)
  | S _, EmptyString => EmptyString
  end.

Definition slice_from (i : Z) (s : string) : string := drop_str (Z.to_nat i) s.
Definition slice_to (i : Z) (s : string) : string := take_str (Z.to_nat i) s.

(** [os.path.basename(p)] on POSIX: [p[p.rfind('/') + 1:]]. *)
Definition basename (p : string) : string := slice_from (rfind "/" p + 1) p.

(** [s.split(sep)] for a one-character separator. *)
Fixpoint split_on (sep : ascii) (s : string) : list string :=
  match s with
  | EmptyString => [EmptyString]
  | String x rest =>
      if Ascii.eqb x sep then EmptyString :: split_on sep rest
      else match split_on sep rest with
           | piece :: pieces => String x piece :: pieces
           | [] => [String x EmptyString]
           end
  end.

(** [l[-1]] on a list of strings that is never empty. *)
Definition last_piece (l : list string) : string := List.last l EmptyString.

(** Does some character of [s] differ from [c]? *)
Fixpoint some_other (c : ascii) (s : string) : bool :=
  match s with
  | EmptyString => false
  | String x rest => negb (Ascii.eqb x c) || some_other c rest
  end.

(** [os.path.splitext(p)] on POSIX: the extension starts at the last dot of
    the last component, unless that component has only dots before it. *)
Definition splitext (p : string) : string * string :=
  let sepIndex := rfind "/" p in
  let dotIndex := rfind "." p in
  if (sepIndex <? dotIndex)%Z
     && some_other "." (slice_to (dotIndex - (sepIndex + 1))
                                 (slice_from (sepIndex + 1) p))
  then (slice_to dotIndex p, slice_from dotIndex p)
  else (p, EmptyString).

(** The character [c] does not occur in [s]. *)
Fixpoint free_of (c : ascii) (s : string) : bool :=
  match s with
  | EmptyString => true
  | String x rest => negb (Ascii.eqb x c) && free_of c rest
  end.

(** ** Facts about the string operations *)

Lemma rfind_from_free c s : forall i found,
  free_of c s = true -> rfind_from c s i found = found.
Proof.
  induction s as [|x s IH]; intros i found H; [reflexivity|].
  simpl in *. apply andb_prop in H. destruct H as [Hx Hs].
  apply negb_true_iff in Hx. rewrite Hx. apply IH. exact Hs.
Qed.

Lemma rfind_from_last c a b : forall i found,
  free_of c b = true ->
  rfind_from c (a ++ String c b) i found = (i + Z.of_nat (String.length a))%Z.
Proof.
  induction a as [|x a IH]; intros i found H.
  - simpl. rewrite Ascii.eqb_refl, rfind_from_free by assumption. lia.
  - simpl. rewrite IH by assumption. lia.
Qed.

Lemma rfind_last c a b :
  free_of c b = true -> rfind c (a ++ String c b) = Z.of_nat (String.length a).
Proof. intros H. unfold rfind. rewrite rfind_from_last by assumption. lia. Qed.

Lemma rfind_free c s : free_of c s = true -> rfind c s = (-1)%Z.
Proof. intros H. unfold rfind. apply rfind_from_free. exact H. Qed.

Lemma drop_str_app a b : drop_str (String.length a) (a ++ b) = b.
Proof. induction a as [|x a IH]; [destruct b; reflexivity | exact IH]. Qed.

Lemma take_str_app a b : take_str (String.length a) (a ++ b) = a.
Proof.
  induction a as [|x a IH]; [destruct b; reflexivity|]. simpl. rewrite IH. reflexivity.
Qed.

Lemma drop_str_sep a c b :
  drop_str (Z.to_nat (Z.of_nat (String.length a) + 1)) (a ++ String c b) = b.
Proof.
  replace (Z.to_nat (Z.of_nat (String.length a) + 1)) with (S (String.length a)) by lia.
  induction a as [|x a IH]; [destruct b; reflexivity | exact IH].
Qed.

Lemma basename_last dir name :
  free_of "/" name = true -> basename (dir ++ String "/" name) = name.
Proof.
  intros H. unfold basename, slice_from. rewrite rfind_last by assumption.
  apply drop_str_sep.
Qed.

Lemma basename_free name : free_of "/" name = true -> basename name = name.
Proof.
  intros H. unfold basename, slice_from. rewrite rfind_free by assumption. reflexivity.
Qed.

Lemma split_on_nonempty sep s : split_on sep s <> [].
Proof.
  destruct s as [|x s]; simpl; [discriminate|].
  destruct (Ascii.eqb x sep); [discriminate|].
  destruct (split_on sep s); discriminate.
Qed.

Lemma split_on_free sep s : free_of sep s = true -> split_on sep s = [s].
Proof.
  induction s as [|x s IH]; intros H; [reflexivity|].
  simpl in *. apply andb_prop in H. destruct H as [Hx Hs].
  apply negb_true_iff in Hx. rewrite Hx, IH by assumption. reflexivity.
Qed.

Lemma split_on_last sep a b :
  free_of sep b = true ->
  exists p ps, split_on sep (a ++ String sep b) = ((p :: ps) ++ [b])%list.
Proof.
  intros H. induction a as [|x a IH].
  - exists EmptyString, []. simpl.
    rewrite Ascii.eqb_refl, split_on_free by assumption. reflexivity.
  - destruct IH as (p & ps & E). simpl. rewrite E.
    destruct (Ascii.eqb x sep).
    + exists EmptyString, (p :: ps). reflexivity.
    + exists (String x p), ps. reflexivity.
Qed.

Lemma last_piece_split sep a b :
  free_of sep b = true -> last_piece (split_on sep (a ++ String sep b)) = b.
Proof.
  intros H. destruct (split_on_last sep a b H) as (p & ps & E).
  unfold last_piece. rewrite E. apply List.last_last.
Qed.

Lemma free_of_app c a b : free_of c (a ++ b) = free_of c a && free_of c b.
Proof.
  induction a as [|x a IH]; [reflexivity|]. simpl. rewrite IH, andb_assoc. reflexivity.
Qed.

Lemma last_occurrence c s :
  free_of c s = true \/ exists a b, s = a ++ String c b /\ free_of c b = true.
Proof.
  induction s as [|x s IH]; [left; reflexivity|].
  destruct IH as [Hs | (a & b & -> & Hb)].
  - simpl. destruct (Ascii.eqb_spec x c) as [-> | Hx].
    + right. exists EmptyString, s. split; [reflexivity | exact Hs].
    + left. rewrite Hs. reflexivity.
  - right. exists (String x a), b. split; [reflexivity | exact Hb].
Qed.

Lemma append_assoc (a b c : string) : (a ++ b) ++ c = a ++ (b ++ c).
Proof. induction a as [|x a IH]; [reflexivity | exact (f_equal (String x) IH)]. Qed.

Lemma some_other_free c s : s <> EmptyString -> free_of c s = true -> some_other c s = true.
Proof.
  destruct s as [|x s]; [congruence|]. intros _ H. simpl in *.
  apply andb_prop in H. destruct H as [-> _]. reflexivity.
Qed.

Lemma splitext_stem stem ext :
  stem <> EmptyString ->
  free_of "/" stem = true -> free_of "." stem = true ->
  free_of "/" ext = true -> free_of "." ext = true ->
  splitext (stem ++ String "." ext) = (stem, String "." ext).
Proof.
  intros Hne Hs1 Hs2 He1 He2. unfold splitext.
  rewrite rfind_free by (rewrite free_of_app, Hs1; simpl; exact He1).
  rewrite rfind_last by assumption.
  replace (-1 <? Z.of_nat (String.length stem))%Z with true by (symmetry; apply Z.ltb_lt; lia).
  unfold slice_to, slice_from.
  replace (Z.to_nat (Z.of_nat (String.length stem) - (-1 + 1))) with (String.length stem) by lia.
  replace (Z.to_nat (Z.of_nat (String.length stem))) with (String.length stem) by lia.
  change (Z.to_nat (-1 + 1)) with O. cbn [drop_str].
  rewrite take_str_app, drop_str_app, some_other_free by assumption.
  reflexivity.
Qed.

Lemma prefix_empty s : String.prefix EmptyString s = true.
Proof. destruct s; reflexivity. Qed.

(** Replacing one character by another is a map over the characters. *)
Fixpoint map_chars (f : ascii -> ascii) (s : string) : string :=
  match s with
  | EmptyString => EmptyString
  | String x rest => String (f x) (map_chars f rest)
  end.

Lemma str_replace_char (old new : ascii) s :
  str_replace (String old EmptyString) (String new EmptyString) s
  = map_chars (fun x => if Ascii.eqb x old then new else x) s.
Proof.
  unfold str_replace. induction s as [|x s IH]; [reflexivity|].
  cbn [replace_from map_chars String.prefix String.length Nat.sub].
  rewrite prefix_empty. destruct (ascii_dec old x) as [<- | Hne].
  - rewrite Ascii.eqb_refl, IH. reflexivity.
  - destruct (Ascii.eqb_spec x old) as [-> | _]; [congruence|]. rewrite IH. reflexivity.
Qed.

Lemma split_on_pieces sep s : Forall (fun p => free_of sep p = true) (split_on sep s).
Proof.
  induction s as [|x s IH]; [repeat constructor|].
  simpl. destruct (Ascii.eqb_spec x sep) as [-> | Hx].
  - constructor; [reflexivity | exact IH].
  - destruct (split_on sep s) as [|p ps].
    + constructor; [|constructor]. simpl.
      destruct (Ascii.eqb_spec x sep); [congruence | reflexivity].
    + inversion IH as [|? ? Hp Hps]; subst. constructor; [|exact Hps].
      simpl. rewrite Hp. destruct (Ascii.eqb_spec x sep); [congruence | reflexivity].
Qed.

End PyText.

(* ================================================================== *)
(** * Sort key of Sentinel-2 band files *)

Module Bands.
Import PyStr PyText.
Local Open Scope string_scope.

(** [sort_sentinel2_bands] *)
Definition sort_sentinel2_bands (x : string) : string :=
  let x := last_piece (split_on "_" (basename x)) in
  let x := fst (splitext x) in
  if String.eqb x "B8A" then "B08A" else x.

(** X20: [sort_sentinel2_bands] maps a path whose last component reads
    [<anything>_<band>.<ext>], where the band is not empty and neither band
    nor extension holds a slash, an underscore or a dot, to the band, with
    ["B8A"] renamed to ["B08A"]; the key of band 8A so sorts after that of
    band 08 and before that of band 09. *)
Theorem sort_sentinel2_bands_key (front band ext : string) :
  band <> EmptyString ->
  free_of "/" band = true -> free_of "_" band = true -> free_of "." band = true ->
  free_of "/" ext = true -> free_of "_" ext = true -> free_of "." ext = true ->
  sort_sentinel2_bands (front ++ String "_" (band ++ String "." ext))
    = (if String.eqb band "B8A" then "B08A" else band)
  /\ (String.ltb "B08" (sort_sentinel2_bands (front ++ "_B8A." ++ ext))
      && String.ltb (sort_sentinel2_bands (front ++ "_B8A." ++ ext)) "B09") = true.
Proof.
  assert (Hkey : forall band', band' <> EmptyString ->
    free_of "/" band' = true -> free_of "_" band' = true -> free_of "." band' = true ->
    free_of "/" ext = true -> free_of "_" ext = true -> free_of "." ext = true ->
    sort_sentinel2_bands (front ++ String "_" (band' ++ String "." ext))
    = (if String.eqb band' "B8A" then "B08A" else band')).
  { clear band. intros band Hne Hb1 Hb2 Hb3 He1 He2 He3. unfold sort_sentinel2_bands.
    assert (Htail : free_of "_" (band ++ String "." ext) = true)
      by (rewrite free_of_app, Hb2; simpl; exact He2).
    assert (Hslash : free_of "/" (String "_" (band ++ String "." ext)) = true)
      by (simpl; rewrite free_of_app, Hb1; simpl; exact He1).
    assert (Hpiece : last_piece (split_on "_"
              (basename (front ++ String "_" (band ++ String "." ext))))
            = band ++ String "." ext).
    { destruct (last_occurrence "/" front) as [Hf | (a & b & -> & Hb)].
      - rewrite basename_free by (rewrite free_of_app, Hf; exact Hslash).
        apply last_piece_split. exact Htail.
      - rewrite append_assoc. change (String "/" b ++ ?t) with (String "/" (b ++ t)).
        rewrite basename_last by (rewrite free_of_app, Hb; exact Hslash).
        apply last_piece_split. exact Htail. }
    rewrite Hpiece, splitext_stem by assumption. reflexivity. }
  intros Hne Hb1 Hb2 Hb3 He1 He2 He3. split.
  - apply Hkey; assumption.
  - change (front ++ "_B8A." ++ ext) with (front ++ String "_" ("B8A" ++ String "." ext)).
    rewrite (Hkey "B8A") by (assumption || reflexivity || discriminate). reflexivity.
Qed.

Lemma sort_sentinel2_bands_key_witness :
  sort_sentinel2_bands "data/T26EMU_20190414T110751_B8A.jp2" = "B08A".
Proof.
  exact (proj1 (sort_sentinel2_bands_key "data/T26EMU_20190414T110751" "B8A" "jp2"
    ltac:(discriminate) eq_refl eq_refl eq_refl eq_refl eq_refl eq_refl)).
Defined.

End Bands.

(* ================================================================== *)
(** * Optional dependencies: lazy_import and which *)

Module Deps.
Import PyStr PyText Exec.
Local Open Scope string_scope.

(** What [importlib.import_module] raises. *)
Inductive import_error : Set :=
| ModuleNotFoundError
| ImportRaised (e : pyexn).          (* any other exception of the import *)

Inductive dep_error : Set :=
| DependencyNotFoundError (msg : string)
| Raised (e : pyexn).

(** The table [module_to_pypi] without its default. *)
Definition module_to_pypi : gmap string string :=
  <["skimage" := "scikit-image"]> (<["cv2" := "opencv-python"]> ∅).

(** The name of the package to install for the module [name]: the lookup
    in the defaultdict, whose default is the rewritten name. *)
Definition pypi_name (name : string) : string :=
  let name := str_replace "_" "-" (List.hd EmptyString (split_on "." name)) in
  default name (module_to_pypi !! name).

Definition lazy_import_message (name : string) : string :=
  name ++ " is not installed and is required to use this dataset. Either run:

$ pip install " ++ name ++ "

to install just this dependency, or:

$ pip install torchgeo[datasets]

to install all optional dataset dependencies.".

Definition which_message (name : string) : string :=
  name ++ " is not installed and is required to use this dataset.".

Section Environment.

Context {module : Type}.

(** [importlib.import_module] and [shutil.which] of the running system. *)
Variable import_module : string -> result import_error module.
Variable shutil_which : string -> option string.

(** [lazy_import] *)
Definition lazy_import (name : string) : result dep_error module :=
  match import_module name with
  | Ok m => Ok m
  | Err ModuleNotFoundError =>
      Err (DependencyNotFoundError (lazy_import_message (pypi_name name)))
  | Err (ImportRaised e) => Err (Raised e)
  end.

(** [which]: [None] and the empty string are both false. *)
Definition which (name : string) : result dep_error Executable :=
  match shutil_which name with
  | Some cmd =>
      if negb (String.length cmd =? 0)%nat then Ok (mkExecutable cmd)
      else Err (DependencyNotFoundError (which_message name))
  | None => Err (DependencyNotFoundError (which_message name))
  end.

Lemma free_of_map_chars c f s :
  (forall x, Ascii.eqb (f x) c = false) -> free_of c (map_chars f s) = true.
Proof.
  intros Hf. induction s as [|x s IH]; [reflexivity|]. simpl. rewrite Hf, IH. reflexivity.
Qed.

Lemma free_of_map_chars_keep c f s :
  (forall x, Ascii.eqb x c = false -> Ascii.eqb (f x) c = false) ->
  free_of c s = true -> free_of c (map_chars f s) = true.
Proof.
  intros Hf. induction s as [|x s IH]; [reflexivity|]. simpl. intros H.
  apply andb_prop in H. destruct H as [Hx Hs]. apply negb_true_iff in Hx.
  rewrite (Hf _ Hx), IH by assumption. reflexivity.
Qed.

Lemma map_chars_id f s :
  free_of "_" s = true -> (forall x, Ascii.eqb x "_" = false -> f x = x) ->
  map_chars f s = s.
Proof.
  intros H Hf. induction s as [|x s IH]; [reflexivity|]. simpl in *.
  apply andb_prop in H. destruct H as [Hx Hs]. apply negb_true_iff in Hx.
  rewrite (Hf _ Hx), IH by assumption. reflexivity.
Qed.

Lemma hd_split_on sep s : free_of sep (List.hd EmptyString (split_on sep s)) = true.
Proof.
  pose proof (split_on_pieces sep s) as H.
  destruct (split_on sep s); [reflexivity|]. inversion H; subst. assumption.
Qed.

(** X21: When the module is not found, [lazy_import] raises a
    DependencyNotFoundError whose message names a package to install: the
    first dotted component of the module name with underscores turned into
    hyphens, except that [cv2] gives [opencv-python] and [skimage] gives
    [scikit-image].  That package name never holds a dot or an underscore. *)
Theorem lazy_import_hint (name : string) :
  import_module name = Err ModuleNotFoundError ->
  let top := List.hd EmptyString (split_on "." name) in
  let pkg := if String.eqb top "cv2" then "opencv-python"
             else if String.eqb top "skimage" then "scikit-image"
             else str_replace "_" "-" top in
  lazy_import name = Err (DependencyNotFoundError (lazy_import_message pkg))
  /\ free_of "." pkg = true /\ free_of "_" pkg = true.
Proof.
  intros Himp top pkg.
  assert (Htop : free_of "." top = true) by apply hd_split_on.
  set (f := fun x : ascii => if Ascii.eqb x "_" then "-"%char else x).
  assert (Hrep : str_replace "_" "-" top = map_chars f top) by apply str_replace_char.
  assert (Hdot : free_of "." (map_chars f top) = true).
  { apply free_of_map_chars_keep; [|exact Htop]. intros x Hx. unfold f.
    destruct (Ascii.eqb x "_"); [reflexivity | exact Hx]. }
  assert (Hund : free_of "_" (map_chars f top) = true).
  { apply free_of_map_chars. intros x. unfold f.
    destruct (Ascii.eqb x "_") eqn:E; [reflexivity | exact E]. }
  assert (Hpkg : pypi_name name = pkg).
  { unfold pypi_name. fold top. subst pkg. rewrite Hrep.
    destruct (String.eqb_spec top "cv2") as [-> | Hcv]; [reflexivity|].
    destruct (String.eqb_spec top "skimage") as [-> | Hsk]; [reflexivity|].
    unfold module_to_pypi.
    assert (Hback : forall known, free_of "-" known = true ->
              map_chars f top = known -> top = known).
    { intros known Hk E. rewrite <- E. symmetry. apply map_chars_id.
      - clear - E Hk. revert known E Hk. induction top as [|x t IH]; [reflexivity|].
        intros [|k known] E Hk; [discriminate|]. simpl in E. injection E as Ex Et.
        simpl in Hk. apply andb_prop in Hk. destruct Hk as [Hk1 Hk2].
        simpl. rewrite (IH known Et Hk2), andb_true_r.
        unfold f in Ex. destruct (Ascii.eqb x "_"); [subst k; discriminate | reflexivity].
        (* the image of an underscore is a hyphen, which [known] has not *)
      - intros x Hx. unfold f. rewrite Hx. reflexivity. }
    rewrite lookup_insert_ne by (intros E; apply Hsk, Hback; [reflexivity | congruence]).
    rewrite lookup_insert_ne by (intros E; apply Hcv, Hback; [reflexivity | congruence]).
    rewrite lookup_empty. reflexivity. }
  split; [|split].
  - unfold lazy_import. rewrite Himp, Hpkg. reflexivity.
  - subst pkg. destruct (String.eqb top "cv2"); [reflexivity|].
    destruct (String.eqb top "skimage"); [reflexivity|]. rewrite Hrep. exact Hdot.
  - subst pkg. destruct (String.eqb top "cv2"); [reflexivity|].
    destruct (String.eqb top "skimage"); [reflexivity|]. rewrite Hrep. exact Hund.
Qed.

(** X22: Calling the executable that [which] returns runs the path that
    [shutil.which] resolved, a non-empty string, followed by the arguments,
    under the caller's keyword arguments without [check]; the completed
    process is returned only when its exit status is zero. *)
Theorem which_call (sys : system) (name : string) (exe : Executable)
        (arguments : list string) (kwargs : gmap string kwval) (p : CompletedProcess) :
  which name = Ok exe ->
  call sys exe arguments kwargs = Ok p ->
  exists cmd, shutil_which name = Some cmd /\ cmd <> EmptyString
    /\ sys (cmd :: arguments) (delete "check" kwargs) = Ok p
    /\ returncode p = 0%Z.
Proof.
  unfold which. intros Hw Hc.
  destruct (shutil_which name) as [cmd|]; [|discriminate].
  destruct cmd as [|c cmd]; [discriminate|]. simpl in Hw. injection Hw as <-.
  exists (String c cmd). split; [reflexivity|]. split; [discriminate|].
  unfold call, subprocess_run in Hc. simpl Exec.name in Hc.
  rewrite lookup_insert_eq, delete_insert_eq in Hc.
  destruct (sys (String c cmd :: arguments) (delete "check" kwargs)) as [q|e];
    [|discriminate].
  simpl in Hc. destruct (returncode q =? 0)%Z eqn:E; simpl in Hc; [|discriminate].
  injection Hc as ->. split; [reflexivity | apply Z.eqb_eq; exact E].
Qed.

End Environment.

Lemma lazy_import_hint_witness :
  lazy_import (module := unit) (fun _ => Err ModuleNotFoundError) "skimage.io"
  = Err (DependencyNotFoundError (lazy_import_message "scikit-image")).
Proof.
  exact (proj1 (lazy_import_hint (module := unit) (fun _ => Err ModuleNotFoundError)
                  "skimage.io" eq_refl)).
Defined.

(** A system on which every command exits with status zero, and a search
    path that holds azcopy. *)
Definition sys_ok : system := fun cmd _ => Ok (mkCompleted cmd 0 None None).
Definition path_azcopy : string -> option string := fun _ => Some "/usr/bin/azcopy".

Lemma which_call_witness :
  exists cmd, path_azcopy "azcopy" = Some cmd /\ cmd <> EmptyString
    /\ sys_ok (cmd :: ["sync"]) (delete "check" (∅ : gmap string kwval))
       = Ok (mkCompleted ["/usr/bin/azcopy"; "sync"] 0 None None)
    /\ returncode (mkCompleted ["/usr/bin/azcopy"; "sync"] 0 None None) = 0%Z.
Proof.
  apply (which_call path_azcopy sys_ok "azcopy"
           (mkExecutable "/usr/bin/azcopy") ["sync"] ∅).
  - reflexivity.
  - vm_compute. reflexivity.
Defined.

End Deps.

(* ================================================================== *)
(** * Colour-coded masks *)

Module Mask.
Local Open Scope Z_scope.

Inductive mask_error : Set := AssertionError.

(** A colour, and an array of shape [(h, w, 3)]: [h] rows of [w] pixels. *)
Definition color : Set := (Z * Z * Z)%type.

Record ndarray3 : Set := mkArray {
  height : nat;
  width : nat;
  pixels : list (list color)
}.

Definition well_shaped (rgb : ndarray3) : Prop :=
  length (pixels rgb) = height rgb
  /\ Forall (fun row => length row = width rgb) (pixels rgb).

(** [rgb == c]: the comparison of every channel of every pixel with [c]. *)
Definition eq_color (rgb : list (list color)) (c : color)
  : list (list (bool * bool * bool)) :=
  fmap (M := list)
       (fmap (M := list)
             (fun p : color =>
                let '(r, g, b) := p in
                let '(cr, cg, cb) := c in (r =? cr, g =? cg, b =? cb)))
       rgb.

(** [cmask.all(axis=-1)] *)
Definition all_last (cmask : list (list (bool * bool * bool))) : list (list bool) :=
  fmap (M := list)
       (fmap (M := list) (fun t : bool * bool * bool => let '(x, y, z) := t in x && y && z))
       cmask.

(** [mask[where] = v] *)
Definition assign_where (mask : list (list Z)) (where_ : list (list bool)) (v : Z)
  : list (list Z) :=
  zip_with (zip_with (fun m (hit : bool) => if hit then v else m)) mask where_.

(** [np.zeros(shape=(h, w), dtype=np.uint8)] *)
Definition zeros (h w : nat) : list (list Z) := replicate h (replicate w 0).

(** The loop over [enumerate(colors)], from the index [i] on. *)
Fixpoint color_loop (rgb : list (list color)) (i : nat) (colors : list color)
         (mask : list (list Z)) : list (list Z) :=
  match colors with
  | [] => mask
  | c :: rest =>
      color_loop rgb (S i) rest
                 (assign_where mask (all_last (eq_color rgb c)) (Z.of_nat i))
  end.

(** [rgb_to_mask] *)
Definition rgb_to_mask (rgb : ndarray3) (colors : list color)
  : result mask_error (list (list Z)) :=
  if (256 <? length colors)%nat then Err AssertionError
  else Ok (color_loop (pixels rgb) 0 colors (zeros (height rgb) (width rgb))).

(** The entry [(y, x)] of a two-dimensional array. *)
Definition at_ {A} (a : list (list A)) (y x : nat) : option A :=
  a !! y ≫= (fun row => row !! x).

Definition color_eqb (p c : color) : bool :=
  let '(r, g, b) := p in let '(cr, cg, cb) := c in (r =? cr) && (g =? cg) && (b =? cb).

Lemma color_eqb_eq p c : color_eqb p c = true <-> p = c.
Proof.
  destruct p as [[r g] b], c as [[cr cg] cb]. unfold color_eqb.
  rewrite !andb_true_iff, !Z.eqb_eq. split; [intros [[-> ->] ->]; reflexivity|].
  intros E. injection E as -> -> ->. auto.
Qed.

Lemma at_assign_where rgb mask c v y x p m :
  at_ rgb y x = Some p -> at_ mask y x = Some m ->
  at_ (assign_where mask (all_last (eq_color rgb c)) v) y x
  = Some (if color_eqb p c then v else m).
Proof.
  unfold at_, assign_where, all_last, eq_color. intros Hp Hm.
  rewrite lookup_zip_with, !list_lookup_fmap.
  destruct (rgb !! y) as [row|]; [|discriminate].
  destruct (mask !! y) as [mrow|]; [|discriminate]. simpl in *.
  rewrite lookup_zip_with, !list_lookup_fmap, Hp, Hm. simpl.
  destruct p as [[r g] b], c as [[cr cg] cb]. reflexivity.
Qed.

Lemma at_zeros h w y x : (y < h)%nat -> (x < w)%nat -> at_ (zeros h w) y x = Some 0.
Proof.
  intros Hy Hx. unfold at_, zeros.
  rewrite (lookup_replicate_2 _ _ _ Hy). simpl. apply lookup_replicate_2. exact Hx.
Qed.

(** The index of the last colour of [colors] equal to [p], counted from
    [i], or [m] when there is none. *)
Fixpoint last_match (p : color) (i : nat) (colors : list color) (m : Z) : Z :=
  match colors with
  | [] => m
  | c :: rest => last_match p (S i) rest (if color_eqb p c then Z.of_nat i else m)
  end.

Lemma at_color_loop rgb y x p : forall colors i mask m,
  at_ rgb y x = Some p -> at_ mask y x = Some m ->
  at_ (color_loop rgb i colors mask) y x = Some (last_match p i colors m).
Proof.
  induction colors as [|c rest IH]; intros i mask m Hp Hm; [exact Hm|].
  simpl. apply IH; [exact Hp|]. apply at_assign_where; assumption.
Qed.

Lemma last_match_spec p : forall colors i m,
  (exists k, colors !! k = Some p
     /\ (forall j, (k < j)%nat -> colors !! j <> Some p)
     /\ last_match p i colors m = Z.of_nat (i + k))
  \/ ((forall k, colors !! k <> Some p) /\ last_match p i colors m = m).
Proof.
  induction colors as [|c rest IH]; intros i m.
  - right. split; [intros k; rewrite lookup_nil; discriminate | reflexivity].
  - simpl. destruct (IH (S i) (if color_eqb p c then Z.of_nat i else m))
      as [(k & Hk & Hlast & E) | (Hnone & E)].
    + left. exists (S k). split; [exact Hk|]. split.
      * intros [|j] Hj; [lia|]. simpl. apply Hlast. lia.
      * rewrite E. f_equal. lia.
    + destruct (color_eqb p c) eqn:Ec.
      * apply color_eqb_eq in Ec. subst c. left. exists O.
        split; [reflexivity|]. split.
        -- intros [|j] Hj; [lia|]. simpl. apply Hnone.
        -- rewrite E. f_equal. lia.
      * right. split; [|exact E]. intros [|k]; simpl; [|apply Hnone].
        intros H. injection H as ->.
        assert (color_eqb p p = true) by (apply color_eqb_eq; reflexivity). congruence.
Qed.

Lemma length_color_loop rgb : forall colors i mask,
  length rgb = length mask ->
  length (color_loop rgb i colors mask) = length mask.
Proof.
  induction colors as [|c rest IH]; intros i mask H; [reflexivity|].
  simpl. rewrite IH.
  - unfold assign_where, all_last, eq_color.
    rewrite length_zip_with, !length_fmap. lia.
  - unfold assign_where, all_last, eq_color.
    rewrite length_zip_with, !length_fmap. lia.
Qed.

Lemma rows_assign_where rgb c v : forall mask,
  Forall2 (fun row mrow => length row = length mrow) rgb mask ->
  Forall2 (fun row mrow => length row = length mrow) rgb
          (assign_where mask (all_last (eq_color rgb c)) v).
Proof.
  unfold assign_where, all_last, eq_color.
  induction rgb as [|row rgb IH]; intros mask H; inversion H as [|? m ? ms Hrow Hrest];
    subst; [constructor|].
  simpl. constructor; [|apply IH; exact Hrest].
  rewrite length_zip_with, !length_fmap. lia.
Qed.

Lemma rows_color_loop rgb : forall colors i mask,
  Forall2 (fun row mrow => length row = length mrow) rgb mask ->
  Forall2 (fun row mrow => length row = length mrow) rgb (color_loop rgb i colors mask).
Proof.
  induction colors as [|c rest IH]; intros i mask H; [exact H|].
  simpl. apply IH, rows_assign_where, H.
Qed.

Lemma rows_zeros w : forall rgb,
  Forall (fun row : list color => length row = w) rgb ->
  Forall2 (fun row (mrow : list Z) => length row = length mrow) rgb
          (zeros (length rgb) w).
Proof.
  induction rgb as [|row rgb IH]; intros H; [constructor|].
  inversion H; subst. simpl. constructor; [|apply IH; assumption].
  rewrite length_replicate. reflexivity.
Qed.

(** X23: For an array of [h] rows of [w] pixels and at most 256 colours,
    [rgb_to_mask] returns a mask of [h] rows of [w] entries in which every
    pixel holds the
    index of the last colour of the list equal to it, and 0 when no colour
    of the list equals it: a pixel of no listed colour cannot be told from
    one of the first colour. *)
Theorem rgb_to_mask_last_match (rgb : ndarray3) (colors : list color) :
  well_shaped rgb -> (length colors <= 256)%nat ->
  exists mask, rgb_to_mask rgb colors = Ok mask
    /\ length mask = height rgb
    /\ Forall (fun row => length row = width rgb) mask
    /\ forall y x p, at_ (pixels rgb) y x = Some p ->
         (forall k, colors !! k = Some p ->
                    (forall j, (k < j)%nat -> colors !! j <> Some p) ->
                    at_ mask y x = Some (Z.of_nat k))
         /\ ((forall k, colors !! k <> Some p) -> at_ mask y x = Some 0).
Proof.
  intros [Hh Hw] Hlen. unfold rgb_to_mask.
  replace (256 <? length colors)%nat with false by (symmetry; apply Nat.ltb_ge; lia).
  eexists. split; [reflexivity|]. split; [|split].
  - rewrite length_color_loop; unfold zeros; rewrite length_replicate; [reflexivity | exact Hh].
  - pose proof (rows_color_loop (pixels rgb) colors 0%nat _ (rows_zeros _ _ Hw)) as Hrows.
    rewrite Hh in Hrows. clear - Hrows Hw.
    induction Hrows as [|row mrow rows mrows E _ IH]; [constructor|].
    inversion Hw; subst. constructor; [congruence | apply IH; assumption].
  - intros y x p Hp.
    assert (Hz : at_ (zeros (height rgb) (width rgb)) y x = Some 0).
    { unfold at_ in Hp. destruct (pixels rgb !! y) as [row|] eqn:Ey; [|discriminate].
      simpl in Hp. apply at_zeros.
      - rewrite <- Hh. eapply lookup_lt_Some. exact Ey.
      - rewrite Forall_lookup in Hw. rewrite <- (Hw _ _ Ey).
        eapply lookup_lt_Some. exact Hp. }
    rewrite (at_color_loop _ _ _ _ colors 0%nat _ 0 Hp Hz).
    destruct (last_match_spec p colors 0%nat 0) as [(k & Hk & Hlast & E) | (Hnone & E)].
    + split.
      * intros k' Hk' Hlast'. rewrite E. do 2 f_equal.
        destruct (Nat.lt_trichotomy k k') as [Hlt | [-> | Hgt]]; [|reflexivity|].
        -- exfalso. exact (Hlast _ Hlt Hk').
        -- exfalso. exact (Hlast' _ Hgt Hk).
      * intros Hno. exfalso. exact (Hno _ Hk).
    + split.
      * intros k Hk _. exfalso. exact (Hnone _ Hk).
      * intros _. rewrite E. reflexivity.
Qed.

(** A row of a red, a blue and a grey pixel, and a palette that lists red
    twice. *)
Definition stripes : ndarray3 :=
  mkArray 1 3 [[(255, 0, 0); (0, 0, 255); (7, 7, 7)]].
Definition palette : list color := [(255, 0, 0); (0, 0, 255); (255, 0, 0)].

Lemma rgb_to_mask_last_match_witness :
  exists mask, rgb_to_mask stripes palette = Ok mask
    /\ length mask = height stripes
    /\ Forall (fun row => length row = width stripes) mask
    /\ forall y x p, at_ (pixels stripes) y x = Some p ->
         (forall k, palette !! k = Some p ->
                    (forall j, (k < j)%nat -> palette !! j <> Some p) ->
                    at_ mask y x = Some (Z.of_nat k))
         /\ ((forall k, palette !! k <> Some p) -> at_ mask y x = Some 0).
Proof.
  apply (rgb_to_mask_last_match stripes palette).
  - split; [reflexivity | repeat constructor].
  - simpl. lia.
Defined.

End Mask.

(* ================================================================== *)
(** * The Aboveground Live Woody Biomass Density dataset *)

Module AGB.
Import PyStr.
Local Open Scope string_scope.
Local Open Scope list_scope.

#[local] Set Warnings "-register-all".

(** What [json.load] returns. *)
Inductive pyval : Type :=
| JNone
| JBool (b : bool)
| JInt (z : Z)
| JFloat (f : float)
| JStr (s : string)
| JList (items : list pyval)
| JDict (entries : list (string * pyval)).      (* keys are distinct *)

#[local] Set Warnings "register-all".

Inductive exn : Set :=
| KeyError
| Py (e : pyexn).

(** [d[key]] on the entries of a dict. *)
Fixpoint dict_get (key : string) (entries : list (string * pyval)) : option pyval :=
  match entries with
  | [] => None
  | (k, v) :: rest => if String.eqb k key then Some v else dict_get key rest
  end.

(** [v[key]] for a string [key]: only a dict can be indexed by a string. *)
Definition subscript (v : pyval) (key : string) : result exn pyval :=
  match v with
  | JDict entries =>
      match dict_get key entries with
      | Some x => Ok x
      | None => Err KeyError
      end
  | _ => Err (Py TypeError)
  end.

Fixpoint chars (s : string) : list pyval :=
  match s with
  | EmptyString => []
  | String c rest => JStr (String c EmptyString) :: chars rest
  end.

(** The items a [for] loop over [v] sees: the elements of a list, the keys
    of a dict, the characters of a string. *)
Definition iterate (v : pyval) : result exn (list pyval) :=
  match v with
  | JList items => Ok items
  | JDict entries => Ok (List.map (fun kv => JStr (fst kv)) entries)
  | JStr s => Ok (chars s)
  | _ => Err (Py TypeError)
  end.

(** [v + ".tif"]: only a string can be extended by a string. *)
Definition add_suffix (v : pyval) (suffix : string) : result exn string :=
  match v with
  | JStr s => Ok (s ++ suffix)%string
  | _ => Err (Py TypeError)
  end.

(** The argument [paths]: a string or a list of strings. *)
Inductive paths_arg : Set :=
| PathStr (root : string)
| PathList (files : list string).

(** [os.path.join(paths, name)]: a list is no path. *)
Definition os_path_join (paths : paths_arg) (name : string) : result exn string :=
  match paths with
  | PathStr root => Ok (path_join root name)
  | PathList _ => Err (Py TypeError)
  end.

Definition url : string :=
  "https://opendata.arcgis.com/api/v3/datasets/3e8736c8866b458687e00d40c9f00bce_0/downloads/data?format=geojson&spatialRefId=4326".
Definition base_filename : string := "Aboveground_Live_Woody_Biomass_Density.geojson".
Definition filename_glob : string := "*N_*E.*".

(** One call of [download_url]. *)
Record download : Type := mkDownload {
  dl_url : pyval;
  dl_root : paths_arg;
  dl_filename : string
}.

Section World.

(** The file system and the network: [glob.glob], [download_url], and
    [open] followed by [json.load]. *)
Variable world : Type.
Variable glob : string -> world -> list string.
Variable download_url : pyval -> paths_arg -> string -> world -> result pyexn unit * world.
Variable load_json : string -> world -> result pyexn pyval.

(** The state: the world, and the calls of [download_url] made so far. *)
Definition state : Type := (world * list download)%type.
Definition action (A : Type) : Type := state -> result exn A * state.

Definition pureA {A} (a : A) : action A := fun st => (Ok a, st).
Definition raiseA {A} (e : exn) : action A := fun st => (Err e, st).
Definition liftA {A} (r : result exn A) : action A := fun st => (r, st).
Definition bindA {A B} (m : action A) (k : A -> action B) : action B :=
  fun st => match m st with
            | (Ok a, st') => k a st'
            | (Err e, st') => (Err e, st')
            end.

Notation "x <-- m ;;; k" := (bindA m (fun x => k))
  (at level 100, m at next level, right associativity, only parsing).

Definition call_download_url (u : pyval) (root : paths_arg) (filename : string)
  : action unit :=
  fun '(w, calls) =>
    let '(r, w') := download_url u root filename w in
    (match r with Ok a => Ok a | Err e => Err (Py e) end,
     (w', calls ++ [mkDownload u root filename])).

Definition call_load_json (path : string) : action pyval :=
  fun '(w, calls) =>
    (match load_json path w with Ok v => Ok v | Err e => Err (Py e) end, (w, calls)).

(** The body of the loop of [_download] for one item. *)
Definition download_item (paths : paths_arg) (item : pyval) : action unit :=
  properties <-- liftA (subscript item "properties") ;;;
  link <-- liftA (subscript properties "download") ;;;
  properties' <-- liftA (subscript item "properties") ;;;
  tile_id <-- liftA (subscript properties' "tile_id") ;;;
  filename <-- liftA (add_suffix tile_id ".tif") ;;;
  call_download_url link paths filename.

Fixpoint download_items (paths : paths_arg) (items : list pyval) : action unit :=
  match items with
  | [] => pureA tt
  | item :: rest => _ <-- download_item paths item ;;; download_items paths rest
  end.

(** [_download] *)
Definition _download (paths : paths_arg) : action unit :=
  _ <-- call_download_url (JStr url) paths base_filename ;;;
  path <-- liftA (os_path_join paths base_filename) ;;;
  content <-- call_load_json path ;;;
  features <-- liftA (subscript content "features") ;;;
  items <-- liftA (iterate features) ;;;
  download_items paths items.

(** [_verify] *)
Definition _verify (paths : paths_arg) (download : bool) : action unit :=
  pathname <-- liftA (os_path_join paths filename_glob) ;;;
  fun st =>
    match glob pathname (fst st) with
    | _ :: _ => pureA tt st
    | [] =>
        if negb download then raiseA (Py RuntimeError) st
        else _download paths st
    end.

(** An item of the feature list that names a download link and a tile. *)
Definition tile_of (item : pyval) (link : pyval) (tile_id : string) : Prop :=
  exists properties, subscript item "properties" = Ok properties
    /\ subscript properties "download" = Ok link
    /\ subscript properties "tile_id" = Ok (JStr tile_id).

Definition tile_download (paths : paths_arg) (t : pyval * string) : download :=
  mkDownload (fst t) paths (snd t ++ ".tif")%string.

Lemma download_item_ok paths item st st' :
  download_item paths item st = (Ok tt, st') ->
  exists link tile_id, tile_of item link tile_id
    /\ snd st' = (snd st ++ [tile_download paths (link, tile_id)]).
Proof.
  unfold download_item, bindA, liftA, tile_of. intros H.
  destruct (subscript item "properties") as [props|] eqn:Ep; [|discriminate].
  destruct (subscript props "download") as [link|] eqn:El; [|discriminate].
  destruct (subscript props "tile_id") as [tid|] eqn:Et; [|discriminate].
  destruct tid as [| | | |s| |]; simpl in H; try discriminate.
  exists link, s. split; [exists props; auto|].
  destruct st as [w calls]. unfold call_download_url in H.
  destruct (download_url link paths (s ++ ".tif")%string w) as [r w'].
  injection H as _ <-. reflexivity.
Qed.

Lemma download_items_ok paths : forall items st st',
  download_items paths items st = (Ok tt, st') ->
  exists tiles, Forall2 (fun item t => tile_of item (fst t) (snd t)) items tiles
    /\ snd st' = (snd st ++ List.map (tile_download paths) tiles).
Proof.
  induction items as [|item rest IH]; intros st st' H.
  - injection H as <-. exists []. split; [constructor|]. simpl. rewrite app_nil_r.
    reflexivity.
  - simpl in H. unfold bindA in H at 1.
    destruct (download_item paths item st) as [[[]|e] st1] eqn:E1; [|discriminate].
    destruct (download_item_ok _ _ _ _ E1) as (link & tid & Htile & Hlog1).
    destruct (IH _ _ H) as (tiles & Htiles & Hlog).
    exists ((link, tid) :: tiles). split; [constructor; assumption|].
    rewrite Hlog, Hlog1, <- app_assoc. reflexivity.
Qed.

(** X24: When [_download] returns, it has called [download_url] first for
    the index file under its fixed URL and name, and then once for every
    item of the index's feature list, in the order of the list, with the
    item's download link and the file name [<tile_id>.tif]; every item held
    both entries, and nothing else was downloaded. *)
Theorem download_calls (root : string) (st st' : state) :
  _download (PathStr root) st = (Ok tt, st') ->
  exists content features items tiles,
    load_json (path_join root base_filename)
              (snd (download_url (JStr url) (PathStr root) base_filename (fst st)))
    = Ok content
    /\ subscript content "features" = Ok features
    /\ iterate features = Ok items
    /\ Forall2 (fun item t => tile_of item (fst t) (snd t)) items tiles
    /\ snd st' = (snd st ++ mkDownload (JStr url) (PathStr root) base_filename
                          :: List.map (tile_download (PathStr root)) tiles).
Proof.
  unfold _download, bindA, liftA. destruct st as [w calls]. simpl.
  destruct (download_url (JStr url) (PathStr root) base_filename w) as [r w1].
  destruct r as [[]|e]; [|discriminate]. simpl.
  destruct (load_json (path_join root base_filename) w1) as [content|e] eqn:Ec;
    [|discriminate].
  destruct (subscript content "features") as [features|e] eqn:Ef; [|discriminate].
  destruct (iterate features) as [items|e] eqn:Ei; [|discriminate].
  intros H. destruct (download_items_ok _ _ _ _ H) as (tiles & Htiles & Hlog).
  exists content, features, items, tiles.
  split; [reflexivity|]. split; [exact Ef|]. split; [exact Ei|].
  split; [exact Htiles|].
  rewrite Hlog. simpl. rewrite <- app_assoc. reflexivity.
Qed.

(** X25: [_verify] leaves the world alone and downloads nothing unless
    [paths] is a string, no file under it matches the glob and [download]
    is set, and then it does what [_download] does.  With a list for
    [paths] it raises TypeError; without [download] it returns only when a
    file matches. *)
Theorem verify_downloads_on_request (paths : paths_arg) (download : bool)
        (st st' : state) (r : result exn unit) :
  _verify paths download st = (r, st') ->
  (st' = st
   \/ (download = true
       /\ exists root, paths = PathStr root
            /\ glob (path_join root filename_glob) (fst st) = []
            /\ _download paths st = (r, st')))
  /\ ((exists files, paths = PathList files) -> r = Err (Py TypeError) /\ st' = st)
  /\ (download = false -> r = Ok tt ->
      exists root, paths = PathStr root
        /\ glob (path_join root filename_glob) (fst st) <> []).
Proof.
  unfold _verify, bindA, liftA, raiseA, pureA. intros H.
  destruct paths as [root | files]; simpl in H.
  - destruct (glob (path_join root filename_glob) (fst st)) as [|f fs] eqn:Eg.
    + destruct download; simpl in H.
      * split; [right; split; [reflexivity|]; exists root; auto|].
        split; [intros [files Hf]; discriminate | discriminate].
      * injection H as <- <-. split; [left; reflexivity|].
        split; [intros [files Hf]; discriminate | discriminate].
    + injection H as <- <-. split; [left; reflexivity|].
      split; [intros [files Hf]; discriminate|].
      intros _ _. exists root. split; [reflexivity|]. rewrite Eg. discriminate.
  - injection H as <- <-. split; [left; reflexivity|].
    split; [intros _; split; reflexivity | discriminate].
Qed.

End World.

(** A world that holds the files downloaded so far, a network whose index
    lists one tile, and the call of [_verify] on the empty world. *)
Definition index_content : pyval :=
  JDict [("features",
          JList [JDict [("properties",
                         JDict [("tile_id", JStr "00N_000E");
                                ("download", JStr "https://example.org/00N_000E.tif")])]])].

Definition files_glob (pathname : string) (files : list string) : list string :=
  List.filter (fun f => str_in "N_" f) files.

Definition files_download (u : pyval) (root : paths_arg) (filename : string)
           (files : list string) : result pyexn unit * list string :=
  (Ok tt, filename :: files).

Definition files_load (path : string) (files : list string) : result pyexn pyval :=
  Ok index_content.

Lemma download_calls_witness :
  exists content features items tiles,
    files_load (path_join "data" base_filename)
               (snd (files_download (JStr url) (PathStr "data") base_filename []))
    = Ok content
    /\ subscript content "features" = Ok features
    /\ iterate features = Ok items
    /\ Forall2 (fun item t => tile_of item (fst t) (snd t)) items tiles
    /\ [mkDownload (JStr url) (PathStr "data") base_filename;
        mkDownload (JStr "https://example.org/00N_000E.tif") (PathStr "data") "00N_000E.tif"]
       = ([] ++ mkDownload (JStr url) (PathStr "data") base_filename
             :: List.map (tile_download (PathStr "data")) tiles).
Proof.
  apply (download_calls (list string) files_download files_load "data" ([], [])
           (["00N_000E.tif"; base_filename], _)).
  reflexivity.
Defined.

Lemma verify_downloads_on_request_witness :
  exists root, PathStr "data" = PathStr root
    /\ files_glob (path_join root filename_glob) ["data/00N_000E.tif"] <> [].
Proof.
  exact (proj2 (proj2 (verify_downloads_on_request (list string) files_glob
                         files_download files_load (PathStr "data") false
                         (["data/00N_000E.tif"], []) (["data/00N_000E.tif"], [])
                         (Ok tt) eq_refl))
               eq_refl eq_refl).
Defined.

End AGB.

(* ================================================================== *)
(** * From numpy arrays to tensors *)

Module Arrays.
Local Open Scope Z_scope.

Inductive np_dtype : Set :=
| np_bool | np_uint8 | np_int8 | np_uint16 | np_int16 | np_uint32 | np_int32
| np_uint64 | np_int64 | np_float32 | np_float64.

(** An array: its element type, its shape and its elements in row-major
    order, an integer by its value and any other element by its bits. *)
Record ndarray : Set := mkNdarray {
  dtype : np_dtype;
  shape : list nat;
  data : list Z
}.

(** The values of an integer type: [lo <= v < hi]. *)
Definition int_range (d : np_dtype) : option (Z * Z) :=
  match d with
  | np_uint8 => Some (0, 2 ^ 8)
  | np_int8 => Some (- 2 ^ 7, 2 ^ 7)
  | np_uint16 => Some (0, 2 ^ 16)
  | np_int16 => Some (- 2 ^ 15, 2 ^ 15)
  | np_uint32 => Some (0, 2 ^ 32)
  | np_int32 => Some (- 2 ^ 31, 2 ^ 31)
  | np_uint64 => Some (0, 2 ^ 64)
  | np_int64 => Some (- 2 ^ 63, 2 ^ 63)
  | _ => None
  end.

(** The conversion of an integer to the integer type [d]: the value
    modulo the size of the type, taken in the range of the type. *)
Definition cast_int (d : np_dtype) (v : Z) : Z :=
  match int_range d with
  | Some (lo, hi) => (v - lo) mod (hi - lo) + lo
  | None => v
  end.

(** [array.astype(d)] from an integer type to the integer type [d]. *)
Definition astype (d : np_dtype) (array : ndarray) : ndarray :=
  mkNdarray d (shape array) (List.map (cast_int d) (data array)).

Definition dtype_eqb (a b : np_dtype) : bool :=
  match a, b with
  | np_bool, np_bool | np_uint8, np_uint8 | np_int8, np_int8
  | np_uint16, np_uint16 | np_int16, np_int16 | np_uint32, np_uint32
  | np_int32, np_int32 | np_uint64, np_uint64 | np_int64, np_int64
  | np_float32, np_float32 | np_float64, np_float64 => true
  | _, _ => false
  end.

Section Torch.

Context {Tensor : Type}.

(** [torch.tensor] on an array. *)
Variable torch_tensor : ndarray -> result pyexn Tensor.

(** [array_to_tensor] *)
Definition array_to_tensor (array : ndarray) : result pyexn Tensor :=
  let array :=
    if dtype_eqb (dtype array) np_uint16 then astype np_int32 array
    else if dtype_eqb (dtype array) np_uint32 then astype np_int64 array
    else array in
  torch_tensor array.

(** Every element of an integer array is a value of its type. *)
Definition in_range (array : ndarray) : Prop :=
  match int_range (dtype array) with
  | Some (lo, hi) => Forall (fun v => lo <= v < hi) (data array)
  | None => True
  end.

Lemma cast_int_id d lo hi v :
  int_range d = Some (lo, hi) -> lo <= v < hi -> cast_int d v = v.
Proof.
  intros E H. unfold cast_int. rewrite E. rewrite Z.mod_small by lia. lia.
Qed.

Lemma map_cast_id d lo hi l :
  int_range d = Some (lo, hi) -> Forall (fun v => lo <= v < hi) l ->
  List.map (cast_int d) l = l.
Proof.
  intros E H. induction H as [|v l Hv _ IH]; [reflexivity|].
  simpl. rewrite (cast_int_id _ _ _ _ E Hv), IH. reflexivity.
Qed.

(** X26: [array_to_tensor] hands [torch.tensor] an array of the same shape
    and the same element values as its argument: a uint16 array becomes an
    int32 array and a uint32 array an int64 array without any value
    changing, and an array of another type is passed on as it is. *)
Theorem array_to_tensor_values (array : ndarray) :
  in_range array ->
  exists array', array_to_tensor array = torch_tensor array'
    /\ shape array' = shape array
    /\ data array' = data array
    /\ dtype array' = match dtype array with
                      | np_uint16 => np_int32
                      | np_uint32 => np_int64
                      | d => d
                      end
    /\ in_range array'.
Proof.
  intros H. unfold array_to_tensor. destruct array as [d sh l].
  unfold in_range in H. simpl in *.
  assert (Hwide : forall lo hi lo' hi' : Z, lo' <= lo -> hi <= hi' ->
            Forall (fun v => lo <= v < hi) l -> Forall (fun v => lo' <= v < hi') l).
  { intros lo hi lo' hi' Hlo Hhi HF. eapply Forall_impl; [exact HF|].
    intros v Hv. simpl in Hv. lia. }
  destruct d; simpl in *;
    try (eexists; split; [reflexivity|]; repeat split; exact H).
  - exists (mkNdarray np_int32 sh l). unfold astype. simpl.
    rewrite (map_cast_id np_int32 (- 2 ^ 31) (2 ^ 31)); [|reflexivity|].
    + repeat split. unfold in_range. simpl. revert H. apply Hwide; lia.
    + revert H. apply Hwide; lia.
  - exists (mkNdarray np_int64 sh l). unfold astype. simpl.
    rewrite (map_cast_id np_int64 (- 2 ^ 63) (2 ^ 63)); [|reflexivity|].
    + repeat split. unfold in_range. simpl. revert H. apply Hwide; lia.
    + revert H. apply Hwide; lia.
Qed.

End Torch.

Lemma array_to_tensor_values_witness :
  exists array', array_to_tensor (fun a => Ok a) (mkNdarray np_uint16 [2%nat] [0; 65535])
                 = Ok array'
    /\ shape array' = [2%nat]
    /\ data array' = [0; 65535]
    /\ dtype array' = np_int32
    /\ in_range array'.
Proof.
  apply (array_to_tensor_values (fun a => Ok a) (mkNdarray np_uint16 [2%nat] [0; 65535])).
  unfold in_range. simpl. repeat constructor; lia.
Defined.

End Arrays.
